(** * ScaleHLS: design-space exploration, annotation pass and HLS C++ emitter

    A shallow embedding of the parts of the ScaleHLS sources that the
    specification's testable properties talk about:

    - [DSE]: the band-state predicates of [HLSCppOptimizer]
      (Transforms/MultipleLevelDSE.h) and the tiling contract;
    - [Emitter]: the value-name table, the value/array/loop emitters and the
      block dispatcher of the HLS C++ emitter (Translation/EmitHLSCpp.cpp);
    - [Annotator]: the ConvertToHLSCpp pass (Conversion/ConvertToHLSCpp.cpp).
*)

From Stdlib Require Import ZArith List Lia Ascii SpecFloat.
From stdpp Require Import gmap strings pretty list fin_maps.

Set Warnings "-register-all".

(** The width of C++ [unsigned] on the targets ScaleHLS builds for. *)
Definition UINT_WIDTH : Z := 32.
Definition UINT_MODULUS : Z := 2 ^ UINT_WIDTH.

(** Wrap-around of [unsigned] arithmetic. *)
Definition wrapU (z : Z) : Z := z mod UINT_MODULUS.

(* ===================================================================== *)
(** * Design-space exploration: band states and tiling                    *)
(* ===================================================================== *)

Module DSE.

(** [enum LoopState { HOT = 0, COLD = 1, FROZEN = 2 }] *)
Inductive LoopState := HOT | COLD | FROZEN.

Global Instance LoopState_eq_dec : EqDecision LoopState.
Proof. solve_decision. Defined.

(** [using BandState = SmallVector<LoopState, 8>]: a finite sequence whose
    length is held in a 32-bit size field. *)
Abbreviation BandState := (list LoopState).

Definition fitsSmallVector (bandState : BandState) : Prop :=
  (Z.of_nat (length bandState) < UINT_MODULUS)%Z.

(** [for (auto loopState : bandState) if (loopState != FROZEN) return false;
     return true;] *)
Fixpoint loopBandIsFrozen (bandState : BandState) : bool :=
  match bandState with
  | [] => true
  | loopState :: rest =>
      if decide (loopState ≠ FROZEN) then false else loopBandIsFrozen rest
  end.

(** [for (auto loopState : bandState) if (loopState == HOT) return false;
     return true;] *)
Fixpoint loopBandIsColdOrFrozen (bandState : BandState) : bool :=
  match bandState with
  | [] => true
  | loopState :: rest =>
      if decide (loopState = HOT) then false else loopBandIsColdOrFrozen rest
  end.

(** The counting loop of [loopBandIsOneHot]: [unsigned hotNum = 0; for (...)
    if (loopState == HOT) hotNum++;], with the increment wrapping as
    [unsigned] does. *)
Definition countHot (hotNum : Z) (bandState : BandState) : Z :=
  fold_left
    (fun hotNum loopState =>
       if decide (loopState = HOT) then wrapU (hotNum + 1) else hotNum)
    bandState hotNum.

Definition loopBandIsOneHot (bandState : BandState) : bool :=
  let hotNum := countHot 0 bandState in
  if decide (hotNum = 1%Z) then true else false.

(** Number of [HOT] positions, as a natural number (specification side). *)
Definition hotPositions (bandState : BandState) : nat :=
  count_occ LoopState_eq_dec bandState HOT.

(** ** Tiling *)

(** Modelled from the spec: the bodies of [applyLoopTilingStrategy] and of the
    tiling it drives are missing from the sources (MultipleLevelDSE.h only
    declares [applyLoopTilingStrategy]).  Following section 4.2, a loop is
    known by its trip count, which is [None] when the bound is not statically
    known; iteration indices are normalised to [0 .. N-1]. *)
Record Loop := { tripCount : option nat }.

(** Modelled from the spec: the result of [tile]: an outer loop and, for each
    outer iteration, an inner loop that covers one tile. *)
Record TiledLoop := {
  tileFactor : nat;
  totalTripCount : nat;
  outerTripCount : nat;
}.

Definition ceilDiv (n f : nat) : nat := (n + f - 1) / f.

(** Modelled from the spec: the inner loop of outer iteration [o] runs over
    the tile [o*F .. min((o+1)*F, N) - 1]. *)
Definition innerTripCount (t : TiledLoop) (o : nat) : nat :=
  Nat.min (tileFactor t) (totalTripCount t - o * tileFactor t).

(** Modelled from the spec: [tile(loop, factor)] "fails if factor <= 0 or the
    loop bound is not statically known", and otherwise "splits a loop with
    trip count N into an outer loop (trip count ceil(N/factor)) and inner
    loop (trip count <= factor)". *)
Definition tile (loop : Loop) (factor : Z) : option TiledLoop :=
  match tripCount loop with
  | None => None
  | Some N =>
      if decide (factor ≤ 0)%Z then None
      else Some {| tileFactor := Z.to_nat factor;
                   totalTripCount := N;
                   outerTripCount := ceilDiv N (Z.to_nat factor) |}
  end.

(** The iteration indices of the untiled loop, in execution order. *)
Definition iterations (N : nat) : list nat := seq 0 N.

(** The iteration indices visited by the tiled nest, in execution order:
    outer iterations in order, each running its inner loop in order. *)
Definition tiledIterations (t : TiledLoop) : list nat :=
  flat_map
    (fun o => map (fun i => o * tileFactor t + i) (seq 0 (innerTripCount t o)))
    (seq 0 (outerTripCount t)).

End DSE.

(* ===================================================================== *)
(** * The HLS C++ emitter                                                 *)
(* ===================================================================== *)

Module Emitter.

Local Open Scope string_scope.

(** ** IR data read by the emitter *)

(** The attributes the emitter inspects.  A float attribute is held as an
    IEEE-754 value ([getValueAsDouble], [convertToFloat], [convertToDouble]). *)
Inductive Attribute :=
  | FloatAttr (value : spec_float)
  | IntegerAttr (value : Z)
  | BoolAttr (value : bool)
  | DenseElementsAttr (elements : list Attribute)
  | OtherAttr.

Inductive Signedness := Signless | Signed | Unsigned.

Inductive ShapedKind := MemRef | Tensor | Vector.

(** Types.  A shaped type has an element type, a shape ([None] when unranked,
    a dimension of [-1] when dynamic) and, for memrefs, a memory space. *)
Inductive Ty :=
  | Float32Type
  | Float64Type
  | IndexType
  | IntegerType (width : Z) (signedness : Signedness)
  | ShapedType (kind : ShapedKind) (elementType : Ty)
               (shape : option (list Z)) (memorySpace : Z)
  | OtherType.

Definition isShaped (t : Ty) : bool :=
  match t with ShapedType _ _ _ _ => true | _ => false end.

Definition hasRank (t : Ty) : bool :=
  match t with ShapedType _ _ (Some _) _ => true | _ => false end.

(** [ShapedType::hasStaticShape]: ranked and no dynamic dimension. *)
Definition hasStaticShape (t : Ty) : bool :=
  match t with
  | ShapedType _ _ (Some dims) _ => forallb (fun d => negb (d =? -1)%Z) dims
  | _ => false
  end.

Definition getShape (t : Ty) : list Z :=
  match t with ShapedType _ _ (Some dims) _ => dims | _ => [] end.

Definition isMemRefType (t : Ty) : bool :=
  match t with ShapedType MemRef _ (Some _) _ => true | _ => false end.

(** Where a value comes from: [getDefiningOp] is null for a block argument;
    for the result of a [ConstantOp] the constant's attribute is at hand. *)
Inductive ValueDef :=
  | BlockArgument
  | ConstantResult (value : Attribute)
  | OpResult.

(** An SSA value; [valueId] is its identity (the key of the name table). *)
Record Value := {
  valueId : N;
  valueType : Ty;
  valueDef : ValueDef;
}.

Inductive Location := FileLineColLoc (line : Z) | UnknownLoc.

Record OpInfo := {
  opLoc : Location;
  opAttrs : gmap string Attribute;
}.

(** [op->getAttrOfType<IntegerAttr>(name)] *)
Definition getIntegerAttr (info : OpInfo) (name : string) : option Z :=
  match opAttrs info !! name with
  | Some (IntegerAttr z) => Some z
  | _ => None
  end.

(** Affine expressions, maps as lists of results over [numDims] dimensions. *)
Inductive AffineExprKind := Add | Mul | Mod | FloorDiv | CeilDiv.

Inductive AffineExpr :=
  | AffineBinaryOpExpr (kind : AffineExprKind) (lhs rhs : AffineExpr)
  | AffineConstantExpr (value : Z)
  | AffineDimExpr (position : nat)
  | AffineSymbolExpr (position : nat).

Record AffineMap := {
  numDims : nat;
  mapResults : list AffineExpr;
}.

(** The operation classes of the two visitor catalogues that carry no payload
    of their own in this model, and operations outside both catalogues. *)
Inductive OpName :=
  (* SCF statements *)
  | scf_IfOp | scf_ParallelOp | scf_ReduceOp | scf_ReduceReturnOp | scf_YieldOp
  (* Affine statements *)
  | AffineIfOp | AffineParallelOp | AffineApplyOp | AffineMaxOp | AffineMinOp
  | AffineLoadOp | AffineStoreOp | AffineYieldOp | AffineVectorLoadOp
  | AffineVectorStoreOp | AffineDmaStartOp | AffineDmaWaitOp
  (* Memref-related statements *)
  | LoadOp | StoreOp | DeallocOp | DmaStartOp | DmaWaitOp | AtomicRMWOp
  | GenericAtomicRMWOp | AtomicYieldOp | MemRefCastOp | ViewOp | SubViewOp
  (* Tensor-related statements *)
  | TensorLoadOp | TensorStoreOp | SplatOp | DimOp | RankOp
  (* Unary expressions *)
  | AbsFOp | CeilFOp | NegFOp | CosOp | SinOp | TanhOp | SqrtOp | RsqrtOp
  | ExpOp | Exp2Op | LogOp | Log2Op | Log10Op
  (* Float binary expressions *)
  | CmpFOp | AddFOp | SubFOp | MulFOp | DivFOp | RemFOp
  (* Integer binary expressions *)
  | CmpIOp | AddIOp | SubIOp | MulIOp | SignedDivIOp | SignedRemIOp
  | UnsignedDivIOp | UnsignedRemIOp | XOrOp | AndOp | OrOp | ShiftLeftOp
  | SignedShiftRightOp | UnsignedShiftRightOp
  (* Special operations *)
  | SelectOp | CopySignOp | TruncateIOp | ZeroExtendIOp | SignExtendIOp
  | IndexCastOp | CallOp | ReturnOp | UIToFPOp | SIToFPOp | FPToSIOp | FPToUIOp
  (* Structure operations *)
  | AssignOp | EndOp
  (* HLSKernel: CNN operations *)
  | DenseOp | ConvOp | MaxPoolOp | ReluOp | MergeOp | CopyOp
  (* HLSKernel: BLAS operations *)
  | AmaxOp | AminOp | AsumOp | AxpyOp | DotOp | GbmvOp | GemmOp | GemvOp
  | Nrm2Op | ScalOp | SwapOp | SymmOp | SymvOp | SyrkOp | Syr2kOp | TrmmOp
  | TrmvOp
  (* HLSKernel operations that the HLSKernel visitor does not list *)
  | FFTOp | PSqrtOp | IPOp
  (* any operation of another dialect, or an unregistered one *)
  | ForeignOp (name : string).

(** Operations.  The operations whose emitters are embedded below carry their
    accessors as fields; a loop owns its body block. *)
Inductive Operation :=
  | ScfForOp (info : OpInfo) (inductionVar lowerBound upperBound step : Value)
             (body : list Operation)
  | AffineForOp (info : OpInfo) (inductionVar : Value)
                (lowerBoundMap : AffineMap) (lowerBoundOperands : list Value)
                (upperBoundMap : AffineMap) (upperBoundOperands : list Value)
                (step : Z) (body : list Operation)
  | AllocOp (info : OpInfo) (result : Value)
  | AllocaOp (info : OpInfo) (result : Value)
  | TensorToMemrefOp (info : OpInfo) (operand result : Value)
  | ConstantOp (info : OpInfo) (value : Attribute) (result : Value)
  | OtherOp (name : OpName) (info : OpInfo) (operands results : list Value)
            (regions : list (list Operation)).

Definition getInfo (op : Operation) : OpInfo :=
  match op with
  | ScfForOp info _ _ _ _ _ | AffineForOp info _ _ _ _ _ _ _
  | AllocOp info _ | AllocaOp info _ | TensorToMemrefOp info _ _
  | ConstantOp info _ _ | OtherOp _ info _ _ _ => info
  end.

(** ** Emitter state *)

(** A diagnostic is attached to an operation: one met while walking a block,
    or the operation that defines a value. *)
Inductive DiagnosticSite :=
  | AtOperation (op : Operation)
  | AtDefiningOpOf (val : Value).

Record Diagnostic := {
  diagSite : DiagnosticSite;
  diagMessage : string;
}.

(** [HLSCppEmitterState], with the stream's contents as [os] and the
    diagnostics reported so far. *)
Record HLSCppEmitterState := {
  os : string;
  encounteredError : bool;
  currentIndent : Z;
  nameTable : gmap N string;
  diagnostics : list Diagnostic;
}.

Definition initialState : HLSCppEmitterState :=
  {| os := ""; encounteredError := false; currentIndent := 0;
     nameTable := ∅; diagnostics := [] |}.

(** Ways in which emission ends the process instead of returning. *)
Inductive StopReason :=
  | AbortCalled          (* a call of [abort()] *)
  | AssertionFailed      (* a failed [assert], [cast<>] or index check *)
  | NullOperation.       (* a member call on a null [Operation *] *)

Inductive Result (A : Type) :=
  | Done (a : A) (st : HLSCppEmitterState)
  | Stopped (why : StopReason) (st : HLSCppEmitterState).
Arguments Done {A} a st.
Arguments Stopped {A} why st.

Definition Emit (A : Type) : Type := HLSCppEmitterState → Result A.

Global Instance Emit_ret : MRet Emit := fun A a st => Done a st.

Global Instance Emit_bind : MBind Emit := fun A B k m st =>
  match m st with
  | Done a st' => k a st'
  | Stopped why st' => Stopped why st'
  end.

Definition stop {A} (why : StopReason) : Emit A := fun st => Stopped why st.

Definition getState : Emit HLSCppEmitterState := fun st => Done st st.

(** [assert(cond)] *)
Definition assert (cond : bool) : Emit unit :=
  if cond then mret tt else stop AssertionFailed.

(** [os << text] *)
Definition write (text : string) : Emit unit :=
  fun st => Done tt {| os := os st +:+ text;
                       encounteredError := encounteredError st;
                       currentIndent := currentIndent st;
                       nameTable := nameTable st;
                       diagnostics := diagnostics st |}.

Definition report (site : DiagnosticSite) (message : string) : Emit unit :=
  fun st => Done tt {| os := os st;
                       encounteredError := encounteredError st;
                       currentIndent := currentIndent st;
                       nameTable := nameTable st;
                       diagnostics :=
                         diagnostics st ++
                         [{| diagSite := site; diagMessage := message |}] |}.

Definition setEncounteredError : Emit unit :=
  fun st => Done tt {| os := os st;
                       encounteredError := true;
                       currentIndent := currentIndent st;
                       nameTable := nameTable st;
                       diagnostics := diagnostics st |}.

Definition setIndent (n : Z) : Emit unit :=
  fun st => Done tt {| os := os st;
                       encounteredError := encounteredError st;
                       currentIndent := n;
                       nameTable := nameTable st;
                       diagnostics := diagnostics st |}.

(** [state.nameTable[val] = name] *)
Definition setName (val : Value) (name : string) : Emit unit :=
  fun st => Done tt {| os := os st;
                       encounteredError := encounteredError st;
                       currentIndent := currentIndent st;
                       nameTable := <[valueId val := name]> (nameTable st);
                       diagnostics := diagnostics st |}.

(** Running [f] once for each element, in order. *)
Definition forEach {A} (f : A → Emit unit) : list A → Emit unit :=
  fix go (l : list A) : Emit unit :=
    match l with
    | [] => mret tt
    | a :: rest => f a ;; go rest
    end.

(** [if (cond) body] *)
Definition when (cond : bool) (body : Emit unit) : Emit unit :=
  if cond then body else mret tt.

Definition tab : string := String "009"%char "".
Definition newline : string := String "010"%char "".

(** [HLSCppEmitterBase::emitError(op, message)]: the flag is raised, then the
    diagnostic is attached to [op]. *)
Definition emitError (op : Operation) (message : string) : Emit unit :=
  setEncounteredError ;; report (AtOperation op) message.

(** [emitError(val.getDefiningOp(), message)]: the flag is raised first; a
    block argument has no defining operation to attach the diagnostic to. *)
Definition emitErrorAtDefiningOp (val : Value) (message : string) : Emit unit :=
  setEncounteredError ;;
  match valueDef val with
  | BlockArgument => stop NullOperation
  | _ => report (AtDefiningOpOf val) message
  end.

Fixpoint spaces (n : nat) : string :=
  match n with O => "" | S n' => String " "%char (spaces n') end.

(** [indent()]: [os.indent(state.currentIndent)] *)
Definition indent : Emit unit :=
  st ← getState; write (spaces (Z.to_nat (currentIndent st))).

(** [state.currentIndent += 2] and [-= 2], on an [unsigned]. *)
Definition addIndent : Emit unit :=
  st ← getState; setIndent (wrapU (currentIndent st + 2)).
Definition reduceIndent : Emit unit :=
  st ← getState; setIndent (wrapU (currentIndent st - 2)).

(** ** Value names *)

(** What the emitter calls but the sources at hand do not define.

    - [to_string_double] is [std::to_string(double)] and [ostream_double] is
      [raw_ostream << double], from the C++ and LLVM libraries; the emitter
      only forwards finite values to them.
    - [getIntAttrValue(op, name)], [getLayoutMap(type)] and
      [getPartitionFactors(type, &factors)] are declared in
      scalehls/Analysis/Utils.h, which is not part of the sources at hand.
    - [emitOther] stands for the emitters of the operations that carry no
      payload in this model ([emitScfIf], [emitAffineLoad], [emitBinary], the
      hardware-IP templates and the like), and [cmpFPredicateSupported] tells
      whether the predicate of a [CmpFOp] is one of those that
      [ExprVisitor::visitOp(CmpFOp)] translates.
    - [boolAttrAsInteger] is what [dyn_cast<IntegerAttr>] followed by
      [getInt()] gives on a [BoolAttr]: nothing where MLIR has [BoolAttr] as
      an attribute class of its own, the integer read from it where a
      [BoolAttr] is an [IntegerAttr] of type [i1].  MLIR is not part of the
      sources at hand. *)
Class Externals := {
  to_string_double : spec_float → string;
  ostream_double : spec_float → string;
  boolAttrAsInteger : bool → option Z;
  getIntAttrValue : OpInfo → string → Z;
  getLayoutMap : Ty → option AffineMap;
  getPartitionFactors : Ty → list Z;
  emitOther : Operation → Emit unit;
  cmpFPredicateSupported : OpInfo → bool;
}.

Section Emission.

Context `{Externals}.

(** [std::isfinite] *)
Definition isfinite (value : spec_float) : bool :=
  match value with
  | S754_zero _ | S754_finite _ _ _ => true
  | S754_infinity _ | S754_nan => false
  end.

(** [value > 0] on floating-point numbers: false when [value] is a NaN. *)
Definition isPositive (value : spec_float) : bool :=
  SFltb (S754_zero false) value.

(** The text chosen for a float: the code of [getName] and of the dense
    initialisers is the same up to the printer of finite values. *)
Definition floatText (printFinite : spec_float → string) (value : spec_float)
  : string :=
  if isfinite value then printFinite value
  else if isPositive value then "INFINITY"
  else "-INFINITY".

(** [HLSCppEmitterBase::getName].  The attribute of the constant is tested
    for [FloatAttr], then for [IntegerAttr], then for [BoolAttr]: a boolean
    attribute that is also an [IntegerAttr] is rendered by the second
    branch. *)
Definition getName (st : HLSCppEmitterState) (val : Value) : string :=
  match valueDef val with
  | ConstantResult (FloatAttr value) => floatText to_string_double value
  | ConstantResult (IntegerAttr value) => pretty value
  | ConstantResult (BoolAttr value) =>
      match boolAttrAsInteger value with
      | Some asInteger => pretty asInteger
      | None => pretty (Z.b2z value)
      end
  | _ => default "" (nameTable st !! valueId val)
  end.

Definition isEmpty (s : string) : bool :=
  match s with EmptyString => true | String _ _ => false end.

(** [HLSCppEmitterBase::isDeclared] *)
Definition isDeclared (st : HLSCppEmitterState) (val : Value) : bool :=
  if isEmpty (getName st val) then false else true.

(** [HLSCppEmitterBase::addName] *)
Definition addName (val : Value) (isPtr : bool) : Emit string :=
  st ← getState;
  assert (negb (isDeclared st val)) ;;
  let valName := (if isPtr then "*" else "") +:+
                 ("val" +:+ pretty (size (nameTable st))) in
  setName val valName ;;
  mret valName.

(** [HLSCppEmitterBase::addAlias] *)
Definition addAlias (val alias : Value) : Emit string :=
  st ← getState;
  assert (negb (isDeclared st alias)) ;;
  assert (isDeclared st val) ;;
  let valName := getName st val in
  setName alias valName ;;
  mret valName.

(** ** Affine expressions *)

Section AffineExprEmitter.

Variable numDim : nat.
Variable operands : list Value.

(** [os << getName(operands[i])] *)
Definition writeOperandName (i : nat) : Emit unit :=
  match operands !! i with
  | Some val => st ← getState; write (getName st val)
  | None => stop AssertionFailed
  end.

Definition startsWith (syntax : string) (c : ascii) : bool :=
  match syntax with
  | String c' _ => if decide (c' = c) then true else false
  | EmptyString => false
  end.

(** [AffineExprEmitter::emitAffineBinary], with [visit] the recursive entry. *)
Definition emitAffineBinary (visit : AffineExpr → Emit unit)
    (lhs rhs : AffineExpr) (syntax : string) : Emit unit :=
  write "(" ;;
  match rhs with
  | AffineConstantExpr constRHS =>
      if startsWith syntax "*" && (constRHS =? -1)%Z then
        write "-" ;; visit lhs ;; write ")"
      else if startsWith syntax "+" && (constRHS <? 0)%Z then
        visit lhs ;; write " - " ;; write (pretty (- constRHS)%Z) ;; write ")"
      else
        visit lhs ;; write (" " +:+ syntax +:+ " ") ;; visit rhs ;; write ")"
  | AffineBinaryOpExpr Mul binaryLHS (AffineConstantExpr constRHS) =>
      if startsWith syntax "+" && (constRHS =? -1)%Z then
        visit lhs ;; write " - " ;; visit binaryLHS ;; write ")"
      else
        visit lhs ;; write (" " +:+ syntax +:+ " ") ;; visit rhs ;; write ")"
  | _ =>
      visit lhs ;; write (" " +:+ syntax +:+ " ") ;; visit rhs ;; write ")"
  end.

(** [AffineExprVisitor::visit] with the callbacks of [AffineExprEmitter]. *)
Fixpoint emitAffineExpr (expr : AffineExpr) : Emit unit :=
  match expr with
  | AffineBinaryOpExpr Add lhs rhs => emitAffineBinary emitAffineExpr lhs rhs "+"
  | AffineBinaryOpExpr Mul lhs rhs => emitAffineBinary emitAffineExpr lhs rhs "*"
  | AffineBinaryOpExpr Mod lhs rhs => emitAffineBinary emitAffineExpr lhs rhs "%"
  | AffineBinaryOpExpr FloorDiv lhs rhs =>
      emitAffineBinary emitAffineExpr lhs rhs "/"
  | AffineBinaryOpExpr CeilDiv lhs rhs =>
      write "(" ;; emitAffineExpr lhs ;; write " + " ;; emitAffineExpr rhs ;;
      write " - 1) / " ;; emitAffineExpr rhs ;; write ")"
  | AffineConstantExpr value => write (pretty value)
  | AffineDimExpr position => writeOperandName position
  | AffineSymbolExpr position => writeOperandName (numDim + position)
  end.

End AffineExprEmitter.

(** ** C++ component emitters *)

(** [for (unsigned i = 0; i < rank; ++i) os << "[idx" << i << "]";] *)
Definition writeIndices (rank : nat) : Emit unit :=
  forEach (fun i : nat => write ("[idx" +:+ pretty i +:+ "]")) (seq 0 rank).

(** The part of [emitValue] that writes the C++ type of a value of type or
    element type [valType]: "Handle float types", "Handle integer types". *)
Definition emitType (val : Value) (valType : Ty) : Emit unit :=
  match valType with
  | Float32Type => write "float "
  | Float64Type => write "double "
  | IndexType => write "int "
  | IntegerType width signedness =>
      if (width =? 1)%Z then write "bool "
      else
        write "ap_" ;;
        when (match signedness with Unsigned => true | _ => false end)
             (write "u") ;;
        write ("int<" +:+ pretty width +:+ "> ")
  | _ => emitErrorAtDefiningOp val "has unsupported type."
  end.

(** [ModuleEmitter::emitValue] *)
Definition emitValue (val : Value) (rank : nat) (isPtr : bool) : Emit unit :=
  assert (negb (negb (rank =? 0)%nat && isPtr)) ;;
  st ← getState;
  if isDeclared st val then
    (* Value has been declared before or is a constant number. *)
    write (getName st val) ;; writeIndices rank
  else
    (* Handle memref, tensor, and vector types. *)
    let valType := match valueType val with
                   | ShapedType _ elementType _ _ => elementType
                   | t => t
                   end in
    emitType val valType ;;
    (* Add the new value to nameTable and emit its name. *)
    name ← addName val isPtr;
    write name ;; writeIndices rank.

(** [ModuleEmitter::emitArrayDecl] *)
Definition emitArrayDecl (array : Value) : Emit unit :=
  st ← getState;
  assert (negb (isDeclared st array)) ;;
  assert (isShaped (valueType array)) ;;
  if hasStaticShape (valueType array) then
    emitValue array 0 false ;;
    forEach (fun shape : Z => write ("[" +:+ pretty shape +:+ "]"))
            (getShape (valueType array))
  else
    emitValue array 0 true.

(** [ModuleEmitter::emitNestedLoopHead] *)
Definition emitNestedLoopHead (val : Value) : Emit nat :=
  if isShaped (valueType val) then
    if negb (hasStaticShape (valueType val)) then
      emitErrorAtDefiningOp val "is unranked or has dynamic shape." ;;
      mret 0
    else
      (* Declare a new array. *)
      st ← getState;
      when (negb (isDeclared st val))
           (indent ;; emitArrayDecl val ;; write (";" +:+ newline)) ;;
      (* Create nested loop. *)
      forEach (fun '(dimIdx, shape) =>
                 indent ;;
                 write ("for (int idx" +:+ pretty dimIdx +:+ " = 0; ") ;;
                 write ("idx" +:+ pretty dimIdx +:+ " < " +:+
                        pretty shape +:+ "; ") ;;
                 write ("++idx" +:+ pretty dimIdx +:+ ") {" +:+ newline) ;;
                 addIndent)
              (zip (seq 0 (length (getShape (valueType val))))
                   (getShape (valueType val)) : list (nat * Z)) ;;
      mret (length (getShape (valueType val)))
  else mret 0.

(** [ModuleEmitter::emitNestedLoopTail] *)
Definition emitNestedLoopTail (rank : nat) : Emit unit :=
  forEach (fun _ : nat => reduceIndent ;; indent ;; write ("}" +:+ newline))
          (seq 0 rank).

(** [ModuleEmitter::emitInfoAndNewLine] *)
Definition emitInfoAndNewLine (info : OpInfo) : Emit unit :=
  write (tab +:+ "//") ;;
  (* Print line number. *)
  match opLoc info with
  | FileLineColLoc line => write (" L" +:+ pretty line)
  | UnknownLoc => mret tt
  end ;;
  (* Print schedule information. *)
  match getIntegerAttr info "schedule_begin" with
  | Some begin => write (", S[" +:+ pretty begin)
  | None => mret tt
  end ;;
  match getIntegerAttr info "schedule_end" with
  | Some end_ => write ("," +:+ pretty end_ +:+ ")")
  | None => mret tt
  end ;;
  (* Print loop information. *)
  match getIntegerAttr info "iter_latency" with
  | Some latency => write (", latency=" +:+ pretty latency)
  | None => mret tt
  end ;;
  match getIntegerAttr info "ii" with
  | Some II => write (", II=" +:+ pretty II)
  | None => mret tt
  end ;;
  write newline.

(** [enum class MemoryKind] of Dialect/HLSCpp/HLSCpp.h, as the integers a
    memory space is cast to. *)
Definition BRAM_1P : Z := 0.
Definition BRAM_S2P : Z := 1.
Definition BRAM_T2P : Z := 2.
Definition DRAM : Z := 3.
Definition MemoryKind_None : Z := 4.

Definition getMemorySpace (t : Ty) : Z :=
  match t with ShapedType _ _ _ memorySpace => memorySpace | _ => 0 end.

Definition isFloorDiv (expr : AffineExpr) : bool :=
  match expr with AffineBinaryOpExpr FloorDiv _ _ => true | _ => false end.

(** [ModuleEmitter::emitArrayPragmas]; the result of the helper steps is the
    running value of [emitPragmaFlag]. *)
Definition emitArrayPragmas (memref : Value) : Emit unit :=
  let type := valueType memref in
  assert (isMemRefType type) ;;
  (* Emit resource pragma. *)
  let kind := getMemorySpace type in
  flag1 ← (if negb (kind =? DRAM)%Z && negb (kind =? MemoryKind_None)%Z then
             indent ;;
             write "#pragma HLS resource" ;;
             write " variable=" ;;
             emitValue memref 0 false ;;
             write " core=" ;;
             (if (kind =? BRAM_1P)%Z then write "ram_1p_bram"
              else if (kind =? BRAM_S2P)%Z then write "ram_s2p_bram"
              else if (kind =? BRAM_T2P)%Z then write "ram_t2p_bram"
              else write "ram_s2p_bram") ;;
             write newline ;;
             mret true
           else mret false);
  flag2 ← match getLayoutMap type with
          | Some layoutMap =>
              (* Emit array_partition pragma(s). *)
              let factors := getPartitionFactors type in
              (fix dims (l : list nat) (flag : bool) : Emit bool :=
                 match l with
                 | [] => mret flag
                 | dim :: rest =>
                     match factors !! dim with
                     | None => stop AssertionFailed
                     | Some factor =>
                         if negb (factor =? 1)%Z then
                           indent ;;
                           write "#pragma HLS array_partition" ;;
                           write " variable=" ;;
                           emitValue memref 0 false ;;
                           (* Emit partition type. *)
                           match mapResults layoutMap !! dim with
                           | None => stop AssertionFailed
                           | Some expr =>
                               if isFloorDiv expr then write " block"
                               else write " cyclic"
                           end ;;
                           write (" factor=" +:+ pretty factor) ;;
                           write (" dim=" +:+ pretty (Z.of_nat dim + 1)%Z +:+
                                  newline) ;;
                           dims rest true
                         else dims rest flag
                     end
                 end) (seq 0 (length (getShape type))) flag1
          | None => mret flag1
          end;
  (* Emit an empty line. *)
  when flag2 (write newline).

(** ** Statement emitters *)

(** The pipeline directive shared by [emitScfFor] and [emitAffineFor]:
    [if (getIntAttrValue(op, "pipeline")) { indent(); auto targetII =
     getIntAttrValue(op, "target_ii");
     os << "#pragma HLS pipeline II=" << targetII << "\n"; }] *)
Definition emitPipelinePragma (info : OpInfo) : Emit unit :=
  when (negb (getIntAttrValue info "pipeline" =? 0)%Z)
       (indent ;;
        let targetII := getIntAttrValue info "target_ii" in
        write ("#pragma HLS pipeline II=" +:+ pretty targetII +:+ newline)).

(** [ModuleEmitter::emitScfFor], up to and including the line of the opening
    brace. *)
Definition emitScfForHead (info : OpInfo)
    (iterVar lowerBound upperBound step : Value) : Emit unit :=
  indent ;;
  write "for (" ;;
  (* Emit lower bound. *)
  emitValue iterVar 0 false ;;
  write " = " ;;
  emitValue lowerBound 0 false ;;
  write "; " ;;
  (* Emit upper bound. *)
  emitValue iterVar 0 false ;;
  write " < " ;;
  emitValue upperBound 0 false ;;
  write "; " ;;
  (* Emit increase step. *)
  emitValue iterVar 0 false ;;
  write " += " ;;
  emitValue step 0 false ;;
  write ") {" ;;
  emitInfoAndNewLine info.

(** [ModuleEmitter::emitScfFor]; [emitBody] is [emitBlock] run on the body
    of the loop. *)
Definition emitScfFor (info : OpInfo)
    (iterVar lowerBound upperBound step : Value) (emitBody : Emit unit)
  : Emit unit :=
  emitScfForHead info iterVar lowerBound upperBound step ;;
  addIndent ;;
  emitPipelinePragma info ;;
  emitBody ;;
  reduceIndent ;;
  indent ;;
  write ("}" +:+ newline).

(** A loop bound: one result is emitted as it is, several are folded with
    [syntax] ("max" for a lower bound, "min" for an upper bound).  The count
    of opening calls is [getNumResults() - 1] in [unsigned]. *)
Definition emitAffineBound (syntax : string) (map : AffineMap)
    (operands : list Value) : Emit unit :=
  let emitExpr := emitAffineExpr (numDims map) operands in
  match mapResults map with
  | [result] => emitExpr result
  | results =>
      forEach (fun _ : nat => write (syntax +:+ "("))
              (seq 0 (Z.to_nat (wrapU (Z.of_nat (length results) - 1)))) ;;
      match results with
      | [] => stop AssertionFailed
      | first :: others =>
          emitExpr first ;;
          forEach (fun expr => write ", " ;; emitExpr expr ;; write ")") others
      end
  end.

(** [ModuleEmitter::emitAffineFor], up to and including the line of the
    opening brace. *)
Definition emitAffineForHead (info : OpInfo) (iterVar : Value)
    (lowerMap : AffineMap) (lowerOperands : list Value)
    (upperMap : AffineMap) (upperOperands : list Value) (step : Z)
  : Emit unit :=
  indent ;;
  write "for (" ;;
  (* Emit lower bound. *)
  emitValue iterVar 0 false ;;
  write " = " ;;
  emitAffineBound "max" lowerMap lowerOperands ;;
  write "; " ;;
  (* Emit upper bound. *)
  emitValue iterVar 0 false ;;
  write " < " ;;
  emitAffineBound "min" upperMap upperOperands ;;
  write "; " ;;
  (* Emit increase step. *)
  emitValue iterVar 0 false ;;
  write (" += " +:+ pretty step +:+ ") {") ;;
  emitInfoAndNewLine info.

(** [ModuleEmitter::emitAffineFor] *)
Definition emitAffineFor (info : OpInfo) (iterVar : Value)
    (lowerMap : AffineMap) (lowerOperands : list Value)
    (upperMap : AffineMap) (upperOperands : list Value) (step : Z)
    (emitBody : Emit unit) : Emit unit :=
  emitAffineForHead info iterVar lowerMap lowerOperands
                    upperMap upperOperands step ;;
  addIndent ;;
  emitPipelinePragma info ;;
  emitBody ;;
  reduceIndent ;;
  indent ;;
  write ("}" +:+ newline).

(** [ModuleEmitter::emitAlloc]; [op] is the allocation itself. *)
Definition emitAlloc (op : Operation) (info : OpInfo) (result : Value)
  : Emit unit :=
  st ← getState;
  (* A declared result indicates that the memref is output of the function,
     and has been declared in the function signature. *)
  if isDeclared st result then mret tt
  else
    (* Vivado HLS only supports static shape on-chip memory. *)
    when (negb (hasStaticShape (valueType result)))
         (emitError op "is unranked or has dynamic shape.") ;;
    indent ;;
    emitArrayDecl result ;;
    write ";" ;;
    emitInfoAndNewLine info ;;
    emitArrayPragmas result.

(** The assignment written by several emitters from inside a loop nest over
    the elements: [result[idx..] = operand[idx..];]. *)
Definition emitElementwiseAssign (info : OpInfo) (operand result : Value)
  : Emit unit :=
  rank ← emitNestedLoopHead result;
  indent ;;
  emitValue result rank false ;;
  write " = " ;;
  emitValue operand rank false ;;
  write ";" ;;
  emitInfoAndNewLine info ;;
  emitNestedLoopTail rank.

(** [ModuleEmitter::emitTensorToMemref] *)
Definition emitTensorToMemref (info : OpInfo) (operand result : Value)
  : Emit unit :=
  st ← getState;
  if isDeclared st result then
    emitElementwiseAssign info operand result
  else
    addAlias operand result ;;
    emitArrayPragmas result.

(** ** Constants *)

Definition isF32 (t : Ty) : bool :=
  match t with Float32Type => true | _ => false end.
Definition isF64 (t : Ty) : bool :=
  match t with Float64Type => true | _ => false end.
Definition isInteger1 (t : Ty) : bool :=
  match t with IntegerType width _ => (width =? 1)%Z | _ => false end.
Definition isIntOrIndex (t : Ty) : bool :=
  match t with IntegerType _ _ | IndexType => true | _ => false end.

Definition getElementType (t : Ty) : Ty :=
  match t with ShapedType _ elementType _ _ => elementType | _ => OtherType end.

(** One element of a dense initialiser, as in the loop of [emitConstant]:
    the [cast<>] of the element to the attribute class of the element type
    must succeed. *)
Definition emitDenseElement (op : Operation) (type : Ty) (element : Attribute)
  : Emit unit :=
  if isF32 type || isF64 type then
    match element with
    | FloatAttr value => write (floatText ostream_double value)
    | _ => stop AssertionFailed
    end
  else if isInteger1 type then
    match element with
    | BoolAttr value => write (pretty (Z.b2z value))
    | _ => stop AssertionFailed
    end
  else if isIntOrIndex type then
    match element with
    | IntegerAttr value => write (pretty value)
    | _ => stop AssertionFailed
    end
  else emitError op "array has unsupported element type.".

(** [ModuleEmitter::emitConstant].  The running index [elementIdx] is an
    [unsigned], compared with the [int64_t]
    [denseAttr.getNumElements() - 1]. *)
Definition emitConstant (op : Operation) (info : OpInfo) (value : Attribute)
    (result : Value) : Emit unit :=
  st ← getState;
  (* This indicates the constant type is scalar (float, integer, or bool). *)
  if isDeclared st result then mret tt
  else
    match value with
    | DenseElementsAttr elements =>
        indent ;;
        emitArrayDecl result ;;
        write " = {" ;;
        assert (isShaped (valueType result)) ;;
        let type := getElementType (valueType result) in
        forEach (fun '(elementIdx, element) =>
                   emitDenseElement op type element ;;
                   when (negb (wrapU (Z.of_nat elementIdx) =?
                               Z.of_nat (length elements) - 1)%Z)
                        (write ", "))
                (zip (seq 0 (length elements)) elements
                 : list (nat * Attribute)) ;;
        write "};" ;;
        emitInfoAndNewLine info
    | _ => emitError op "has unsupported constant type."
    end.

(** ** The three dispatchers and [emitBlock] *)

(** Operations for which [ExprVisitor] declares a [visitOp]. *)
Definition exprVisitorHandles (name : OpName) : bool :=
  match name with
  | CmpFOp | AddFOp | SubFOp | MulFOp | DivFOp | RemFOp
  | CmpIOp | AddIOp | SubIOp | MulIOp | SignedDivIOp | SignedRemIOp
  | UnsignedDivIOp | UnsignedRemIOp | XOrOp | AndOp | OrOp | ShiftLeftOp
  | SignedShiftRightOp | UnsignedShiftRightOp
  | AbsFOp | CeilFOp | NegFOp | CosOp | SinOp | TanhOp | SqrtOp | RsqrtOp
  | ExpOp | Exp2Op | LogOp | Log2Op | Log10Op
  | SelectOp | IndexCastOp | UIToFPOp | SIToFPOp | FPToUIOp | FPToSIOp
  | CallOp | ReturnOp => true
  | _ => false
  end.

(** Operations for which [StmtVisitor] declares a [visitOp]. *)
Definition stmtVisitorHandles (name : OpName) : bool :=
  match name with
  | scf_IfOp | scf_ParallelOp | scf_ReduceOp | scf_ReduceReturnOp | scf_YieldOp
  | AffineIfOp | AffineParallelOp | AffineApplyOp | AffineMaxOp | AffineMinOp
  | AffineLoadOp | AffineStoreOp | AffineYieldOp
  | LoadOp | StoreOp | DeallocOp
  | TensorLoadOp | TensorStoreOp | DimOp | RankOp
  | AssignOp | EndOp => true
  | _ => false
  end.

(** Operations for which [IPVisitor] declares a [visitOp]. *)
Definition ipVisitorHandles (name : OpName) : bool :=
  match name with
  | AmaxOp | AminOp | AsumOp | AxpyOp | DotOp | GbmvOp | GemmOp | GemvOp
  | Nrm2Op | ScalOp | SwapOp | SymvOp | TrmvOp
  | FFTOp | PSqrtOp | IPOp => true
  | _ => false
  end.

(** The [Case<...>] list of [HLSKernelVisitorBase::dispatchVisitor]. *)
Definition inHLSKernelCatalogue (name : OpName) : bool :=
  match name with
  | DenseOp | ConvOp | MaxPoolOp | ReluOp | MergeOp | CopyOp
  | AmaxOp | AminOp | AsumOp | AxpyOp | DotOp | GbmvOp | GemmOp | GemvOp
  | Nrm2Op | ScalOp | SwapOp | SymmOp | SymvOp | SyrkOp | Syr2kOp | TrmmOp
  | TrmvOp => true
  | _ => false
  end.

(** [ExprVisitor::dispatchVisitor], called on the operation.  An operation that the visitor
    does not handle ends in [visitUnhandledOp] or, outside the catalogue of
    Dialect/HLSCpp/Visitor.h, in its [visitInvalidOp]; both return [false]. *)
Definition exprDispatch (op : Operation) : Emit bool :=
  match op with
  | ConstantOp info value result =>
      emitConstant op info value result ;; mret true
  | OtherOp CmpFOp info _ _ _ =>
      if cmpFPredicateSupported info then emitOther op ;; mret true
      else report (AtOperation op) "has unsupported compare type." ;;
           mret false
  | OtherOp ReturnOp _ _ _ _ => mret true
  | OtherOp name _ _ _ _ =>
      if exprVisitorHandles name then emitOther op ;; mret true
      else mret false
  | _ => mret false
  end.

(** [StmtVisitor::dispatchVisitor]; [emitBody] is [emitBlock] run on the body
    of a loop.  As for [ExprVisitor], an operation it does not handle yields
    [false]. *)
Definition stmtDispatch (emitBody : Emit unit) (op : Operation) : Emit bool :=
  match op with
  | ScfForOp info iterVar lowerBound upperBound step _ =>
      emitScfFor info iterVar lowerBound upperBound step emitBody ;; mret true
  | AffineForOp info iterVar lowerMap lowerOperands upperMap upperOperands
                step _ =>
      emitAffineFor info iterVar lowerMap lowerOperands upperMap upperOperands
                    step emitBody ;;
      mret true
  | AllocOp info result | AllocaOp info result =>
      emitAlloc op info result ;; mret true
  | TensorToMemrefOp info operand result =>
      emitTensorToMemref info operand result ;; mret true
  | OtherOp (scf_ParallelOp | scf_ReduceOp | scf_ReduceReturnOp
            | DeallocOp | EndOp) _ _ _ _ => mret true
  | OtherOp name _ _ _ _ =>
      if stmtVisitorHandles name then emitOther op ;; mret true
      else mret false
  | ConstantOp _ _ _ => mret false
  end.

(** [HLSKernelVisitorBase::visitInvalidOp]:
    [op->emitOpError("is unsupported operation."); abort();] *)
Definition visitInvalidOp {A} (op : Operation) : Emit A :=
  report (AtOperation op) "is unsupported operation." ;;
  stop AbortCalled.

(** [IPVisitor::dispatchVisitor]: an operation of the catalogue of
    Dialect/HLSKernel/Visitor.h goes to its [visitOp], which is the one of
    [IPVisitor] or else [visitUnhandledOp]; any other operation goes to
    [visitInvalidOp]. *)
Definition ipDispatch (op : Operation) : Emit bool :=
  match op with
  | OtherOp name _ _ _ _ =>
      if inHLSKernelCatalogue name then
        if ipVisitorHandles name then emitOther op ;; mret true
        else mret false
      else visitInvalidOp op
  | _ => visitInvalidOp op
  end.

(** The body of the loop of [ModuleEmitter::emitBlock], for one operation. *)
Definition emitBlockStep (emitBody : Emit unit) (op : Operation) : Emit unit :=
  handled ← exprDispatch op;
  if handled : bool then mret tt
  else
    handled ← stmtDispatch emitBody op;
    if handled : bool then mret tt
    else
      handled ← ipDispatch op;
      if handled : bool then mret tt
      else emitError op "can't be correctly emitted.".

Definition getBody (op : Operation) : list Operation :=
  match op with
  | ScfForOp _ _ _ _ _ body | AffineForOp _ _ _ _ _ _ _ body => body
  | _ => []
  end.

Fixpoint emitOperation (op : Operation) : Emit unit :=
  emitBlockStep
    (match op with
     | ScfForOp _ _ _ _ _ body | AffineForOp _ _ _ _ _ _ _ body =>
         forEach emitOperation body
     | _ => mret tt
     end)
    op.

(** [ModuleEmitter::emitBlock] *)
Definition emitBlock (block : list Operation) : Emit unit :=
  forEach emitOperation block.

End Emission.

(** ** Notions used to state properties of the emitter *)

(** The state in which an emission ended. *)
Definition finalState {A} (r : Result A) : HLSCppEmitterState :=
  match r with Done _ st | Stopped _ st => st end.

(** An instantiation of the externals to run the emitter on examples:
    [getIntAttrValue] reads an integer attribute and yields 0 without one,
    no type has a layout map, the remaining emitters write nothing, and
    [BoolAttr] is an attribute class of its own. *)
Definition sampleExternals : Externals := {|
  to_string_double := fun _ => "0.000000";
  ostream_double := fun _ => "0.000000e+00";
  boolAttrAsInteger := fun _ => None;
  getIntAttrValue := fun info name => default 0%Z (getIntegerAttr info name);
  getLayoutMap := fun _ => None;
  getPartitionFactors := fun _ => [];
  emitOther := fun _ => mret tt;
  cmpFPredicateSupported := fun _ => true;
|}.

Section Texts.

Context `{Externals}.

(** The text that [emitInfoAndNewLine] appends. *)
Definition infoText (info : OpInfo) : string :=
  os (finalState (emitInfoAndNewLine info initialState)).

(** The line that [emitPipelinePragma] appends at indentation [indentation];
    empty when the loop is not pipelined. *)
Definition pipelinePragmaLine (info : OpInfo) (indentation : Z) : string :=
  if (getIntAttrValue info "pipeline" =? 0)%Z then ""
  else spaces (Z.to_nat indentation) +:+ "#pragma HLS pipeline II=" +:+
       pretty (getIntAttrValue info "target_ii") +:+ newline.

(** The C++ type written for a supported element type. *)
Definition elementTypeText (t : Ty) : option string :=
  match t with
  | Float32Type => Some "float "
  | Float64Type => Some "double "
  | IndexType => Some "int "
  | IntegerType width signedness =>
      Some (if (width =? 1)%Z then "bool "
            else "ap_" +:+
                 (match signedness with Unsigned => "u" | _ => "" end) +:+
                 "int<" +:+ pretty width +:+ "> ")
  | _ => None
  end.

(** One bracketed extent per dimension. *)
Definition extentsText (dims : list Z) : string :=
  foldr (fun d acc => "[" +:+ pretty d +:+ "]" +:+ acc) "" dims.

(** [st] with [text] appended to its stream. *)
Definition appendOs (st : HLSCppEmitterState) (text : string)
  : HLSCppEmitterState :=
  {| os := os st +:+ text; encounteredError := encounteredError st;
     currentIndent := currentIndent st; nameTable := nameTable st;
     diagnostics := diagnostics st |}.

Definition constantValue (id : N) (type : Ty) (value : Attribute) : Value :=
  {| valueId := id; valueType := type; valueDef := ConstantResult value |}.

(** [st] with the name table entry of [val] set to [name]. *)
Definition withName (st : HLSCppEmitterState) (val : Value) (name : string)
  : HLSCppEmitterState :=
  {| os := os st; encounteredError := encounteredError st;
     currentIndent := currentIndent st;
     nameTable := <[valueId val := name]> (nameTable st);
     diagnostics := diagnostics st |}.

(** The name [addName] forms when the table holds [count] entries. *)
Definition indexedName (isPtr : bool) (count : nat) : string :=
  (if isPtr then "*" else "") +:+ ("val" +:+ pretty count).

Definition isScalarAttr (value : Attribute) : bool :=
  match value with
  | FloatAttr _ | IntegerAttr _ | BoolAttr _ => true
  | DenseElementsAttr _ | OtherAttr => false
  end.

Definition isScalarConstant (val : Value) : bool :=
  match valueDef val with
  | ConstantResult value => isScalarAttr value
  | _ => false
  end.

(** The subscripts [emitValue] appends for an element of an array of rank
    [rank]. *)
Definition indicesText (rank : nat) : string :=
  foldr (fun (i : nat) acc => ("[idx" +:+ pretty i +:+ "]") +:+ acc) ""
        (seq 0 rank).

(** The type whose C++ name [emitValue] writes: the element type of a shaped
    value, the type itself otherwise. *)
Definition writtenType (val : Value) : Ty :=
  match valueType val with
  | ShapedType _ elementType _ _ => elementType
  | t => t
  end.

(** [st] with its indentation set to [n]. *)
Definition withIndent (st : HLSCppEmitterState) (n : Z) : HLSCppEmitterState :=
  {| os := os st; encounteredError := encounteredError st;
     currentIndent := n; nameTable := nameTable st;
     diagnostics := diagnostics st |}.

(** The shape of the emission of a loop whose head is written by [emitHead]:
    when the head cannot be written nothing else is; otherwise the head ends
    with the opening brace and the information comment of the loop, the
    indentation grows by two, the pipeline line (if any) comes next, and only
    then the body is emitted, followed by the closing brace. *)
Definition loopShape (info : OpInfo) (emitHead : Emit unit)
    (emitLoop : Emit unit → Emit unit) : Prop :=
  ∀ (emitBody : Emit unit) (st : HLSCppEmitterState),
    match emitHead st with
    | Stopped why st1 => emitLoop emitBody st = Stopped why st1
    | Done _ st1 =>
        let inner := wrapU (currentIndent st1 + 2) in
        (∃ prefix, os st1 = prefix +:+ ") {" +:+ infoText info)
        ∧ emitLoop emitBody st
          = (emitBody ;; reduceIndent ;; indent ;; write ("}" +:+ newline))
              (appendOs (withIndent st1 inner) (pipelinePragmaLine info inner))
    end.

(** [st] after [emitError(op, message)]. *)
Definition withError (st : HLSCppEmitterState) (op : Operation)
    (message : string) : HLSCppEmitterState :=
  {| os := os st; encounteredError := true;
     currentIndent := currentIndent st; nameTable := nameTable st;
     diagnostics := diagnostics st ++
                    [{| diagSite := AtOperation op; diagMessage := message |}] |}.

(** [st] after a diagnostic that does not go through the emitter's
    [emitError]: the failure flag is as before. *)
Definition withDiagnostic (st : HLSCppEmitterState) (op : Operation)
    (message : string) : HLSCppEmitterState :=
  {| os := os st; encounteredError := encounteredError st;
     currentIndent := currentIndent st; nameTable := nameTable st;
     diagnostics := diagnostics st ++
                    [{| diagSite := AtOperation op; diagMessage := message |}] |}.

(** The text of the declaration that [emitAlloc] writes for [result] when the
    name table holds [count] entries: with one extent per dimension for a
    static shape, as a pointer without extents otherwise. *)
Definition declarationText (typeText : string) (result : Value) (count : nat)
  : string :=
  if hasStaticShape (valueType result) then
    typeText +:+ indexedName false count +:+
    extentsText (getShape (valueType result))
  else typeText +:+ indexedName true count.

End Texts.

(** Values and an operation info to run the emitter on. *)

Definition tensorValue : Value :=
  {| valueId := 0;
     valueType := ShapedType Tensor Float32Type (Some [4%Z]) 0;
     valueDef := OpResult |}.

Definition memrefValue : Value :=
  {| valueId := 1;
     valueType := ShapedType MemRef Float32Type (Some [4%Z]) MemoryKind_None;
     valueDef := OpResult |}.

Definition scalarValue : Value :=
  {| valueId := 2; valueType := Float32Type; valueDef := OpResult |}.

(** An on-chip (single-port BRAM) array with a dynamic dimension. *)
Definition dynamicOnChipArray : Value :=
  {| valueId := 3;
     valueType := ShapedType MemRef Float32Type (Some [(-1)%Z; 8%Z]) BRAM_1P;
     valueDef := OpResult |}.

Definition plainInfo : OpInfo := {| opLoc := UnknownLoc; opAttrs := ∅ |}.

(** ** Further emitters

    The emitters below are the ones [emitBlock] reaches through [emitOther],
    and the emitters of functions and modules.  Each takes the operands and
    results as the accessors of its operation class hand them over. *)

(** [getBoolAttrValue(op, name)] is declared in scalehls/Analysis/Utils.h,
    which is not part of the sources at hand. *)
Class AttrExternals := {
  getBoolAttrValue : OpInfo → string → bool;
}.

Section Statements.

Context `{Externals}.

(** "Declare all values returned by ...": the loop that opens [emitScfIf],
    [emitAffineIf], [emitAffineParallel] and [emitCall]. *)
Definition declareResults (results : list Value) : Emit unit :=
  forEach (fun result =>
             st ← getState;
             when (negb (isDeclared st result))
                  (indent ;;
                   (if isShaped (valueType result) then emitArrayDecl result
                    else emitValue result 0 false) ;;
                   write (";" +:+ newline)))
          results.

(** [ModuleEmitter::emitDim]; [source] and [index] are the operands 0 and 1.
    [dyn_cast<ConstantOp>] is applied to the defining operation of the
    index, which is null for a block argument. *)
Definition emitDim (op : Operation) (info : OpInfo)
    (source index result : Value) : Emit unit :=
  match valueDef index with
  | BlockArgument => stop AssertionFailed
  | ConstantResult value =>
      match value with
      | IntegerAttr constVal =>
          let type := valueType source in
          assert (isShaped type) ;;
          if hasStaticShape type then
            if (0 <=? constVal)%Z
               && (constVal <? Z.of_nat (length (getShape type)))%Z then
              indent ;;
              emitValue result 0 false ;;
              write " = " ;;
              match getShape type !! Z.to_nat constVal with
              | Some extent => write (pretty extent +:+ ";")
              | None => stop AssertionFailed
              end ;;
              emitInfoAndNewLine info
            else emitError op "index is out of range."
          else emitError op "is unranked or has dynamic shape."
      | _ => stop AssertionFailed
      end
  | OpResult => emitError op "index is not a constant."
  end.

(** [ModuleEmitter::emitBinary]; [lhs], [rhs] are the operands 0 and 1 and
    [result] is the result 0. *)
Definition emitBinary (info : OpInfo) (syntax : string)
    (lhs rhs result : Value) : Emit unit :=
  rank ← emitNestedLoopHead result;
  indent ;;
  emitValue result rank false ;;
  write " = " ;;
  emitValue lhs rank false ;;
  write (" " +:+ syntax +:+ " ") ;;
  emitValue rhs rank false ;;
  write ";" ;;
  emitInfoAndNewLine info ;;
  emitNestedLoopTail rank.

(** [ModuleEmitter::emitUnary] *)
Definition emitUnary (info : OpInfo) (syntax : string)
    (operand result : Value) : Emit unit :=
  rank ← emitNestedLoopHead result;
  indent ;;
  emitValue result rank false ;;
  write (" = " +:+ syntax +:+ "(") ;;
  emitValue operand rank false ;;
  write ");" ;;
  emitInfoAndNewLine info ;;
  emitNestedLoopTail rank.

(** [ModuleEmitter::emitSelect] *)
Definition emitSelect (info : OpInfo)
    (condition trueValue falseValue result : Value) : Emit unit :=
  rank ← emitNestedLoopHead result;
  let conditionRank :=
    if negb (isShaped (valueType condition)) then 0 else rank in
  indent ;;
  emitValue result rank false ;;
  write " = " ;;
  emitValue condition conditionRank false ;;
  write " ? " ;;
  emitValue trueValue rank false ;;
  write " : " ;;
  emitValue falseValue rank false ;;
  write ";" ;;
  emitInfoAndNewLine info ;;
  emitNestedLoopTail rank.

(** [ModuleEmitter::emitTensorStore]; [source] and [target] are the operands
    0 and 1. *)
Definition emitTensorStore (info : OpInfo) (source target : Value)
  : Emit unit :=
  rank ← emitNestedLoopHead source;
  indent ;;
  emitValue target rank false ;;
  write " = " ;;
  emitValue source rank false ;;
  write ";" ;;
  emitInfoAndNewLine info ;;
  emitNestedLoopTail rank.

(** [ModuleEmitter::emitCall]; the separator test
    [argIdx++ != op.getNumOperands() - 1] is between two [unsigned]. *)
Definition emitCall (info : OpInfo) (callee : string)
    (operands results : list Value) : Emit unit :=
  (* Handle returned value by the callee. *)
  declareResults results ;;
  (* Emit the function call. *)
  indent ;;
  write (callee +:+ "(") ;;
  (* Handle input arguments. *)
  forEach (fun '(argIdx, arg) =>
             emitValue arg 0 false ;;
             when (negb (Z.of_nat argIdx
                         =? wrapU (Z.of_nat (length operands) - 1))%Z)
                  (write ", "))
          (zip (seq 0 (length operands)) operands : list (nat * Value)) ;;
  (* Handle output arguments. *)
  forEach (fun result =>
             (* The address should be passed in for scalar result
                arguments. *)
             (if isShaped (valueType result) then write ", "
              else write ", &") ;;
             emitValue result 0 false)
          results ;;
  write ");" ;;
  emitInfoAndNewLine info.

(** [ModuleEmitter::emitAmaxIP].  [op.getOperands()[i]] and
    [getShape()[0]] are checked accesses, and [cast<ShapedType>] must
    succeed. *)
Definition emitAmaxIP (operands : list Value) : Emit unit :=
  match operands !! 0, operands !! 1 with
  | Some p_x, Some p_goldRes =>
      assert (isShaped (valueType p_x)) ;;
      match valueType p_x with
      | ShapedType _ _ (Some (p_n :: _)) _ =>
          let BLAS_dataType :=
            if isF64 (valueType p_x) then "double" else "float" in
          let BLAS_resDataType :=
            if isF64 (valueType p_x) then "double" else "float" in
          let BLAS_logParEntries := 2%Z in
          st ← getState;
          write ("  #pragma HLS DATAFLOW" +:+ newline) ;;
          write ("  " +:+ BLAS_resDataType +:+ " l_res;" +:+ newline) ;;
          write ("  hls::stream<typename WideType<" +:+ BLAS_dataType +:+
                 ", 1 << " +:+ pretty BLAS_logParEntries +:+
                 ">::t_TypeInt> l_str;" +:+ newline) ;;
          write ("  readVec2Stream<" +:+ BLAS_dataType +:+ ", 1 << " +:+
                 pretty BLAS_logParEntries +:+ ">(" +:+ getName st p_x +:+
                 ", " +:+ pretty p_n +:+ ", l_str);" +:+ newline) ;;
          write ("  amax<" +:+ BLAS_dataType +:+ ", " +:+
                 pretty BLAS_logParEntries +:+ ", " +:+ BLAS_resDataType +:+
                 ">(" +:+ pretty p_n +:+ ", l_str, l_res);" +:+ newline) ;;
          write ("  " +:+ getName st p_goldRes +:+ " = l_res;" +:+ newline)
      | _ => stop AssertionFailed
      end
  | _, _ => stop AssertionFailed
  end.

End Statements.

(** ** Functions and modules *)

(** A block of a function body: its arguments and its operations. *)
Record Block := {
  blockArguments : list Value;
  blockOperations : list Operation;
}.

(** [FuncOp]: its location and attributes, its name and its blocks. *)
Record FuncOp := {
  funcInfo : OpInfo;
  funcName : string;
  funcBlocks : list Block;
}.

(** The function as the operation diagnostics are attached to. *)
Definition funcOperation (func : FuncOp) : Operation :=
  OtherOp (ForeignOp "func") (funcInfo func) [] []
          (blockOperations <$> funcBlocks func).

(** [func.getArguments()]: the arguments of the entry block. *)
Definition getArguments (func : FuncOp) : list Value :=
  match funcBlocks func with
  | front :: _ => blockArguments front
  | [] => []
  end.

(** What a module holds: functions, its terminator, anything else. *)
Inductive ModuleItem :=
  | FunctionItem (func : FuncOp)
  | ModuleTerminatorItem
  | OtherItem (op : Operation).

(** [op->getAttrOfType<BoolAttr>(name)] *)
Definition getBoolAttr (info : OpInfo) (name : string) : option bool :=
  match opAttrs info !! name with
  | Some (BoolAttr b) => Some b
  | _ => None
  end.

(** The text [emitModule] starts the file with. *)
Definition moduleHeader : string :=
  newline +:+
  "//===------------------------------------------------------------*- C++ -*-===//" +:+ newline +:+
  "//" +:+ newline +:+
  "// Automatically generated file for High-level Synthesis (HLS)." +:+ newline +:+
  "//" +:+ newline +:+
  "//===----------------------------------------------------------------------===//" +:+ newline +:+
  newline +:+
  "#include <algorithm>" +:+ newline +:+
  "#include <ap_axi_sdata.h>" +:+ newline +:+
  "#include <ap_fixed.h>" +:+ newline +:+
  "#include <ap_int.h>" +:+ newline +:+
  "#include <hls_math.h>" +:+ newline +:+
  "#include <hls_stream.h>" +:+ newline +:+
  "#include <math.h>" +:+ newline +:+
  "#include <stdint.h>" +:+ newline +:+
  "#include <xf_blas.hpp>" +:+ newline +:+
  newline +:+
  "using namespace std;" +:+ newline +:+
  "using namespace xf::blas;" +:+ newline +:+
  newline.

Section Functions.

Context `{Externals} `{AttrExternals}.

(** [name.erase(name.begin())] when [name.front() == '*'].  [front()] of an
    empty [SmallString] is a checked access. *)
Definition portName (name : string) : Emit string :=
  match name with
  | EmptyString => stop AssertionFailed
  | String c rest => mret (if decide (c = "*"%char) then rest else name)
  end.

(** [ModuleEmitter::emitFunctionPragmas] *)
Definition emitFunctionPragmas (info : OpInfo) (portList : list Value)
  : Emit unit :=
  when (getBoolAttrValue info "dataflow")
       (indent ;;
        write ("#pragma HLS dataflow" +:+ newline) ;;
        (* An empty line. *)
        write newline) ;;
  when (getBoolAttrValue info "pipeline")
       (indent ;;
        let targetII := getIntAttrValue info "target_ii" in
        write ("#pragma HLS pipeline II=" +:+ pretty targetII +:+ newline) ;;
        (* An empty line. *)
        write newline) ;;
  (* Only top function should emit interface pragmas. *)
  when (getBoolAttrValue info "top_function")
       (indent ;;
        write ("#pragma HLS interface s_axilite port=return bundle=ctrl" +:+
               newline) ;;
        forEach (fun port =>
                   if isMemRefType (valueType port) then
                     if (getMemorySpace (valueType port) =? MemoryKind_None)%Z
                     then mret tt
                     else
                       indent ;;
                       write "#pragma HLS interface" ;;
                       (* For now, we set the offset of all m_axi interfaces
                          as slave. *)
                       (if (getMemorySpace (valueType port) =? DRAM)%Z
                        then write " m_axi offset=slave"
                        else write " bram") ;;
                       write " port=" ;;
                       emitValue port 0 false ;;
                       write newline
                   else
                     indent ;;
                     write "#pragma HLS interface s_axilite" ;;
                     write " port=" ;;
                     st ← getState;
                     name ← portName (getName st port);
                     write name ;;
                     write (" bundle=ctrl" +:+ newline))
                portList ;;
        (* An empty line. *)
        write newline ;;
        (* Emit other pragmas for function ports. *)
        forEach (fun port =>
                   when (isMemRefType (valueType port))
                        (emitArrayPragmas port))
                portList).

(** The comment lines that open [emitFunction]. *)
Definition emitFunctionComments (info : OpInfo) : Emit unit :=
  match getBoolAttr info "top_function" with
  | Some true => write ("/// This is top function." +:+ newline)
  | _ => mret tt
  end ;;
  match getIntegerAttr info "latency" with
  | Some latency =>
      write ("/// Latency=" +:+ pretty latency) ;;
      match getIntegerAttr info "ii" with
      | Some interval => write (", II=" +:+ pretty interval)
      | None => mret tt
      end ;;
      write newline
  | None => mret tt
  end ;;
  match getIntegerAttr info "dsp" with
  | Some dsp => write ("/// DSP=" +:+ pretty dsp +:+ newline)
  | None => mret tt
  end.

(** "Emit input arguments" of [emitFunction] *)
Definition emitFunctionArguments (arguments : list Value) : Emit unit :=
  forEach (fun '(argIdx, arg) =>
             indent ;;
             (if isShaped (valueType arg) then emitArrayDecl arg
              else emitValue arg 0 false) ;;
             when (negb (Z.of_nat argIdx
                         =? wrapU (Z.of_nat (length arguments) - 1))%Z)
                  (write ("," +:+ newline)))
          (zip (seq 0 (length arguments)) arguments : list (nat * Value)).

(** "Emit results" of [emitFunction], for the operands of the return. *)
Definition emitFunctionResults (results : list Value) : Emit unit :=
  forEach (fun result =>
             write ("," +:+ newline) ;;
             indent ;;
             if isShaped (valueType result) then emitArrayDecl result
             else
               (* In Vivado HLS, pointer indicates the value is an output. *)
               emitValue result 0 true)
          results.

(** [ModuleEmitter::emitFunction].  [func.front()] needs a block and
    [getTerminator()] an operation in it. *)
Definition emitFunction (func : FuncOp) : Emit unit :=
  let info := funcInfo func in
  when (negb (length (funcBlocks func) =? 1)%nat)
       (emitError (funcOperation func)
                  "has zero or more than one basic blocks.") ;;
  emitFunctionComments info ;;
  (* Emit function signature. *)
  write ("void " +:+ funcName func +:+ "(" +:+ newline) ;;
  addIndent ;;
  (* Emit input arguments. *)
  emitFunctionArguments (getArguments func) ;;
  match funcBlocks func with
  | [] => stop AssertionFailed
  | front :: _ =>
      match last (blockOperations front) with
      | None => stop AssertionFailed
      | Some terminator =>
          (* Emit results. *)
          results ←
            match terminator with
            | OtherOp ReturnOp _ operands _ _ =>
                emitFunctionResults operands ;; mret operands
            | _ =>
                emitError (funcOperation func)
                          "doesn't have a return operation as terminator." ;;
                mret []
            end;
          let portList := (getArguments func ++ results)%list in
          reduceIndent ;;
          write (newline +:+ ") {") ;;
          emitInfoAndNewLine info ;;
          (* Emit function body. *)
          addIndent ;;
          emitFunctionPragmas info portList ;;
          emitBlock (blockOperations front) ;;
          reduceIndent ;;
          write ("}" +:+ newline) ;;
          (* An empty line. *)
          write newline
      end
  end.

(** [ModuleEmitter::emitModule] *)
Definition emitModule (body : list ModuleItem) : Emit unit :=
  write moduleHeader ;;
  forEach (fun item =>
             match item with
             | FunctionItem func => emitFunction func
             | ModuleTerminatorItem => mret tt
             | OtherItem op => emitError op "is unsupported operation."
             end)
          body.

(** [emitHLSCpp]: the text written and [failure(state.encounteredError)],
    when [emitModule] returns. *)
Definition emitHLSCpp (body : list ModuleItem) : option (string * bool) :=
  match emitModule body initialState with
  | Done _ st => Some (os st, encounteredError st)
  | Stopped _ _ => None
  end.

End Functions.

(** ** Notions used to state properties of whole runs *)

(** What a later state may differ by: text added at the end of the stream,
    the failure flag raised, diagnostics added, values given a name. *)
Definition extends (st st' : HLSCppEmitterState) : Prop :=
  (∃ text, os st' = os st +:+ text)
  ∧ (encounteredError st = true → encounteredError st' = true)
  ∧ (∃ more, diagnostics st' = (diagnostics st ++ more)%list)
  ∧ (∀ k name, nameTable st !! k = Some name → name ≠ "" →
               nameTable st' !! k = Some name).

(** An emitter that, whether it returns or stops, only extends the state. *)
Definition onlyExtends {A} (m : Emit A) : Prop :=
  ∀ st, extends st (finalState (m st)).

(** The indentation is a value of an [unsigned]. *)
Definition indentInRange (st : HLSCppEmitterState) : Prop :=
  (0 ≤ currentIndent st < UINT_MODULUS)%Z.

(** An emitter that, when it returns, leaves the indentation where it found
    it. *)
Definition restoresIndent {A} (m : Emit A) : Prop :=
  ∀ st a st', indentInRange st → m st = Done a st' →
              currentIndent st' = currentIndent st.

(** An emitter that touches nothing but the stream, to which it appends a
    text that only the name table decides, and that returns when [ok] holds
    and fails a check otherwise. *)
Definition writesOrStops (m : Emit unit) (ok : bool) : Prop :=
  ∃ render : gmap N string → string, ∀ st,
    m st = if ok then Done tt (appendOs st (render (nameTable st)))
           else Stopped AssertionFailed (appendOs st (render (nameTable st))).

(** Whether the positions of the dimensions and symbols of an expression
    are within [count] operands, the symbols coming after [numDim]
    dimensions. *)
Fixpoint positionsInRange (numDim count : nat) (expr : AffineExpr) : bool :=
  match expr with
  | AffineBinaryOpExpr _ lhs rhs =>
      positionsInRange numDim count lhs && positionsInRange numDim count rhs
  | AffineConstantExpr _ => true
  | AffineDimExpr position => bool_decide (position < count)
  | AffineSymbolExpr position => bool_decide (numDim + position < count)
  end.

(** [st] with an empty stream. *)
Definition clearOs (st : HLSCppEmitterState) : HLSCppEmitterState :=
  {| os := ""; encounteredError := encounteredError st;
     currentIndent := currentIndent st; nameTable := nameTable st;
     diagnostics := diagnostics st |}.

(** The text an emitter writes when run in [st]. *)
Definition textOf {A} (m : Emit A) (st : HLSCppEmitterState) : string :=
  os (finalState (m (clearOs st))).

(** Calls of a two-argument function nested to the left:
    [f(f(first, second), third)]. *)
Definition nestedCall (syntax first : string) (others : list string)
  : string :=
  fold_left (fun acc text => syntax +:+ "(" +:+ acc +:+ ", " +:+ text +:+ ")")
            others first.

(** [st] with the failure flag raised. *)
Definition flagged (st : HLSCppEmitterState) : HLSCppEmitterState :=
  {| os := os st; encounteredError := true;
     currentIndent := currentIndent st; nameTable := nameTable st;
     diagnostics := diagnostics st |}.

(** [st] after [emitError(val.getDefiningOp(), message)] for the result of an
    operation. *)
Definition withErrorAtDefiningOp (st : HLSCppEmitterState) (val : Value)
    (message : string) : HLSCppEmitterState :=
  {| os := os st; encounteredError := true;
     currentIndent := currentIndent st; nameTable := nameTable st;
     diagnostics := diagnostics st ++
                    [{| diagSite := AtDefiningOpOf val;
                        diagMessage := message |}] |}.

(** Texts with [separator] between each two of them. *)
Fixpoint separatedBy (separator : string) (texts : list string) : string :=
  match texts with
  | [] => ""
  | text :: rest =>
      match rest with
      | [] => text
      | _ :: _ => text +:+ separator +:+ separatedBy separator rest
      end
  end.




(** What holds of the name table along a run, the entries of [aliases]
    apart: every name is [valN] or [*valN] with [N] below the number of
    entries, and no name is held by two entries. *)
Definition tableInvariant (aliases : list N) (st : HLSCppEmitterState)
  : Prop :=
  (∀ k name, k ∉ aliases → nameTable st !! k = Some name →
     ∃ (isPtr : bool) (n : nat),
       name = indexedName isPtr n ∧ n < size (nameTable st))
  ∧ (∀ k1 k2 name, k1 ∉ aliases → k2 ∉ aliases →
       nameTable st !! k1 = Some name → nameTable st !! k2 = Some name →
       k1 = k2).

(** An emitter that, whether it returns or stops, ends in a state of which
    [P] holds whenever it starts in one. *)
Definition keeps (P : HLSCppEmitterState → Prop) {A} (m : Emit A) : Prop :=
  ∀ st, P st → P (finalState (m st)).

(** The operations that the visitors are given a [visitOp] for that writes
    nothing and reports nothing. *)
Definition skippedOperations : list OpName :=
  [ReturnOp; DeallocOp; EndOp; scf_ParallelOp; scf_ReduceOp;
   scf_ReduceReturnOp].

(** The operations [IPVisitor] has emitters for although the dispatcher of
    the HLSKernel visitor does not list them. *)
Definition unlistedIPOperations : list OpName := [FFTOp; PSqrtOp; IPOp].

(** The core named in the resource pragma of an on-chip array. *)
Definition resourceCore (kind : Z) : string :=
  if (kind =? BRAM_1P)%Z then "ram_1p_bram"
  else if (kind =? BRAM_T2P)%Z then "ram_t2p_bram"
  else "ram_s2p_bram".

(** Externals under which a compare operation has an unsupported
    predicate, and under which a [BoolAttr] is an [IntegerAttr] of type [i1]
    that [getInt()] reads sign-extended. *)
Definition strictExternals : Externals := {|
  to_string_double := fun _ => "0.000000";
  ostream_double := fun _ => "0.000000e+00";
  boolAttrAsInteger := fun value => Some (if value then (-1)%Z else 0%Z);
  getIntAttrValue := fun info name => default 0%Z (getIntegerAttr info name);
  getLayoutMap := fun _ => None;
  getPartitionFactors := fun _ => [];
  emitOther := fun _ => mret tt;
  cmpFPredicateSupported := fun _ => false;
|}.

Definition sampleAttrExternals : AttrExternals := {|
  getBoolAttrValue := fun info name => default false (getBoolAttr info name);
|}.

End Emitter.

(* ===================================================================== *)
(** * The annotation pass (ConvertToHLSCpp)                               *)
(* ===================================================================== *)

Module Annotator.

Local Open Scope string_scope.

(** ** The IR the pass rewrites in place

    Operations live in a store keyed by their identity; a block is the list
    of its operations in order; an operation names the blocks of each of its
    regions.  A value records where it is defined, which is all that
    [getKind], [getDefiningOp], [isa<>] and [getType] are asked for. *)

Abbreviation OpId := nat.
Abbreviation BlockId := nat.

Inductive OpKind :=
  | FuncOp | ReturnOp | ConstantOp | ArrayOp | AssignOp | AffineForOp | OtherOp.

Global Instance OpKind_eq_dec : EqDecision OpKind.
Proof. solve_decision. Defined.

(** Types, as far as the pass looks: [dyn_cast<ShapedType>] and
    [hasStaticShape]. *)
Inductive Ty := ScalarType | ShapedType (staticShape : bool).

Global Instance Ty_eq_dec : EqDecision Ty.
Proof. solve_decision. Defined.

Inductive Value :=
  | BlockArgument (owner : BlockId) (index : nat) (type : Ty)
  | OpResult (owner : OpId) (kind : OpKind) (index : nat) (type : Ty).

Global Instance Value_eq_dec : EqDecision Value.
Proof. solve_decision. Defined.

Definition getType (val : Value) : Ty :=
  match val with BlockArgument _ _ type | OpResult _ _ _ type => type end.

Definition isShaped (val : Value) : bool :=
  match getType val with ShapedType _ => true | ScalarType => false end.

Definition hasStaticShape (val : Value) : bool :=
  match getType val with ShapedType static => static | ScalarType => false end.

Inductive Attribute := BoolAttr (value : bool) | OtherAttr (payload : Z).

Record Operation := {
  opKind : OpKind;
  opLoc : Z;
  opOperands : list Value;
  opAttrs : gmap string Attribute;
  opRegions : list (list BlockId);
}.

Record IR := {
  operations : gmap OpId Operation;
  blocks : gmap BlockId (list OpId);
  diagnostics : list (OpId * string);
}.

(** ** IR primitives used by the pass *)

(** [op.emitError(message)] *)
Definition emitError (op : OpId) (message : string) (ir : IR) : IR :=
  {| operations := operations ir;
     blocks := blocks ir;
     diagnostics := diagnostics ir ++ [(op, message)] |}.

Definition updateOperation (op : OpId) (f : Operation → Operation) (ir : IR)
  : IR :=
  {| operations := alter f op (operations ir);
     blocks := blocks ir;
     diagnostics := diagnostics ir |}.

(** [op.setAttr(name, attr)] *)
Definition setAttr (op : OpId) (name : string) (attr : Attribute) (ir : IR)
  : IR :=
  updateOperation op
    (fun o => {| opKind := opKind o; opLoc := opLoc o;
                 opOperands := opOperands o;
                 opAttrs := <[name := attr]> (opAttrs o);
                 opRegions := opRegions o |}) ir.

(** [if (!op.getAttr(name)) op.setAttr(name, attr);] *)
Definition setAttrIfAbsent (op : OpId) (name : string) (attr : Attribute)
    (ir : IR) : IR :=
  match operations ir !! op with
  | Some o =>
      match opAttrs o !! name with
      | None => setAttr op name attr ir
      | Some _ => ir
      end
  | None => ir
  end.

(** [op.setOperand(idx, value)] *)
Definition setOperand (op : OpId) (idx : nat) (value : Value) (ir : IR) : IR :=
  updateOperation op
    (fun o => {| opKind := opKind o; opLoc := opLoc o;
                 opOperands := <[idx := value]> (opOperands o);
                 opAttrs := opAttrs o;
                 opRegions := opRegions o |}) ir.

Definition replaceValue (old new val : Value) : Value :=
  if decide (val = old) then new else val.

(** [old.replaceAllUsesExcept(new, {except})] *)
Definition replaceAllUsesExcept (old new : Value) (except : OpId) (ir : IR)
  : IR :=
  {| operations :=
       map_imap
         (fun id o =>
            Some (if decide (id = except) then o
                  else {| opKind := opKind o; opLoc := opLoc o;
                          opOperands := map (replaceValue old new)
                                            (opOperands o);
                          opAttrs := opAttrs o;
                          opRegions := opRegions o |}))
         (operations ir);
     blocks := blocks ir;
     diagnostics := diagnostics ir |}.

(** Placing [new] right before / right after the first occurrence of
    [anchor] in a block. *)
Fixpoint insertBefore (anchor new : OpId) (l : list OpId) : list OpId :=
  match l with
  | [] => []
  | x :: rest =>
      if decide (x = anchor) then new :: x :: rest
      else x :: insertBefore anchor new rest
  end.

Fixpoint insertAfter (anchor new : OpId) (l : list OpId) : list OpId :=
  match l with
  | [] => []
  | x :: rest =>
      if decide (x = anchor) then x :: new :: rest
      else x :: insertAfter anchor new rest
  end.

(** Where a builder inserts the operations it creates. *)
Inductive InsertionPoint :=
  | Before (op : OpId)          (* [setInsertionPoint(op)] *)
  | After (op : OpId)           (* [setInsertionPointAfter(op)] *)
  | AtStart (block : BlockId).  (* [setInsertionPointToStart(block)] *)

(** [setInsertionPointAfterValue(val)] *)
Definition insertionPointAfterValue (val : Value) : InsertionPoint :=
  match val with
  | BlockArgument owner _ _ => AtStart owner
  | OpResult owner _ _ _ => After owner
  end.

Definition place (point : InsertionPoint) (new : OpId)
    (blks : gmap BlockId (list OpId)) : gmap BlockId (list OpId) :=
  match point with
  | Before anchor => insertBefore anchor new <$> blks
  | After anchor => insertAfter anchor new <$> blks
  | AtStart block => alter (cons new) block blks
  end.

(** The identity of a newly allocated operation. *)
Definition freshOp (ir : IR) : OpId := fresh (dom (operations ir)).

(** [builder.create<OpTy>(loc, type, operand)]: a new operation with one
    operand and one result of type [type], no attributes and no regions,
    linked in at the insertion point.  Yields the result value. *)
Definition create (kind : OpKind) (point : InsertionPoint) (loc : Z)
    (type : Ty) (operand : Value) (ir : IR) : Value * IR :=
  let new := freshOp ir in
  (OpResult new kind 0 type,
   {| operations :=
        <[new := {| opKind := kind; opLoc := loc; opOperands := [operand];
                    opAttrs := ∅; opRegions := [] |}]> (operations ir);
      blocks := place point new (blocks ir);
      diagnostics := diagnostics ir |}).

(** ** The pass *)

(** Whether a value is the result of one of the two wrapper operations:
    [isa<ArrayOp>(operand.getDefiningOp()) ||
     isa<AssignOp>(operand.getDefiningOp())]. *)
Definition definedByWrapper (val : Value) : bool :=
  match val with
  | OpResult _ (ArrayOp | AssignOp) _ _ => true
  | _ => false
  end.

Definition isBlockArgument (val : Value) : bool :=
  match val with BlockArgument _ _ _ => true | OpResult _ _ _ _ => false end.

Definition definedByConstant (val : Value) : bool :=
  match val with OpResult _ ConstantOp _ _ => true | _ => false end.

(** "Insert AssignOp": what the loop over the operands of the return does
    for the operand at [idx]; the builder stands before the return. *)
Definition insertAssignOp (returnOp : OpId) (idx : nat) (ir : IR) : IR :=
  match operations ir !! returnOp with
  | None => ir
  | Some o =>
      match opOperands o !! idx with
      | None => ir
      | Some operand =>
          if isBlockArgument operand || definedByConstant operand then
            let '(value, ir) :=
              create AssignOp (Before returnOp) (opLoc o) (getType operand)
                     operand ir in
            setOperand returnOp idx value ir
          else ir
      end
  end.

(** "Insert array operation and set attributes": the body of
    [if (insertArrayOp)], for the operand [operand] of an operation at [loc]. *)
Definition insertArrayOp (loc : Z) (operand : Value) (ir : IR) : IR :=
  let arrayOp := freshOp ir in
  let '(result, ir) :=
    create ArrayOp (insertionPointAfterValue operand) loc (getType operand)
           operand ir in
  let ir := replaceAllUsesExcept operand result arrayOp ir in
  (* Set array pragma attributes. *)
  let ir := setAttrIfAbsent arrayOp "interface" (BoolAttr false) ir in
  let ir := setAttrIfAbsent arrayOp "storage" (BoolAttr false) ir in
  setAttrIfAbsent arrayOp "partition" (BoolAttr false) ir.

(** The body of [for (auto operand : op->getOperands())], for the operand
    that is at index [i] when the loop reaches it. *)
Definition wrapOperand (op : OpId) (i : nat) (ir : IR) : IR :=
  match operations ir !! op with
  | None => ir
  | Some o =>
      match opOperands o !! i with
      | None => ir
      | Some operand =>
          if isShaped operand then
            let '(insert, ir) :=
              match operand with
              | BlockArgument _ _ _ => (true, ir)
              | OpResult def _ _ _ =>
                  if negb (definedByWrapper operand) then
                    (true,
                     if negb (hasStaticShape operand) then
                       emitError def
                         "is unranked or has dynamic shape which is illegal."
                         ir
                     else ir)
                  else (false, ir)
              end in
            let insert :=
              if decide (opKind o = ArrayOp) then false else insert in
            if insert then insertArrayOp (opLoc o) operand ir else ir
          else ir
      end
  end.

(** [forOp.getLoopBody().getBlocks()], [func.getBlocks()]: the blocks of the
    first region. *)
Definition getBlocks (o : Operation) : list BlockId :=
  default [] (head (opRegions o)).

(** The callback handed to [func.walk], run on the operation [op]. *)
Definition visit (op : OpId) (ir : IR) : IR :=
  match operations ir !! op with
  | None => ir
  | Some o =>
      let ir := fold_left (fun ir i => wrapOperand op i ir)
                          (seq 0 (length (opOperands o))) ir in
      if decide (opKind o = AffineForOp) then
        let ir :=
          if decide (length (getBlocks o) ≠ 1) then
            emitError op "has zero or more than one basic blocks" ir
          else ir in
        (* Set loop pragma attributes. *)
        let ir := setAttrIfAbsent op "pipeline" (BoolAttr false) ir in
        let ir := setAttrIfAbsent op "unroll" (BoolAttr false) ir in
        setAttrIfAbsent op "flatten" (BoolAttr false) ir
      else ir
  end.

(** The blocks of the regions of an operation, and the operations of a
    block. *)
Definition regionBlocks (ir : IR) (op : OpId) : list BlockId :=
  concat (default [] (opRegions <$> operations ir !! op)).

Definition blockOps (ir : IR) (block : BlockId) : list OpId :=
  default [] (blocks ir !! block).

(** The operations [op.walk] calls back on: those nested in the regions of
    [op], block by block, then [op] itself.  [None] when the nesting is
    deeper than [fuel], which a store whose regions loop back would cause. *)
Fixpoint walk (fuel : nat) (ir : IR) (op : OpId) : option (list OpId) :=
  match fuel with
  | O => None
  | S fuel' =>
      nested ←
        mapM (fun block =>
                (fun ls => concat ls) <$>
                  mapM (walk fuel' ir) (blockOps ir block))
             (regionBlocks ir op);
      Some (concat nested ++ [op])%list
  end.

(** The walk of a function: the nesting depth of a store is at most the
    number of operations in it. *)
Definition walkFunction (ir : IR) (func : OpId) : option (list OpId) :=
  walk (S (size (operations ir))) ir func.

(** The first part of the body of the loop of
    [ConvertToHLSCpp::runOnOperation], for the function [func]: the check of
    the blocks, the [dataflow] attribute and "Insert AssignOp".  [None]
    stands for what has no defined outcome: a function without a block or
    whose first block is empty. *)
Definition prepareFunction (func : OpId) (ir : IR) : option IR :=
  o ← operations ir !! func;
  let ir := if decide (length (getBlocks o) ≠ 1) then
              emitError func "has zero or more than one basic blocks." ir
            else ir in
  (* Set function pragma attributes. *)
  let ir := setAttr func "dataflow" (BoolAttr false) ir in
  (* Insert AssignOp. *)
  front ← head (getBlocks o);
  terminator ← blocks ir !! front ≫= last;
  t ← operations ir !! terminator;
  Some (if decide (opKind t = ReturnOp) then
          fold_left (fun ir idx => insertAssignOp terminator idx ir)
                    (seq 0 (length (opOperands t))) ir
        else emitError func "doesn't have a return as terminator." ir).

(** "Recursively convert every for loop body blocks": the callback is run on
    the operations of [order], in order. *)
Definition visitAll (order : list OpId) (ir : IR) : IR :=
  fold_left (fun ir op => visit op ir) order ir.

(** The body of the loop of [ConvertToHLSCpp::runOnOperation], for the
    function [func]; [None] also when the walk does not end.

    The operations of the walk are collected before the callback runs.  The
    callback only creates [ArrayOp]s, places them before the operation it is
    run on, and changes nothing when it is itself run on an [ArrayOp]. *)
Definition runOnFunction (func : OpId) (ir : IR) : option IR :=
  ir ← prepareFunction func ir;
  order ← walkFunction ir func;
  Some (visitAll order ir).

(** [for (auto func : getOperation().getOps<FuncOp>())], over the functions
    found in the body of the module when the pass starts. *)
Definition getFuncOps (module : OpId) (ir : IR) : list OpId :=
  filter (fun op => opKind <$> operations ir !! op = Some FuncOp)
         (concat (blockOps ir <$> regionBlocks ir module)).

Definition runOnOperation (module : OpId) (ir : IR) : option IR :=
  foldl (fun acc func => acc ≫= runOnFunction func) (Some ir)
        (getFuncOps module ir).

(** ** Notions used to state properties of the pass *)

(** An operand is wrapped when it is not array-typed or is the result of a
    wrapper. *)
Definition wrappedOperand (val : Value) : Prop :=
  isShaped val = true → definedByWrapper val = true.

(** An operation other than an [ArrayOp] has all its operands wrapped. *)
Definition operandsWrapped (o : Operation) : Prop :=
  opKind o ≠ ArrayOp → Forall wrappedOperand (opOperands o).

Definition isWrapperKind (kind : OpKind) : Prop :=
  kind = ArrayOp ∨ kind = AssignOp.

(** How the pass changes one operand: it leaves it, or redirects it to the
    result of a wrapper. *)
Definition redirected (val val' : Value) : Prop :=
  val' = val ∨ definedByWrapper val' = true.

(** How the walk changes the attributes of an operation: an attribute is
    left as it is, or was absent and is now [false]. *)
Definition defaulted (attrs attrs' : gmap string Attribute) : Prop :=
  ∀ name, attrs' !! name = attrs !! name
          ∨ (attrs !! name = None ∧ attrs' !! name = Some (BoolAttr false)).

(** An operation that is in [ir'] and was not in [ir]. *)
Definition created (ir ir' : IR) (op : OpId) : Prop :=
  operations ir !! op = None ∧ is_Some (operations ir' !! op).

(** How the pass changes the IR: operations keep their kind, place, regions
    and number of operands; operands are redirected to wrappers; attributes
    are defaulted; new operations are wrappers without regions; blocks only
    gain new operations, and end as before or with a new operation. *)
Record evolves (ir ir' : IR) : Prop := {
  evolves_old :
    ∀ id o, operations ir !! id = Some o →
      ∃ o', operations ir' !! id = Some o'
            ∧ opKind o' = opKind o ∧ opLoc o' = opLoc o
            ∧ opRegions o' = opRegions o
            ∧ Forall2 redirected (opOperands o) (opOperands o')
            ∧ defaulted (opAttrs o) (opAttrs o');
  evolves_new :
    ∀ id o', operations ir' !! id = Some o' → operations ir !! id = None →
      isWrapperKind (opKind o') ∧ opRegions o' = [];
  evolves_blocks :
    ∀ b, match blocks ir !! b, blocks ir' !! b with
         | Some l, Some l' =>
             (∀ x, x ∈ l' → x ∈ l ∨ created ir ir' x)
             ∧ (last l' = last l ∨ ∃ x, last l' = Some x ∧ created ir ir' x)
         | None, None => True
         | _, _ => False
         end;
}.

(** The operations created between [ir] and [ir'] are all [ArrayOp]s. *)
Definition createsArrayOps (ir ir' : IR) : Prop :=
  ∀ id o', operations ir' !! id = Some o' → operations ir !! id = None →
           opKind o' = ArrayOp.

(** What holds of an operation once the callback has run on it. *)
Definition annotated (o : Operation) : Prop :=
  operandsWrapped o
  ∧ (opKind o = AffineForOp →
     is_Some (opAttrs o !! "pipeline")
     ∧ is_Some (opAttrs o !! "unroll")
     ∧ is_Some (opAttrs o !! "flatten")).

(** A value that "Insert AssignOp" leaves alone: neither a block argument
    nor the result of a constant. *)
Definition settled (val : Value) : Prop :=
  isBlockArgument val || definedByConstant val = false.

(** [new] stands immediately after the point where [val] is defined: at the
    head of the block that owns a block argument, right after the operation
    that yields a result. *)
Definition placedAfterDefinition (val : Value) (new : OpId)
    (blks blks' : gmap BlockId (list OpId)) : Prop :=
  match val with
  | BlockArgument owner _ _ =>
      ∀ l, blks !! owner = Some l → blks' !! owner = Some (new :: l)
  | OpResult owner _ _ _ =>
      ∀ b l1 l2, blks !! b = Some (l1 ++ owner :: l2)%list → owner ∉ l1 →
                 blks' !! b = Some (l1 ++ owner :: new :: l2)%list
  end.

(** What the callback reports for one operand: the result of an operation
    that is array-typed, not the result of a wrapper and without static
    shape is reported at the operation that defines it. *)
Definition dynamicShapeErrors (operand : Value) : list (OpId * string) :=
  match operand with
  | BlockArgument _ _ _ => []
  | OpResult def _ _ _ =>
      if isShaped operand && negb (definedByWrapper operand)
         && negb (hasStaticShape operand)
      then [(def, "is unranked or has dynamic shape which is illegal.")]
      else []
  end.

(** Two states of the IR that differ at most in the diagnostics reported. *)
Definition sameCode (ir ir' : IR) : Prop :=
  operations ir = operations ir' ∧ blocks ir = blocks ir'.

(** The operations nested in [root]: [root] itself and, for each of them,
    the operations of the blocks of its regions.  This is read off the
    regions and the blocks of the store, without walking them. *)
Inductive nestedIn (ir : IR) (root : OpId) : OpId → Prop :=
  | nested_root : nestedIn ir root root
  | nested_step parent block x :
      nestedIn ir root parent →
      block ∈ regionBlocks ir parent → x ∈ blockOps ir block →
      nestedIn ir root x.

(** [w] is an [ArrayOp] of [ir] that wraps [val]: it takes [val], which is
    an array that no wrapper yields, and no other operation takes [val]. *)
Definition wraps (ir : IR) (w : OpId) (val : Value) : Prop :=
  (∃ o, operations ir !! w = Some o
        ∧ opKind o = ArrayOp ∧ opOperands o = [val])
  ∧ isShaped val = true ∧ definedByWrapper val = false
  ∧ ∀ id o, operations ir !! id = Some o → val ∈ opOperands o → id = w.

(** The operation that defines [val], when there is one, is in the store. *)
Definition definitionStored (ir : IR) (val : Value) : Prop :=
  match val with
  | BlockArgument _ _ _ => True
  | OpResult owner _ _ _ => is_Some (operations ir !! owner)
  end.

(** [w] stands after the point where [val] is defined, and only operations
    of [P] stand between that point and [w]: from the head of the block for
    a block argument, from the defining operation for a result. *)
Definition wrapperPlaced (P : OpId → Prop) (blks : gmap BlockId (list OpId))
    (val : Value) (w : OpId) : Prop :=
  match val with
  | BlockArgument owner _ _ =>
      ∀ l, blks !! owner = Some l →
           ∃ before after, l = (before ++ w :: after)%list ∧ Forall P before
  | OpResult owner _ _ _ =>
      ∀ b l, blks !! b = Some l → owner ∈ l →
             ∃ l1 between l2,
               l = (l1 ++ owner :: between ++ w :: l2)%list ∧ Forall P between
  end.

(** An [ArrayOp] of [ir'] that was not in [ir]. *)
Definition createdArrayOp (ir ir' : IR) (op : OpId) : Prop :=
  operations ir !! op = None
  ∧ ∃ o, operations ir' !! op = Some o ∧ opKind o = ArrayOp.

(** How the callback changes one operand between [ir1] and [ir]: it leaves
    it, or redirects it to the result of the [ArrayOp] that wraps it. *)
Definition redirectedTo (ir1 ir : IR) (val val' : Value) : Prop :=
  val' = val
  ∨ ∃ w, created ir1 ir w
         ∧ val' = OpResult w ArrayOp 0 (getType val) ∧ wraps ir w val.

(** How "Insert AssignOp" changes one operand: it leaves it, or redirects it
    to the result of a new [AssignOp]. *)
Definition assigned (ir : IR) (val val' : Value) : Prop :=
  val' = val
  ∨ ∃ a, operations ir !! a = None
         ∧ val' = OpResult a AssignOp 0 (getType val).

(** The state [ir] of the walk that started in [ir1]: every operation
    created since wraps a value and stands after its definition, and the
    operands of the operations of [ir1] are as they were or redirected to
    the wrapper of what they were. *)
Record tracks (ir1 ir : IR) : Prop := {
  tracks_evolves : evolves ir1 ir;
  tracks_new :
    ∀ w, created ir1 ir w →
      ∃ val, wraps ir w val
             ∧ (definitionStored ir1 val →
                wrapperPlaced (created ir1 ir) (blocks ir) val w);
  tracks_old :
    ∀ id o1, operations ir1 !! id = Some o1 →
      ∃ o, operations ir !! id = Some o
           ∧ Forall2 (redirectedTo ir1 ir) (opOperands o1) (opOperands o);
}.

(** ** A sample function

    [func @f(%A : memref<4xf32>, %x : f32) attributes {dataflow = true}]
    with the body [%2 = alloc() : memref<?xf32>], a loop carrying
    [pipeline = true] around a load of [%A] and a store to [%2], and
    [return %x, %A]. *)

Definition sampleOp (kind : OpKind) (operands : list Value)
    (attrs : gmap string Attribute) (regions : list (list BlockId))
    : Operation :=
  {| opKind := kind; opLoc := 0; opOperands := operands; opAttrs := attrs;
     opRegions := regions |}.

Definition sampleArray : Value := BlockArgument 0 0 (ShapedType true).
Definition sampleScalar : Value := BlockArgument 0 1 ScalarType.
Definition sampleBuffer : Value := OpResult 2 OtherOp 0 (ShapedType false).
Definition sampleInduction : Value := BlockArgument 1 0 ScalarType.

Definition sampleFunction : IR :=
  {| operations :=
       list_to_map
         [(0, sampleOp FuncOp [] {["dataflow" := BoolAttr true]} [[0]]);
          (2, sampleOp OtherOp [] ∅ []);
          (3, sampleOp AffineForOp [] {["pipeline" := BoolAttr true]} [[1]]);
          (4, sampleOp OtherOp [sampleArray; sampleInduction] ∅ []);
          (5, sampleOp OtherOp [sampleBuffer; sampleArray] ∅ []);
          (6, sampleOp ReturnOp [sampleScalar; sampleArray] ∅ [])];
     blocks := list_to_map [(0, [2; 3; 6]); (1, [4; 5])];
     diagnostics := [] |}.

(** The sample function after the pass. *)
Definition sampleConverted : IR :=
  default sampleFunction (runOnFunction 0 sampleFunction).

End Annotator.

(* ===================================================================== *)
(** * Properties of the band states and of tiling                         *)
(* ===================================================================== *)

Module DSEProofs.

Import DSE.

(** *** Band-state predicates *)

Lemma loopBandIsFrozen_spec (bandState : BandState) :
  loopBandIsFrozen bandState = true ↔ Forall (fun s => s = FROZEN) bandState.
Proof.
  induction bandState as [|s rest IH]; simpl.
  - split; [constructor | reflexivity].
  - destruct (decide (s ≠ FROZEN)) as [Hne|Heq].
    + split; [discriminate | intros H; inversion H; contradiction].
    + apply dec_stable in Heq. rewrite IH. split.
      * intros H; constructor; assumption.
      * intros H; inversion H; assumption.
Qed.

Lemma loopBandIsColdOrFrozen_spec (bandState : BandState) :
  loopBandIsColdOrFrozen bandState = true ↔ Forall (fun s => s ≠ HOT) bandState.
Proof.
  induction bandState as [|s rest IH]; simpl.
  - split; [constructor | reflexivity].
  - destruct (decide (s = HOT)) as [Heq|Hne].
    + split; [discriminate | intros H; inversion H; contradiction].
    + rewrite IH. split.
      * intros H; constructor; assumption.
      * intros H; inversion H; assumption.
Qed.

Lemma hotPositions_le_length (bandState : BandState) :
  hotPositions bandState ≤ length bandState.
Proof. apply count_occ_bound. Qed.

(** While the counter has room, the wrapping count is the exact count. *)
Lemma countHot_exact (bandState : BandState) (hotNum : Z) :
  (0 ≤ hotNum)%Z →
  (hotNum + Z.of_nat (length bandState) < UINT_MODULUS)%Z →
  countHot hotNum bandState = (hotNum + Z.of_nat (hotPositions bandState))%Z.
Proof.
  unfold countHot, hotPositions.
  revert hotNum; induction bandState as [|s rest IH]; intros hotNum H0 Hlt.
  - simpl. lia.
  - cbn [fold_left count_occ length] in *.
    destruct (decide (s = HOT)) as [->|Hne].
    + destruct (LoopState_eq_dec HOT HOT) as [_|]; [|contradiction].
      unfold wrapU. rewrite Z.mod_small by lia.
      rewrite IH by lia. lia.
    + destruct (LoopState_eq_dec s HOT) as [|_]; [contradiction|].
      rewrite IH by lia. lia.
Qed.

(** C2: for every band-state vector (a SmallVector, so of length below 2^32),
    [loopBandIsFrozen] holds iff every element is FROZEN,
    [loopBandIsColdOrFrozen] holds iff no element is HOT, and
    [loopBandIsOneHot] holds iff exactly one element is HOT. *)
Theorem band_state_predicates (bandState : BandState) :
  fitsSmallVector bandState →
  (loopBandIsFrozen bandState = true ↔ Forall (fun s => s = FROZEN) bandState)
  ∧ (loopBandIsColdOrFrozen bandState = true ↔
       Forall (fun s => s ≠ HOT) bandState)
  ∧ (loopBandIsOneHot bandState = true ↔ hotPositions bandState = 1).
Proof.
  intros Hfit. split; [apply loopBandIsFrozen_spec|].
  split; [apply loopBandIsColdOrFrozen_spec|].
  unfold loopBandIsOneHot, fitsSmallVector in *.
  rewrite countHot_exact by lia.
  destruct (decide (0 + Z.of_nat (hotPositions bandState) = 1)%Z); split;
    intros; try lia; try discriminate; reflexivity.
Qed.

Lemma band_state_predicates_witness :
  let bandState := [COLD; HOT; FROZEN] in
  fitsSmallVector bandState
  ∧ (loopBandIsFrozen bandState = true ↔ Forall (fun s => s = FROZEN) bandState)
  ∧ (loopBandIsColdOrFrozen bandState = true ↔
       Forall (fun s => s ≠ HOT) bandState)
  ∧ (loopBandIsOneHot bandState = true ↔ hotPositions bandState = 1).
Proof.
  assert (Hfit : fitsSmallVector [COLD; HOT; FROZEN]) by (vm_compute; reflexivity).
  split; [exact Hfit|].
  exact (band_state_predicates [COLD; HOT; FROZEN] Hfit).
Defined.

(** *** Tiling *)

Lemma ceilDiv_spec (N F : nat) :
  0 < F → (ceilDiv N F - 1) * F < N + F ∧ N ≤ ceilDiv N F * F.
Proof.
  intros HF. unfold ceilDiv.
  pose proof (Nat.div_mod_eq (N + F - 1) F) as Hdm.
  pose proof (Nat.mod_upper_bound (N + F - 1) F ltac:(lia)) as Hmod.
  set (q := (N + F - 1) / F) in *. set (r := (N + F - 1) mod F) in *.
  split; nia.
Qed.

(** The first [k] tiles enumerate the first [min (k*F) N] indices. *)
Lemma tiles_prefix (F N k : nat) :
  0 < F →
  flat_map (fun o => map (fun i => o * F + i) (seq 0 (Nat.min F (N - o * F))))
           (seq 0 k)
  = seq 0 (Nat.min (k * F) N).
Proof.
  intros HF. induction k as [|k IH].
  - reflexivity.
  - rewrite seq_S, flat_map_app, IH. cbn [flat_map Nat.add].
    rewrite app_nil_r.
    assert (Hshift : ∀ base len start,
               map (fun i => base + i) (seq start len) = seq (base + start) len).
    { intros base len. induction len as [|len IHlen]; intros start.
      - reflexivity.
      - cbn [seq map]. f_equal. rewrite IHlen. f_equal. lia. }
    rewrite Hshift, Nat.add_0_r.
    destruct (le_lt_dec N (k * F)) as [Hle|Hlt].
    + replace (Nat.min (k * F) N) with N by lia.
      replace (Nat.min F (N - k * F)) with 0 by lia.
      replace (Nat.min (S k * F) N) with N by lia.
      cbn [seq]. apply app_nil_r.
    + replace (Nat.min (k * F) N) with (k * F) by lia.
      replace (Nat.min (S k * F) N) with (k * F + Nat.min F (N - k * F)) by lia.
      symmetry. apply seq_app.
Qed.

(** C1: for a loop of statically known trip count [N] and a factor [F] with
    [1 <= F <= N], [tile] yields an outer loop of trip count [ceil(N/F)] whose
    inner loops have trip count at most [F], and the tiled nest enumerates
    exactly the indices of the untiled loop in the same order; [tile] fails
    when the factor is not positive or the trip count is not known. *)
Theorem tile_correct (N : nat) (F : Z) :
  (1 ≤ F ≤ Z.of_nat N)%Z →
  (∃ t, tile {| tripCount := Some N |} F = Some t
        ∧ outerTripCount t = ceilDiv N (Z.to_nat F)
        ∧ (∀ o, innerTripCount t o ≤ Z.to_nat F)
        ∧ tiledIterations t = iterations N)
  ∧ (∀ loop (factor : Z), (factor ≤ 0)%Z → tile loop factor = None)
  ∧ (∀ factor : Z, tile {| tripCount := None |} factor = None).
Proof.
  intros [HF1 HFN]. split; [|split].
  - unfold tile; cbn [tripCount].
    destruct (decide (F ≤ 0)%Z) as [Hneg|_]; [lia|].
    eexists; split; [reflexivity|]. cbn [outerTripCount].
    split; [reflexivity|]. split.
    + intros o. unfold innerTripCount; cbn. lia.
    + unfold tiledIterations, innerTripCount, iterations.
      cbn [tileFactor totalTripCount outerTripCount].
      rewrite tiles_prefix by lia.
      pose proof (ceilDiv_spec N (Z.to_nat F) ltac:(lia)) as [_ Hcover].
      f_equal. lia.
  - intros [[n|]] factor Hneg; unfold tile; cbn [tripCount]; [|reflexivity].
    destruct (decide (factor ≤ 0)%Z); [reflexivity|contradiction].
  - reflexivity.
Qed.

Lemma tile_correct_witness :
  (1 ≤ 4 ≤ Z.of_nat 10)%Z
  ∧ ∃ t, tile {| tripCount := Some 10 |} 4 = Some t
         ∧ outerTripCount t = 3
         ∧ tiledIterations t = [0; 1; 2; 3; 4; 5; 6; 7; 8; 9].
Proof.
  assert (H : (1 ≤ 4 ≤ Z.of_nat 10)%Z) by lia.
  split; [exact H|].
  destruct (proj1 (tile_correct 10 4 H)) as (t & Ht & Hout & _ & Hiter).
  exists t. split; [exact Ht|]. split; [exact Hout|exact Hiter].
Defined.

(** *** How the band-state predicates relate *)

Lemma countHot_cold (bandState : BandState) (hotNum : Z) :
  loopBandIsColdOrFrozen bandState = true → countHot hotNum bandState = hotNum.
Proof.
  unfold countHot. revert hotNum.
  induction bandState as [|s rest IH]; intros hotNum; cbn [fold_left]; [auto|].
  cbn [loopBandIsColdOrFrozen]. destruct (decide (s = HOT)); [discriminate|].
  apply IH.
Qed.

Lemma cold_iff_no_hot (bandState : BandState) :
  loopBandIsColdOrFrozen bandState = true ↔ hotPositions bandState = 0.
Proof.
  rewrite loopBandIsColdOrFrozen_spec. unfold hotPositions.
  rewrite <- count_occ_not_In, Forall_forall. split.
  - intros Hall Hin. apply list_elem_of_In in Hin. now apply (Hall HOT).
  - intros Hnot s Hs ->. apply Hnot. now apply list_elem_of_In.
Qed.

(** X1: whatever the length of the band, a frozen band is cold-or-frozen, a
    one-hot band is not cold-or-frozen, and a frozen band is not one-hot; the
    empty band is frozen and cold-or-frozen but not one-hot. *)
Theorem band_predicates_exclude (bandState : BandState) :
  (loopBandIsFrozen bandState = true → loopBandIsColdOrFrozen bandState = true)
  ∧ (loopBandIsOneHot bandState = true →
     loopBandIsColdOrFrozen bandState = false)
  ∧ (loopBandIsFrozen bandState = true → loopBandIsOneHot bandState = false)
  ∧ loopBandIsFrozen [] = true
  ∧ loopBandIsColdOrFrozen [] = true
  ∧ loopBandIsOneHot [] = false.
Proof.
  assert (Hfrozen : loopBandIsFrozen bandState = true →
                    loopBandIsColdOrFrozen bandState = true).
  { rewrite loopBandIsFrozen_spec, loopBandIsColdOrFrozen_spec.
    intros Hall. eapply Forall_impl; [exact Hall|]. intros s ->. discriminate. }
  assert (Hcold : loopBandIsColdOrFrozen bandState = true →
                  loopBandIsOneHot bandState = false).
  { intros Hc. unfold loopBandIsOneHot. rewrite countHot_cold by assumption.
    reflexivity. }
  split; [exact Hfrozen|]. split; [|split; [|repeat split]].
  - intros Hone. destruct (loopBandIsColdOrFrozen bandState) eqn:Hc; [|reflexivity].
    rewrite Hcold in Hone by reflexivity. discriminate.
  - intros Hf. apply Hcold, Hfrozen, Hf.
Qed.

Lemma band_predicates_exclude_witness :
  loopBandIsFrozen [FROZEN; FROZEN] = true
  ∧ loopBandIsColdOrFrozen [FROZEN; FROZEN] = true
  ∧ loopBandIsOneHot [FROZEN; FROZEN] = false
  ∧ loopBandIsOneHot [COLD; HOT] = true
  ∧ loopBandIsColdOrFrozen [COLD; HOT] = false.
Proof.
  assert (Hf : loopBandIsFrozen [FROZEN; FROZEN] = true) by reflexivity.
  assert (Hh : loopBandIsOneHot [COLD; HOT] = true) by reflexivity.
  pose proof (band_predicates_exclude [FROZEN; FROZEN]) as (H1 & _ & H3 & _).
  pose proof (band_predicates_exclude [COLD; HOT]) as (_ & H2 & _).
  split; [exact Hf|]. split; [exact (H1 Hf)|]. split; [exact (H3 Hf)|].
  split; [exact Hh|exact (H2 Hh)].
Defined.

(** X2: on two bands put end to end, [loopBandIsFrozen] and
    [loopBandIsColdOrFrozen] hold iff they hold of both parts, and, while the
    whole fits a SmallVector, [loopBandIsOneHot] holds iff one part is
    one-hot and the other is cold-or-frozen. *)
Theorem band_predicates_on_concatenation (outer inner : BandState) :
  loopBandIsFrozen (outer ++ inner)
  = loopBandIsFrozen outer && loopBandIsFrozen inner
  ∧ loopBandIsColdOrFrozen (outer ++ inner)
    = loopBandIsColdOrFrozen outer && loopBandIsColdOrFrozen inner
  ∧ (fitsSmallVector (outer ++ inner) →
     loopBandIsOneHot (outer ++ inner)
     = (loopBandIsOneHot outer && loopBandIsColdOrFrozen inner)
       || (loopBandIsColdOrFrozen outer && loopBandIsOneHot inner)).
Proof.
  split; [|split].
  - induction outer as [|s outer IH]; cbn [app loopBandIsFrozen]; [reflexivity|].
    destruct (decide (s ≠ FROZEN)); [reflexivity|exact IH].
  - induction outer as [|s outer IH]; cbn [app loopBandIsColdOrFrozen];
      [reflexivity|].
    destruct (decide (s = HOT)); [reflexivity|exact IH].
  - unfold fitsSmallVector. rewrite length_app, Nat2Z.inj_add. intros Hfit.
    assert (Hone : ∀ b : BandState, (Z.of_nat (length b) < UINT_MODULUS)%Z →
              loopBandIsOneHot b = bool_decide (hotPositions b = 1)).
    { intros b Hb. unfold loopBandIsOneHot. rewrite countHot_exact by lia.
      destruct (decide (0 + Z.of_nat (hotPositions b) = 1)%Z);
        [rewrite bool_decide_eq_true_2|rewrite bool_decide_eq_false_2]; lia. }
    assert (Hcold : ∀ b : BandState,
              loopBandIsColdOrFrozen b = bool_decide (hotPositions b = 0)).
    { intros b. destruct (loopBandIsColdOrFrozen b) eqn:Hc.
      - apply cold_iff_no_hot in Hc. now rewrite bool_decide_eq_true_2.
      - rewrite bool_decide_eq_false_2; [reflexivity|].
        intros Hz. apply cold_iff_no_hot in Hz. congruence. }
    rewrite !Hone, !Hcold by (rewrite ?length_app; lia).
    unfold hotPositions. rewrite count_occ_app.
    repeat case_bool_decide; try reflexivity; lia.
Qed.

Lemma band_predicates_on_concatenation_witness :
  fitsSmallVector ([COLD; HOT] ++ [FROZEN])
  ∧ loopBandIsOneHot ([COLD; HOT] ++ [FROZEN])
    = (loopBandIsOneHot [COLD; HOT] && loopBandIsColdOrFrozen [FROZEN])
      || (loopBandIsColdOrFrozen [COLD; HOT] && loopBandIsOneHot [FROZEN]).
Proof.
  assert (Hfit : fitsSmallVector ([COLD; HOT] ++ [FROZEN]))
    by (vm_compute; reflexivity).
  split; [exact Hfit|].
  exact (proj2 (proj2 (band_predicates_on_concatenation [COLD; HOT] [FROZEN]))
           Hfit).
Defined.


End DSEProofs.

(* ===================================================================== *)
(** * Properties of the emitter                                           *)
(* ===================================================================== *)

Module EmitterProofs.

Import Emitter.

Local Open Scope string_scope.

(** ** Strings and the emission monad *)

Lemma append_assoc (a b c : string) : (a +:+ b) +:+ c = a +:+ (b +:+ c).
Proof.
  induction a as [|ch a IH]; [reflexivity|].
  change (String ch ((a +:+ b) +:+ c) = String ch (a +:+ (b +:+ c))).
  f_equal. exact IH.
Qed.

Lemma append_nil_r (a : string) : a +:+ "" = a.
Proof.
  induction a as [|ch a IH]; [reflexivity|].
  change (String ch (a +:+ "") = String ch a).
  f_equal. exact IH.
Qed.

Lemma bind_Done {A B} (m : Emit A) (k : A → Emit B) st a st' :
  m st = Done a st' → (m ≫= k) st = k a st'.
Proof. intros Hm. unfold mbind, Emit_bind. now rewrite Hm. Qed.

Lemma bind_Stopped {A B} (m : Emit A) (k : A → Emit B) st why st' :
  m st = Stopped why st' → (m ≫= k) st = Stopped why st'.
Proof. intros Hm. unfold mbind, Emit_bind. now rewrite Hm. Qed.

Lemma bind_assoc {A B C} (m : Emit A) (k : A → Emit B) (h : B → Emit C) st :
  ((m ≫= k) ≫= h) st = (m ≫= fun a => k a ≫= h) st.
Proof. unfold mbind, Emit_bind. now destruct (m st). Qed.

Lemma write_appendOs text st : write text st = Done tt (appendOs st text).
Proof. reflexivity. Qed.

Lemma appendOs_appendOs st a b :
  appendOs (appendOs st a) b = appendOs st (a +:+ b).
Proof. unfold appendOs; simpl. now rewrite append_assoc. Qed.

Lemma appendOs_nil st : appendOs st "" = st.
Proof. destruct st; unfold appendOs; simpl. now rewrite append_nil_r. Qed.

Section Properties.

Context `{Externals}.

(** ** Literals for scalar constants *)

Lemma floatText_nonempty (printFinite : spec_float → string) value :
  isfinite value = false → isEmpty (floatText printFinite value) = false.
Proof.
  intros Hfin. unfold floatText. rewrite Hfin.
  now destruct (isPositive value).
Qed.

Lemma floatText_nan printFinite : floatText printFinite S754_nan = "-INFINITY".
Proof. reflexivity. Qed.

(** A value that [getName] renders by a non-empty text is written by
    [emitValue] as that text, and the name table is left alone. *)
Lemma emitValue_declared val st :
  isDeclared st val = true →
  emitValue val 0 false st = Done tt (appendOs st (getName st val)).
Proof.
  intros Hdecl. unfold emitValue, mbind, Emit_bind, getState.
  cbn [assert Nat.eqb negb andb mret Emit_ret].
  rewrite Hdecl. reflexivity.
Qed.

(** C9: a scalar float constant whose value is NaN is rendered as
    [-INFINITY]: by [getName], hence wherever [emitValue] writes the
    constant, and as an element of a dense initialiser of element type f32 or
    f64; for any other element type a NaN element writes nothing at all. *)
Theorem nan_rendered_as_negative_infinity :
  (∀ st id type,
     getName st (constantValue id type (FloatAttr S754_nan)) = "-INFINITY")
  ∧ (∀ st id type,
       emitValue (constantValue id type (FloatAttr S754_nan)) 0 false st
       = Done tt (appendOs st "-INFINITY"))
  ∧ (∀ op st,
       emitDenseElement op Float32Type (FloatAttr S754_nan) st
       = Done tt (appendOs st "-INFINITY")
       ∧ emitDenseElement op Float64Type (FloatAttr S754_nan) st
         = Done tt (appendOs st "-INFINITY"))
  ∧ (∀ op type st,
       let st' := finalState (emitDenseElement op type (FloatAttr S754_nan) st)
       in os st' = os st +:+ "-INFINITY" ∨ os st' = os st).
Proof.
  split; [reflexivity|]. split; [|split].
  - intros st id type. now rewrite emitValue_declared.
  - intros op st. split; reflexivity.
  - intros op type st. unfold emitDenseElement.
    destruct (isF32 type || isF64 type); [left; reflexivity|].
    destruct (isInteger1 type); [right; reflexivity|].
    destruct (isIntOrIndex type); right; reflexivity.
Qed.

(** ** Names from the table *)

Lemma addName_undeclared val isPtr st :
  isDeclared st val = false →
  addName val isPtr st
  = Done (indexedName isPtr (size (nameTable st)))
         (withName st val (indexedName isPtr (size (nameTable st)))).
Proof.
  intros Hdecl. unfold addName, mbind, Emit_bind, getState.
  rewrite Hdecl. reflexivity.
Qed.

(** ** The name table along a run *)

Lemma forEach_app {A} (f : A → Emit unit) (l1 l2 : list A) st :
  forEach f (l1 ++ l2)%list st = (forEach f l1 ;; forEach f l2) st.
Proof.
  revert st. induction l1 as [|a l1 IH]; intros st.
  - reflexivity.
  - cbn [forEach app]. change (forEach f (l1 ++ l2)%list) with
      ((fix go (l : list A) : Emit unit :=
          match l with [] => mret tt | a :: rest => f a ;; go rest end)
         (l1 ++ l2)%list).
    unfold mbind, Emit_bind. destruct (f a st) as [[] st1|why st1]; [|reflexivity].
    apply IH.
Qed.

Lemma indexedName_inj isPtr isPtr' (n n' : nat) :
  indexedName isPtr n = indexedName isPtr' n' → n = n'.
Proof.
  unfold indexedName. destruct isPtr, isPtr'; intros Heq.
  - change ("*val" +:+ pretty n = "*val" +:+ pretty n') in Heq.
    apply (inj (String.append "*val")) in Heq.
    now apply (inj pretty) in Heq.
  - discriminate Heq.
  - discriminate Heq.
  - change ("val" +:+ pretty n = "val" +:+ pretty n') in Heq.
    apply (inj (String.append "val")) in Heq.
    now apply (inj pretty) in Heq.
Qed.

Lemma indexedName_nonempty isPtr n : indexedName isPtr n ≠ "".
Proof. unfold indexedName. destruct isPtr; discriminate. Qed.

Lemma getName_table st val :
  isScalarConstant val = false →
  getName st val = default "" (nameTable st !! valueId val).
Proof.
  unfold isScalarConstant, getName.
  destruct (valueDef val) as [|[f|z|b|l|]|]; intros Hc;
    try discriminate; reflexivity.
Qed.


Lemma isEmpty_true s : isEmpty s = true ↔ s = "".
Proof. destruct s; split; intros; (reflexivity || discriminate). Qed.

Lemma isDeclared_false st val :
  isDeclared st val = false ↔ getName st val = "".
Proof.
  unfold isDeclared. rewrite <- isEmpty_true.
  destruct (isEmpty (getName st val)); split; intros; (reflexivity || discriminate).
Qed.


(** One more call keeps the invariant. *)
(** ** What [emitValue] writes *)

Lemma forEach_write {A} (g : A → string) (l : list A) st :
  forEach (fun a => write (g a)) l st
  = Done tt (appendOs st (foldr (fun a acc => g a +:+ acc) "" l)).
Proof.
  revert st. induction l as [|a l IH]; intros st; cbn [forEach foldr].
  - now rewrite appendOs_nil.
  - unfold mbind, Emit_bind. rewrite write_appendOs.
    change ((fix go (l0 : list A) : Emit unit :=
               match l0 with
               | [] => mret tt
               | a0 :: rest => write (g a0) ;; go rest
               end) l) with (forEach (fun a => write (g a)) l).
    now rewrite IH, appendOs_appendOs.
Qed.

Lemma writeIndices_text rank st :
  writeIndices rank st = Done tt (appendOs st (indicesText rank)).
Proof. unfold writeIndices, indicesText. apply forEach_write. Qed.

Lemma isDeclared_ext st st1 val :
  nameTable st1 = nameTable st → isDeclared st1 val = isDeclared st val.
Proof. intros Heq. unfold isDeclared, getName. now rewrite Heq. Qed.

Lemma emitType_supported val t text st :
  elementTypeText t = Some text → emitType val t st = Done tt (appendOs st text).
Proof.
  destruct t as [| | |width signedness| |]; cbn [elementTypeText emitType];
    intros [= <-]; try reflexivity.
  destruct (width =? 1)%Z; [reflexivity|].
  unfold mbind, Emit_bind. rewrite write_appendOs.
  destruct signedness; cbn [when]; unfold mret, Emit_ret;
    rewrite ?write_appendOs, ?appendOs_appendOs; reflexivity.
Qed.

Lemma emitType_effect val t st st1 :
  emitType val t st = Done tt st1 →
  nameTable st1 = nameTable st ∧ ∃ pre, os st1 = os st +:+ pre.
Proof.
  destruct (elementTypeText t) as [text|] eqn:Htext.
  - rewrite (emitType_supported _ _ _ _ Htext). intros [= <-].
    split; [reflexivity|]. now exists text.
  - assert (Herr : emitType val t = emitErrorAtDefiningOp val "has unsupported type.")
      by (destruct t; try discriminate; reflexivity).
    rewrite Herr. unfold emitErrorAtDefiningOp, mbind, Emit_bind.
    cbn [setEncounteredError].
    destruct (valueDef val); try discriminate;
      intros [= <-]; (split; [reflexivity|]); exists "";
      cbn; now rewrite append_nil_r.
Qed.

Lemma emitValue_undeclared val rank isPtr st st1 :
  negb (negb (rank =? 0)%nat && isPtr) = true →
  isDeclared st val = false →
  emitType val (writtenType val) st = Done tt st1 →
  let name := indexedName isPtr (size (nameTable st)) in
  emitValue val rank isPtr st
  = Done tt (appendOs (withName st1 val name) (name +:+ indicesText rank)).
Proof.
  intros Hassert Hdecl Htype name.
  destruct (emitType_effect _ _ _ _ Htype) as [Htable _].
  unfold emitValue, mbind, Emit_bind, getState.
  rewrite Hassert. cbn [assert mret Emit_ret]. rewrite Hdecl.
  fold (writtenType val). rewrite Htype.
  rewrite addName_undeclared by (now rewrite (isDeclared_ext st st1)).
  rewrite Htable. fold name.
  rewrite write_appendOs, writeIndices_text. now rewrite appendOs_appendOs.
Qed.

Lemma emitValue_declared_rank val rank st :
  isDeclared st val = true →
  emitValue val rank false st
  = Done tt (appendOs st (getName st val +:+ indicesText rank)).
Proof.
  intros Hdecl. unfold emitValue, mbind, Emit_bind, getState.
  rewrite andb_false_r. cbn [assert negb mret Emit_ret]. rewrite Hdecl.
  rewrite write_appendOs, writeIndices_text. now rewrite appendOs_appendOs.
Qed.

(** ** Loops and the pipeline directive *)

Lemma bind_inv {A B} (m : Emit A) (k : A → Emit B) st b st1 :
  (m ≫= k) st = Done b st1 →
  ∃ a st0, m st = Done a st0 ∧ k a st0 = Done b st1.
Proof.
  unfold mbind, Emit_bind. destruct (m st) as [a st0|]; [|discriminate].
  eauto.
Qed.

Lemma emitInfoAndNewLine_text info st :
  emitInfoAndNewLine info st = Done tt (appendOs st (infoText info)).
Proof.
  assert (Hgen : ∀ s, ∃ text,
             emitInfoAndNewLine info s = Done tt (appendOs s text)
             ∧ emitInfoAndNewLine info initialState
               = Done tt (appendOs initialState text)).
  { intros s. unfold emitInfoAndNewLine, mbind, Emit_bind.
    rewrite !write_appendOs.
    destruct (opLoc info);
      destruct (getIntegerAttr info "schedule_begin");
      destruct (getIntegerAttr info "schedule_end");
      destruct (getIntegerAttr info "iter_latency");
      destruct (getIntegerAttr info "ii");
      unfold mret, Emit_ret;
      rewrite ?write_appendOs, ?appendOs_appendOs;
      eexists; split; reflexivity. }
  destruct (Hgen st) as (text & -> & Hinit).
  unfold infoText. rewrite Hinit. cbn [finalState appendOs os].
  reflexivity.
Qed.

Lemma emitPipelinePragma_text info st :
  emitPipelinePragma info st
  = Done tt (appendOs st (pipelinePragmaLine info (currentIndent st))).
Proof.
  unfold emitPipelinePragma, pipelinePragmaLine.
  destruct (getIntAttrValue info "pipeline" =? 0)%Z; cbn [negb when].
  - unfold mret, Emit_ret. now rewrite appendOs_nil.
  - unfold indent, mbind, Emit_bind, getState.
    now rewrite !write_appendOs, appendOs_appendOs.
Qed.

Lemma indent_text st :
  indent st = Done tt (appendOs st (spaces (Z.to_nat (currentIndent st)))).
Proof. reflexivity. Qed.

Lemma addIndent_state st :
  addIndent st = Done tt (withIndent st (wrapU (currentIndent st + 2))).
Proof. reflexivity. Qed.

(** A loop is its head, then the step inward, the pipeline line and the
    body. *)
Lemma loopShape_intro info (emitHead : Emit unit)
    (emitLoop : Emit unit → Emit unit) :
  (∀ st st1, emitHead st = Done tt st1 →
             ∃ prefix, os st1 = prefix +:+ ") {" +:+ infoText info) →
  (∀ emitBody st,
     emitLoop emitBody st
     = (emitHead ;; addIndent ;; emitPipelinePragma info ;; emitBody ;;
        reduceIndent ;; indent ;; write ("}" +:+ newline)) st) →
  loopShape info emitHead emitLoop.
Proof.
  intros Hhead Hloop emitBody st.
  destruct (emitHead st) as [[] st1|why st1] eqn:Hrun.
  - split; [now apply (Hhead st)|].
    rewrite Hloop. rewrite (bind_Done _ _ _ _ _ Hrun).
    unfold mbind at 1, Emit_bind at 1. rewrite addIndent_state.
    unfold mbind at 1, Emit_bind at 1. rewrite emitPipelinePragma_text.
    reflexivity.
  - rewrite Hloop. now rewrite (bind_Stopped _ _ _ _ _ Hrun).
Qed.

Lemma brace_and_info info (last : string) st st1 :
  (write (last +:+ ") {") ;; emitInfoAndNewLine info) st = Done tt st1 →
  ∃ prefix, os st1 = prefix +:+ ") {" +:+ infoText info.
Proof.
  unfold mbind, Emit_bind.
  rewrite write_appendOs, emitInfoAndNewLine_text. intros [= <-].
  exists (os st +:+ last). cbn [appendOs os]. now rewrite !append_assoc.
Qed.

(** C5: for an affine loop and for an scf loop alike, the line
    [#pragma HLS pipeline II=<target_ii>] is written right after the line of
    the opening brace, at the indentation of the body and before anything of
    the body, exactly when the pipeline attribute of the loop is set; a loop
    whose pipeline attribute is not set gets no such line. *)
Theorem pipeline_pragma_opens_loop_body :
  (∀ info iterVar lowerMap lowerOperands upperMap upperOperands step,
     loopShape info
       (emitAffineForHead info iterVar lowerMap lowerOperands
                          upperMap upperOperands step)
       (emitAffineFor info iterVar lowerMap lowerOperands
                      upperMap upperOperands step))
  ∧ (∀ info iterVar lowerBound upperBound step,
       loopShape info
         (emitScfForHead info iterVar lowerBound upperBound step)
         (emitScfFor info iterVar lowerBound upperBound step))
  ∧ (∀ info indentation,
       pipelinePragmaLine info indentation
       = if (getIntAttrValue info "pipeline" =? 0)%Z then ""
         else spaces (Z.to_nat indentation) +:+ "#pragma HLS pipeline II=" +:+
              pretty (getIntAttrValue info "target_ii") +:+ newline).
Proof.
  split; [|split].
  - intros info iterVar lowerMap lowerOperands upperMap upperOperands step.
    apply loopShape_intro; [|reflexivity].
    intros st st1 Hrun. unfold emitAffineForHead in Hrun.
    do 11 (apply bind_inv in Hrun as (? & ? & _ & Hrun)).
    exact (brace_and_info info (" += " +:+ pretty step) _ _ Hrun).
  - intros info iterVar lowerBound upperBound step.
    apply loopShape_intro; [|reflexivity].
    intros st st1 Hrun. unfold emitScfForHead in Hrun.
    do 13 (apply bind_inv in Hrun as (? & ? & _ & Hrun)).
    exact (brace_and_info info "" _ _ Hrun).
  - reflexivity.
Qed.


(** ** Unmatched operations *)

Lemma emitBlock_cons op rest st :
  emitBlock (op :: rest) st = (emitOperation op ;; emitBlock rest) st.
Proof. reflexivity. Qed.

Lemma emitOperation_OtherOp name info operands results regions :
  emitOperation (OtherOp name info operands results regions)
  = emitBlockStep (mret tt) (OtherOp name info operands results regions).
Proof. reflexivity. Qed.

(** C6 at the failing input: an operation that no dispatcher matches and
    that is not in the catalogue of the HLSKernel visitor (here [SplatOp], or
    any operation of another dialect) ends the process in [abort()]: the
    failure flag is not raised, nothing is written, and the operations that
    follow in the block are never reached.  Only an operation of the
    HLSKernel catalogue that [IPVisitor] does not handle (here [SymmOp]) gets
    the error of [emitBlock], after which emission goes on with the rest. *)
Theorem unmatched_operation_aborts info operands results regions rest st :
  (∀ name, name = SplatOp ∨ (∃ dialectOp, name = ForeignOp dialectOp) →
     let op := OtherOp name info operands results regions in
     emitBlock (op :: rest) st
     = Stopped AbortCalled (withDiagnostic st op "is unsupported operation."))
  ∧ (let op := OtherOp SymmOp info operands results regions in
     emitBlock (op :: rest) st
     = emitBlock rest (withError st op "can't be correctly emitted.")).
Proof.
  split.
  - intros name [->|[dialectOp ->]]; reflexivity.
  - reflexivity.
Qed.



(** ** Array declarations *)

Lemma extents_written (dims : list Z) st :
  forEach (fun shape : Z => write ("[" +:+ pretty shape +:+ "]")) dims st
  = Done tt (appendOs st (extentsText dims)).
Proof.
  rewrite forEach_write. unfold extentsText. do 2 f_equal.
  induction dims as [|d dims IH]; [reflexivity|].
  cbn [foldr]. rewrite IH. now rewrite !append_assoc.
Qed.

Lemma emitArrayDecl_text result typeText st :
  isShaped (valueType result) = true →
  elementTypeText (writtenType result) = Some typeText →
  isDeclared st result = false →
  let count := size (nameTable st) in
  let name := indexedName (negb (hasStaticShape (valueType result))) count in
  emitArrayDecl result st
  = Done tt (appendOs (withName st result name)
                      (declarationText typeText result count)).
Proof.
  intros Hshaped Htype Hdecl count name.
  unfold emitArrayDecl, mbind at 1 2 3, Emit_bind at 1 2 3, getState.
  rewrite Hdecl, Hshaped. cbn [negb assert mret Emit_ret].
  unfold declarationText. subst name.
  destruct (hasStaticShape (valueType result)); cbn [negb].
  - unfold mbind, Emit_bind.
    rewrite (emitValue_undeclared result 0 false st (appendOs st typeText))
      by (auto using emitType_supported).
    rewrite extents_written, appendOs_appendOs.
    unfold indicesText; cbn [seq foldr]. rewrite append_nil_r.
    unfold appendOs, withName; cbn. now rewrite !append_assoc.
  - rewrite (emitValue_undeclared result 0 true st (appendOs st typeText))
      by (auto using emitType_supported).
    unfold indicesText; cbn [seq foldr]. rewrite append_nil_r.
    unfold appendOs, withName; cbn. now rewrite !append_assoc.
Qed.

(** [emitBlock] hands an allocation to [emitAlloc]. *)
Lemma emitOperation_alloc info result st :
  emitOperation (AllocOp info result) st
  = emitAlloc (AllocOp info result) info result st
  ∧ emitOperation (AllocaOp info result) st
    = emitAlloc (AllocaOp info result) info result st.
Proof.
  split; cbn [emitOperation]; unfold emitBlockStep, mbind, Emit_bind;
    cbn [exprDispatch stmtDispatch mret Emit_ret];
    unfold mbind, Emit_bind;
    match goal with |- context [emitAlloc ?o ?i ?r ?s] =>
      destruct (emitAlloc o i r s) as [[] ?|]; reflexivity end.
Qed.

End Properties.

(** ** Runs of the emitter on concrete inputs *)

Lemma unmatched_operation_aborts_witness :
  let op := OtherOp SplatOp plainInfo [] [] [] in
  let r := emitBlock (H := sampleExternals)
             [op; AllocOp plainInfo memrefValue] initialState in
  (SplatOp = SplatOp ∨ ∃ dialectOp, SplatOp = ForeignOp dialectOp)
  ∧ r = Stopped AbortCalled
          (withDiagnostic initialState op "is unsupported operation.")
  ∧ encounteredError (finalState r) = false
  ∧ os (finalState r) = "".
Proof.
  intros op r.
  assert (Hname : SplatOp = SplatOp ∨ ∃ dialectOp, SplatOp = ForeignOp dialectOp)
    by (left; reflexivity).
  pose proof (proj1 (unmatched_operation_aborts (H := sampleExternals)
                       plainInfo [] [] [] [AllocOp plainInfo memrefValue]
                       initialState) SplatOp Hname) as Hrun.
  cbv zeta in Hrun. subst r op.
  split; [exact Hname|]. split; [exact Hrun|].
  rewrite Hrun. split; reflexivity.
Defined.

(** C7 as stated fails: for an on-chip array with a dynamic dimension the
    error is reported, and the output nevertheless holds a declaration of the
    array without extents, followed by its resource pragma. *)
Lemma dynamic_array_is_declared_as_pointer :
  let op := AllocOp plainInfo dynamicOnChipArray in
  let st := finalState (emitBlock (H := sampleExternals) [op] initialState) in
  hasStaticShape (valueType dynamicOnChipArray) = false
  ∧ getMemorySpace (valueType dynamicOnChipArray) = BRAM_1P
  ∧ encounteredError st = true
  ∧ os st = "float *val0;" +:+ tab +:+ "//" +:+ newline +:+
            "#pragma HLS resource variable=*val0 core=ram_1p_bram" +:+
            newline +:+ newline.
Proof.
  cbv zeta. split; [reflexivity|]. split; [reflexivity|].
  split; vm_compute; reflexivity.
Qed.



(** ** Affine expressions *)

Section AffineExpressions.

Context `{Externals}.

Lemma writesOrStops_write text : writesOrStops (write text) true.
Proof. exists (fun _ => text). reflexivity. Qed.

Lemma writesOrStops_bind m1 m2 ok1 ok2 :
  writesOrStops m1 ok1 → writesOrStops m2 ok2 →
  writesOrStops (m1 ;; m2) (ok1 && ok2).
Proof.
  intros [render1 H1] [render2 H2].
  exists (fun table => if ok1 then render1 table +:+ render2 table
                       else render1 table).
  intros st. unfold mbind, Emit_bind. rewrite H1.
  destruct ok1; cbn [andb]; [|reflexivity].
  rewrite H2. cbn [appendOs nameTable]. now rewrite !appendOs_appendOs.
Qed.

Lemma writesOrStops_ok m ok ok' :
  ok = ok' → writesOrStops m ok → writesOrStops m ok'.
Proof. now intros ->. Qed.

(** [st] seen through its name table only. *)
Lemma getName_by_table st st' val :
  nameTable st = nameTable st' → getName st val = getName st' val.
Proof. intros Heq. unfold getName. now rewrite Heq. Qed.

Lemma writeOperandName_writes (operands : list Value) i :
  writesOrStops (writeOperandName operands i)
                (bool_decide (i < length operands)).
Proof.
  unfold writeOperandName.
  destruct (operands !! i) as [val|] eqn:Hi.
  - rewrite bool_decide_eq_true_2 by (now apply lookup_lt_Some in Hi).
    exists (fun table =>
              getName {| os := ""; encounteredError := false;
                         currentIndent := 0; nameTable := table;
                         diagnostics := [] |} val).
    intros st. reflexivity.
  - rewrite bool_decide_eq_false_2
      by (apply lookup_ge_None in Hi; lia).
    exists (fun _ => ""). intros st. now rewrite appendOs_nil.
Qed.

Lemma emitAffineBinary_writes (visit : AffineExpr → Emit unit)
    (inRange : AffineExpr → bool) lhs rhs syntax :
  (∀ value, inRange (AffineConstantExpr value) = true) →
  (∀ kind l r, inRange (AffineBinaryOpExpr kind l r) = inRange l && inRange r) →
  writesOrStops (visit lhs) (inRange lhs) →
  writesOrStops (visit rhs) (inRange rhs) →
  (∀ kind l r, rhs = AffineBinaryOpExpr kind l r →
               writesOrStops (visit l) (inRange l)) →
  writesOrStops (emitAffineBinary visit lhs rhs syntax)
                (inRange lhs && inRange rhs).
Proof.
  intros Hconst Hbinary Hlhs Hrhs Hsub.
  assert (Hplain :
    writesOrStops (visit lhs ;; write (" " +:+ syntax +:+ " ") ;;
                   visit rhs ;; write ")")
                  (inRange lhs && inRange rhs)).
  { eapply writesOrStops_ok;
      [|apply writesOrStops_bind;
        [exact Hlhs
        |apply writesOrStops_bind;
         [apply writesOrStops_write
         |apply writesOrStops_bind;
          [exact Hrhs|apply writesOrStops_write]]]].
    cbn [andb]. now rewrite andb_true_r. }
  unfold emitAffineBinary.
  eapply writesOrStops_ok;
    [|apply writesOrStops_bind; [apply writesOrStops_write|]];
    [cbn [andb]; reflexivity|].
  destruct rhs as [kind binaryLHS binaryRHS|constRHS|position|position];
    try exact Hplain.
  - destruct kind; try exact Hplain.
    destruct binaryRHS as [| constRHS | |]; try exact Hplain.
    destruct (startsWith syntax "+" && (constRHS =? -1)%Z); [|exact Hplain].
    eapply writesOrStops_ok;
      [|apply writesOrStops_bind;
        [exact Hlhs
        |apply writesOrStops_bind;
         [apply writesOrStops_write
         |apply writesOrStops_bind;
          [exact (Hsub _ _ _ eq_refl)|apply writesOrStops_write]]]].
    cbn [andb]. now rewrite Hbinary, Hconst, !andb_true_r.
  - destruct (startsWith syntax "*" && (constRHS =? -1)%Z).
    + eapply writesOrStops_ok;
        [|apply writesOrStops_bind;
          [apply writesOrStops_write
          |apply writesOrStops_bind;
           [exact Hlhs|apply writesOrStops_write]]].
      cbn [andb]. now rewrite Hconst.
    + destruct (startsWith syntax "+" && (constRHS <? 0)%Z); [|exact Hplain].
      eapply writesOrStops_ok;
        [|apply writesOrStops_bind;
          [exact Hlhs
          |apply writesOrStops_bind;
           [apply writesOrStops_write
           |apply writesOrStops_bind;
            [apply writesOrStops_write|apply writesOrStops_write]]]].
      cbn [andb]. now rewrite Hconst.
Qed.

Lemma emitAffineExpr_writes numDim (operands : list Value) expr :
  writesOrStops (emitAffineExpr numDim operands expr)
                (positionsInRange numDim (length operands) expr).
Proof.
  set (P := fun e => writesOrStops (emitAffineExpr numDim operands e)
                       (positionsInRange numDim (length operands) e)).
  assert (Hboth : P expr ∧ match expr with
                           | AffineBinaryOpExpr _ l r => P l ∧ P r
                           | _ => True
                           end); [|exact (proj1 Hboth)].
  induction expr as [kind lhs [Hlhs _] rhs [Hrhs Hsub]|value|position|position].
  - split; [|split; assumption].
    assert (Hbinary : ∀ syntax,
      writesOrStops
        (emitAffineBinary (emitAffineExpr numDim operands) lhs rhs syntax)
        (positionsInRange numDim (length operands) lhs
         && positionsInRange numDim (length operands) rhs)).
    { intros syntax. apply emitAffineBinary_writes; try assumption.
      - reflexivity.
      - reflexivity.
      - intros k l r ->. apply Hsub. }
    subst P; cbn beta. destruct kind; cbn [emitAffineExpr positionsInRange];
      try apply Hbinary.
    eapply writesOrStops_ok;
      [|apply writesOrStops_bind;
        [apply writesOrStops_write
        |apply writesOrStops_bind;
         [exact Hlhs
         |apply writesOrStops_bind;
          [apply writesOrStops_write
          |apply writesOrStops_bind;
           [exact Hrhs
           |apply writesOrStops_bind;
            [apply writesOrStops_write
            |apply writesOrStops_bind;
             [exact Hrhs|apply writesOrStops_write]]]]]]].
    cbn [andb]. rewrite andb_true_r.
    destruct (positionsInRange numDim (length operands) lhs),
             (positionsInRange numDim (length operands) rhs); reflexivity.
  - split; [|trivial]. subst P; cbn. apply writesOrStops_write.
  - split; [|trivial]. subst P; cbn. apply writeOperandName_writes.
  - split; [|trivial]. subst P; cbn. apply writeOperandName_writes.
Qed.

(** X3: emitting an affine expression touches nothing but the stream, to
    which it appends a text that only the name table decides; it returns
    exactly when every dimension and symbol of the expression has an operand
    (a symbol at position [p] reads the operand [numDim + p]), and fails the
    operand access otherwise. *)
Theorem affine_expression_needs_its_operands numDim (operands : list Value)
    expr :
  ∃ render : gmap N string → string, ∀ st,
    emitAffineExpr numDim operands expr st
    = if positionsInRange numDim (length operands) expr
      then Done tt (appendOs st (render (nameTable st)))
      else Stopped AssertionFailed (appendOs st (render (nameTable st))).
Proof. apply emitAffineExpr_writes. Qed.

(** *** Loop bounds *)

Lemma writes_textOf (m : Emit unit) :
  writesOrStops m true → ∀ st, m st = Done tt (appendOs st (textOf m st)).
Proof.
  intros [render Hrun] st. rewrite Hrun. unfold textOf. rewrite Hrun.
  reflexivity.
Qed.

Lemma textOf_appendOs {A} (m : Emit A) st text :
  textOf m (appendOs st text) = textOf m st.
Proof. reflexivity. Qed.

(** A loop whose steps each append a text of their own. *)
Lemma forEach_texts {A} (f : A → Emit unit) (g : A → string) (l : list A) st :
  (∀ a text, a ∈ l →
     f a (appendOs st text) = Done tt (appendOs st (text +:+ g a))) →
  ∀ text, forEach f l (appendOs st text)
          = Done tt (appendOs st (text +:+
                                  foldr (fun a acc => g a +:+ acc) "" l)).
Proof.
  induction l as [|a l IH]; intros Hstep text; cbn [forEach foldr].
  - now rewrite append_nil_r.
  - unfold mbind, Emit_bind. rewrite Hstep by (rewrite elem_of_cons; now left).
    change ((fix go (l0 : list A) : Emit unit :=
               match l0 with
               | [] => mret tt
               | a0 :: rest => f a0 ;; go rest
               end) l) with (forEach f l).
    rewrite IH by (intros; apply Hstep; rewrite elem_of_cons; now right).
    now rewrite append_assoc.
Qed.

Lemma openers_commute (opener : string) (start count : nat) :
  foldr (fun (_ : nat) acc => opener +:+ acc) "" (seq start count) +:+ opener
  = opener +:+ foldr (fun (_ : nat) acc => opener +:+ acc) "" (seq start count).
Proof.
  revert start. induction count as [|count IH]; intros start; cbn [seq foldr].
  - now rewrite append_nil_r.
  - now rewrite append_assoc, IH.
Qed.

(** As many openers as there are further arguments, the first argument, and
    each further argument followed by a closing parenthesis: the calls
    nested to the left. *)
Lemma nestedCall_text (syntax : string) (others : list string) :
  ∀ (first : string) (start : nat),
    foldr (fun (_ : nat) acc => (syntax +:+ "(") +:+ acc) ""
          (seq start (length others)) +:+
    first +:+
    foldr (fun text acc => (", " +:+ text +:+ ")") +:+ acc) "" others
    = nestedCall syntax first others.
Proof.
  induction others as [|text others IH]; intros first start;
    cbn [length seq foldr nestedCall fold_left].
  - now rewrite append_nil_r.
  - fold (nestedCall syntax (syntax +:+ "(" +:+ first +:+ ", " +:+ text +:+ ")")
                     others).
    rewrite <- (IH _ (S start)).
    rewrite <- (openers_commute (syntax +:+ "(") (S start) (length others)).
    now rewrite !append_assoc.
Qed.

(** X4: the bound of an affine loop with one result is that result; with
    several, the openers [max(] (or [min(]) written first and the
    parentheses closed after each further result add up to calls nested to
    the left, [max(max(r1, r2), r3)], and nothing but the stream changes. *)
Theorem affine_bound_is_nested_call (syntax : string) (map : AffineMap)
    (operands : list Value) (first : AffineExpr) (others : list AffineExpr)
    (st : HLSCppEmitterState) :
  mapResults map = first :: others →
  (Z.of_nat (length others) < UINT_MODULUS)%Z →
  forallb (positionsInRange (numDims map) (length operands)) (first :: others)
  = true →
  let text expr := textOf (emitAffineExpr (numDims map) operands expr) st in
  emitAffineBound syntax map operands st
  = Done tt (appendOs st (nestedCall syntax (text first) (text <$> others))).
Proof.
  intros Hresults Hcount Hrange text. cbn [forallb] in Hrange.
  apply andb_prop in Hrange as [Hfirst Hothers].
  assert (Hexpr : ∀ expr prefix,
    positionsInRange (numDims map) (length operands) expr = true →
    emitAffineExpr (numDims map) operands expr (appendOs st prefix)
    = Done tt (appendOs st (prefix +:+ text expr))).
  { intros expr prefix Hin.
    pose proof (emitAffineExpr_writes (numDims map) operands expr) as Hw.
    rewrite Hin in Hw. rewrite (writes_textOf _ Hw).
    now rewrite textOf_appendOs, appendOs_appendOs. }
  unfold emitAffineBound. rewrite Hresults.
  destruct others as [|second others].
  - cbn [fmap list_fmap nestedCall fold_left].
    rewrite <- (appendOs_nil st) at 1. now rewrite Hexpr.
  - set (rest := second :: others) in *.
    assert (Hopen : Z.to_nat (wrapU (Z.of_nat (length (first :: rest)) - 1))
                    = length rest).
    { cbn [length]. unfold wrapU. rewrite Z.mod_small by lia. lia. }
    rewrite Hopen. unfold mbind at 1, Emit_bind at 1.
    rewrite (forEach_write (fun _ : nat => syntax +:+ "(")).
    unfold mbind, Emit_bind. rewrite Hexpr by assumption.
    rewrite (forEach_texts _ (fun expr => ", " +:+ text expr +:+ ")")).
    + f_equal. f_equal. rewrite <- (nestedCall_text syntax (text <$> rest) _ 0).
      rewrite length_fmap, !append_assoc. do 2 f_equal.
      clear. induction rest as [|e rest IH]; [reflexivity|].
      cbn [foldr fmap list_fmap]. now rewrite IH.
    + intros expr prefix Hin. unfold mbind, Emit_bind.
      rewrite write_appendOs, appendOs_appendOs, Hexpr.
      * rewrite write_appendOs, appendOs_appendOs. now rewrite !append_assoc.
      * rewrite forallb_forall in Hothers. apply Hothers.
        now apply list_elem_of_In.
Qed.

End AffineExpressions.

Lemma affine_bound_is_nested_call_witness :
  let map := {| numDims := 1;
                mapResults := [AffineConstantExpr 0; AffineDimExpr 0;
                               AffineConstantExpr 8] |} in
  let st := withName initialState scalarValue "val0" in
  (Z.of_nat (length [AffineDimExpr 0; AffineConstantExpr 8]) < UINT_MODULUS)%Z
  ∧ emitAffineBound (H := sampleExternals) "max" map [scalarValue] st
    = Done tt (appendOs st "max(max(0, val0), 8)").
Proof.
  intros map st.
  assert (Hcount : (Z.of_nat (length [AffineDimExpr 0; AffineConstantExpr 8])
                    < UINT_MODULUS)%Z) by (vm_compute; reflexivity).
  split; [exact Hcount|].
  exact (affine_bound_is_nested_call (H := sampleExternals) "max" map
           [scalarValue] (AffineConstantExpr 0)
           [AffineDimExpr 0; AffineConstantExpr 8] st eq_refl Hcount eq_refl).
Defined.


(** ** Diagnostics attached to the defining operation of a value *)

Section DefiningOperation.

Context `{Externals}.

Lemma emitType_unsupported val t :
  elementTypeText t = None →
  emitType val t = emitErrorAtDefiningOp val "has unsupported type.".
Proof. destruct t; try discriminate; reflexivity. Qed.

Lemma emitErrorAtDefiningOp_run val message st :
  emitErrorAtDefiningOp val message st
  = match valueDef val with
    | BlockArgument => Stopped NullOperation (flagged st)
    | _ => Done tt (withErrorAtDefiningOp st val message)
    end.
Proof.
  unfold emitErrorAtDefiningOp, mbind, Emit_bind. cbn [setEncounteredError].
  destruct (valueDef val); reflexivity.
Qed.

(** X5: where the emitter attaches an error to the operation that defines a
    value, a block argument, which no operation defines, ends the run on a
    null operation once the failure flag is raised, and nothing is written.
    So does [emitValue] on an undeclared value whose type (or element type)
    it cannot write, and so does [emitNestedLoopHead] on an array without a
    static shape.  For the result of an operation the error is reported and
    emission goes on: the value is named without a type in front, the loop
    nest has rank 0. *)
Theorem error_at_block_argument_stops val st :
  (∀ rank isPtr,
     negb (negb (rank =? 0)%nat && isPtr) = true →
     isDeclared st val = false →
     elementTypeText (writtenType val) = None →
     emitValue val rank isPtr st
     = match valueDef val with
       | BlockArgument => Stopped NullOperation (flagged st)
       | _ =>
           let name := indexedName isPtr (size (nameTable st)) in
           Done tt (appendOs
                      (withName
                         (withErrorAtDefiningOp st val "has unsupported type.")
                         val name)
                      (name +:+ indicesText rank))
       end)
  ∧ (isShaped (valueType val) = true →
     hasStaticShape (valueType val) = false →
     emitNestedLoopHead val st
     = match valueDef val with
       | BlockArgument => Stopped NullOperation (flagged st)
       | _ => Done 0 (withErrorAtDefiningOp st val
                        "is unranked or has dynamic shape.")
       end).
Proof.
  split.
  - intros rank isPtr Hassert Hdecl Htype.
    pose proof (emitType_unsupported val _ Htype) as Hemit.
    pose proof (emitErrorAtDefiningOp_run val "has unsupported type." st) as Hrun.
    rewrite <- Hemit in Hrun.
    destruct (valueDef val) eqn:Hdef.
    + unfold emitValue, mbind, Emit_bind, getState. rewrite Hassert.
      cbn [assert mret Emit_ret]. rewrite Hdecl.
      fold (writtenType val). now rewrite Hrun.
    + now rewrite (emitValue_undeclared _ _ _ _ _ Hassert Hdecl Hrun).
    + now rewrite (emitValue_undeclared _ _ _ _ _ Hassert Hdecl Hrun).
  - intros Hshaped Hdynamic. unfold emitNestedLoopHead.
    rewrite Hshaped, Hdynamic. cbn [negb]. unfold mbind, Emit_bind.
    rewrite emitErrorAtDefiningOp_run. now destruct (valueDef val).
Qed.

End DefiningOperation.

Lemma error_at_block_argument_stops_witness :
  let argument := {| valueId := 7; valueType := OtherType;
                     valueDef := BlockArgument |} in
  let array := {| valueId := 8;
                  valueType := ShapedType MemRef Float32Type
                                          (Some [(-1)%Z]) DRAM;
                  valueDef := BlockArgument |} in
  emitValue (H := sampleExternals) argument 0 false initialState
  = Stopped NullOperation (flagged initialState)
  ∧ emitNestedLoopHead (H := sampleExternals) array initialState
    = Stopped NullOperation (flagged initialState).
Proof.
  intros argument array. split.
  - exact (proj1 (error_at_block_argument_stops (H := sampleExternals)
                    argument initialState) 0 false eq_refl eq_refl eq_refl).
  - exact (proj2 (error_at_block_argument_stops (H := sampleExternals)
                    array initialState) eq_refl eq_refl).
Defined.


(** ** Indentation *)

Section Indentation.

Context `{Externals}.

Lemma restoresIndent_ret {A} (a : A) : restoresIndent (mret a : Emit A).
Proof. intros st b st' _ [= _ <-]. reflexivity. Qed.

Lemma restoresIndent_bind {A B} (m : Emit A) (k : A → Emit B) :
  restoresIndent m → (∀ a, restoresIndent (k a)) → restoresIndent (m ≫= k).
Proof.
  intros Hm Hk st b st' Hrange Hrun.
  apply bind_inv in Hrun as (a & st1 & Hrun1 & Hrun2).
  pose proof (Hm _ _ _ Hrange Hrun1) as Heq.
  rewrite <- Heq. apply (Hk a st1 b st'); [|exact Hrun2].
  unfold indentInRange in *. now rewrite Heq.
Qed.

Lemma restoresIndent_stop {A} why : restoresIndent (stop why : Emit A).
Proof. intros st a st' _ Hrun. discriminate. Qed.

Lemma restoresIndent_getState : restoresIndent getState.
Proof. intros st a st' _ [= _ <-]. reflexivity. Qed.

Lemma restoresIndent_write text : restoresIndent (write text).
Proof. intros st a st' _ [= _ <-]. reflexivity. Qed.

Lemma restoresIndent_report site message : restoresIndent (report site message).
Proof. intros st a st' _ [= _ <-]. reflexivity. Qed.

Lemma restoresIndent_setEncounteredError : restoresIndent setEncounteredError.
Proof. intros st a st' _ [= _ <-]. reflexivity. Qed.

Lemma restoresIndent_setName val name : restoresIndent (setName val name).
Proof. intros st a st' _ [= _ <-]. reflexivity. Qed.

Lemma restoresIndent_assert cond : restoresIndent (assert cond).
Proof.
  destruct cond; [apply restoresIndent_ret|apply restoresIndent_stop].
Qed.

Lemma restoresIndent_when cond (body : Emit unit) :
  restoresIndent body → restoresIndent (when cond body).
Proof. destruct cond; [auto|intros _; apply restoresIndent_ret]. Qed.

Lemma restoresIndent_forEach {A} (f : A → Emit unit) (l : list A) :
  (∀ a, restoresIndent (f a)) → restoresIndent (forEach f l).
Proof.
  intros Hf. induction l as [|a l IH]; [apply restoresIndent_ret|].
  cbn [forEach]. apply restoresIndent_bind; [apply Hf|intros _; exact IH].
Qed.

Lemma restoresIndent_writes (m : Emit unit) ok :
  writesOrStops m ok → restoresIndent m.
Proof.
  intros [render Hrun] st a st' _. rewrite Hrun.
  destruct ok; [|discriminate]. intros [= _ <-]. reflexivity.
Qed.

Ltac restores :=
  repeat match goal with
    | |- restoresIndent (forEach _ _) => apply restoresIndent_forEach; intros ?
    | |- restoresIndent (_ ≫= _) => apply restoresIndent_bind; [|intros ?]
    | |- restoresIndent (mret _) => apply restoresIndent_ret
    | |- restoresIndent (stop _) => apply restoresIndent_stop
    | |- restoresIndent getState => apply restoresIndent_getState
    | |- restoresIndent (write _) => apply restoresIndent_write
    | |- restoresIndent (report _ _) => apply restoresIndent_report
    | |- restoresIndent setEncounteredError =>
        apply restoresIndent_setEncounteredError
    | |- restoresIndent (setName _ _) => apply restoresIndent_setName
    | |- restoresIndent (assert _) => apply restoresIndent_assert
    | |- restoresIndent (when _ _) => apply restoresIndent_when
    | |- restoresIndent (if ?b then _ else _) => destruct b
    | |- restoresIndent (match ?x with _ => _ end) => destruct x
    | Hx : restoresIndent ?m |- restoresIndent ?m => exact Hx
    | Hx : ∀ a, restoresIndent (@?m a) |- restoresIndent _ => apply Hx
    | Hx : ∀ a b, restoresIndent (@?m a b) |- restoresIndent _ => apply Hx
    | Hx : ∀ a b c, restoresIndent (@?m a b c) |- restoresIndent _ => apply Hx
    | Hx : ∀ a b c d, restoresIndent (@?m a b c d) |- restoresIndent _ =>
        apply Hx
    end.

Lemma restoresIndent_indent : restoresIndent indent.
Proof. unfold indent. restores. Qed.

Lemma restoresIndent_emitError op message :
  restoresIndent (emitError op message).
Proof. unfold emitError. restores. Qed.

Lemma restoresIndent_emitErrorAtDefiningOp val message :
  restoresIndent (emitErrorAtDefiningOp val message).
Proof. unfold emitErrorAtDefiningOp. restores. Qed.

Lemma restoresIndent_addName val isPtr : restoresIndent (addName val isPtr).
Proof. unfold addName. restores. Qed.

Lemma restoresIndent_addAlias val alias : restoresIndent (addAlias val alias).
Proof. unfold addAlias. restores. Qed.

Lemma restoresIndent_emitType val t : restoresIndent (emitType val t).
Proof.
  unfold emitType. pose proof (restoresIndent_emitErrorAtDefiningOp val).
  destruct t; restores.
Qed.

Lemma restoresIndent_emitValue val rank isPtr :
  restoresIndent (emitValue val rank isPtr).
Proof.
  unfold emitValue, writeIndices.
  pose proof (restoresIndent_emitType val).
  pose proof (restoresIndent_addName val isPtr).
  restores.
Qed.

Lemma restoresIndent_emitArrayDecl array : restoresIndent (emitArrayDecl array).
Proof.
  unfold emitArrayDecl. pose proof (restoresIndent_emitValue array).
  restores.
Qed.

Lemma restoresIndent_emitInfoAndNewLine info :
  restoresIndent (emitInfoAndNewLine info).
Proof.
  intros st a st' _. rewrite emitInfoAndNewLine_text. intros [= _ <-].
  reflexivity.
Qed.

Lemma restoresIndent_emitPipelinePragma info :
  restoresIndent (emitPipelinePragma info).
Proof.
  intros st a st' _. rewrite emitPipelinePragma_text. intros [= _ <-].
  reflexivity.
Qed.

Lemma restoresIndent_emitAffineBound syntax map operands :
  restoresIndent (emitAffineBound syntax map operands).
Proof.
  unfold emitAffineBound.
  assert (Hexpr : ∀ expr,
            restoresIndent (emitAffineExpr (numDims map) operands expr))
    by (intros expr; eapply restoresIndent_writes, emitAffineExpr_writes).
  destruct (mapResults map) as [|first [|second others]].
  - generalize (seq 0 (Z.to_nat (wrapU (Z.of_nat (length (@nil AffineExpr)) - 1)))).
    intros openers. restores.
  - apply Hexpr.
  - generalize (seq 0 (Z.to_nat (wrapU (Z.of_nat
                         (length (first :: second :: others)) - 1)))).
    intros openers. restores.
Qed.

Lemma restoresIndent_emitArrayPragmas memref :
  restoresIndent (emitArrayPragmas memref).
Proof.
  unfold emitArrayPragmas.
  pose proof restoresIndent_indent.
  pose proof (restoresIndent_emitValue memref).
  apply restoresIndent_bind; [restores|intros _].
  apply restoresIndent_bind; [restores|intros flag1].
  apply restoresIndent_bind; [|intros flag2; restores].
  destruct (getLayoutMap (valueType memref)) as [layoutMap|]; [|restores].
  generalize (seq 0 (length (getShape (valueType memref)))). intros dims.
  revert flag1. induction dims as [|dim dims IH]; intros flag; [restores|].
  destruct (getPartitionFactors (valueType memref) !! dim) as [factor|];
    [|restores].
  destruct (negb (factor =? 1)%Z); [|apply IH].
  restores.
Qed.

(** Stepping through a run that returns. *)
Lemma run_restores {A} (m : Emit A) st a st' :
  restoresIndent m → indentInRange st → m st = Done a st' →
  currentIndent st' = currentIndent st ∧ indentInRange st'.
Proof.
  intros Hm Hrange Hrun. pose proof (Hm _ _ _ Hrange Hrun) as Heq.
  split; [exact Heq|]. unfold indentInRange in *. now rewrite Heq.
Qed.

Lemma wrapU_range z : (0 ≤ wrapU z < UINT_MODULUS)%Z.
Proof. unfold wrapU. apply Z.mod_pos_bound. reflexivity. Qed.

Lemma wrapU_add_sub z : (0 ≤ z < UINT_MODULUS)%Z → wrapU (wrapU (z + 2) - 2) = z.
Proof.
  intros Hz. unfold wrapU. rewrite Zminus_mod_idemp_l.
  replace (z + 2 - 2)%Z with z by lia. now apply Z.mod_small.
Qed.

Lemma addIndent_run st a st' :
  addIndent st = Done a st' →
  currentIndent st' = wrapU (currentIndent st + 2) ∧ indentInRange st'.
Proof.
  intros [= _ <-]. split; [reflexivity|]. apply wrapU_range.
Qed.

Lemma reduceIndent_run st a st' :
  reduceIndent st = Done a st' →
  currentIndent st' = wrapU (currentIndent st - 2) ∧ indentInRange st'.
Proof.
  intros [= _ <-]. split; [reflexivity|]. apply wrapU_range.
Qed.

(** What is emitted one step further in leaves the indentation as it was. *)
Lemma restoresIndent_scope (inner rest : Emit unit) :
  restoresIndent inner → restoresIndent rest →
  restoresIndent (addIndent ;; inner ;; reduceIndent ;; rest).
Proof.
  intros Hinner Hrest st a st' Hrange Hrun.
  apply bind_inv in Hrun as (? & st1 & Hadd & Hrun).
  apply addIndent_run in Hadd as [Hindent1 Hrange1].
  apply bind_inv in Hrun as (? & st2 & Hin & Hrun).
  destruct (run_restores _ _ _ _ Hinner Hrange1 Hin) as [Hindent2 Hrange2].
  apply bind_inv in Hrun as (? & st3 & Hred & Hrun).
  apply reduceIndent_run in Hred as [Hindent3 Hrange3].
  destruct (run_restores _ _ _ _ Hrest Hrange3 Hrun) as [Hindent4 _].
  rewrite Hindent4, Hindent3, Hindent2, Hindent1. now apply wrapU_add_sub.
Qed.

Lemma restoresIndent_ext {A} (m m' : Emit A) :
  (∀ st, m st = m' st) → restoresIndent m → restoresIndent m'.
Proof. intros Heq Hm st a st' Hrange Hrun. rewrite <- Heq in Hrun. eauto. Qed.

Lemma restoresIndent_emitScfFor info iterVar lowerBound upperBound step
    (emitBody : Emit unit) :
  restoresIndent emitBody →
  restoresIndent (emitScfFor info iterVar lowerBound upperBound step emitBody).
Proof.
  intros Hbody. unfold emitScfFor.
  apply restoresIndent_bind; [|intros _].
  - unfold emitScfForHead.
    pose proof restoresIndent_indent.
    pose proof (restoresIndent_emitValue iterVar).
    pose proof (restoresIndent_emitValue lowerBound).
    pose proof (restoresIndent_emitValue upperBound).
    pose proof (restoresIndent_emitValue step).
    pose proof (restoresIndent_emitInfoAndNewLine info).
    restores.
  - apply (restoresIndent_ext
             (addIndent ;; (emitPipelinePragma info ;; emitBody) ;;
              reduceIndent ;; (indent ;; write ("}" +:+ newline)))).
    + intros st. unfold mbind, Emit_bind.
      destruct (addIndent st) as [[] st1|]; [|reflexivity].
      destruct (emitPipelinePragma info st1) as [[] st2|]; reflexivity.
    + pose proof restoresIndent_indent.
      pose proof (restoresIndent_emitPipelinePragma info).
      apply restoresIndent_scope; restores.
Qed.

Lemma restoresIndent_emitAffineFor info iterVar lowerMap lowerOperands
    upperMap upperOperands step (emitBody : Emit unit) :
  restoresIndent emitBody →
  restoresIndent (emitAffineFor info iterVar lowerMap lowerOperands
                                upperMap upperOperands step emitBody).
Proof.
  intros Hbody. unfold emitAffineFor.
  apply restoresIndent_bind; [|intros _].
  - unfold emitAffineForHead.
    pose proof restoresIndent_indent.
    pose proof (restoresIndent_emitValue iterVar).
    pose proof (restoresIndent_emitAffineBound "max" lowerMap lowerOperands).
    pose proof (restoresIndent_emitAffineBound "min" upperMap upperOperands).
    pose proof (restoresIndent_emitInfoAndNewLine info).
    restores.
  - apply (restoresIndent_ext
             (addIndent ;; (emitPipelinePragma info ;; emitBody) ;;
              reduceIndent ;; (indent ;; write ("}" +:+ newline)))).
    + intros st. unfold mbind, Emit_bind.
      destruct (addIndent st) as [[] st1|]; [|reflexivity].
      destruct (emitPipelinePragma info st1) as [[] st2|]; reflexivity.
    + pose proof restoresIndent_indent.
      pose proof (restoresIndent_emitPipelinePragma info).
      apply restoresIndent_scope; restores.
Qed.

(** *** Loop nests over the elements of an array *)

Lemma wrapU_add_idemp z n : wrapU (wrapU z + n) = wrapU (z + n).
Proof. unfold wrapU. apply Zplus_mod_idemp_l. Qed.

Lemma wrapU_sub_idemp z n : wrapU (wrapU z - n) = wrapU (z - n).
Proof. unfold wrapU. apply Zminus_mod_idemp_l. Qed.

Lemma wrapU_small z : (0 ≤ z < UINT_MODULUS)%Z → wrapU z = z.
Proof. intros Hz. unfold wrapU. now apply Z.mod_small. Qed.

(** Steps that each restore the indentation and then go one step in. *)
Lemma forEach_inward {A} (f : A → Emit unit) (l : list A) st st' :
  (∀ a, restoresIndent (f a)) → indentInRange st →
  forEach (fun a => f a ;; addIndent) l st = Done tt st' →
  currentIndent st' = wrapU (currentIndent st + 2 * Z.of_nat (length l)).
Proof.
  intros Hf. revert st. induction l as [|a l IH]; intros st Hrange Hrun.
  - injection Hrun as <-. cbn [length]. rewrite Z.add_0_r.
    symmetry. now apply wrapU_small.
  - cbn [forEach] in Hrun.
    apply bind_inv in Hrun as (? & st1 & Hstep & Hrun).
    apply bind_inv in Hstep as (? & st0 & Hfa & Hadd).
    destruct (run_restores _ _ _ _ (Hf a) Hrange Hfa) as [Hindent0 _].
    apply addIndent_run in Hadd as [Hindent1 Hrange1].
    rewrite (IH _ Hrange1 Hrun), Hindent1, Hindent0, wrapU_add_idemp.
    f_equal. cbn [length]. lia.
Qed.

(** Steps that each come one step out and then restore the indentation. *)
Lemma forEach_outward {A} (f : A → Emit unit) (l : list A) st :
  (∀ a s, ∃ s', f a s = Done tt s' ∧ currentIndent s' = currentIndent s) →
  indentInRange st →
  ∃ st', forEach (fun a => reduceIndent ;; f a) l st = Done tt st'
         ∧ currentIndent st'
           = wrapU (currentIndent st - 2 * Z.of_nat (length l)).
Proof.
  intros Hf. revert st. induction l as [|a l IH]; intros st Hrange.
  - exists st. split; [reflexivity|]. cbn [length].
    rewrite Z.sub_0_r. symmetry. now apply wrapU_small.
  - set (st1 := withIndent st (wrapU (currentIndent st - 2))).
    destruct (Hf a st1) as (st2 & Hrun2 & Hindent2).
    destruct (IH st2) as (st' & Hrun & Hindent).
    { unfold indentInRange. rewrite Hindent2. apply wrapU_range. }
    exists st'. split.
    + assert (Hstep : (reduceIndent ;; f a) st = Done tt st2) by exact Hrun2.
      cbn [forEach]. rewrite (bind_Done _ _ _ _ _ Hstep). exact Hrun.
    + rewrite Hindent, Hindent2. subst st1. cbn [withIndent currentIndent].
      rewrite wrapU_sub_idemp. f_equal. cbn [length]. lia.
Qed.

Lemma emitNestedLoopHead_indent val st rank st1 :
  indentInRange st → emitNestedLoopHead val st = Done rank st1 →
  rank = (if isShaped (valueType val) && hasStaticShape (valueType val)
          then length (getShape (valueType val)) else 0)
  ∧ currentIndent st1 = wrapU (currentIndent st + 2 * Z.of_nat rank).
Proof.
  intros Hrange. unfold emitNestedLoopHead.
  assert (Hsame : currentIndent st = wrapU (currentIndent st + 2 * Z.of_nat 0))
    by (rewrite Z.add_0_r; symmetry; now apply wrapU_small).
  destruct (isShaped (valueType val)); cbn [andb];
    [|intros [= <- <-]; auto].
  destruct (hasStaticShape (valueType val)); cbn [negb].
  - intros Hrun.
    apply bind_inv in Hrun as (s & st0 & [= <- <-] & Hrun).
    apply bind_inv in Hrun as (? & st2 & Hdecl & Hrun).
    assert (Hdeclare :
      restoresIndent
        (when (negb (isDeclared st val))
              (indent ;; emitArrayDecl val ;; write (";" +:+ newline)))).
    { apply restoresIndent_when.
      apply restoresIndent_bind; [apply restoresIndent_indent|intros _].
      apply restoresIndent_bind; [apply restoresIndent_emitArrayDecl|intros _].
      apply restoresIndent_write. }
    destruct (run_restores _ _ _ _ Hdeclare Hrange Hdecl) as [Hindent2 Hrange2].
    apply bind_inv in Hrun as ([] & st3 & Hloops & [= <- <-]).
    split; [reflexivity|]. rewrite <- Hindent2.
    set (dims := zip _ _) in Hloops.
    assert (Hlen : length dims = length (getShape (valueType val))).
    { subst dims. rewrite length_zip_with, length_seq. lia. }
    rewrite <- Hlen.
    apply (forEach_inward
             (fun '(dimIdx, shape) =>
                indent ;;
                write ("for (int idx" +:+ pretty dimIdx +:+ " = 0; ") ;;
                write ("idx" +:+ pretty dimIdx +:+ " < " +:+
                       pretty (shape : Z) +:+ "; ") ;;
                write ("++idx" +:+ pretty (dimIdx : nat) +:+ ") {" +:+ newline)));
      [|assumption|].
    + intros [dimIdx shape]. pose proof restoresIndent_indent. restores.
    + rewrite <- Hloops. clear.
      generalize dims. intros l. revert st2.
      induction l as [|[dimIdx shape] l IH]; intros s; [reflexivity|].
      cbn [forEach]. unfold mbind, Emit_bind.
      rewrite !indent_text, !write_appendOs.
      cbn [addIndent]. unfold addIndent, mbind, Emit_bind, getState, setIndent.
      apply IH.
  - intros Hrun. apply bind_inv in Hrun as (? & st0 & Herr & [= <- <-]).
    split; [reflexivity|]. rewrite <- Hsame.
    exact (restoresIndent_emitErrorAtDefiningOp _ _ _ _ _ Hrange Herr).
Qed.

Lemma emitNestedLoopTail_indent rank st :
  indentInRange st →
  ∃ st', emitNestedLoopTail rank st = Done tt st'
         ∧ currentIndent st' = wrapU (currentIndent st - 2 * Z.of_nat rank).
Proof.
  intros Hrange. unfold emitNestedLoopTail.
  destruct (forEach_outward (fun _ : nat => indent ;; write ("}" +:+ newline))
              (seq 0 rank) st) as (st' & Hrun & Hindent); [|assumption|].
  - intros _ s. eexists. split; reflexivity.
  - exists st'. rewrite length_seq in Hindent. split; [exact Hrun|exact Hindent].
Qed.

Lemma nest_balanced z (rank : nat) :
  (0 ≤ z < UINT_MODULUS)%Z →
  wrapU (wrapU (z + 2 * Z.of_nat rank) - 2 * Z.of_nat rank) = z.
Proof.
  intros Hz. rewrite wrapU_sub_idemp.
  replace (z + 2 * Z.of_nat rank - 2 * Z.of_nat rank)%Z with z by lia.
  now apply wrapU_small.
Qed.

(** A statement written inside the loop nest over the elements of [val]. *)
Lemma restoresIndent_nest val (statement : nat → Emit unit) :
  (∀ rank, restoresIndent (statement rank)) →
  restoresIndent (rank ← emitNestedLoopHead val;
                  statement rank ;; emitNestedLoopTail rank).
Proof.
  intros Hstatement st a st' Hrange Hrun.
  apply bind_inv in Hrun as (rank & st1 & Hhead & Hrun).
  destruct (emitNestedLoopHead_indent _ _ _ _ Hrange Hhead) as [_ Hindent1].
  apply bind_inv in Hrun as (? & st2 & Hbody & Htail).
  assert (Hrange1 : indentInRange st1)
    by (unfold indentInRange; rewrite Hindent1; apply wrapU_range).
  destruct (run_restores _ _ _ _ (Hstatement rank) Hrange1 Hbody)
    as [Hindent2 _].
  destruct (emitNestedLoopTail_indent rank st2) as (st3 & Htail' & Hindent3);
    [unfold indentInRange; rewrite Hindent2, Hindent1; apply wrapU_range|].
  rewrite Htail' in Htail. injection Htail as _ <-.
  rewrite Hindent3, Hindent2, Hindent1. now apply nest_balanced.
Qed.

Lemma restoresIndent_emitElementwiseAssign info operand result :
  restoresIndent (emitElementwiseAssign info operand result).
Proof.
  unfold emitElementwiseAssign.
  apply (restoresIndent_ext
           (rank ← emitNestedLoopHead result;
            (indent ;; emitValue result rank false ;; write " = " ;;
             emitValue operand rank false ;; write ";" ;;
             emitInfoAndNewLine info) ;;
            emitNestedLoopTail rank)).
  - intros st. unfold mbind, Emit_bind.
    destruct (emitNestedLoopHead result st) as [rank st1|]; [|reflexivity].
    destruct (indent st1) as [[] st2|]; [|reflexivity].
    destruct (emitValue result rank false st2) as [[] st3|]; [|reflexivity].
    destruct (write " = " st3) as [[] st4|]; [|reflexivity].
    destruct (emitValue operand rank false st4) as [[] st5|]; [|reflexivity].
    destruct (write ";" st5) as [[] st6|]; [|reflexivity].
    destruct (emitInfoAndNewLine info st6) as [[] st7|]; reflexivity.
  - apply restoresIndent_nest. intros rank.
    pose proof restoresIndent_indent.
    pose proof (restoresIndent_emitValue result).
    pose proof (restoresIndent_emitValue operand).
    pose proof (restoresIndent_emitInfoAndNewLine info).
    restores.
Qed.

Lemma bind_assoc_ext {A B C} (m : Emit A) (k : A → Emit B) (h : B → Emit C) :
  ∀ st, (m ≫= fun a => k a ≫= h) st = ((m ≫= k) ≫= h) st.
Proof. intros st. symmetry. apply bind_assoc. Qed.

(** A statement of several steps written inside the loop nest of [val]:
    the steps come between the head and the tail. *)
Lemma restoresIndent_nested val (statement : nat → Emit unit)
    (flat : Emit unit) :
  (∀ st, flat st
         = (rank ← emitNestedLoopHead val;
            statement rank ;; emitNestedLoopTail rank) st) →
  (∀ rank, restoresIndent (statement rank)) →
  restoresIndent flat.
Proof.
  intros Heq Hstatement.
  apply (restoresIndent_ext
           (rank ← emitNestedLoopHead val;
            statement rank ;; emitNestedLoopTail rank)).
  - intros st. now rewrite Heq.
  - now apply restoresIndent_nest.
Qed.

Ltac flatten_run :=
  intros ?; unfold mbind, Emit_bind;
  repeat match goal with
    | |- context [match ?m ?st with Done _ _ => _ | Stopped _ _ => _ end] =>
        destruct (m st) as [? ?|? ?]
    end; reflexivity.

(** X6: the loop nest that [emitNestedLoopHead] opens is as deep as the
    array has dimensions (not at all for a scalar, or when the error for a
    dynamic shape is reported), each level two columns further in, and
    [emitNestedLoopTail], which always returns, comes back out by as much.
    So every statement written inside such a nest, [emitBinary],
    [emitUnary], [emitSelect], [emitTensorStore] and the assignment of
    [emitAssign] and [emitTensorLoad], leaves the indentation where it
    found it whenever it returns. *)
Theorem element_loops_are_balanced :
  (∀ val st rank st1,
     indentInRange st → emitNestedLoopHead val st = Done rank st1 →
     rank = (if isShaped (valueType val) && hasStaticShape (valueType val)
             then length (getShape (valueType val)) else 0)
     ∧ currentIndent st1 = wrapU (currentIndent st + 2 * Z.of_nat rank)
     ∧ ∃ st2, emitNestedLoopTail rank st1 = Done tt st2
              ∧ currentIndent st2 = currentIndent st)
  ∧ (∀ info syntax lhs rhs result,
       restoresIndent (emitBinary info syntax lhs rhs result))
  ∧ (∀ info syntax operand result,
       restoresIndent (emitUnary info syntax operand result))
  ∧ (∀ info condition trueValue falseValue result,
       restoresIndent (emitSelect info condition trueValue falseValue result))
  ∧ (∀ info source target, restoresIndent (emitTensorStore info source target))
  ∧ (∀ info operand result,
       restoresIndent (emitElementwiseAssign info operand result)).
Proof.
  split; [|split; [|split; [|split; [|split]]]].
  - intros val st rank st1 Hrange Hhead.
    destruct (emitNestedLoopHead_indent _ _ _ _ Hrange Hhead) as [Hrank Hin].
    split; [exact Hrank|]. split; [exact Hin|].
    destruct (emitNestedLoopTail_indent rank st1) as (st2 & Htail & Hout).
    { unfold indentInRange. rewrite Hin. apply wrapU_range. }
    exists st2. split; [exact Htail|].
    rewrite Hout, Hin. now apply nest_balanced.
  - intros info syntax lhs rhs result.
    apply (restoresIndent_nested result
             (fun rank => indent ;; emitValue result rank false ;;
                          write " = " ;; emitValue lhs rank false ;;
                          write (" " +:+ syntax +:+ " ") ;;
                          emitValue rhs rank false ;; write ";" ;;
                          emitInfoAndNewLine info)).
    + unfold emitBinary. flatten_run.
    + intros rank. pose proof restoresIndent_indent.
      pose proof restoresIndent_emitValue.
      pose proof restoresIndent_emitInfoAndNewLine. restores.
  - intros info syntax operand result.
    apply (restoresIndent_nested result
             (fun rank => indent ;; emitValue result rank false ;;
                          write (" = " +:+ syntax +:+ "(") ;;
                          emitValue operand rank false ;; write ");" ;;
                          emitInfoAndNewLine info)).
    + unfold emitUnary. flatten_run.
    + intros rank. pose proof restoresIndent_indent.
      pose proof restoresIndent_emitValue.
      pose proof restoresIndent_emitInfoAndNewLine. restores.
  - intros info condition trueValue falseValue result.
    apply (restoresIndent_nested result
             (fun rank =>
                indent ;; emitValue result rank false ;; write " = " ;;
                emitValue condition
                  (if negb (isShaped (valueType condition)) then 0 else rank)
                  false ;;
                write " ? " ;; emitValue trueValue rank false ;;
                write " : " ;; emitValue falseValue rank false ;;
                write ";" ;; emitInfoAndNewLine info)).
    + unfold emitSelect. flatten_run.
    + intros rank. pose proof restoresIndent_indent.
      pose proof restoresIndent_emitValue.
      pose proof restoresIndent_emitInfoAndNewLine.
      destruct (negb (isShaped (valueType condition))); restores.
  - intros info source target.
    apply (restoresIndent_nested source
             (fun rank => indent ;; emitValue target rank false ;;
                          write " = " ;; emitValue source rank false ;;
                          write ";" ;; emitInfoAndNewLine info)).
    + unfold emitTensorStore. flatten_run.
    + intros rank. pose proof restoresIndent_indent.
      pose proof restoresIndent_emitValue.
      pose proof restoresIndent_emitInfoAndNewLine. restores.
  - apply restoresIndent_emitElementwiseAssign.
Qed.

(** *** Blocks *)

(** Induction over operations and the operations of the loop bodies in
    them. *)
Lemma loop_bodies_ind (P : Operation → Prop) :
  (∀ op, Forall P (getBody op) → P op) → ∀ op, P op.
Proof.
  intros Hstep. fix IH 1. intros op. apply Hstep.
  destruct op as [info iv lb ub step body|info iv lm lo um uo step body
                 | | | | |]; cbn [getBody]; try constructor.
  - revert body. fix IHbody 1. intros [|o body]; constructor.
    + apply IH.
    + apply IHbody.
  - revert body. fix IHbody 1. intros [|o body]; constructor.
    + apply IH.
    + apply IHbody.
Qed.

Lemma emitOperation_body op :
  emitOperation op = emitBlockStep (forEach emitOperation (getBody op)) op.
Proof. destruct op; reflexivity. Qed.

Lemma restoresIndent_emitAlloc op info result :
  restoresIndent (emitAlloc op info result).
Proof.
  unfold emitAlloc.
  pose proof restoresIndent_indent. pose proof restoresIndent_emitError.
  pose proof restoresIndent_emitArrayDecl.
  pose proof restoresIndent_emitInfoAndNewLine.
  pose proof restoresIndent_emitArrayPragmas. restores.
Qed.

Lemma restoresIndent_emitTensorToMemref info operand result :
  restoresIndent (emitTensorToMemref info operand result).
Proof.
  unfold emitTensorToMemref.
  pose proof restoresIndent_emitElementwiseAssign.
  pose proof restoresIndent_addAlias.
  pose proof restoresIndent_emitArrayPragmas. restores.
Qed.

Lemma restoresIndent_emitDenseElement op type element :
  restoresIndent (emitDenseElement op type element).
Proof.
  unfold emitDenseElement. pose proof restoresIndent_emitError. restores.
Qed.

Lemma restoresIndent_emitConstant op info value result :
  restoresIndent (emitConstant op info value result).
Proof.
  unfold emitConstant.
  pose proof restoresIndent_indent. pose proof restoresIndent_emitError.
  pose proof restoresIndent_emitArrayDecl.
  pose proof restoresIndent_emitInfoAndNewLine.
  pose proof restoresIndent_emitDenseElement.
  apply restoresIndent_bind; [restores|intros st].
  destruct (isDeclared st result); [restores|].
  destruct value; restores.
Qed.

Section Blocks.

Hypothesis emitOther_restores : ∀ op, restoresIndent (emitOther op).

Lemma restoresIndent_exprDispatch op : restoresIndent (exprDispatch op).
Proof.
  unfold exprDispatch. pose proof restoresIndent_emitConstant.
  destruct op as [| | | | | |name info operands results regions]; restores.
Qed.

Lemma restoresIndent_stmtDispatch (emitBody : Emit unit) op :
  restoresIndent emitBody → restoresIndent (stmtDispatch emitBody op).
Proof.
  intros Hbody.
  pose proof restoresIndent_emitAlloc.
  pose proof restoresIndent_emitTensorToMemref.
  destruct op as [info iv lb ub step body|info iv lm lo um uo step body
                 |info result|info result|info operand result
                 |info value result|name info operands results regions];
    cbn [stmtDispatch].
  - apply restoresIndent_bind; [|intros _; apply restoresIndent_ret].
    exact (restoresIndent_emitScfFor info iv lb ub step emitBody Hbody).
  - apply restoresIndent_bind; [|intros _; apply restoresIndent_ret].
    exact (restoresIndent_emitAffineFor info iv lm lo um uo step emitBody Hbody).
  - restores.
  - restores.
  - restores.
  - restores.
  - destruct name; restores.
Qed.

Lemma restoresIndent_ipDispatch op : restoresIndent (ipDispatch op).
Proof.
  unfold ipDispatch, visitInvalidOp.
  destruct op as [| | | | | |name info operands results regions]; restores.
Qed.

Lemma restoresIndent_emitBlockStep (emitBody : Emit unit) op :
  restoresIndent emitBody → restoresIndent (emitBlockStep emitBody op).
Proof.
  intros Hbody. unfold emitBlockStep.
  pose proof restoresIndent_exprDispatch.
  pose proof (restoresIndent_stmtDispatch emitBody op Hbody).
  pose proof restoresIndent_ipDispatch.
  pose proof restoresIndent_emitError. restores.
Qed.

Lemma restoresIndent_forEach_Forall {A} (f : A → Emit unit) (l : list A) :
  Forall (fun a => restoresIndent (f a)) l → restoresIndent (forEach f l).
Proof.
  induction 1 as [|a l Ha _ IH]; [apply restoresIndent_ret|].
  cbn [forEach]. apply restoresIndent_bind; [exact Ha|intros _; exact IH].
Qed.

Lemma restoresIndent_emitOperation op : restoresIndent (emitOperation op).
Proof.
  induction op as [op IH] using loop_bodies_ind.
  rewrite emitOperation_body. apply restoresIndent_emitBlockStep.
  now apply restoresIndent_forEach_Forall.
Qed.

(** X7: whenever the emitters reached through [emitOther] leave the
    indentation where they found it, so does [emitBlock] on any block, loops
    nested to any depth included: when it returns, the indentation is the
    one it started with. *)
Theorem block_restores_indentation (block : list Operation)
    (st st' : HLSCppEmitterState) :
  indentInRange st → emitBlock block st = Done tt st' →
  currentIndent st' = currentIndent st.
Proof.
  assert (Hblock : restoresIndent (emitBlock block)).
  { unfold emitBlock. apply restoresIndent_forEach.
    apply restoresIndent_emitOperation. }
  apply Hblock.
Qed.

End Blocks.

End Indentation.

Lemma block_restores_indentation_witness :
  let index id := {| valueId := id; valueType := IndexType;
                     valueDef := OpResult |} in
  let block := [ScfForOp plainInfo (index 10%N) (index 11%N) (index 12%N)
                         (index 13%N) [AllocOp plainInfo memrefValue]] in
  indentInRange initialState
  ∧ ∃ st', emitBlock (H := sampleExternals) block initialState = Done tt st'
           ∧ currentIndent st' = currentIndent initialState.
Proof.
  intros index block.
  assert (Hrange : indentInRange initialState) by (split; reflexivity).
  assert (Hother : ∀ op, restoresIndent (emitOther (Externals := sampleExternals) op))
    by (intros op st a st' _ Hrun; injection Hrun as _ <-; reflexivity).
  split; [exact Hrange|].
  eexists. split; [vm_compute; reflexivity|].
  refine (block_restores_indentation (H := sampleExternals) Hother block
            initialState _ Hrange _).
  vm_compute. reflexivity.
Defined.

(** ** What a run never takes back *)

Section Growth.

Context `{Externals}.

Lemma extends_refl st : extends st st.
Proof.
  split; [exists ""; now rewrite append_nil_r|]. split; [auto|].
  split; [exists []; now rewrite app_nil_r|auto].
Qed.

Lemma extends_trans st1 st2 st3 :
  extends st1 st2 → extends st2 st3 → extends st1 st3.
Proof.
  intros ([t1 Hos1] & Hflag1 & [d1 Hdiag1] & Hnames1)
         ([t2 Hos2] & Hflag2 & [d2 Hdiag2] & Hnames2).
  split; [exists (t1 +:+ t2); now rewrite Hos2, Hos1, append_assoc|].
  split; [auto|].
  split; [exists (d1 ++ d2)%list; now rewrite Hdiag2, Hdiag1, app_assoc|].
  auto.
Qed.

Lemma onlyExtends_ret {A} (a : A) : onlyExtends (mret a : Emit A).
Proof. intros st. apply extends_refl. Qed.

Lemma onlyExtends_stop {A} why : onlyExtends (stop why : Emit A).
Proof. intros st. apply extends_refl. Qed.

Lemma onlyExtends_getState : onlyExtends getState.
Proof. intros st. apply extends_refl. Qed.

Lemma onlyExtends_bind {A B} (m : Emit A) (k : A → Emit B) :
  onlyExtends m → (∀ a, onlyExtends (k a)) → onlyExtends (m ≫= k).
Proof.
  intros Hm Hk st. pose proof (Hm st) as H1.
  unfold mbind, Emit_bind. destruct (m st) as [a st1|why st1]; [|exact H1].
  eapply extends_trans; [exact H1|apply Hk].
Qed.

Lemma extends_appendOs st text : extends st (appendOs st text).
Proof.
  split; [now exists text|]. split; [auto|].
  split; [exists []; cbn; now rewrite app_nil_r|auto].
Qed.

Lemma onlyExtends_write text : onlyExtends (write text).
Proof. intros st. apply extends_appendOs. Qed.

Lemma onlyExtends_report site message : onlyExtends (report site message).
Proof.
  intros st. split; [exists ""; cbn; now rewrite append_nil_r|].
  split; [auto|]. split; [eexists; reflexivity|auto].
Qed.

Lemma onlyExtends_setEncounteredError : onlyExtends setEncounteredError.
Proof.
  intros st. split; [exists ""; cbn; now rewrite append_nil_r|].
  split; [auto|]. split; [exists []; cbn; now rewrite app_nil_r|auto].
Qed.

Lemma onlyExtends_setIndent n : onlyExtends (setIndent n).
Proof.
  intros st. split; [exists ""; cbn; now rewrite append_nil_r|].
  split; [auto|]. split; [exists []; cbn; now rewrite app_nil_r|auto].
Qed.

Lemma onlyExtends_assert cond : onlyExtends (assert cond).
Proof. destruct cond; [apply onlyExtends_ret|apply onlyExtends_stop]. Qed.

Lemma onlyExtends_when cond (body : Emit unit) :
  onlyExtends body → onlyExtends (when cond body).
Proof. destruct cond; [auto|intros _; apply onlyExtends_ret]. Qed.

Lemma onlyExtends_forEach {A} (f : A → Emit unit) (l : list A) :
  (∀ a, onlyExtends (f a)) → onlyExtends (forEach f l).
Proof.
  intros Hf. induction l as [|a l IH]; [apply onlyExtends_ret|].
  cbn [forEach]. apply onlyExtends_bind; [apply Hf|intros _; exact IH].
Qed.

Lemma onlyExtends_forEach_Forall {A} (f : A → Emit unit) (l : list A) :
  Forall (fun a => onlyExtends (f a)) l → onlyExtends (forEach f l).
Proof.
  induction 1 as [|a l Ha _ IH]; [apply onlyExtends_ret|].
  cbn [forEach]. apply onlyExtends_bind; [exact Ha|intros _; exact IH].
Qed.

Lemma onlyExtends_writes (m : Emit unit) ok :
  writesOrStops m ok → onlyExtends m.
Proof.
  intros [render Hrun] st. rewrite Hrun.
  destruct ok; apply extends_appendOs.
Qed.

Lemma pretty_N_go_nonempty (x : N) (s : string) :
  s ≠ "" → pretty_N_go x s ≠ "".
Proof.
  revert s. induction (N.lt_wf_0 x) as [x _ IH]; intros s Hs.
  destruct (decide (x = 0)%N) as [->|Hx]; [now rewrite pretty_N_go_0|].
  rewrite pretty_N_go_step by lia.
  apply IH; [apply N.div_lt; lia|discriminate].
Qed.

(** A number is never written as the empty text. *)
Lemma pretty_Z_nonempty (z : Z) : pretty z ≠ "".
Proof.
  destruct z as [|p|p]; [discriminate| |discriminate].
  unfold pretty, pretty_Z, pretty, pretty_positive, pretty, pretty_N.
  rewrite decide_False by discriminate.
  rewrite pretty_N_go_step by reflexivity.
  apply pretty_N_go_nonempty. discriminate.
Qed.

(** Naming a value that has no name yet. *)
Lemma extends_withName st val name :
  (∀ old, nameTable st !! valueId val = Some old → old = "") →
  extends st (withName st val name).
Proof.
  intros Hfree. split; [exists ""; cbn; now rewrite append_nil_r|].
  split; [auto|]. split; [exists []; cbn; now rewrite app_nil_r|].
  intros k old Hk Hne. cbn [withName nameTable].
  destruct (decide (valueId val = k)) as [<-|Hneq].
  - now apply Hfree in Hk.
  - now rewrite lookup_insert_ne.
Qed.

Section Names.

Hypothesis to_string_nonempty : ∀ value, to_string_double value ≠ "".

(** A value that [isDeclared] does not hold declared has no name in the
    table. *)
Lemma undeclared_free st val old :
  isDeclared st val = false → nameTable st !! valueId val = Some old →
  old = "".
Proof.
  intros Hdecl Hold. apply isDeclared_false in Hdecl.
  unfold getName in Hdecl. rewrite Hold in Hdecl.
  destruct (valueDef val) as [|[value|value|value|elements|]|];
    try exact Hdecl.
  - exfalso. unfold floatText in Hdecl.
    destruct (isfinite value); [now apply (to_string_nonempty value)|].
    destruct (isPositive value); discriminate.
  - exfalso. now apply (pretty_Z_nonempty value).
  - exfalso. destruct (boolAttrAsInteger value) as [asInteger|];
      [now apply (pretty_Z_nonempty asInteger)|].
    now apply (pretty_Z_nonempty (Z.b2z value)).
Qed.

Lemma onlyExtends_addName val isPtr : onlyExtends (addName val isPtr).
Proof.
  intros st. destruct (isDeclared st val) eqn:Hdecl.
  - unfold addName, mbind, Emit_bind, getState. rewrite Hdecl.
    apply extends_refl.
  - rewrite addName_undeclared by assumption.
    apply extends_withName. intros old. now apply undeclared_free.
Qed.

Lemma onlyExtends_addAlias val alias : onlyExtends (addAlias val alias).
Proof.
  intros st. unfold addAlias, mbind, Emit_bind, getState.
  destruct (isDeclared st alias) eqn:Hdecl; [apply extends_refl|].
  destruct (isDeclared st val); [|apply extends_refl].
  apply (extends_withName st alias). intros old. now apply undeclared_free.
Qed.

Ltac grows :=
  repeat match goal with
    | |- onlyExtends (forEach _ _) => apply onlyExtends_forEach; intros ?
    | |- onlyExtends (_ ≫= _) => apply onlyExtends_bind; [|intros ?]
    | |- onlyExtends (mret _) => apply onlyExtends_ret
    | |- onlyExtends (stop _) => apply onlyExtends_stop
    | |- onlyExtends getState => apply onlyExtends_getState
    | |- onlyExtends (write _) => apply onlyExtends_write
    | |- onlyExtends (report _ _) => apply onlyExtends_report
    | |- onlyExtends setEncounteredError =>
        apply onlyExtends_setEncounteredError
    | |- onlyExtends (setIndent _) => apply onlyExtends_setIndent
    | |- onlyExtends (assert _) => apply onlyExtends_assert
    | |- onlyExtends (when _ _) => apply onlyExtends_when
    | |- onlyExtends (addName _ _) => apply onlyExtends_addName
    | |- onlyExtends (addAlias _ _) => apply onlyExtends_addAlias
    | |- onlyExtends (if ?b then _ else _) => destruct b
    | |- onlyExtends (match ?x with _ => _ end) => destruct x
    | Hx : onlyExtends ?m |- onlyExtends ?m => exact Hx
    | Hx : ∀ a, onlyExtends (@?m a) |- onlyExtends _ => apply Hx
    | Hx : ∀ a b, onlyExtends (@?m a b) |- onlyExtends _ => apply Hx
    | Hx : ∀ a b c, onlyExtends (@?m a b c) |- onlyExtends _ => apply Hx
    | Hx : ∀ a b c d, onlyExtends (@?m a b c d) |- onlyExtends _ => apply Hx
    end.

Lemma onlyExtends_indent : onlyExtends indent.
Proof. unfold indent. grows. Qed.

Lemma onlyExtends_addIndent : onlyExtends addIndent.
Proof. unfold addIndent. grows. Qed.

Lemma onlyExtends_reduceIndent : onlyExtends reduceIndent.
Proof. unfold reduceIndent. grows. Qed.

Lemma onlyExtends_emitError op message : onlyExtends (emitError op message).
Proof. unfold emitError. grows. Qed.

Lemma onlyExtends_emitErrorAtDefiningOp val message :
  onlyExtends (emitErrorAtDefiningOp val message).
Proof. unfold emitErrorAtDefiningOp. grows. Qed.

Lemma onlyExtends_emitType val t : onlyExtends (emitType val t).
Proof.
  unfold emitType. pose proof (onlyExtends_emitErrorAtDefiningOp val).
  destruct t; grows.
Qed.

Lemma onlyExtends_emitValue val rank isPtr :
  onlyExtends (emitValue val rank isPtr).
Proof.
  unfold emitValue, writeIndices. pose proof (onlyExtends_emitType val).
  grows.
Qed.

Lemma onlyExtends_emitArrayDecl array : onlyExtends (emitArrayDecl array).
Proof. unfold emitArrayDecl. pose proof onlyExtends_emitValue. grows. Qed.

Lemma onlyExtends_emitInfoAndNewLine info :
  onlyExtends (emitInfoAndNewLine info).
Proof. intros st. rewrite emitInfoAndNewLine_text. apply extends_appendOs. Qed.

Lemma onlyExtends_emitPipelinePragma info :
  onlyExtends (emitPipelinePragma info).
Proof. intros st. rewrite emitPipelinePragma_text. apply extends_appendOs. Qed.

Lemma onlyExtends_emitAffineBound syntax map operands :
  onlyExtends (emitAffineBound syntax map operands).
Proof.
  unfold emitAffineBound.
  assert (Hexpr : ∀ expr,
            onlyExtends (emitAffineExpr (numDims map) operands expr))
    by (intros expr; eapply onlyExtends_writes, emitAffineExpr_writes).
  destruct (mapResults map) as [|first [|second others]].
  - generalize (seq 0 (Z.to_nat (wrapU (Z.of_nat (length (@nil AffineExpr)) - 1)))).
    intros openers. grows.
  - apply Hexpr.
  - generalize (seq 0 (Z.to_nat (wrapU (Z.of_nat
                         (length (first :: second :: others)) - 1)))).
    intros openers. grows.
Qed.

Lemma onlyExtends_emitArrayPragmas memref :
  onlyExtends (emitArrayPragmas memref).
Proof.
  unfold emitArrayPragmas.
  pose proof onlyExtends_indent. pose proof onlyExtends_emitValue.
  apply onlyExtends_bind; [grows|intros _].
  apply onlyExtends_bind; [grows|intros flag1].
  apply onlyExtends_bind; [|intros flag2; grows].
  destruct (getLayoutMap (valueType memref)) as [layoutMap|]; [|grows].
  generalize (seq 0 (length (getShape (valueType memref)))). intros dims.
  revert flag1. induction dims as [|dim dims IH]; intros flag; [grows|].
  destruct (getPartitionFactors (valueType memref) !! dim) as [factor|];
    [|grows].
  destruct (negb (factor =? 1)%Z); [|apply IH].
  grows.
Qed.

Lemma onlyExtends_emitNestedLoopHead val : onlyExtends (emitNestedLoopHead val).
Proof.
  unfold emitNestedLoopHead.
  pose proof onlyExtends_indent. pose proof onlyExtends_addIndent.
  pose proof onlyExtends_emitArrayDecl.
  pose proof onlyExtends_emitErrorAtDefiningOp. grows.
Qed.

Lemma onlyExtends_emitNestedLoopTail rank :
  onlyExtends (emitNestedLoopTail rank).
Proof.
  unfold emitNestedLoopTail.
  pose proof onlyExtends_indent. pose proof onlyExtends_reduceIndent. grows.
Qed.

Lemma onlyExtends_emitElementwiseAssign info operand result :
  onlyExtends (emitElementwiseAssign info operand result).
Proof.
  unfold emitElementwiseAssign.
  pose proof onlyExtends_indent. pose proof onlyExtends_emitValue.
  pose proof onlyExtends_emitNestedLoopHead.
  pose proof onlyExtends_emitNestedLoopTail.
  pose proof onlyExtends_emitInfoAndNewLine. grows.
Qed.

Lemma onlyExtends_emitScfFor info iterVar lowerBound upperBound step
    (emitBody : Emit unit) :
  onlyExtends emitBody →
  onlyExtends (emitScfFor info iterVar lowerBound upperBound step emitBody).
Proof.
  intros Hbody. unfold emitScfFor, emitScfForHead.
  pose proof onlyExtends_indent. pose proof onlyExtends_emitValue.
  pose proof onlyExtends_addIndent. pose proof onlyExtends_reduceIndent.
  pose proof onlyExtends_emitInfoAndNewLine.
  pose proof onlyExtends_emitPipelinePragma. grows.
Qed.

Lemma onlyExtends_emitAffineFor info iterVar lowerMap lowerOperands
    upperMap upperOperands step (emitBody : Emit unit) :
  onlyExtends emitBody →
  onlyExtends (emitAffineFor info iterVar lowerMap lowerOperands
                             upperMap upperOperands step emitBody).
Proof.
  intros Hbody. unfold emitAffineFor, emitAffineForHead.
  pose proof onlyExtends_indent. pose proof onlyExtends_emitValue.
  pose proof onlyExtends_addIndent. pose proof onlyExtends_reduceIndent.
  pose proof onlyExtends_emitInfoAndNewLine.
  pose proof onlyExtends_emitPipelinePragma.
  pose proof onlyExtends_emitAffineBound. grows.
Qed.

Lemma onlyExtends_emitAlloc op info result :
  onlyExtends (emitAlloc op info result).
Proof.
  unfold emitAlloc.
  pose proof onlyExtends_indent. pose proof onlyExtends_emitError.
  pose proof onlyExtends_emitArrayDecl.
  pose proof onlyExtends_emitInfoAndNewLine.
  pose proof onlyExtends_emitArrayPragmas. grows.
Qed.

Lemma onlyExtends_emitTensorToMemref info operand result :
  onlyExtends (emitTensorToMemref info operand result).
Proof.
  unfold emitTensorToMemref.
  pose proof onlyExtends_emitElementwiseAssign.
  pose proof onlyExtends_emitArrayPragmas. grows.
Qed.

Lemma onlyExtends_emitDenseElement op type element :
  onlyExtends (emitDenseElement op type element).
Proof. unfold emitDenseElement. pose proof onlyExtends_emitError. grows. Qed.

Lemma onlyExtends_emitConstant op info value result :
  onlyExtends (emitConstant op info value result).
Proof.
  unfold emitConstant.
  pose proof onlyExtends_indent. pose proof onlyExtends_emitError.
  pose proof onlyExtends_emitArrayDecl.
  pose proof onlyExtends_emitInfoAndNewLine.
  pose proof onlyExtends_emitDenseElement.
  apply onlyExtends_bind; [grows|intros st].
  destruct (isDeclared st result); [grows|].
  destruct value; grows.
Qed.

Section Blocks.

Hypothesis emitOther_extends : ∀ op, onlyExtends (emitOther op).

Lemma onlyExtends_exprDispatch op : onlyExtends (exprDispatch op).
Proof.
  unfold exprDispatch. pose proof onlyExtends_emitConstant.
  destruct op as [| | | | | |name info operands results regions]; grows.
Qed.

Lemma onlyExtends_stmtDispatch (emitBody : Emit unit) op :
  onlyExtends emitBody → onlyExtends (stmtDispatch emitBody op).
Proof.
  intros Hbody.
  pose proof onlyExtends_emitAlloc.
  pose proof onlyExtends_emitTensorToMemref.
  destruct op as [info iv lb ub step body|info iv lm lo um uo step body
                 |info result|info result|info operand result
                 |info value result|name info operands results regions];
    cbn [stmtDispatch].
  - apply onlyExtends_bind; [|intros _; apply onlyExtends_ret].
    exact (onlyExtends_emitScfFor info iv lb ub step emitBody Hbody).
  - apply onlyExtends_bind; [|intros _; apply onlyExtends_ret].
    exact (onlyExtends_emitAffineFor info iv lm lo um uo step emitBody Hbody).
  - grows.
  - grows.
  - grows.
  - grows.
  - destruct name; grows.
Qed.

Lemma onlyExtends_ipDispatch op : onlyExtends (ipDispatch op).
Proof.
  unfold ipDispatch, visitInvalidOp.
  destruct op as [| | | | | |name info operands results regions]; grows.
Qed.

Lemma onlyExtends_emitBlockStep (emitBody : Emit unit) op :
  onlyExtends emitBody → onlyExtends (emitBlockStep emitBody op).
Proof.
  intros Hbody. unfold emitBlockStep.
  pose proof onlyExtends_exprDispatch.
  pose proof (onlyExtends_stmtDispatch emitBody op Hbody).
  pose proof onlyExtends_ipDispatch.
  pose proof onlyExtends_emitError. grows.
Qed.

Lemma onlyExtends_emitOperation op : onlyExtends (emitOperation op).
Proof.
  induction op as [op IH] using loop_bodies_ind.
  rewrite emitOperation_body. apply onlyExtends_emitBlockStep.
  now apply onlyExtends_forEach_Forall.
Qed.

Lemma onlyExtends_emitBlock block : onlyExtends (emitBlock block).
Proof.
  unfold emitBlock. apply onlyExtends_forEach.
  apply onlyExtends_emitOperation.
Qed.

(** X8: provided the library never renders a number as the empty text and
    the emitters reached through [emitOther] behave likewise, [emitBlock],
    whether it returns or stops on a failed check or in [abort()], takes
    nothing back: the text written before is still there with some more
    after it, the failure flag once raised stays raised, the diagnostics
    reported before are still there, and a value that had a name keeps that
    name. *)
Theorem block_takes_nothing_back (block : list Operation)
    (st : HLSCppEmitterState) :
  let st' := finalState (emitBlock block st) in
  (∃ text, os st' = os st +:+ text)
  ∧ (encounteredError st = true → encounteredError st' = true)
  ∧ (∃ more, diagnostics st' = (diagnostics st ++ more)%list)
  ∧ (∀ val name, nameTable st !! valueId val = Some name → name ≠ "" →
                 nameTable st' !! valueId val = Some name).
Proof.
  destruct (onlyExtends_emitBlock block st) as (Hos & Hflag & Hdiag & Hnames).
  cbv zeta. split; [exact Hos|]. split; [exact Hflag|].
  split; [exact Hdiag|]. intros val. apply Hnames.
Qed.

Section Modules.

Context `{AttrExternals}.

Lemma onlyExtends_emitFunctionComments info :
  onlyExtends (emitFunctionComments info).
Proof. unfold emitFunctionComments. grows. Qed.

Lemma onlyExtends_emitFunctionArguments arguments :
  onlyExtends (emitFunctionArguments arguments).
Proof.
  unfold emitFunctionArguments.
  pose proof onlyExtends_indent. pose proof onlyExtends_emitValue.
  pose proof onlyExtends_emitArrayDecl. grows.
Qed.

Lemma onlyExtends_emitFunctionResults results :
  onlyExtends (emitFunctionResults results).
Proof.
  unfold emitFunctionResults.
  pose proof onlyExtends_indent. pose proof onlyExtends_emitValue.
  pose proof onlyExtends_emitArrayDecl. grows.
Qed.

Lemma onlyExtends_portName name : onlyExtends (portName name).
Proof. unfold portName. grows. Qed.

Lemma onlyExtends_emitFunctionPragmas info portList :
  onlyExtends (emitFunctionPragmas info portList).
Proof.
  unfold emitFunctionPragmas.
  pose proof onlyExtends_indent. pose proof onlyExtends_emitValue.
  pose proof onlyExtends_emitArrayPragmas. pose proof onlyExtends_portName.
  grows.
Qed.

Ltac grows_function :=
  pose proof onlyExtends_emitFunctionComments;
  pose proof onlyExtends_emitFunctionArguments;
  pose proof onlyExtends_emitFunctionResults;
  pose proof onlyExtends_emitFunctionPragmas;
  pose proof onlyExtends_emitInfoAndNewLine;
  pose proof onlyExtends_emitError;
  pose proof onlyExtends_addIndent;
  pose proof onlyExtends_reduceIndent;
  pose proof onlyExtends_emitBlock;
  grows.

Lemma onlyExtends_emitFunction func : onlyExtends (emitFunction func).
Proof. unfold emitFunction. grows_function. Qed.

Lemma done_extends {A} (m : Emit A) st a st' :
  onlyExtends m → m st = Done a st' → extends st st'.
Proof. intros Hm Hrun. specialize (Hm st). now rewrite Hrun in Hm. Qed.

Lemma extends_flag st st' :
  extends st st' → encounteredError st = true → encounteredError st' = true.
Proof. intros (_ & Hflag & _). exact Hflag. Qed.

Lemma emitError_flag op message st a st' :
  emitError op message st = Done a st' → encounteredError st' = true.
Proof. intros [= _ <-]. reflexivity. Qed.

Lemma emitFunction_blocks_flag func st st' :
  length (funcBlocks func) ≠ 1 →
  emitFunction func st = Done tt st' → encounteredError st' = true.
Proof.
  intros Hblocks Hrun. unfold emitFunction in Hrun.
  apply bind_inv in Hrun as (a & st1 & Hfirst & Hrest).
  apply Nat.eqb_neq in Hblocks. rewrite Hblocks in Hfirst.
  apply emitError_flag in Hfirst.
  match type of Hrest with
  | ?rest _ = _ =>
      assert (Hgrows : onlyExtends rest) by grows_function
  end.
  exact (extends_flag _ _ (done_extends _ _ _ _ Hgrows Hrest) Hfirst).
Qed.

Lemma emitFunction_terminator_flag func front others terminator st st' :
  funcBlocks func = front :: others →
  last (blockOperations front) = Some terminator →
  (∀ info operands results regions,
     terminator ≠ OtherOp ReturnOp info operands results regions) →
  emitFunction func st = Done tt st' → encounteredError st' = true.
Proof.
  intros Hblocks Hlast Hother Hrun. unfold emitFunction in Hrun.
  rewrite Hblocks in Hrun. cbn [last] in Hrun.
  do 5 (apply bind_inv in Hrun as (? & ? & _ & Hrun)).
  rewrite Hlast in Hrun.
  apply bind_inv in Hrun as (results & st1 & Hresults & Hrest).
  assert (Hflag : encounteredError st1 = true).
  { destruct terminator as [| | | | | |name info operands results' regions];
      try (apply bind_inv in Hresults as (? & ? & Hraise & [= _ <-]);
           exact (emitError_flag _ _ _ _ _ Hraise)).
    destruct name;
      try (apply bind_inv in Hresults as (? & ? & Hraise & [= _ <-]);
           exact (emitError_flag _ _ _ _ _ Hraise)).
    now destruct (Hother info operands results' regions). }
  match type of Hrest with
  | ?rest _ = _ =>
      assert (Hgrows : onlyExtends rest) by grows_function
  end.
  exact (extends_flag _ _ (done_extends _ _ _ _ Hgrows Hrest) Hflag).
Qed.

(** X20: when the translation of a module returns, the text starts with
    the fixed header, and the result is a failure as soon as the module
    holds an operation that is neither a function nor its terminator, a
    function with more than one block, or a function whose entry block does
    not end in a return: no later item clears the flag.  (Provided, as in
    X8, that the library never renders a number as the empty text and that
    the emitters reached through [emitOther] take nothing back.) *)
Theorem translation_reports_failure body text failed :
  emitHLSCpp body = Some (text, failed) →
  (∃ rest, text = moduleHeader +:+ rest)
  ∧ ((∃ op, OtherItem op ∈ body) → failed = true)
  ∧ ((∃ func, FunctionItem func ∈ body ∧ length (funcBlocks func) ≠ 1) →
     failed = true)
  ∧ ((∃ func front others terminator,
        FunctionItem func ∈ body
        ∧ funcBlocks func = front :: others
        ∧ last (blockOperations front) = Some terminator
        ∧ ∀ info operands results regions,
            terminator ≠ OtherOp ReturnOp info operands results regions) →
     failed = true).
Proof.
  unfold emitHLSCpp, emitModule. intros Hrun.
  rewrite (bind_Done _ _ _ _ _ (write_appendOs _ _)) in Hrun.
  set (step := fun item =>
                 match item with
                 | FunctionItem func => emitFunction func
                 | ModuleTerminatorItem => mret tt
                 | OtherItem op => emitError op "is unsupported operation."
                 end) in *.
  assert (Hstep : ∀ item, onlyExtends (step item)).
  { intros [func| |op]; [apply onlyExtends_emitFunction|apply onlyExtends_ret|
                         apply onlyExtends_emitError]. }
  destruct (forEach step body (appendOs initialState moduleHeader))
    as [[] st|] eqn:Hloop; [|discriminate].
  injection Hrun as <- <-.
  assert (Hraised : ∀ item,
            item ∈ body →
            (∀ s s', step item s = Done tt s' → encounteredError s' = true) →
            encounteredError st = true).
  { intros item Hin Hraise.
    apply list_elem_of_split in Hin as (l1 & l2 & ->).
    rewrite forEach_app in Hloop.
    apply bind_inv in Hloop as ([] & s1 & _ & Hloop).
    change (forEach step (item :: l2)) with (step item ;; forEach step l2)
      in Hloop.
    apply bind_inv in Hloop as ([] & s2 & Hitem & Hloop).
    apply Hraise in Hitem.
    exact (extends_flag _ _
             (done_extends _ _ _ _ (onlyExtends_forEach _ _ Hstep) Hloop)
             Hitem). }
  split; [|split; [|split]].
  - destruct (done_extends _ _ _ _ (onlyExtends_forEach _ _ Hstep) Hloop)
      as ((rest & Hos) & _).
    exists rest. exact Hos.
  - intros (op & Hin). apply (Hraised _ Hin).
    intros s s'. apply emitError_flag.
  - intros (func & Hin & Hblocks). apply (Hraised _ Hin).
    intros s s'. now apply emitFunction_blocks_flag.
  - intros (func & front & others & terminator & Hin & Hblocks & Hlast & Hno).
    apply (Hraised _ Hin). intros s s'.
    now apply (emitFunction_terminator_flag func front others terminator).
Qed.

End Modules.

End Blocks.

End Names.

End Growth.

Lemma block_takes_nothing_back_witness :
  let st := withName (flagged (appendOs initialState "int val0;"))
                     scalarValue "val0" in
  let block := [AllocOp plainInfo memrefValue;
                OtherOp SplatOp plainInfo [] [] []] in
  let st' := finalState (emitBlock (H := sampleExternals) block st) in
  (∃ text, os st' = "int val0;" +:+ text)
  ∧ encounteredError st' = true
  ∧ nameTable st' !! valueId scalarValue = Some "val0".
Proof.
  intros st block st'.
  assert (Hprint : ∀ value,
            to_string_double (Externals := sampleExternals) value ≠ "")
    by (intros value; discriminate).
  assert (Hother : ∀ op, onlyExtends (emitOther (Externals := sampleExternals) op))
    by (intros op s; apply extends_refl).
  destruct (block_takes_nothing_back (H := sampleExternals) Hprint Hother
              block st) as (Hos & Hflag & _ & Hnames).
  split; [exact Hos|]. split; [exact (Hflag eq_refl)|].
  apply (Hnames scalarValue "val0"); [reflexivity|discriminate].
Defined.


Lemma element_loops_are_balanced_witness :
  indentInRange initialState
  ∧ ∃ st', emitElementwiseAssign (H := sampleExternals) plainInfo memrefValue
                                 tensorValue initialState
           = Done tt st'
           ∧ currentIndent st' = currentIndent initialState.
Proof.
  assert (Hrange : indentInRange initialState) by (split; reflexivity).
  split; [exact Hrange|].
  eexists. split; [vm_compute; reflexivity|].
  refine (proj2 (proj2 (proj2 (proj2 (proj2
            (element_loops_are_balanced (H := sampleExternals))))))
            plainInfo memrefValue tensorValue initialState tt _ Hrange _).
  vm_compute. reflexivity.
Defined.


(** ** What the dispatchers do with an operation *)

Section Dispatch.

Context `{Externals}.

(** X9: a return, a dealloc, an end, an scf.parallel, an scf.reduce and an
    scf.reduce.return are each handled by a [visitOp] that emits nothing:
    [emitBlock] writes nothing for them, whatever they hold in their
    regions, reports nothing, and goes on with the rest of the block. *)
Theorem skipped_operations_leave_no_trace info operands results regions rest
    st :
  Forall (fun name =>
            emitBlock (OtherOp name info operands results regions :: rest) st
            = emitBlock rest st)
         skippedOperations.
Proof. repeat constructor. Qed.

(** X10: a compare of floats whose predicate [ExprVisitor] does not
    translate gets the diagnostic [has unsupported compare type.] without
    the failure flag being raised; as the visitor answers [false], the
    operation falls through [StmtVisitor] to [IPVisitor], whose dispatcher
    does not list it, and the run ends in [abort()] before the rest of the
    block. *)
Theorem unsupported_compare_aborts info operands results regions rest st :
  cmpFPredicateSupported info = false →
  let op := OtherOp CmpFOp info operands results regions in
  emitBlock (op :: rest) st
  = Stopped AbortCalled
      (withDiagnostic (withDiagnostic st op "has unsupported compare type.")
                      op "is unsupported operation.").
Proof.
  intros Hpredicate op. rewrite emitBlock_cons. subst op.
  rewrite emitOperation_OtherOp.
  unfold emitBlockStep, mbind, Emit_bind. cbn [exprDispatch].
  rewrite Hpredicate. reflexivity.
Qed.

(** X11: [IPVisitor] has a [visitOp] for the FFT, the pseudo square root and
    the general IP operations, but the dispatcher of the HLSKernel visitor
    does not list them: [emitBlock] never reaches [emitFFTIP], [emitPSqrtIP]
    or [emitIP], and ends in [abort()] on such an operation, with nothing
    written, the failure flag as it was and the rest of the block left
    out. *)
Theorem unlisted_ip_operations_abort info operands results regions rest st :
  Forall (fun name =>
            ipVisitorHandles name = true
            ∧ inHLSKernelCatalogue name = false
            ∧ let op := OtherOp name info operands results regions in
              emitBlock (op :: rest) st
              = Stopped AbortCalled
                  (withDiagnostic st op "is unsupported operation."))
         unlistedIPOperations.
Proof. repeat constructor. Qed.

End Dispatch.

Lemma unsupported_compare_aborts_witness :
  let op := OtherOp CmpFOp plainInfo [scalarValue; scalarValue] [] [] in
  cmpFPredicateSupported (Externals := strictExternals) plainInfo = false
  ∧ emitBlock (H := strictExternals) [op; AllocOp plainInfo memrefValue]
              initialState
    = Stopped AbortCalled
        (withDiagnostic
           (withDiagnostic initialState op "has unsupported compare type.")
           op "is unsupported operation.").
Proof.
  intros op.
  assert (Hpredicate : cmpFPredicateSupported (Externals := strictExternals)
                                              plainInfo = false)
    by reflexivity.
  split; [exact Hpredicate|].
  exact (unsupported_compare_aborts (H := strictExternals) plainInfo
           [scalarValue; scalarValue] [] [] [AllocOp plainInfo memrefValue]
           initialState Hpredicate).
Defined.


(** ** Constants, array pragmas and memref views *)

Section Arrays.

Context `{Externals}.

(** X12: a constant operation whose value is an integer, a boolean or a
    float that [getName] renders by a non-empty literal emits nothing at
    all, and so does any constant whose result already has a name; a
    constant that has no name yet and whose value is neither a scalar nor a
    dense initialiser reports [has unsupported constant type.], raises the
    failure flag and writes nothing. *)
Theorem scalar_constant_emits_nothing op info st :
  (∀ id type value,
     isScalarAttr value = true →
     getName st (constantValue id type value) ≠ "" →
     emitConstant op info value (constantValue id type value) st = Done tt st)
  ∧ (∀ value result,
       isDeclared st result = true →
       emitConstant op info value result st = Done tt st)
  ∧ (∀ id type,
       nameTable st !! id = None →
       emitConstant op info OtherAttr (constantValue id type OtherAttr) st
       = Done tt (withError st op "has unsupported constant type.")).
Proof.
  assert (Hdeclared : ∀ value result,
            isDeclared st result = true →
            emitConstant op info value result st = Done tt st).
  { intros value result Hdecl.
    unfold emitConstant, mbind, Emit_bind, getState. now rewrite Hdecl. }
  split; [|split; [exact Hdeclared|]].
  - intros id type value _ Hname. apply Hdeclared. unfold isDeclared.
    destruct (getName st (constantValue id type value));
      [now contradict Hname|reflexivity].
  - intros id type Hfree.
    unfold emitConstant, mbind, Emit_bind, getState.
    unfold isDeclared, getName. cbn [constantValue valueDef valueId].
    rewrite Hfree. reflexivity.
Qed.

(** X13: for a memref without a layout map that already has a name,
    [emitArrayPragmas] writes nothing when the memory space is DRAM or none,
    and otherwise one resource pragma followed by an empty line, naming the
    core [ram_1p_bram] for space 0, [ram_t2p_bram] for space 2 and
    [ram_s2p_bram] for any other space; the state is otherwise untouched.
    On a value that is not a ranked memref it fails the cast. *)
Theorem array_pragmas_without_layout memref st :
  (isMemRefType (valueType memref) = false →
   emitArrayPragmas memref st = Stopped AssertionFailed st)
  ∧ (isMemRefType (valueType memref) = true →
     getLayoutMap (valueType memref) = None →
     isDeclared st memref = true →
     let kind := getMemorySpace (valueType memref) in
     emitArrayPragmas memref st
     = Done tt
         (if (kind =? DRAM)%Z || (kind =? MemoryKind_None)%Z then st
          else appendOs st
                 (spaces (Z.to_nat (currentIndent st)) +:+
                  "#pragma HLS resource variable=" +:+ getName st memref +:+
                  " core=" +:+ resourceCore kind +:+ newline +:+ newline))).
Proof.
  split.
  - intros Hmemref. unfold emitArrayPragmas, mbind, Emit_bind.
    now rewrite Hmemref.
  - intros Hmemref Hlayout Hdecl kind.
    unfold emitArrayPragmas. rewrite Hmemref, Hlayout. fold kind.
    unfold mbind at 1, Emit_bind at 1. cbn [assert mret Emit_ret].
    destruct (kind =? DRAM)%Z eqn:Hdram; cbn [negb andb orb];
      [reflexivity|].
    destruct (kind =? MemoryKind_None)%Z eqn:Hnone; cbn [negb andb orb];
      [reflexivity|].
    assert (Hcore : ∀ s,
      (if (kind =? BRAM_1P)%Z then write "ram_1p_bram"
       else if (kind =? BRAM_S2P)%Z then write "ram_s2p_bram"
            else if (kind =? BRAM_T2P)%Z then write "ram_t2p_bram"
                 else write "ram_s2p_bram") s
      = Done tt (appendOs s (resourceCore kind))).
    { intros s. unfold resourceCore.
      destruct (kind =? BRAM_1P)%Z; [reflexivity|].
      destruct (kind =? BRAM_S2P)%Z eqn:Hs2p.
      - apply Z.eqb_eq in Hs2p. rewrite Hs2p. reflexivity.
      - destruct (kind =? BRAM_T2P)%Z; reflexivity. }
    assert (Hpragma :
      (indent ;;
       write "#pragma HLS resource" ;;
       write " variable=" ;;
       emitValue memref 0 false ;;
       write " core=" ;;
       (if (kind =? BRAM_1P)%Z then write "ram_1p_bram"
        else if (kind =? BRAM_S2P)%Z then write "ram_s2p_bram"
        else if (kind =? BRAM_T2P)%Z then write "ram_t2p_bram"
        else write "ram_s2p_bram") ;;
       write newline ;;
       mret true) st
      = Done true
          (appendOs st
             (spaces (Z.to_nat (currentIndent st)) +:+
              "#pragma HLS resource variable=" +:+ getName st memref +:+
              " core=" +:+ resourceCore kind +:+ newline))).
    { rewrite (bind_Done _ _ _ _ _ (indent_text st)).
      rewrite (bind_Done _ _ _ _ _ (write_appendOs _ _)).
      rewrite (bind_Done _ _ _ _ _ (write_appendOs _ _)).
      erewrite bind_Done by (apply emitValue_declared; exact Hdecl).
      rewrite (bind_Done _ _ _ _ _ (write_appendOs _ _)).
      rewrite (bind_Done _ _ _ _ _ (Hcore _)).
      rewrite (bind_Done _ _ _ _ _ (write_appendOs _ _)).
      unfold mret, Emit_ret. f_equal.
      rewrite !appendOs_appendOs. f_equal. }
    rewrite (bind_Done _ _ _ _ _ Hpragma).
    unfold mbind, Emit_bind, mret, Emit_ret. cbn [when].
    rewrite write_appendOs, appendOs_appendOs. f_equal. f_equal.
    now rewrite !append_assoc.
Qed.

(** X14: a memref view of a tensor whose result has no name yet is not
    declared: the result takes over the name of the tensor, nothing is
    written before the pragmas of the array, and a tensor that has no name
    itself fails the check of [addAlias] with the state as it was.  When the
    result has a name (it is an output of the function) the view is emitted
    as the element-wise assignment instead. *)
Theorem memref_view_takes_tensor_name info operand result st :
  (isDeclared st result = true →
   emitTensorToMemref info operand result st
   = emitElementwiseAssign info operand result st)
  ∧ (isDeclared st result = false → isDeclared st operand = false →
     emitTensorToMemref info operand result st = Stopped AssertionFailed st)
  ∧ (isDeclared st result = false → isDeclared st operand = true →
     emitTensorToMemref info operand result st
     = emitArrayPragmas result (withName st result (getName st operand))).
Proof.
  split; [|split].
  - intros Hresult. unfold emitTensorToMemref, mbind, Emit_bind, getState.
    now rewrite Hresult.
  - intros Hresult Hoperand.
    unfold emitTensorToMemref, addAlias, mbind, Emit_bind, getState.
    cbn beta. rewrite !Hresult, !Hoperand. reflexivity.
  - intros Hresult Hoperand.
    unfold emitTensorToMemref, addAlias, mbind, Emit_bind, getState.
    cbn beta. rewrite !Hresult, !Hoperand. reflexivity.
Qed.

End Arrays.

Lemma scalar_constant_emits_nothing_witness :
  let op := ConstantOp plainInfo (IntegerAttr 7)
                       (constantValue 20 IndexType (IntegerAttr 7)) in
  emitConstant (H := sampleExternals) op plainInfo (IntegerAttr 7)
               (constantValue 20 IndexType (IntegerAttr 7)) initialState
  = Done tt initialState
  ∧ emitConstant (H := sampleExternals) op plainInfo OtherAttr
                 (constantValue 21 OtherType OtherAttr) initialState
    = Done tt (withError initialState op "has unsupported constant type.").
Proof.
  intros op.
  destruct (scalar_constant_emits_nothing (H := sampleExternals) op plainInfo
              initialState) as (Hscalar & _ & Hother).
  split.
  - apply Hscalar; [reflexivity|discriminate].
  - apply Hother. reflexivity.
Defined.

Lemma array_pragmas_without_layout_witness :
  let st := withName initialState dynamicOnChipArray "val0" in
  emitArrayPragmas (H := sampleExternals) scalarValue st
  = Stopped AssertionFailed st
  ∧ emitArrayPragmas (H := sampleExternals) dynamicOnChipArray st
    = Done tt (appendOs st ("#pragma HLS resource variable=val0" +:+
                            " core=ram_1p_bram" +:+ newline +:+ newline)).
Proof.
  intros st.
  destruct (array_pragmas_without_layout (H := sampleExternals) scalarValue st)
    as [Hscalar _].
  destruct (array_pragmas_without_layout (H := sampleExternals)
              dynamicOnChipArray st) as [_ Harray].
  split; [exact (Hscalar eq_refl)|].
  exact (Harray eq_refl eq_refl eq_refl).
Defined.

Lemma memref_view_takes_tensor_name_witness :
  let st := withName initialState tensorValue "val0" in
  emitTensorToMemref (H := sampleExternals) plainInfo tensorValue memrefValue
                     initialState
  = Stopped AssertionFailed initialState
  ∧ emitTensorToMemref (H := sampleExternals) plainInfo tensorValue
                       memrefValue st
    = emitArrayPragmas (H := sampleExternals) memrefValue
        (withName st memrefValue "val0").
Proof.
  intros st.
  destruct (memref_view_takes_tensor_name (H := sampleExternals) plainInfo
              tensorValue memrefValue initialState) as (_ & Hstop & _).
  destruct (memref_view_takes_tensor_name (H := sampleExternals) plainInfo
              tensorValue memrefValue st) as (_ & _ & Halias).
  split; [exact (Hstop eq_refl eq_refl)|exact (Halias eq_refl eq_refl)].
Defined.


(** ** Lists written with separators *)

Section Lists.

Context `{Externals}.

Lemma forEach_separated {A} (f : A → Emit unit) (g : A → string)
    (separator : string) (index : nat → Z) (total : Z) (l : list A) st :
  (∀ a text, a ∈ l →
     f a (appendOs st text) = Done tt (appendOs st (text +:+ g a))) →
  ∀ k text,
    (∀ i, k ≤ i < k + length l →
          index i = total ↔ i = k + length l - 1) →
    forEach (fun '(i, a) =>
               f a ;; when (negb (index i =? total)%Z) (write separator))
            (zip (seq k (length l)) l : list (nat * A)) (appendOs st text)
    = Done tt (appendOs st (text +:+ separatedBy separator (g <$> l))).
Proof.
  induction l as [|a l IH]; intros Hstep k text Htotal.
  - cbn. now rewrite append_nil_r.
  - assert (Ha : f a (appendOs st text)
                 = Done tt (appendOs st (text +:+ g a)))
      by (apply Hstep; rewrite elem_of_cons; now left).
    destruct l as [|b l].
    + cbn [length seq zip zip_with forEach fmap list_fmap separatedBy].
      rewrite (bind_Done _ _ _ tt (appendOs st (text +:+ g a)));
        [reflexivity|].
      rewrite (bind_Done _ _ _ _ _ Ha).
      replace (index k =? total)%Z with true
        by (symmetry; apply Z.eqb_eq, Htotal; cbn [length]; lia).
      reflexivity.
    + change (zip (seq k (length (a :: b :: l))) (a :: b :: l))
        with ((k, a) :: zip (seq (S k) (length (b :: l))) (b :: l)).
      change (forEach ?F ((k, a) :: ?rest))
        with (F (k, a) ;; forEach F rest).
      rewrite (bind_Done _ _ _ tt
                 (appendOs st ((text +:+ g a) +:+ separator))).
      2:{ rewrite (bind_Done _ _ _ _ _ Ha).
          replace (index k =? total)%Z with false.
          2:{ symmetry. apply Z.eqb_neq. intros Heq.
              apply Htotal in Heq; cbn [length] in *; lia. }
          cbn [negb when]. now rewrite write_appendOs, appendOs_appendOs. }
      rewrite IH.
      * cbn [fmap list_fmap separatedBy]. now rewrite !append_assoc.
      * intros a0 t Ha0. apply Hstep. rewrite elem_of_cons. now right.
      * intros i Hi. cbn [length] in *.
        rewrite (Htotal i) by lia. lia.
Qed.

(** X15: a constant with a dense initialiser of at most 2^32 elements whose
    result has no name yet declares the array on one line: the indentation,
    the element type and the new name with its extents (a pointer without
    extents when the shape is not static), the elements between braces with
    a comma and a space between each two of them and none after the last, a
    semicolon and the information comment; [text] is what the element type
    makes [emitDenseElement] write for each element.  An empty initialiser
    gives empty braces. *)
Theorem dense_initialiser_lists_elements op info elements
    (text : Attribute → string) result typeText st :
  (Z.of_nat (length elements) ≤ UINT_MODULUS)%Z →
  isDeclared st result = false →
  isShaped (valueType result) = true →
  elementTypeText (writtenType result) = Some typeText →
  (∀ element s, element ∈ elements →
     emitDenseElement op (getElementType (valueType result)) element s
     = Done tt (appendOs s (text element))) →
  let count := size (nameTable st) in
  let name := indexedName (negb (hasStaticShape (valueType result))) count in
  emitConstant op info (DenseElementsAttr elements) result st
  = Done tt
      (appendOs (withName st result name)
         (spaces (Z.to_nat (currentIndent st)) +:+
          declarationText typeText result count +:+ " = {" +:+
          separatedBy ", " (text <$> elements) +:+ "};" +:+ infoText info)).
Proof.
  intros Hcount Hdecl Hshaped Htype Helements count name.
  unfold emitConstant.
  unfold mbind at 1, Emit_bind at 1, getState. rewrite Hdecl.
  rewrite (bind_Done _ _ _ _ _ (indent_text st)).
  rewrite (bind_Done _ _ _ _ _
             (emitArrayDecl_text result typeText
                (appendOs st (spaces (Z.to_nat (currentIndent st))))
                Hshaped Htype Hdecl)).
  rewrite (bind_Done _ _ _ _ _ (write_appendOs _ _)).
  rewrite Hshaped.
  unfold assert at 1. unfold mbind at 1, Emit_bind at 1, mret, Emit_ret.
  set (st0 := withName st result name).
  change (withName (appendOs st ?indentation) result _)
    with (appendOs st0 indentation).
  change (size (nameTable (appendOs st _))) with count.
  rewrite !appendOs_appendOs.
  rewrite (bind_Done _ _ _ tt
             (appendOs st0
                ((spaces (Z.to_nat (currentIndent st)) +:+
                  declarationText typeText result count +:+ " = {") +:+
                 separatedBy ", " (text <$> elements)))).
  2:{ apply (forEach_separated _ _ _ (fun i => wrapU (Z.of_nat i))).
      - intros element t Hin. rewrite Helements by exact Hin.
        now rewrite appendOs_appendOs.
      - intros i Hi. unfold wrapU. rewrite Z.mod_small by lia. lia. }
  rewrite (bind_Done _ _ _ _ _ (write_appendOs _ _)).
  rewrite emitInfoAndNewLine_text, !appendOs_appendOs.
  now rewrite !append_assoc.
Qed.

Lemma forEach_idle {A} (f : A → Emit unit) (l : list A) st :
  (∀ a, a ∈ l → f a st = Done tt st) → forEach f l st = Done tt st.
Proof.
  induction l as [|a l IH]; intros Hidle; [reflexivity|].
  change (forEach f (a :: l)) with (f a ;; forEach f l).
  rewrite (bind_Done _ _ _ tt st)
    by (apply Hidle; rewrite elem_of_cons; now left).
  apply IH. intros b Hb. apply Hidle. rewrite elem_of_cons. now right.
Qed.

(** X16: a call whose operands and results all have names writes one
    line: the callee, then between parentheses the operands with a comma and
    a space between each two of them, then every result preceded by a comma
    and a space, and by an ampersand when it is not an array, then a
    semicolon and the information comment.  A call without operands hence
    starts its argument list with a comma. *)
Theorem call_lists_operands_then_results info callee operands results st :
  Forall (fun operand => isDeclared st operand = true) operands →
  Forall (fun result => isDeclared st result = true) results →
  (Z.of_nat (length operands) ≤ UINT_MODULUS)%Z →
  emitCall info callee operands results st
  = Done tt
      (appendOs st
         (spaces (Z.to_nat (currentIndent st)) +:+ callee +:+ "(" +:+
          separatedBy ", " (getName st <$> operands) +:+
          foldr (fun result acc =>
                   (if isShaped (valueType result) then ", " else ", &") +:+
                   getName st result +:+ acc) "" results +:+
          ");" +:+ infoText info)).
Proof.
  intros Hoperands Hresults Hcount.
  rewrite Forall_forall in Hoperands, Hresults.
  unfold emitCall.
  rewrite (bind_Done _ _ _ tt st).
  2:{ apply forEach_idle. intros result Hin.
      unfold mbind, Emit_bind, getState.
      now rewrite (Hresults result Hin). }
  rewrite (bind_Done _ _ _ _ _ (indent_text st)).
  rewrite (bind_Done _ _ _ _ _ (write_appendOs _ _)).
  rewrite appendOs_appendOs.
  set (head := spaces (Z.to_nat (currentIndent st)) +:+ callee +:+ "(").
  rewrite (bind_Done _ _ _ tt
             (appendOs st (head +:+ separatedBy ", " (getName st <$> operands)))).
  2:{ destruct (decide (operands = [])) as [->|Hsome].
      - cbn. now rewrite append_nil_r.
      - apply (forEach_separated _ _ _ Z.of_nat).
        + intros arg t Hin.
          rewrite emitValue_declared by (apply (Hoperands arg Hin)).
          now rewrite appendOs_appendOs.
        + intros i Hi. unfold wrapU. rewrite Z.mod_small; [lia|].
          destruct operands; [done|]. cbn [length] in *. lia. }
  rewrite (bind_Done _ _ _ tt
             (appendOs st
                ((head +:+ separatedBy ", " (getName st <$> operands)) +:+
                 foldr (fun result acc =>
                          (if isShaped (valueType result) then ", "
                           else ", &") +:+ getName st result +:+ acc)
                       "" results))).
  2:{ assert (Hfold : ∀ l : list Value,
                foldr (fun result acc =>
                         (if isShaped (valueType result) then ", "
                          else ", &") +:+ getName st result +:+ acc) "" l
                = foldr (fun result acc =>
                           ((if isShaped (valueType result) then ", "
                             else ", &") +:+ getName st result) +:+ acc)
                        "" l).
      { induction l as [|a l IH]; [reflexivity|].
        cbn [foldr]. now rewrite IH, append_assoc. }
      rewrite Hfold.
      apply (forEach_texts _
               (fun result => (if isShaped (valueType result) then ", "
                               else ", &") +:+ getName st result)).
      intros result t Hin.
      destruct (isShaped (valueType result));
        rewrite (bind_Done _ _ _ _ _ (write_appendOs _ _));
        rewrite emitValue_declared by (apply (Hresults result Hin));
        rewrite !appendOs_appendOs; do 2 f_equal;
        now rewrite !append_assoc. }
  rewrite (bind_Done _ _ _ _ _ (write_appendOs _ _)).
  rewrite emitInfoAndNewLine_text, !appendOs_appendOs.
  subst head. now rewrite !append_assoc.
Qed.

(** X17: for a constant index into a value of static shape, [emitDim]
    assigns the extent found at that index to the (named) result on one
    line, and when the index is negative or not below the rank it reports
    [index is out of range.], raises the failure flag and writes nothing. *)
Theorem dim_index_is_checked op info source index result constVal st :
  valueDef index = ConstantResult (IntegerAttr constVal) →
  hasStaticShape (valueType source) = true →
  isDeclared st result = true →
  emitDim op info source index result st
  = Done tt
      match (if (0 <=? constVal)%Z
             then getShape (valueType source) !! Z.to_nat constVal
             else None) with
      | Some extent =>
          appendOs st (spaces (Z.to_nat (currentIndent st)) +:+
                       getName st result +:+ " = " +:+ pretty extent +:+
                       ";" +:+ infoText info)
      | None => withError st op "index is out of range."
      end.
Proof.
  intros Hindex Hstatic Hdecl. unfold emitDim. rewrite Hindex.
  assert (Hshaped : isShaped (valueType source) = true)
    by (destruct (valueType source); try discriminate; reflexivity).
  rewrite Hshaped, Hstatic.
  unfold assert at 1. unfold mbind at 1, Emit_bind at 1, mret, Emit_ret.
  destruct (0 <=? constVal)%Z eqn:Hlow; cbn [andb].
  - apply Z.leb_le in Hlow.
    destruct (constVal <? Z.of_nat (length (getShape (valueType source))))%Z
      eqn:Hhigh.
    + apply Z.ltb_lt in Hhigh.
      destruct (lookup_lt_is_Some_2 (getShape (valueType source))
                  (Z.to_nat constVal) ltac:(lia)) as [extent Hextent].
      rewrite Hextent.
      rewrite (bind_Done _ _ _ _ _ (indent_text st)).
      erewrite bind_Done by (apply emitValue_declared; exact Hdecl).
      rewrite (bind_Done _ _ _ _ _ (write_appendOs _ _)).
      rewrite (bind_Done _ _ _ _ _ (write_appendOs _ _)).
      rewrite emitInfoAndNewLine_text, !appendOs_appendOs.
      do 2 f_equal.
      change (getName (appendOs st _) result) with (getName st result).
      now rewrite !append_assoc.
    + apply Z.ltb_ge in Hhigh.
      rewrite (lookup_ge_None_2 (getShape (valueType source))
                 (Z.to_nat constVal)) by lia.
      reflexivity.
  - reflexivity.
Qed.

(** X18: whatever the element type of its first operand (double
    included), [emitAmaxIP] instantiates the library templates with
    [float], for the data and for the result; the vector length is the first
    extent of that operand.  Fewer than two operands, or a first operand
    that is not a ranked array of at least one dimension, fail a check
    before anything is written. *)
Theorem amax_is_emitted_for_float p_x p_goldRes more st :
  match valueType p_x with
  | ShapedType _ _ (Some (p_n :: _)) _ =>
      emitAmaxIP (p_x :: p_goldRes :: more) st
      = Done tt
          (appendOs st
             ("  #pragma HLS DATAFLOW" +:+ newline +:+
              "  float l_res;" +:+ newline +:+
              "  hls::stream<typename WideType<float, 1 << 2>::t_TypeInt> l_str;"
                +:+ newline +:+
              "  readVec2Stream<float, 1 << 2>(" +:+ getName st p_x +:+ ", "
                +:+ pretty p_n +:+ ", l_str);" +:+ newline +:+
              "  amax<float, 2, float>(" +:+ pretty p_n +:+ ", l_str, l_res);"
                +:+ newline +:+
              "  " +:+ getName st p_goldRes +:+ " = l_res;" +:+ newline))
  | _ => emitAmaxIP (p_x :: p_goldRes :: more) st = Stopped AssertionFailed st
  end
  ∧ emitAmaxIP [p_x] st = Stopped AssertionFailed st
  ∧ emitAmaxIP [] st = Stopped AssertionFailed st.
Proof.
  split; [|split; reflexivity].
  unfold emitAmaxIP. cbn [lookup list_lookup].
  destruct (valueType p_x) as [| | | | kind elementType [[|p_n dims]|] space|];
    try reflexivity.
  cbn [isShaped assert isF64].
  unfold mbind, Emit_bind, mret, Emit_ret, getState.
  rewrite !write_appendOs, !appendOs_appendOs. do 2 f_equal.
  rewrite !append_assoc. reflexivity.
Qed.

End Lists.

(** ** Functions and modules *)

Section FunctionEmission.

Context `{Externals} `{AttrExternals}.

Lemma emitFunctionResults_cons result rest :
  emitFunctionResults (result :: rest)
  = ((write ("," +:+ newline) ;;
      indent ;;
      if isShaped (valueType result) then emitArrayDecl result
      else emitValue result 0 true) ;;
     emitFunctionResults rest).
Proof. reflexivity. Qed.

(** X19: among the values a function returns, an array that already has a
    name (an argument of the function, or an array returned a second time)
    fails the check of [emitArrayDecl] once the separator and the
    indentation are written, whereas a scalar that already has a name is
    listed by that name alone, without a type. *)
Theorem named_array_cannot_be_returned result st :
  let separator := "," +:+ newline +:+ spaces (Z.to_nat (currentIndent st)) in
  (isShaped (valueType result) = true →
   isDeclared st result = true →
   ∀ rest, emitFunctionResults (result :: rest) st
           = Stopped AssertionFailed (appendOs st separator))
  ∧ (isShaped (valueType result) = true →
     isDeclared st result = false →
     isScalarConstant result = false →
     ∀ typeText, elementTypeText (writtenType result) = Some typeText →
     ∃ st', emitFunctionResults [result; result] st
            = Stopped AssertionFailed st')
  ∧ (isShaped (valueType result) = false →
     isDeclared st result = true →
     emitFunctionResults [result] st
     = Done tt (appendOs st (separator +:+ getName st result))).
Proof.
  intros separator.
  assert (Hnamed : ∀ s rest,
            isShaped (valueType result) = true →
            isDeclared s result = true →
            emitFunctionResults (result :: rest) s
            = Stopped AssertionFailed
                (appendOs s ("," +:+ newline +:+
                             spaces (Z.to_nat (currentIndent s))))).
  { intros s rest Hshaped Hdecl. rewrite emitFunctionResults_cons.
    apply bind_Stopped.
    rewrite (bind_Done _ _ _ _ _ (write_appendOs _ _)).
    rewrite (bind_Done _ _ _ _ _ (indent_text _)).
    rewrite Hshaped, appendOs_appendOs.
    unfold emitArrayDecl, mbind, Emit_bind, getState.
    change (isDeclared (appendOs s ?t) result) with (isDeclared s result).
    rewrite Hdecl. reflexivity. }
  split; [|split].
  - intros Hshaped Hdecl rest. now apply Hnamed.
  - intros Hshaped Hdecl Hconst typeText Htype.
    rewrite emitFunctionResults_cons.
    erewrite bind_Done.
    2:{ rewrite (bind_Done _ _ _ _ _ (write_appendOs _ _)).
        rewrite (bind_Done _ _ _ _ _ (indent_text _)).
        rewrite Hshaped.
        apply (emitArrayDecl_text result typeText); assumption. }
    eexists. apply Hnamed; [assumption|].
    unfold isDeclared. rewrite getName_table by assumption.
    cbn [appendOs withName nameTable]. rewrite lookup_insert_eq.
    cbn [default]. 
    destruct (indexedName _ _) eqn:Hname; [|reflexivity].
    now apply indexedName_nonempty in Hname.
  - intros Hscalar Hdecl. rewrite emitFunctionResults_cons.
    rewrite (bind_Done _ _ _ tt
               (appendOs st (separator +:+ getName st result)));
      [reflexivity|].
    rewrite (bind_Done _ _ _ _ _ (write_appendOs _ _)).
    rewrite (bind_Done _ _ _ _ _ (indent_text _)).
    rewrite Hscalar.
    unfold emitValue, mbind, Emit_bind, getState.
    cbn [Nat.eqb negb andb assert mret Emit_ret].
    change (isDeclared (appendOs (appendOs st ?a) ?b) result)
      with (isDeclared st result).
    rewrite Hdecl.
    rewrite write_appendOs, writeIndices_text, !appendOs_appendOs.
    do 2 f_equal.
    change (getName (appendOs _ _) result) with (getName st result).
    change (currentIndent (appendOs st _)) with (currentIndent st).
    subst separator. unfold indicesText. cbn [seq foldr].
    now rewrite !append_assoc, ?append_nil_r.
Qed.

End FunctionEmission.




Lemma dense_initialiser_lists_elements_witness :
  let elements := [IntegerAttr 1; IntegerAttr 2; IntegerAttr 3] in
  let result :=
    {| valueId := 30; valueType := ShapedType MemRef IndexType (Some [3%Z]) 0;
       valueDef := ConstantResult (DenseElementsAttr elements) |} in
  let op := ConstantOp plainInfo (DenseElementsAttr elements) result in
  emitConstant (H := sampleExternals) op plainInfo
               (DenseElementsAttr elements) result initialState
  = Done tt (appendOs (withName initialState result "val0")
                      ("int val0[3] = {1, 2, 3};" +:+
                       infoText plainInfo)).
Proof.
  intros elements result op.
  etrans;
    [apply (dense_initialiser_lists_elements (H := sampleExternals) op
              plainInfo elements
              (fun element => match element with
                              | IntegerAttr value => pretty value
                              | _ => ""
                              end)
              result "int " initialState)
    |reflexivity]; try reflexivity.
  - unfold UINT_MODULUS, UINT_WIDTH. simpl. lia.
  - intros element s Hin. unfold elements in Hin.
    rewrite !elem_of_cons in Hin.
    destruct Hin as [->|[->|[->|Hin]]]; try reflexivity.
    now apply elem_of_nil in Hin.
Defined.

Lemma call_lists_operands_then_results_witness :
  let st := withName (withName initialState scalarValue "val0")
                     memrefValue "val1" in
  emitCall (H := sampleExternals) plainInfo "kernel" [] [memrefValue; scalarValue]
           st
  = Done tt (appendOs st ("kernel(, val1, &val0);" +:+
                          infoText plainInfo))
  ∧ emitCall (H := sampleExternals) plainInfo "kernel"
             [scalarValue; memrefValue] [] st
    = Done tt (appendOs st ("kernel(val0, val1);" +:+
                            infoText plainInfo)).
Proof.
  intros st. split.
  - apply (call_lists_operands_then_results (H := sampleExternals) plainInfo
             "kernel" [] [memrefValue; scalarValue] st).
    + constructor.
    + repeat constructor.
    + unfold UINT_MODULUS, UINT_WIDTH. simpl. lia.
  - apply (call_lists_operands_then_results (H := sampleExternals) plainInfo
             "kernel" [scalarValue; memrefValue] [] st).
    + repeat constructor.
    + constructor.
    + unfold UINT_MODULUS, UINT_WIDTH. simpl. lia.
Defined.

Lemma dim_index_is_checked_witness :
  let st := withName initialState scalarValue "val0" in
  let index position := constantValue 40 IndexType (IntegerAttr position) in
  let op := OtherOp (ForeignOp "std.dim") plainInfo [] [] [] in
  emitDim (H := sampleExternals) op plainInfo memrefValue (index 0%Z)
          scalarValue st
  = Done tt (appendOs st ("val0 = 4;" +:+
                          infoText plainInfo))
  ∧ emitDim (H := sampleExternals) op plainInfo memrefValue (index 1%Z)
            scalarValue st
    = Done tt (withError st op "index is out of range.")
  ∧ emitDim (H := sampleExternals) op plainInfo memrefValue (index (-1)%Z)
            scalarValue st
    = Done tt (withError st op "index is out of range.").
Proof.
  intros st index op. split; [|split].
  - exact (dim_index_is_checked (H := sampleExternals) op plainInfo
             memrefValue (index 0%Z) scalarValue 0%Z st eq_refl eq_refl eq_refl).
  - exact (dim_index_is_checked (H := sampleExternals) op plainInfo
             memrefValue (index 1%Z) scalarValue 1%Z st eq_refl eq_refl eq_refl).
  - exact (dim_index_is_checked (H := sampleExternals) op plainInfo
             memrefValue (index (-1)%Z) scalarValue (-1)%Z st eq_refl eq_refl
             eq_refl).
Defined.

Lemma named_array_cannot_be_returned_witness :
  let st := withName initialState memrefValue "val0" in
  emitFunctionResults (H := sampleExternals) [memrefValue] st
  = Stopped AssertionFailed (appendOs st ("," +:+ newline))
  ∧ ∃ st', emitFunctionResults (H := sampleExternals)
             [tensorValue; tensorValue] st
           = Stopped AssertionFailed st'.
Proof.
  intros st.
  destruct (named_array_cannot_be_returned (H := sampleExternals)
              memrefValue st) as (Hnamed & _ & _).
  destruct (named_array_cannot_be_returned (H := sampleExternals)
              tensorValue st) as (_ & Htwice & _).
  split.
  - exact (Hnamed eq_refl eq_refl []).
  - exact (Htwice eq_refl eq_refl eq_refl "float " eq_refl).
Defined.

Lemma translation_reports_failure_witness :
  let entry :=
    {| blockArguments := [scalarValue];
       blockOperations := [OtherOp ReturnOp plainInfo [] [] []] |} in
  let func :=
    {| funcInfo := plainInfo; funcName := "kernel"; funcBlocks := [entry] |} in
  let body := [FunctionItem func;
               OtherItem (OtherOp (ForeignOp "module") plainInfo [] [] []);
               ModuleTerminatorItem] in
  ∃ rest, emitHLSCpp (H := sampleExternals) (H0 := sampleAttrExternals) body
          = Some (moduleHeader +:+ rest, true).
Proof.
  intros entry func body.
  assert (Hprint : ∀ value,
            to_string_double (Externals := sampleExternals) value ≠ "")
    by (intros value; discriminate).
  assert (Hother : ∀ op, onlyExtends (emitOther (Externals := sampleExternals) op))
    by (intros op s; apply extends_refl).
  destruct (emitHLSCpp (H := sampleExternals) (H0 := sampleAttrExternals) body)
    as [[text failed]|] eqn:Hrun; [|vm_compute in Hrun; discriminate Hrun].
  destruct (translation_reports_failure (H := sampleExternals) Hprint Hother
              (H0 := sampleAttrExternals) body text failed Hrun)
    as ((rest & ->) & Hforeign & _).
  exists rest. rewrite Hforeign; [reflexivity|].
  eexists. unfold body. rewrite !elem_of_cons. right. left. reflexivity.
Defined.

(** ** The name table along a run *)

Section NameTable.

Context `{Externals}.

Hypothesis to_string_nonempty : ∀ value, to_string_double value ≠ "".

Lemma tableInvariant_ext aliases st st' :
  nameTable st' = nameTable st →
  tableInvariant aliases st → tableInvariant aliases st'.
Proof. unfold tableInvariant. intros Heq. now rewrite Heq. Qed.


(** An entry made for a value of [aliases] does not bear on the others. *)
Lemma tableInvariant_alias aliases st alias name :
  valueId alias ∈ aliases →
  tableInvariant aliases st → tableInvariant aliases (withName st alias name).
Proof.
  intros Hin [Hindexed Hdistinct].
  assert (Hother : ∀ k, k ∉ aliases →
            nameTable (withName st alias name) !! k = nameTable st !! k).
  { intros k Hk. cbn [withName nameTable].
    apply lookup_insert_ne. intros Heq. apply Hk. now rewrite <- Heq. }
  split.
  - intros k nm Hk Hlook. rewrite Hother in Hlook by assumption.
    destruct (Hindexed k nm Hk Hlook) as (p & n & -> & Hn).
    exists p, n. split; [reflexivity|].
    cbn [withName nameTable]. rewrite map_size_insert.
    destruct (nameTable st !! valueId alias); cbn; lia.
  - intros k1 k2 nm Hk1 Hk2 H1 H2.
    rewrite Hother in H1, H2 by assumption. eauto.
Qed.

(** The entry [addName] makes is new, and so is its name. *)
Lemma tableInvariant_name aliases st val isPtr :
  isDeclared st val = false →
  tableInvariant aliases st →
  tableInvariant aliases
    (withName st val (indexedName isPtr (size (nameTable st)))).
Proof.
  intros Hdecl HP.
  destruct (decide (valueId val ∈ aliases)) as [Hin|Hout];
    [now apply tableInvariant_alias|].
  destruct HP as [Hindexed Hdistinct].
  assert (Hfresh : nameTable st !! valueId val = None).
  { destruct (nameTable st !! valueId val) as [old|] eqn:Hold; [|reflexivity].
    pose proof (undeclared_free to_string_nonempty st val old Hdecl Hold)
      as Hempty.
    destruct (Hindexed _ _ Hout Hold) as (p & n & Hname & _).
    rewrite Hempty in Hname. symmetry in Hname.
    now apply indexedName_nonempty in Hname. }
  assert (Hclash : ∀ k, k ∉ aliases →
            nameTable st !! k
            ≠ Some (indexedName isPtr (size (nameTable st)))).
  { intros k Hk Hlook.
    destruct (Hindexed _ _ Hk Hlook) as (p & n & Hname & Hn).
    apply indexedName_inj in Hname. lia. }
  split.
  - intros k nm Hk Hlook. cbn [withName nameTable] in *.
    rewrite map_size_insert_None by assumption.
    destruct (decide (valueId val = k)) as [<-|Hne].
    + rewrite lookup_insert_eq in Hlook. injection Hlook as <-. eauto.
    + rewrite lookup_insert_ne in Hlook by assumption.
      destruct (Hindexed k nm Hk Hlook) as (p & n & -> & Hn).
      exists p, n. split; [reflexivity|lia].
  - intros k1 k2 nm Hk1 Hk2 H1 H2. cbn [withName nameTable] in *.
    destruct (decide (valueId val = k1)) as [Heq1|Hne1];
      destruct (decide (valueId val = k2)) as [Heq2|Hne2].
    + congruence.
    + rewrite <- Heq1, lookup_insert_eq in H1. injection H1 as <-.
      rewrite lookup_insert_ne in H2 by assumption.
      now apply Hclash in H2.
    + rewrite <- Heq2, lookup_insert_eq in H2. injection H2 as <-.
      rewrite lookup_insert_ne in H1 by assumption.
      now apply Hclash in H1.
    + rewrite lookup_insert_ne in H1, H2 by assumption. eauto.
Qed.

Section Keeping.

Variable aliases : list N.

Local Abbreviation inv := (tableInvariant aliases).

Lemma keeps_ret {A} (a : A) : keeps inv (mret a : Emit A).
Proof. intros st HP. exact HP. Qed.

Lemma keeps_stop {A} why : keeps inv (stop why : Emit A).
Proof. intros st HP. exact HP. Qed.

Lemma keeps_getState : keeps inv getState.
Proof. intros st HP. exact HP. Qed.

Lemma keeps_bind {A B} (m : Emit A) (k : A → Emit B) :
  keeps inv m → (∀ a, keeps inv (k a)) → keeps inv (m ≫= k).
Proof.
  intros Hm Hk st HP. specialize (Hm st HP).
  unfold mbind, Emit_bind. destruct (m st) as [a st1|why st1]; [|exact Hm].
  now apply Hk.
Qed.

Lemma keeps_write text : keeps inv (write text).
Proof. intros st HP. exact (tableInvariant_ext _ _ _ eq_refl HP). Qed.

Lemma keeps_report site message : keeps inv (report site message).
Proof. intros st HP. exact (tableInvariant_ext _ _ _ eq_refl HP). Qed.

Lemma keeps_setEncounteredError : keeps inv setEncounteredError.
Proof. intros st HP. exact (tableInvariant_ext _ _ _ eq_refl HP). Qed.

Lemma keeps_setIndent n : keeps inv (setIndent n).
Proof. intros st HP. exact (tableInvariant_ext _ _ _ eq_refl HP). Qed.

Lemma keeps_assert cond : keeps inv (assert cond).
Proof. destruct cond; [apply keeps_ret|apply keeps_stop]. Qed.

Lemma keeps_when cond (body : Emit unit) :
  keeps inv body → keeps inv (when cond body).
Proof. destruct cond; [auto|intros _; apply keeps_ret]. Qed.

Lemma keeps_forEach {A} (f : A → Emit unit) (l : list A) :
  (∀ a, keeps inv (f a)) → keeps inv (forEach f l).
Proof.
  intros Hf. induction l as [|a l IH]; [apply keeps_ret|].
  cbn [forEach]. apply keeps_bind; [apply Hf|intros _; exact IH].
Qed.



Lemma keeps_addName val isPtr : keeps inv (addName val isPtr).
Proof.
  intros st HP. destruct (isDeclared st val) eqn:Hdecl.
  - unfold addName, mbind, Emit_bind, getState. now rewrite Hdecl.
  - rewrite addName_undeclared by assumption.
    now apply tableInvariant_name.
Qed.


Ltac tables :=
  repeat match goal with
    | |- keeps _ (forEach _ _) => apply keeps_forEach; intros ?
    | |- keeps _ (_ ≫= _) => apply keeps_bind; [|intros ?]
    | |- keeps _ (mret _) => apply keeps_ret
    | |- keeps _ (stop _) => apply keeps_stop
    | |- keeps _ getState => apply keeps_getState
    | |- keeps _ (write _) => apply keeps_write
    | |- keeps _ (report _ _) => apply keeps_report
    | |- keeps _ setEncounteredError => apply keeps_setEncounteredError
    | |- keeps _ (setIndent _) => apply keeps_setIndent
    | |- keeps _ (assert _) => apply keeps_assert
    | |- keeps _ (when _ _) => apply keeps_when
    | |- keeps _ (addName _ _) => apply keeps_addName
    | |- keeps _ (if ?b then _ else _) => destruct b
    | |- keeps _ (match ?x with _ => _ end) => destruct x
    | Hx : keeps _ ?m |- keeps _ ?m => exact Hx
    | Hx : ∀ a, keeps _ (@?m a) |- keeps _ _ => apply Hx
    | Hx : ∀ a b, keeps _ (@?m a b) |- keeps _ _ => apply Hx
    | Hx : ∀ a b c, keeps _ (@?m a b c) |- keeps _ _ => apply Hx
    | Hx : ∀ a b c d, keeps _ (@?m a b c d) |- keeps _ _ => apply Hx
    end.

Lemma keeps_indent : keeps inv indent.
Proof. unfold indent. tables. Qed.

Lemma keeps_addIndent : keeps inv addIndent.
Proof. unfold addIndent. tables. Qed.

Lemma keeps_reduceIndent : keeps inv reduceIndent.
Proof. unfold reduceIndent. tables. Qed.


Lemma keeps_emitErrorAtDefiningOp val message :
  keeps inv (emitErrorAtDefiningOp val message).
Proof. unfold emitErrorAtDefiningOp. tables. Qed.

Lemma keeps_emitType val t : keeps inv (emitType val t).
Proof.
  unfold emitType. pose proof (keeps_emitErrorAtDefiningOp val).
  destruct t; tables.
Qed.

Lemma keeps_emitValue val rank isPtr : keeps inv (emitValue val rank isPtr).
Proof.
  unfold emitValue, writeIndices. pose proof (keeps_emitType val). tables.
Qed.

Lemma keeps_emitArrayDecl array : keeps inv (emitArrayDecl array).
Proof. unfold emitArrayDecl. pose proof keeps_emitValue. tables. Qed.

Lemma keeps_emitInfoAndNewLine info : keeps inv (emitInfoAndNewLine info).
Proof.
  intros st HP. rewrite emitInfoAndNewLine_text.
  exact (tableInvariant_ext _ _ _ eq_refl HP).
Qed.




Lemma keeps_emitNestedLoopHead val : keeps inv (emitNestedLoopHead val).
Proof.
  unfold emitNestedLoopHead.
  pose proof keeps_indent. pose proof keeps_addIndent.
  pose proof keeps_emitArrayDecl.
  pose proof keeps_emitErrorAtDefiningOp. tables.
Qed.

Lemma keeps_emitNestedLoopTail rank : keeps inv (emitNestedLoopTail rank).
Proof.
  unfold emitNestedLoopTail.
  pose proof keeps_indent. pose proof keeps_reduceIndent. tables.
Qed.








(** The emitters of [Section Statements] keep the invariant as well. *)
Lemma keeps_emitBinary info syntax lhs rhs result :
  keeps inv (emitBinary info syntax lhs rhs result).
Proof.
  unfold emitBinary.
  pose proof keeps_indent. pose proof keeps_emitValue.
  pose proof keeps_emitNestedLoopHead. pose proof keeps_emitNestedLoopTail.
  pose proof keeps_emitInfoAndNewLine. tables.
Qed.

Lemma keeps_emitUnary info syntax operand result :
  keeps inv (emitUnary info syntax operand result).
Proof.
  unfold emitUnary.
  pose proof keeps_indent. pose proof keeps_emitValue.
  pose proof keeps_emitNestedLoopHead. pose proof keeps_emitNestedLoopTail.
  pose proof keeps_emitInfoAndNewLine. tables.
Qed.

Lemma keeps_emitCall info callee operands results :
  keeps inv (emitCall info callee operands results).
Proof.
  unfold emitCall, declareResults.
  pose proof keeps_indent. pose proof keeps_emitValue.
  pose proof keeps_emitArrayDecl.
  pose proof keeps_emitInfoAndNewLine. tables.
Qed.

Section Blocks.

Hypothesis emitOther_keeps : ∀ op, keeps inv (emitOther op).








Section Modules.

Context `{AttrExternals}.








End Modules.

End Blocks.

End Keeping.

End NameTable.


(** ** Names and literals in a run of the emitter *)

Section Naming.

Context `{Externals} `{AttrExternals}.

Hypothesis to_string_nonempty : ∀ value, to_string_double value ≠ "".

Hypothesis emitOther_keeps :
  ∀ aliases op, keeps (tableInvariant aliases) (emitOther op).






End Naming.





(** ** Allocations *)

Section Allocations.

Context `{Externals}.

(** What [emitArrayDecl] does for an array that has no name yet, whatever
    its element type. *)
Lemma emitArrayDecl_run result st :
  isShaped (valueType result) = true →
  isDeclared st result = false →
  let static := hasStaticShape (valueType result) in
  let name := indexedName (negb static) (size (nameTable st)) in
  let extents := if static then extentsText (getShape (valueType result))
                 else "" in
  emitArrayDecl result st
  = match elementTypeText (writtenType result), valueDef result with
    | Some typeText, _ =>
        Done tt (appendOs (withName st result name)
                          (typeText +:+ name +:+ extents))
    | None, BlockArgument => Stopped NullOperation (flagged st)
    | None, _ =>
        Done tt (appendOs
                   (withName
                      (withErrorAtDefiningOp st result "has unsupported type.")
                      result name)
                   (name +:+ extents))
    end.
Proof.
  intros Hshaped Hdecl static name extents.
  destruct (elementTypeText (writtenType result)) as [typeText|] eqn:Htype.
  - rewrite (emitArrayDecl_text result typeText st Hshaped Htype Hdecl).
    unfold declarationText. subst name extents static.
    destruct (hasStaticShape (valueType result)); cbn [negb];
      rewrite ?append_nil_r; reflexivity.
  - pose proof (emitType_unsupported result _ Htype) as Hemit.
    pose proof (emitErrorAtDefiningOp_run result "has unsupported type." st)
      as Hrun.
    rewrite <- Hemit in Hrun.
    unfold emitArrayDecl, mbind at 1 2 3, Emit_bind at 1 2 3, getState.
    rewrite Hdecl, Hshaped. cbn [negb assert mret Emit_ret].
    subst name extents static.
    destruct (valueDef result) eqn:Hdef.
    + destruct (hasStaticShape (valueType result)); cbn [negb];
        unfold emitValue, mbind, Emit_bind, getState;
        cbn [Nat.eqb negb andb assert mret Emit_ret]; rewrite Hdecl;
        fold (writtenType result); now rewrite Hrun.
    + destruct (hasStaticShape (valueType result)); cbn [negb].
      * unfold mbind, Emit_bind.
        rewrite (emitValue_undeclared result 0 false st _ eq_refl Hdecl Hrun).
        rewrite extents_written, appendOs_appendOs.
        unfold indicesText; cbn [seq foldr]. now rewrite append_nil_r.
      * rewrite (emitValue_undeclared result 0 true st _ eq_refl Hdecl Hrun).
        unfold indicesText; cbn [seq foldr]. now rewrite !append_nil_r.
    + destruct (hasStaticShape (valueType result)); cbn [negb].
      * unfold mbind, Emit_bind.
        rewrite (emitValue_undeclared result 0 false st _ eq_refl Hdecl Hrun).
        rewrite extents_written, appendOs_appendOs.
        unfold indicesText; cbn [seq foldr]. now rewrite append_nil_r.
      * rewrite (emitValue_undeclared result 0 true st _ eq_refl Hdecl Hrun).
        unfold indicesText; cbn [seq foldr]. now rewrite !append_nil_r.
Qed.

(** C7, as the code has it: an allocation whose result is already declared
    emits nothing.  Otherwise, when the type lacks a static shape the error
    [is unranked or has dynamic shape.] is reported at the operation and the
    run is marked as failed, and the array is still declared, as a pointer
    [*valN] without extents; when the shape is static that error is not
    reported and the array is declared as [valN] followed by one bracketed
    extent per dimension.  In either case, when the element type is none of
    those the emitter can write, the error [has unsupported type.] is
    reported at the operation that defines the result and the declaration is
    written without a type in front (for a result that no operation defines
    the run ends there instead).  The declaration is followed by the
    pragmas of the array.  A result that is not of a shaped type fails the
    check of [emitArrayDecl]. *)
Theorem alloc_declares_array (op : Operation) (info : OpInfo) (result : Value)
    (st : HLSCppEmitterState) :
  (isDeclared st result = true → emitAlloc op info result st = Done tt st)
  ∧ (isDeclared st result = false →
     let count := size (nameTable st) in
     let static := hasStaticShape (valueType result) in
     let reported :=
       if static then st
       else withError st op "is unranked or has dynamic shape." in
     let name := (if static then "" else "*") +:+ "val" +:+ pretty count in
     let extents := if static then extentsText (getShape (valueType result))
                    else "" in
     let indentation := spaces (Z.to_nat (currentIndent st)) in
     emitAlloc op info result st
     = if isShaped (valueType result) then
         match elementTypeText (writtenType result), valueDef result with
         | Some typeText, _ =>
             emitArrayPragmas result
               (appendOs (withName reported result name)
                         (indentation +:+ typeText +:+ name +:+ extents +:+
                          ";" +:+ infoText info))
         | None, BlockArgument =>
             Stopped NullOperation (flagged (appendOs reported indentation))
         | None, _ =>
             emitArrayPragmas result
               (appendOs
                  (withName
                     (withErrorAtDefiningOp reported result
                                            "has unsupported type.")
                     result name)
                  (indentation +:+ name +:+ extents +:+ ";" +:+ infoText info))
         end
       else Stopped AssertionFailed (appendOs reported indentation)).
Proof.
  split.
  - intros Hdecl. unfold emitAlloc, mbind, Emit_bind, getState.
    now rewrite Hdecl.
  - intros Hdecl count static reported name extents indentation.
    unfold emitAlloc, mbind at 1, Emit_bind at 1, getState. rewrite Hdecl.
    assert (Hreport :
      when (negb (hasStaticShape (valueType result)))
           (emitError op "is unranked or has dynamic shape.") st
      = Done tt reported).
    { subst reported static.
      destruct (hasStaticShape (valueType result)); reflexivity. }
    rewrite (bind_Done _ _ _ _ _ Hreport).
    assert (Htable : nameTable reported = nameTable st)
      by (subst reported; destruct static; reflexivity).
    assert (Hindent : currentIndent reported = currentIndent st)
      by (subst reported; destruct static; reflexivity).
    assert (Hundecl : isDeclared (appendOs reported indentation) result = false)
      by (rewrite <- Hdecl; now apply isDeclared_ext).
    erewrite bind_Done by apply indent_text. rewrite Hindent.
    fold indentation.
    destruct (isShaped (valueType result)) eqn:Hshaped.
    + pose proof (emitArrayDecl_run result _ Hshaped Hundecl) as Hrun.
      cbv zeta in Hrun. cbn [appendOs nameTable] in Hrun.
      rewrite Htable in Hrun. fold count static in Hrun.
      assert (Hname : indexedName (negb static) count = name)
        by (subst name; now destruct static).
      rewrite Hname in Hrun. fold extents in Hrun.
      destruct (elementTypeText (writtenType result)) as [typeText|].
      * rewrite (bind_Done _ _ _ _ _ Hrun).
        erewrite bind_Done by apply write_appendOs.
        erewrite bind_Done by apply emitInfoAndNewLine_text.
        f_equal. unfold appendOs, withName; cbn. f_equal.
        now rewrite !append_assoc.
      * destruct (valueDef result).
        -- unfold mbind, Emit_bind. now rewrite Hrun.
        -- rewrite (bind_Done _ _ _ _ _ Hrun).
           erewrite bind_Done by apply write_appendOs.
           erewrite bind_Done by apply emitInfoAndNewLine_text.
           f_equal. unfold appendOs, withName, withErrorAtDefiningOp; cbn.
           f_equal. now rewrite !append_assoc.
        -- rewrite (bind_Done _ _ _ _ _ Hrun).
           erewrite bind_Done by apply write_appendOs.
           erewrite bind_Done by apply emitInfoAndNewLine_text.
           f_equal. unfold appendOs, withName, withErrorAtDefiningOp; cbn.
           f_equal. now rewrite !append_assoc.
    + unfold mbind, Emit_bind, emitArrayDecl.
      unfold mbind at 1 2, Emit_bind at 1 2, getState.
      rewrite Hundecl, Hshaped. reflexivity.
Qed.

End Allocations.

Lemma alloc_declares_array_witness :
  let op := AllocOp plainInfo dynamicOnChipArray in
  let declared := withName initialState dynamicOnChipArray "*val0" in
  let untyped :=
    {| valueId := 4; valueType := ShapedType MemRef OtherType (Some [4%Z]) BRAM_1P;
       valueDef := OpResult |} in
  isDeclared (H := sampleExternals) declared dynamicOnChipArray = true
  ∧ emitAlloc (H := sampleExternals) op plainInfo dynamicOnChipArray declared
    = Done tt declared
  ∧ isDeclared (H := sampleExternals) initialState dynamicOnChipArray = false
  ∧ emitAlloc (H := sampleExternals) op plainInfo dynamicOnChipArray
              initialState
    = emitArrayPragmas (H := sampleExternals) dynamicOnChipArray
        (appendOs
           (withName
              (withError initialState op "is unranked or has dynamic shape.")
              dynamicOnChipArray "*val0")
           ("float *val0;" +:+ infoText plainInfo))
  ∧ isDeclared (H := sampleExternals) initialState untyped = false
  ∧ hasStaticShape (valueType untyped) = true
  ∧ emitAlloc (H := sampleExternals) (AllocOp plainInfo untyped) plainInfo
              untyped initialState
    = emitArrayPragmas (H := sampleExternals) untyped
        (appendOs
           (withName
              (withErrorAtDefiningOp initialState untyped
                                     "has unsupported type.")
              untyped "val0")
           ("val0[4];" +:+ infoText plainInfo)).
Proof.
  intros op declared untyped.
  assert (Hdecl : isDeclared (H := sampleExternals) declared
                             dynamicOnChipArray = true) by reflexivity.
  assert (Hundecl : isDeclared (H := sampleExternals) initialState
                               dynamicOnChipArray = false) by reflexivity.
  assert (Huntyped : isDeclared (H := sampleExternals) initialState
                                untyped = false) by reflexivity.
  split; [exact Hdecl|].
  split; [exact (proj1 (alloc_declares_array (H := sampleExternals) op
                          plainInfo dynamicOnChipArray declared) Hdecl)|].
  split; [exact Hundecl|].
  split; [exact (proj2 (alloc_declares_array (H := sampleExternals) op
                          plainInfo dynamicOnChipArray initialState) Hundecl)|].
  split; [exact Huntyped|]. split; [reflexivity|].
  exact (proj2 (alloc_declares_array (H := sampleExternals)
                  (AllocOp plainInfo untyped) plainInfo untyped initialState)
               Huntyped).
Defined.


End EmitterProofs.

(* ===================================================================== *)
(** * Properties of the annotation pass                                   *)
(* ===================================================================== *)

Module AnnotatorProofs.

Import Annotator.

(** ** Operands and attributes *)

Lemma redirected_refl val : redirected val val.
Proof. now left. Qed.

Lemma redirected_trans v1 v2 v3 :
  redirected v1 v2 → redirected v2 v3 → redirected v1 v3.
Proof.
  intros [->|H12] [->|H23]; unfold redirected; auto.
Qed.

Lemma redirected_wrapped val val' :
  redirected val val' → wrappedOperand val → wrappedOperand val'.
Proof. intros [->|Hw] Hval; [assumption|]. now intros _. Qed.

Lemma Forall2_redirected_refl (l : list Value) : Forall2 redirected l l.
Proof. induction l; constructor; auto using redirected_refl. Qed.

Lemma Forall2_redirected_trans (l1 l2 l3 : list Value) :
  Forall2 redirected l1 l2 → Forall2 redirected l2 l3 →
  Forall2 redirected l1 l3.
Proof.
  intros H12. revert l3. induction H12; intros l3 H23; inversion H23; subst;
    constructor; eauto using redirected_trans.
Qed.

Lemma defaulted_refl attrs : defaulted attrs attrs.
Proof. intros name. now left. Qed.

Lemma defaulted_trans a1 a2 a3 :
  defaulted a1 a2 → defaulted a2 a3 → defaulted a1 a3.
Proof.
  intros H12 H23 name. destruct (H12 name) as [E12|[N1 S2]];
    destruct (H23 name) as [E23|[N2 S3]].
  - left. congruence.
  - right. split; congruence.
  - right. split; congruence.
  - congruence.
Qed.

Lemma defaulted_insert attrs name :
  attrs !! name = None → defaulted attrs (<[name := BoolAttr false]> attrs).
Proof.
  intros Hnone other. destruct (decide (name = other)) as [<-|Hne].
  - right. split; [assumption|apply lookup_insert_eq].
  - left. now apply lookup_insert_ne.
Qed.

(** ** The IR evolves along the pass *)

Lemma evolves_refl ir : evolves ir ir.
Proof.
  split.
  - intros id o Hid. exists o.
    repeat split; auto using Forall2_redirected_refl, defaulted_refl.
  - intros id o' Hsome Hnone. congruence.
  - intros b. destruct (blocks ir !! b); auto.
Qed.

Lemma evolves_absent ir ir' id :
  evolves ir ir' → operations ir' !! id = None → operations ir !! id = None.
Proof.
  intros Hev Hnone. destruct (operations ir !! id) as [o|] eqn:Hid; [|reflexivity].
  destruct (evolves_old _ _ Hev _ _ Hid) as (o' & Hid' & _). congruence.
Qed.

Lemma evolves_trans ir1 ir2 ir3 :
  evolves ir1 ir2 → evolves ir2 ir3 → evolves ir1 ir3.
Proof.
  intros H12 H23. split.
  - intros id o Hid.
    destruct (evolves_old _ _ H12 _ _ Hid) as (o2 & Hid2 & Hk & Hl & Hr & Ho & Ha).
    destruct (evolves_old _ _ H23 _ _ Hid2)
      as (o3 & Hid3 & Hk3 & Hl3 & Hr3 & Ho3 & Ha3).
    exists o3. repeat split; try congruence.
    + eauto using Forall2_redirected_trans.
    + eauto using defaulted_trans.
  - intros id o3 Hid3 Hnone1.
    destruct (operations ir2 !! id) as [o2|] eqn:Hid2.
    + destruct (evolves_old _ _ H23 _ _ Hid2) as (o3' & Hid3' & Hk & _ & Hr & _).
      destruct (evolves_new _ _ H12 _ _ Hid2 Hnone1) as [Hw Hreg].
      assert (o3' = o3) by congruence. subst o3'.
      split; congruence.
    + apply (evolves_new _ _ H23 _ _ Hid3 Hid2).
  - intros b. pose proof (evolves_blocks _ _ H12 b) as B12.
    pose proof (evolves_blocks _ _ H23 b) as B23.
    destruct (blocks ir1 !! b) as [l1|], (blocks ir2 !! b) as [l2|],
      (blocks ir3 !! b) as [l3|]; try contradiction; auto.
    assert (C12 : ∀ x, created ir1 ir2 x → created ir1 ir3 x).
    { intros x [Hnone [o2 Hsome]]. split; [assumption|].
      destruct (evolves_old _ _ H23 _ _ Hsome) as (o3 & -> & _). eauto. }
    assert (C23 : ∀ x, created ir2 ir3 x → created ir1 ir3 x).
    { intros x [Hnone Hsome]. split; [|assumption].
      eauto using evolves_absent. }
    destruct B12 as [In12 Last12], B23 as [In23 Last23]. split.
    + intros x Hx. destruct (In23 x Hx) as [Hx2|Hnew]; [|auto].
      destruct (In12 x Hx2); auto.
    + destruct Last23 as [E23|(x & Hx & Hnew)].
      * rewrite E23. destruct Last12 as [|(x & Hx & Hnew)]; eauto.
      * right. eauto.
Qed.

Lemma evolves_emitError op message ir : evolves ir (emitError op message ir).
Proof.
  split.
  - intros id o Hid. exists o.
    repeat split; auto using Forall2_redirected_refl, defaulted_refl.
  - intros id o' Hsome Hnone. cbn in Hsome. congruence.
  - intros b. cbn. destruct (blocks ir !! b); auto.
Qed.

Lemma evolves_setAttrIfAbsent op name ir :
  evolves ir (setAttrIfAbsent op name (BoolAttr false) ir).
Proof.
  unfold setAttrIfAbsent.
  destruct (operations ir !! op) as [o|] eqn:Hop; [|apply evolves_refl].
  destruct (opAttrs o !! name) eqn:Hattr; [apply evolves_refl|].
  split.
  - intros id o1 Hid. cbn. rewrite lookup_alter.
    case_decide as Heq.
    + subst id. rewrite Hid. cbn. eexists. split; [reflexivity|].
      assert (o1 = o) by congruence. subst o1. cbn.
      repeat split; auto using Forall2_redirected_refl, defaulted_insert.
    + exists o1.
      repeat split; auto using Forall2_redirected_refl, defaulted_refl.
  - intros id o' Hsome Hnone. cbn in Hsome. rewrite lookup_alter in Hsome.
    case_decide; [subst; rewrite Hnone in Hsome; discriminate|congruence].
  - intros b. cbn. destruct (blocks ir !! b); auto.
Qed.

(** ** Creating and placing operations *)

Lemma freshOp_absent ir : operations ir !! freshOp ir = None.
Proof. apply not_elem_of_dom. unfold freshOp. apply is_fresh. Qed.

Lemma insertAfter_elem anchor new l x :
  x ∈ insertAfter anchor new l → x ∈ l ∨ x = new.
Proof.
  induction l as [|y l IH]; cbn [insertAfter]; [auto|].
  case_decide.
  - rewrite !elem_of_cons. intuition.
  - rewrite !elem_of_cons. intuition.
Qed.

Lemma insertBefore_elem anchor new l x :
  x ∈ insertBefore anchor new l → x ∈ l ∨ x = new.
Proof.
  induction l as [|y l IH]; cbn [insertBefore]; [auto|].
  case_decide.
  - rewrite !elem_of_cons. intuition.
  - rewrite !elem_of_cons. intuition.
Qed.

Lemma last_cons_cons {A} (x y : A) l : last (x :: y :: l) = last (y :: l).
Proof. reflexivity. Qed.

Lemma insertAfter_last anchor new l :
  last (insertAfter anchor new l) = last l
  ∨ last (insertAfter anchor new l) = Some new.
Proof.
  induction l as [|y l IH]; cbn [insertAfter]; [auto|].
  case_decide.
  - destruct l as [|z l]; [right; reflexivity|left; reflexivity].
  - destruct l as [|z l]; [left; reflexivity|].
    cbn [insertAfter] in *. case_decide.
    + rewrite last_cons_cons. rewrite (last_cons_cons y z l). exact IH.
    + rewrite last_cons_cons. rewrite (last_cons_cons y z l). exact IH.
Qed.

Lemma insertBefore_last anchor new l :
  last (insertBefore anchor new l) = last l.
Proof.
  induction l as [|y l IH]; cbn [insertBefore]; [reflexivity|].
  case_decide; [reflexivity|].
  destruct l as [|z l]; [reflexivity|].
  cbn [insertBefore] in *. case_decide.
  - rewrite last_cons_cons. rewrite (last_cons_cons y z l). exact IH.
  - rewrite last_cons_cons. rewrite (last_cons_cons y z l). exact IH.
Qed.

Lemma cons_last (new : OpId) l : last (new :: l) = last l ∨ last (new :: l) = Some new.
Proof. destruct l; [right|left]; reflexivity. Qed.

(** Placing a new operation: a block only gains the new operation, and
    ends as before or with the new operation. *)
Lemma place_blocks point new blks b :
  match blks !! b, place point new blks !! b with
  | Some l, Some l' =>
      (∀ x, x ∈ l' → x ∈ l ∨ x = new)
      ∧ (last l' = last l ∨ last l' = Some new)
  | None, None => True
  | _, _ => False
  end.
Proof.
  destruct point as [anchor|anchor|block]; cbn [place].
  - rewrite lookup_fmap. destruct (blks !! b) as [l|]; cbn; [|trivial].
    split; [apply insertBefore_elem|]. left. apply insertBefore_last.
  - rewrite lookup_fmap. destruct (blks !! b) as [l|]; cbn; [|trivial].
    split; [apply insertAfter_elem|apply insertAfter_last].
  - rewrite lookup_alter. case_decide as Heq.
    + subst. destruct (blks !! b) as [l|]; cbn; [|trivial].
      split; [|apply cons_last].
      intros x. rewrite elem_of_cons. intuition.
    + destruct (blks !! b) as [l|]; [|trivial]. auto.
Qed.

Lemma replaceValue_redirected old new val :
  definedByWrapper new = true → redirected val (replaceValue old new val).
Proof.
  intros Hnew. unfold replaceValue. case_decide; [now right|now left].
Qed.

Lemma map_replaceValue_redirected old new (l : list Value) :
  definedByWrapper new = true →
  Forall2 redirected l (map (replaceValue old new) l).
Proof.
  intros Hnew. induction l; constructor; auto using replaceValue_redirected.
Qed.

(** The operations after "Insert array operation and set attributes". *)
Lemma insertArrayOp_operations loc operand ir id :
  let new := freshOp ir in
  let result := OpResult new ArrayOp 0 (getType operand) in
  operations (insertArrayOp loc operand ir) !! id
  = if decide (id = new) then
      Some {| opKind := ArrayOp; opLoc := loc; opOperands := [operand];
              opAttrs := <["partition" := BoolAttr false]>
                           (<["storage" := BoolAttr false]>
                              (<["interface" := BoolAttr false]> ∅));
              opRegions := [] |}
    else
      (fun o => {| opKind := opKind o; opLoc := opLoc o;
                   opOperands := map (replaceValue operand result) (opOperands o);
                   opAttrs := opAttrs o; opRegions := opRegions o |})
      <$> operations ir !! id.
Proof.
  intros new result. unfold insertArrayOp, create. fold new. fold result.
  set (ir1 := replaceAllUsesExcept operand result new _).
  assert (H1 : ∀ id, operations ir1 !! id
            = if decide (id = new) then
                Some {| opKind := ArrayOp; opLoc := loc; opOperands := [operand];
                        opAttrs := ∅; opRegions := [] |}
              else
                (fun o => {| opKind := opKind o; opLoc := opLoc o;
                             opOperands := map (replaceValue operand result)
                                               (opOperands o);
                             opAttrs := opAttrs o; opRegions := opRegions o |})
                <$> operations ir !! id).
  { intros j. subst ir1. cbn [replaceAllUsesExcept operations].
    rewrite map_lookup_imap. rewrite lookup_insert.
    destruct (decide (new = j)) as [<-|Hne].
    - rewrite decide_True by reflexivity. cbn.
      now rewrite decide_True by reflexivity.
    - rewrite (decide_False (P := j = new)) by congruence.
      destruct (operations ir !! j) as [o|]; cbn; [|reflexivity].
      now rewrite decide_False by congruence. }
  assert (Hset : ∀ (ir0 : IR) name attrs,
            operations ir0 !! new
            = Some {| opKind := ArrayOp; opLoc := loc; opOperands := [operand];
                      opAttrs := attrs; opRegions := [] |} →
            attrs !! name = None →
            ∀ j, operations (setAttrIfAbsent new name (BoolAttr false) ir0) !! j
                 = if decide (j = new) then
                     Some {| opKind := ArrayOp; opLoc := loc;
                             opOperands := [operand];
                             opAttrs := <[name := BoolAttr false]> attrs;
                             opRegions := [] |}
                   else operations ir0 !! j).
  { intros ir0 name attrs Hnew Hnone j. unfold setAttrIfAbsent.
    rewrite Hnew. cbn [opAttrs]. rewrite Hnone. cbn.
    rewrite lookup_alter. destruct (decide (new = j)) as [<-|Hne].
    - rewrite decide_True by reflexivity. now rewrite Hnew.
    - now rewrite decide_False by congruence. }
  pose proof (H1 new) as Hnew1. rewrite decide_True in Hnew1 by reflexivity.
  pose proof (Hset ir1 "interface" ∅ Hnew1 (lookup_empty _)) as H2.
  pose proof (H2 new) as Hnew2. rewrite decide_True in Hnew2 by reflexivity.
  assert (Hs : (<["interface" := BoolAttr false]> (∅ : gmap string Attribute))
               !! "storage" = None) by reflexivity.
  pose proof (Hset _ "storage" _ Hnew2 Hs) as H3.
  pose proof (H3 new) as Hnew3. rewrite decide_True in Hnew3 by reflexivity.
  assert (Hp : (<["storage" := BoolAttr false]>
                  (<["interface" := BoolAttr false]>
                     (∅ : gmap string Attribute))) !! "partition" = None)
    by reflexivity.
  pose proof (Hset _ "partition" _ Hnew3 Hp) as H4.
  rewrite H4. case_decide; [reflexivity|].
  rewrite H3, decide_False by assumption.
  rewrite H2, decide_False by assumption.
  rewrite H1. now rewrite decide_False by assumption.
Qed.

Lemma insertArrayOp_blocks loc operand ir :
  blocks (insertArrayOp loc operand ir)
  = place (insertionPointAfterValue operand) (freshOp ir) (blocks ir).
Proof.
  unfold insertArrayOp, create, setAttrIfAbsent.
  repeat (match goal with
          | |- context [match ?x with _ => _ end] => destruct x
          end; cbn); reflexivity.
Qed.

Lemma evolves_place ir ir' point :
  let new := freshOp ir in
  is_Some (operations ir' !! new) →
  (∀ b, match blocks ir !! b, place point new (blocks ir) !! b with
        | Some l, Some l' =>
            (∀ x, x ∈ l' → x ∈ l ∨ created ir ir' x)
            ∧ (last l' = last l ∨ ∃ x, last l' = Some x ∧ created ir ir' x)
        | None, None => True
        | _, _ => False
        end).
Proof.
  intros new Hsome b.
  pose proof (place_blocks point new (blocks ir) b) as Hplace.
  pose proof (freshOp_absent ir) as Hfresh. fold new in Hfresh.
  assert (Hcreated : created ir ir' new) by (split; assumption).
  destruct (blocks ir !! b) as [l|], (place point new (blocks ir) !! b) as [l'|];
    try contradiction; [|trivial].
  destruct Hplace as [Hin Hlast]. split.
  - intros x Hx. destruct (Hin x Hx) as [Hl| ->]; auto.
  - destruct Hlast as [|Hlast]; [auto|]. right. eauto.
Qed.

Lemma evolves_insertArrayOp loc operand ir :
  evolves ir (insertArrayOp loc operand ir).
Proof.
  pose proof (freshOp_absent ir) as Hfresh.
  split.
  - intros id o Hid. rewrite insertArrayOp_operations.
    rewrite decide_False by congruence. rewrite Hid. cbn.
    eexists. split; [reflexivity|]. cbn.
    repeat split; auto using defaulted_refl.
    now apply map_replaceValue_redirected.
  - intros id o'. rewrite insertArrayOp_operations.
    case_decide as Heq.
    + intros [= <-] _. cbn. split; [now left|reflexivity].
    + intros Hsome Hnone. rewrite Hnone in Hsome. discriminate.
  - rewrite insertArrayOp_blocks. apply evolves_place.
    rewrite insertArrayOp_operations, decide_True by reflexivity. eauto.
Qed.

(** The operations after the wrapping of the operand [idx] of the return. *)
Lemma insertAssignOp_wraps returnOp idx ir o operand :
  operations ir !! returnOp = Some o →
  opOperands o !! idx = Some operand →
  isBlockArgument operand || definedByConstant operand = true →
  let new := freshOp ir in
  let value := OpResult new AssignOp 0 (getType operand) in
  (∀ id, operations (insertAssignOp returnOp idx ir) !! id
         = if decide (id = returnOp) then
             Some {| opKind := opKind o; opLoc := opLoc o;
                     opOperands := <[idx := value]> (opOperands o);
                     opAttrs := opAttrs o; opRegions := opRegions o |}
           else if decide (id = new) then
             Some {| opKind := AssignOp; opLoc := opLoc o;
                     opOperands := [operand]; opAttrs := ∅; opRegions := [] |}
           else operations ir !! id)
  ∧ blocks (insertAssignOp returnOp idx ir)
    = place (Before returnOp) new (blocks ir).
Proof.
  intros Hop Hoperand Hcond new value.
  pose proof (freshOp_absent ir) as Hfresh. fold new in Hfresh.
  unfold insertAssignOp. rewrite Hop, Hoperand, Hcond.
  cbn [create setOperand updateOperation operations blocks]. fold new.
  split; [|reflexivity].
  intros id. rewrite lookup_alter. destruct (decide (returnOp = id)) as [<-|Hne].
  - rewrite decide_True by reflexivity.
    rewrite lookup_insert_ne by congruence. now rewrite Hop.
  - rewrite (decide_False (P := id = returnOp)) by congruence.
    rewrite lookup_insert. destruct (decide (new = id)) as [<-|Hne'].
    + now rewrite decide_True by reflexivity.
    + now rewrite decide_False by congruence.
Qed.

Lemma insert_redirected (l : list Value) idx value :
  definedByWrapper value = true → Forall2 redirected l (<[idx := value]> l).
Proof.
  intros Hw. revert idx. induction l as [|v l IH]; intros idx; [constructor|].
  destruct idx; cbn.
  - constructor; [now right|apply Forall2_redirected_refl].
  - constructor; [apply redirected_refl|apply IH].
Qed.

Lemma evolves_insertAssignOp returnOp idx ir :
  evolves ir (insertAssignOp returnOp idx ir).
Proof.
  destruct (operations ir !! returnOp) as [o|] eqn:Hop;
    [|unfold insertAssignOp; rewrite Hop; apply evolves_refl].
  destruct (opOperands o !! idx) as [operand|] eqn:Hoperand;
    [|unfold insertAssignOp; rewrite Hop, Hoperand; apply evolves_refl].
  destruct (isBlockArgument operand || definedByConstant operand) eqn:Hcond;
    [|unfold insertAssignOp; rewrite Hop, Hoperand, Hcond; apply evolves_refl].
  destruct (insertAssignOp_wraps _ _ _ _ _ Hop Hoperand Hcond) as [Hops Hblocks].
  pose proof (freshOp_absent ir) as Hfresh.
  split.
  - intros id o1 Hid. rewrite Hops. case_decide as Heq.
    + subst id. assert (o1 = o) by congruence. subst o1.
      eexists. split; [reflexivity|]. cbn.
      repeat split; auto using defaulted_refl.
      now apply insert_redirected.
    + rewrite decide_False by congruence. exists o1.
      repeat split; auto using Forall2_redirected_refl, defaulted_refl.
  - intros id o'. rewrite Hops. case_decide as Heq.
    + subst id. intros _ Hnone. congruence.
    + case_decide as Heq'.
      * intros [= <-] _. cbn. split; [now right|reflexivity].
      * intros Hsome Hnone. congruence.
  - rewrite Hblocks. apply evolves_place.
    rewrite Hops, decide_False, decide_True by congruence. eauto.
Qed.

Lemma evolves_fold {A} (f : IR → A → IR) (l : list A) ir :
  (∀ ir a, evolves ir (f ir a)) → evolves ir (fold_left f l ir).
Proof.
  intros Hstep. revert ir. induction l as [|a l IH]; intros ir; cbn.
  - apply evolves_refl.
  - eapply evolves_trans; [apply Hstep|apply IH].
Qed.

(** ** The callback of the walk *)

Lemma evolves_wrapOperand op i ir : evolves ir (wrapOperand op i ir).
Proof.
  unfold wrapOperand.
  destruct (operations ir !! op) as [o|]; [|apply evolves_refl].
  destruct (opOperands o !! i) as [operand|]; [|apply evolves_refl].
  destruct (isShaped operand); [|apply evolves_refl].
  destruct operand as [owner index type|owner kind index type].
  - destruct (decide (opKind o = ArrayOp));
      [apply evolves_refl|apply evolves_insertArrayOp].
  - destruct (negb (definedByWrapper (OpResult owner kind index type)));
      [|destruct (decide (opKind o = ArrayOp)); apply evolves_refl].
    destruct (negb (hasStaticShape (OpResult owner kind index type)));
      destruct (decide (opKind o = ArrayOp));
      eauto using evolves_emitError, evolves_insertArrayOp, evolves_trans,
                  evolves_refl.
Qed.

Lemma evolves_visit op ir : evolves ir (visit op ir).
Proof.
  unfold visit. destruct (operations ir !! op) as [o|]; [|apply evolves_refl].
  assert (Hfold : evolves ir (fold_left (fun ir i => wrapOperand op i ir)
                                        (seq 0 (length (opOperands o))) ir))
    by (apply evolves_fold; intros; apply evolves_wrapOperand).
  destruct (decide (opKind o = AffineForOp)); [|assumption].
  eapply evolves_trans; [exact Hfold|].
  eapply evolves_trans; [|apply evolves_setAttrIfAbsent].
  eapply evolves_trans; [|apply evolves_setAttrIfAbsent].
  eapply evolves_trans; [|apply evolves_setAttrIfAbsent].
  destruct (decide (length (getBlocks o) ≠ 1));
    [apply evolves_emitError|apply evolves_refl].
Qed.

Lemma evolves_visitAll order ir : evolves ir (visitAll order ir).
Proof. apply evolves_fold. intros. apply evolves_visit. Qed.

Lemma evolves_lookup ir ir' id o :
  evolves ir ir' → operations ir !! id = Some o →
  ∃ o', operations ir' !! id = Some o'
        ∧ opKind o' = opKind o
        ∧ length (opOperands o') = length (opOperands o)
        ∧ (∀ j v', opOperands o' !! j = Some v' →
             ∃ v, opOperands o !! j = Some v ∧ redirected v v')
        ∧ (∀ name, is_Some (opAttrs o !! name) →
             opAttrs o' !! name = opAttrs o !! name).
Proof.
  intros Hev Hid.
  destruct (evolves_old _ _ Hev _ _ Hid) as (o' & Hid' & Hk & _ & _ & Ho & Ha).
  exists o'. split; [assumption|]. split; [assumption|].
  split; [symmetry; eapply Forall2_length; eassumption|]. split.
  - intros j v' Hj. eapply Forall2_lookup_r in Ho as (v & Hv & Hr); eauto.
  - intros name [a Hname]. destruct (Ha name) as [E|[N _]]; congruence.
Qed.

Lemma evolves_operandsWrapped ir ir' id o o' :
  evolves ir ir' → operations ir !! id = Some o →
  operations ir' !! id = Some o' → operandsWrapped o → operandsWrapped o'.
Proof.
  intros Hev Hid Hid' Hw Hkind.
  destruct (evolves_old _ _ Hev _ _ Hid) as (o1 & Hid1 & Hk & _ & _ & Ho & _).
  assert (o1 = o') by congruence. subst o1.
  rewrite Hk in Hkind. specialize (Hw Hkind).
  clear -Ho Hw. induction Ho; inversion Hw; subst; constructor;
    eauto using redirected_wrapped.
Qed.

(** After its turn in the loop, the operand at index [i] is wrapped. *)
Lemma wrapOperand_wraps op i ir o :
  operations ir !! op = Some o → opKind o ≠ ArrayOp →
  ∃ o', operations (wrapOperand op i ir) !! op = Some o'
        ∧ ∀ v, opOperands o' !! i = Some v → wrappedOperand v.
Proof.
  intros Hop Hkind. unfold wrapOperand. rewrite Hop.
  destruct (opOperands o !! i) as [operand|] eqn:Hoperand;
    [|exists o; split; [assumption|congruence]].
  destruct (isShaped operand) eqn:Hshaped;
    [|exists o; split; [assumption|];
      intros v Hv; assert (v = operand) by congruence; subst;
      intros Hs; congruence].
  assert (Hinsert : ∀ ir0, operations ir0 = operations ir →
            ∃ o', operations (insertArrayOp (opLoc o) operand ir0) !! op = Some o'
                  ∧ ∀ v, opOperands o' !! i = Some v → wrappedOperand v).
  { intros ir0 Hsame. rewrite insertArrayOp_operations.
    pose proof (freshOp_absent ir0) as Hfresh. rewrite Hsame in Hfresh.
    rewrite decide_False by congruence. rewrite Hsame, Hop. cbn.
    eexists. split; [reflexivity|]. cbn. intros v.
    rewrite list_lookup_fmap, Hoperand. cbn. intros [= <-] _.
    unfold replaceValue. now rewrite decide_True by reflexivity. }
  assert (Hkeep : definedByWrapper operand = true →
            ∃ o', operations ir !! op = Some o'
                  ∧ ∀ v, opOperands o' !! i = Some v → wrappedOperand v).
  { intros Hw. exists o. split; [assumption|].
    intros v Hv. assert (v = operand) by congruence. subst. now intros _. }
  destruct operand as [owner index type|owner kind index type].
  - rewrite decide_False by assumption. now apply Hinsert.
  - destruct (definedByWrapper (OpResult owner kind index type)) eqn:Hw;
      cbn [negb]; rewrite decide_False by assumption; [now apply Hkeep|].
    destruct (negb (hasStaticShape (OpResult owner kind index type)));
      now apply Hinsert.
Qed.

Lemma wrapOperands_wrap op ir o (start count : nat) :
  operations ir !! op = Some o → opKind o ≠ ArrayOp →
  (∀ j v, j < start → opOperands o !! j = Some v → wrappedOperand v) →
  ∃ o', operations (fold_left (fun ir i => wrapOperand op i ir)
                              (seq start count) ir) !! op = Some o'
        ∧ opKind o' = opKind o
        ∧ length (opOperands o') = length (opOperands o)
        ∧ ∀ j v, j < start + count → opOperands o' !! j = Some v →
                 wrappedOperand v.
Proof.
  revert ir o start. induction count as [|count IH]; intros ir o start Hop Hk Hlt.
  - exists o. rewrite Nat.add_0_r. auto.
  - cbn [seq fold_left].
    destruct (wrapOperand_wraps op start ir o Hop Hk) as (o1 & Hop1 & Hstart).
    destruct (evolves_lookup _ _ _ _ (evolves_wrapOperand op start ir) Hop)
      as (o1' & Hop1' & Hk1 & Hlen1 & Hred1 & _).
    assert (o1' = o1) by congruence. subst o1'.
    destruct (IH (wrapOperand op start ir) o1 (S start) Hop1) as
      (o' & Hop' & Hk' & Hlen' & Hall).
    + congruence.
    + intros j v Hj Hv. destruct (decide (j = start)) as [->|Hne].
      * now apply Hstart.
      * destruct (Hred1 j v Hv) as (v0 & Hv0 & Hred).
        eapply redirected_wrapped; [exact Hred|]. apply (Hlt j); [lia|assumption].
    + exists o'. split; [assumption|]. split; [congruence|].
      split; [congruence|]. intros j v Hj. apply Hall. lia.
Qed.

(** After the callback has run on an operation, all its operands are
    wrapped, and a loop carries its three attributes. *)
Lemma visit_wraps op ir o :
  operations ir !! op = Some o →
  ∃ o', operations (visit op ir) !! op = Some o'
        ∧ operandsWrapped o'
        ∧ (opKind o = AffineForOp →
           is_Some (opAttrs o' !! "pipeline")
           ∧ is_Some (opAttrs o' !! "unroll")
           ∧ is_Some (opAttrs o' !! "flatten")).
Proof.
  intros Hop.
  destruct (evolves_lookup _ _ _ _ (evolves_visit op ir) Hop)
    as (o' & Hop' & Hk' & _).
  exists o'. split; [assumption|]. split.
  - intros Hkind. rewrite Hk' in Hkind.
    destruct (wrapOperands_wrap op ir o 0 (length (opOperands o)) Hop Hkind)
      as (o1 & Hop1 & Hk1 & Hlen1 & Hall); [intros; lia|].
    assert (Hw1 : operandsWrapped o1).
    { intros _. apply Forall_lookup. intros j v Hv. apply (Hall j); [|assumption].
      apply lookup_lt_Some in Hv. lia. }
    set (ir1 := fold_left _ _ ir) in *.
    assert (Hev : evolves ir1 (visit op ir)).
    { unfold visit. rewrite Hop. fold ir1.
      destruct (decide (opKind o = AffineForOp)); [|apply evolves_refl].
      eapply evolves_trans; [|apply evolves_setAttrIfAbsent].
      eapply evolves_trans; [|apply evolves_setAttrIfAbsent].
      eapply evolves_trans; [|apply evolves_setAttrIfAbsent].
      destruct (decide (length (getBlocks o) ≠ 1));
        [apply evolves_emitError|apply evolves_refl]. }
    apply (evolves_operandsWrapped _ _ _ _ _ Hev Hop1 Hop' Hw1).
    congruence.
  - intros Hloop.
    assert (Hset : ∀ ir0 name o0, operations ir0 !! op = Some o0 →
              ∃ o1, operations (setAttrIfAbsent op name (BoolAttr false) ir0)
                      !! op = Some o1
                    ∧ is_Some (opAttrs o1 !! name)).
    { intros ir0 name o0 Hop0. unfold setAttrIfAbsent. rewrite Hop0.
      destruct (opAttrs o0 !! name) as [a|] eqn:Hname.
      - exists o0. split; [assumption|]. rewrite Hname. eauto.
      - cbn. rewrite lookup_alter, decide_True by reflexivity. rewrite Hop0. cbn.
        eexists. split; [reflexivity|]. cbn. rewrite lookup_insert_eq. eauto. }
    assert (Hkeep : ∀ ir0 name other o0 o1,
              operations ir0 !! op = Some o0 →
              operations (setAttrIfAbsent op other (BoolAttr false) ir0) !! op
              = Some o1 →
              is_Some (opAttrs o0 !! name) → is_Some (opAttrs o1 !! name)).
    { intros ir0 name other o0 o1 Hop0 Hop1 Hsome.
      destruct (evolves_lookup _ _ _ _ (evolves_setAttrIfAbsent op other ir0) Hop0)
        as (o1' & Hop1' & _ & _ & _ & Hattrs).
      assert (o1' = o1) by congruence. subst. now rewrite Hattrs. }
    unfold visit in Hop'. rewrite Hop in Hop'.
    rewrite decide_True in Hop' by assumption.
    set (ir1 := fold_left _ _ ir) in *.
    set (ir2 := if decide (length (getBlocks o) ≠ 1) then _ else ir1) in *.
    assert (Hop2 : ∃ o2, operations ir2 !! op = Some o2).
    { assert (Hev : evolves ir ir2).
      { subst ir2. eapply evolves_trans.
        - apply (evolves_fold (fun ir i => wrapOperand op i ir)).
          intros; apply evolves_wrapOperand.
        - fold ir1. destruct (decide (length (getBlocks o) ≠ 1));
            [apply evolves_emitError|apply evolves_refl]. }
      destruct (evolves_lookup _ _ _ _ Hev Hop) as (o2 & ? & _). eauto. }
    destruct Hop2 as (o2 & Hop2).
    destruct (Hset ir2 "pipeline" o2 Hop2) as (o3 & Hop3 & Hp3).
    destruct (Hset _ "unroll" o3 Hop3) as (o4 & Hop4 & Hu4).
    destruct (Hset _ "flatten" o4 Hop4) as (o5 & Hop5 & Hf5).
    assert (o5 = o') by congruence. subst o5.
    split; [|split]; [|..|assumption].
    + eapply Hkeep; [exact Hop4|exact Hop5|].
      eapply Hkeep; [exact Hop3|exact Hop4|assumption].
    + eapply Hkeep; [exact Hop4|exact Hop5|assumption].
Qed.

Lemma evolves_annotated ir ir' id o o' :
  evolves ir ir' → operations ir !! id = Some o →
  operations ir' !! id = Some o' → annotated o → annotated o'.
Proof.
  intros Hev Hid Hid' [Hw Hattrs]. split.
  - eauto using evolves_operandsWrapped.
  - destruct (evolves_lookup _ _ _ _ Hev Hid) as (o1 & Hid1 & Hk & _ & _ & Ha).
    assert (o1 = o') by congruence. subst o1.
    rewrite Hk. intros Hloop. destruct (Hattrs Hloop) as (Hp & Hu & Hf).
    rewrite !Ha by assumption. auto.
Qed.

Lemma visit_annotates op ir o :
  operations ir !! op = Some o →
  ∃ o', operations (visit op ir) !! op = Some o' ∧ annotated o'.
Proof.
  intros Hop. destruct (visit_wraps op ir o Hop) as (o' & Hop' & Hw & Hattrs).
  exists o'. split; [assumption|]. split; [assumption|].
  destruct (evolves_lookup _ _ _ _ (evolves_visit op ir) Hop)
    as (o1 & Hop1 & Hk & _).
  assert (o1 = o') by congruence. subst o1. rewrite Hk. exact Hattrs.
Qed.

(** Once the walk is over, every operation it went through is annotated. *)
Lemma visitAll_annotates order ir x o :
  x ∈ order → operations ir !! x = Some o →
  ∃ o', operations (visitAll order ir) !! x = Some o' ∧ annotated o'.
Proof.
  revert ir o. induction order as [|y order IH]; intros ir o Hx Hop.
  - now apply elem_of_nil in Hx.
  - change (visitAll (y :: order) ir) with (visitAll order (visit y ir)).
    destruct (decide (x = y)) as [->|Hne].
    + destruct (visit_annotates y ir o Hop) as (o1 & Hop1 & Hann).
      destruct (evolves_lookup _ _ _ _ (evolves_visitAll order (visit y ir)) Hop1)
        as (o' & Hop' & _).
      exists o'. split; [assumption|].
      exact (evolves_annotated _ _ _ _ _ (evolves_visitAll order (visit y ir))
               Hop1 Hop' Hann).
    + apply elem_of_cons in Hx as [?|Hx]; [contradiction|].
      destruct (evolves_lookup _ _ _ _ (evolves_visit y ir) Hop) as (o1 & Hop1 & _).
      eapply IH; eassumption.
Qed.

(** ** The walk only creates wrappers of arrays *)

Lemma createsArrayOps_refl ir : createsArrayOps ir ir.
Proof. intros id o' Hsome Hnone. congruence. Qed.

Lemma createsArrayOps_trans ir1 ir2 ir3 :
  createsArrayOps ir1 ir2 → evolves ir2 ir3 → createsArrayOps ir2 ir3 →
  createsArrayOps ir1 ir3.
Proof.
  intros H12 Hev H23 id o3 Hid3 Hnone.
  destruct (operations ir2 !! id) as [o2|] eqn:Hid2.
  - destruct (evolves_old _ _ Hev _ _ Hid2) as (o3' & Hid3' & Hk & _).
    assert (o3' = o3) by congruence. subst. rewrite Hk. eauto.
  - eauto.
Qed.

Lemma createsArrayOps_same ir ir' :
  operations ir' = operations ir → createsArrayOps ir ir'.
Proof. intros Heq id o' Hsome Hnone. rewrite Heq in Hsome. congruence. Qed.

Lemma createsArrayOps_setAttrIfAbsent op name attr ir :
  createsArrayOps ir (setAttrIfAbsent op name attr ir).
Proof.
  unfold setAttrIfAbsent.
  destruct (operations ir !! op) as [o|] eqn:Hop; [|apply createsArrayOps_refl].
  destruct (opAttrs o !! name); [apply createsArrayOps_refl|].
  intros id o'. cbn. rewrite lookup_alter. case_decide.
  - subst. intros Hsome Hnone. rewrite Hnone in Hsome. discriminate.
  - congruence.
Qed.

Lemma createsArrayOps_insertArrayOp loc operand ir :
  createsArrayOps ir (insertArrayOp loc operand ir).
Proof.
  intros id o'. rewrite insertArrayOp_operations. case_decide.
  - now intros [= <-] _.
  - intros Hsome Hnone. rewrite Hnone in Hsome. discriminate.
Qed.

Lemma createsArrayOps_wrapOperand op i ir :
  createsArrayOps ir (wrapOperand op i ir).
Proof.
  unfold wrapOperand.
  destruct (operations ir !! op) as [o|]; [|apply createsArrayOps_refl].
  destruct (opOperands o !! i) as [operand|]; [|apply createsArrayOps_refl].
  destruct (isShaped operand); [|apply createsArrayOps_refl].
  destruct operand as [owner index type|owner kind index type].
  - destruct (decide (opKind o = ArrayOp));
      [apply createsArrayOps_refl|apply createsArrayOps_insertArrayOp].
  - destruct (negb (definedByWrapper (OpResult owner kind index type)));
      [|destruct (decide (opKind o = ArrayOp)); apply createsArrayOps_refl].
    destruct (negb (hasStaticShape (OpResult owner kind index type)));
      destruct (decide (opKind o = ArrayOp));
      try apply createsArrayOps_refl;
      try apply createsArrayOps_insertArrayOp;
      try (apply createsArrayOps_same; reflexivity).
    eapply (createsArrayOps_trans ir (emitError owner _ ir));
      [apply createsArrayOps_same; reflexivity
      |apply evolves_insertArrayOp|apply createsArrayOps_insertArrayOp].
Qed.

Lemma createsArrayOps_fold {A} (f : IR → A → IR) (l : list A) ir :
  (∀ ir a, evolves ir (f ir a)) → (∀ ir a, createsArrayOps ir (f ir a)) →
  createsArrayOps ir (fold_left f l ir).
Proof.
  intros Hev Hstep. revert ir. induction l as [|a l IH]; intros ir; cbn.
  - apply createsArrayOps_refl.
  - eapply createsArrayOps_trans; [apply Hstep| |apply IH].
    now apply evolves_fold.
Qed.

Lemma createsArrayOps_visit op ir : createsArrayOps ir (visit op ir).
Proof.
  unfold visit.
  destruct (operations ir !! op) as [o|]; [|apply createsArrayOps_refl].
  assert (Hfold : createsArrayOps ir
            (fold_left (fun ir i => wrapOperand op i ir)
                       (seq 0 (length (opOperands o))) ir)).
  { apply createsArrayOps_fold; intros;
      [apply evolves_wrapOperand|apply createsArrayOps_wrapOperand]. }
  destruct (decide (opKind o = AffineForOp)); [|assumption].
  set (ir1 := fold_left _ _ ir) in *.
  set (ir2 := if decide (length (getBlocks o) ≠ 1) then _ else ir1).
  assert (H2 : createsArrayOps ir ir2).
  { subst ir2. destruct (decide (length (getBlocks o) ≠ 1)); [|assumption].
    intros id o' Hsome Hnone. cbn in Hsome. eauto. }
  intros id o' Hsome Hnone.
  assert (Hkeys : ∀ ir0 name, operations ir0 !! id = None →
            operations (setAttrIfAbsent op name (BoolAttr false) ir0) !! id = None).
  { intros ir0 name Hnone0. unfold setAttrIfAbsent.
    destruct (operations ir0 !! op) as [oo|] eqn:Hoo; [|assumption].
    destruct (opAttrs oo !! name); [assumption|].
    cbn. rewrite lookup_alter. case_decide; [subst; congruence|assumption]. }
  destruct (operations ir2 !! id) as [o2|] eqn:Hid2.
  - assert (Hev : evolves ir2
             (setAttrIfAbsent op "flatten" (BoolAttr false)
               (setAttrIfAbsent op "unroll" (BoolAttr false)
                 (setAttrIfAbsent op "pipeline" (BoolAttr false) ir2)))).
    { eapply evolves_trans; [|apply evolves_setAttrIfAbsent].
      eapply evolves_trans; [|apply evolves_setAttrIfAbsent].
      apply evolves_setAttrIfAbsent. }
    destruct (evolves_old _ _ Hev _ _ Hid2) as (o3 & Hid3 & Hk & _).
    assert (o3 = o') by congruence. subst. rewrite Hk. eauto.
  - apply (Hkeys _ "pipeline") in Hid2. apply (Hkeys _ "unroll") in Hid2.
    apply (Hkeys _ "flatten") in Hid2. congruence.
Qed.

Lemma createsArrayOps_visitAll order ir : createsArrayOps ir (visitAll order ir).
Proof.
  apply createsArrayOps_fold; intros;
    [apply evolves_visit|apply createsArrayOps_visit].
Qed.

(** ** The walk after the pass *)

Lemma elem_of_concat {A} (x : A) (ls : list (list A)) :
  x ∈ concat ls ↔ ∃ l, l ∈ ls ∧ x ∈ l.
Proof.
  induction ls as [|l ls IH]; cbn.
  - split; [intros Hx; now apply elem_of_nil in Hx|].
    intros (l & Hl & _). now apply elem_of_nil in Hl.
  - rewrite elem_of_app, IH. split.
    + intros [Hx|(l' & Hl' & Hx)]; [exists l; split; [left|assumption]|].
      exists l'. split; [now right|assumption].
    + intros (l' & Hl' & Hx). apply elem_of_cons in Hl' as [->|Hl']; eauto.
Qed.

Lemma mapM_transfer {A B} (g : A → option (list B)) (L : list A)
    (P : B → Prop) :
  (∀ y, y ∈ L → ∃ r, g y = Some r ∧ ∀ x, x ∈ r → P x) →
  ∃ rs, mapM g L = Some rs ∧ ∀ x, x ∈ concat rs → P x.
Proof.
  induction L as [|y L IH]; intros Hall.
  - exists []. split; [reflexivity|]. intros x Hx. now apply elem_of_nil in Hx.
  - destruct (Hall y) as (r & Hr & Hin); [left|].
    destruct IH as (rs & Hrs & Hins); [intros; apply Hall; now right|].
    exists (r :: rs). split.
    + cbn. rewrite Hr. cbn. rewrite Hrs. reflexivity.
    + intros x. cbn. rewrite elem_of_app. intros [?|?]; auto.
Qed.

Lemma mapM_elem {A B} (g : A → option B) (L : list A) rs y :
  mapM g L = Some rs → y ∈ L → ∃ r, g y = Some r ∧ r ∈ rs.
Proof.
  intros Hmap%mapM_Some_1 Hy. induction Hmap as [|z r L rs Hz _ IH].
  - now apply elem_of_nil in Hy.
  - apply elem_of_cons in Hy as [->|Hy].
    + exists r. split; [assumption|left].
    + destruct (IH Hy) as (r' & ? & ?). exists r'. split; [assumption|now right].
Qed.

Lemma regionBlocks_evolves ir ir' op :
  evolves ir ir' → regionBlocks ir' op = regionBlocks ir op.
Proof.
  intros Hev. unfold regionBlocks.
  destruct (operations ir !! op) as [o|] eqn:Hop.
  - destruct (evolves_old _ _ Hev _ _ Hop) as (o' & -> & _ & _ & Hr & _).
    cbn. now rewrite Hr.
  - destruct (operations ir' !! op) as [o'|] eqn:Hop'; [|reflexivity].
    destruct (evolves_new _ _ Hev _ _ Hop' Hop) as [_ Hr]. cbn. now rewrite Hr.
Qed.

Lemma blockOps_evolves ir ir' b x :
  evolves ir ir' → x ∈ blockOps ir' b → x ∈ blockOps ir b ∨ created ir ir' x.
Proof.
  intros Hev. unfold blockOps. pose proof (evolves_blocks _ _ Hev b) as Hb.
  destruct (blocks ir !! b) as [l|], (blocks ir' !! b) as [l'|];
    try contradiction; cbn.
  - apply Hb.
  - intros Hx. now apply elem_of_nil in Hx.
Qed.

Lemma walk_S fuel ir op :
  walk (S fuel) ir op
  = (nested ← mapM (fun block =>
                      (fun ls => concat ls) <$>
                        mapM (walk fuel ir) (blockOps ir block))
                   (regionBlocks ir op);
     Some (concat nested ++ [op])%list).
Proof. reflexivity. Qed.

(** A created operation is walked as a leaf. *)
Lemma walk_created ir ir' fuel x :
  evolves ir ir' → created ir ir' x → walk (S fuel) ir' x = Some [x].
Proof.
  intros Hev [Hnone [o' Hsome]]. rewrite walk_S.
  destruct (evolves_new _ _ Hev _ _ Hsome Hnone) as [_ Hr].
  unfold regionBlocks. rewrite Hsome. cbn. rewrite Hr. reflexivity.
Qed.

(** The walk of the IR after the pass goes through operations that the walk
    before it went through and through created operations, and it ends
    within the fuel of a store that is larger when operations were created. *)
Lemma walk_evolves ir ir' :
  evolves ir ir' →
  ∀ fuel fuel' op l,
    walk fuel ir op = Some l → fuel ≤ fuel' →
    (fuel < fuel' ∨ ∀ x, ¬ created ir ir' x) →
    ∃ l', walk fuel' ir' op = Some l'
          ∧ ∀ x, x ∈ l' → x ∈ l ∨ created ir ir' x.
Proof.
  intros Hev. induction fuel as [|fuel IH]; intros fuel' op l Hwalk Hle Hfuel;
    [discriminate|].
  destruct fuel' as [|fuel']; [lia|].
  rewrite walk_S in Hwalk. rewrite walk_S.
  rewrite (regionBlocks_evolves _ _ _ Hev).
  destruct (mapM _ (regionBlocks ir op)) as [nested|] eqn:Hnested;
    [|discriminate].
  cbn in Hwalk. injection Hwalk as <-.
  destruct (mapM_transfer
              (fun block => (fun ls => concat ls) <$>
                              mapM (walk fuel' ir') (blockOps ir' block))
              (regionBlocks ir op)
              (fun x => x ∈ concat nested ∨ created ir ir' x))
    as (nested' & Hnested' & Hin').
  - intros b Hb.
    destruct (mapM_elem _ _ _ _ Hnested Hb) as (ks & Hks & Hksin).
    destruct (mapM (walk fuel ir) (blockOps ir b)) as [lss|] eqn:Hlss;
      [|discriminate].
    cbn in Hks. injection Hks as <-.
    destruct (mapM_transfer (walk fuel' ir') (blockOps ir' b)
                (fun x => x ∈ concat nested ∨ created ir ir' x))
      as (lss' & Hlss' & Hin).
    + intros y Hy. destruct (blockOps_evolves _ _ _ _ Hev Hy) as [Hold|Hnew].
      * destruct (mapM_elem _ _ _ _ Hlss Hold) as (ly & Hly & Hlyin).
        destruct (IH fuel' y ly Hly) as (ly' & Hly' & Hincl); [lia| |].
        { destruct Hfuel; [left; lia|now right]. }
        exists ly'. split; [assumption|].
        intros x Hx. destruct (Hincl x Hx) as [Hxl|?]; [left|now right].
        apply elem_of_concat. exists (concat lss). split; [assumption|].
        apply elem_of_concat. eauto.
      * destruct Hfuel as [Hlt|Hno]; [|now destruct (Hno y)].
        destruct fuel' as [|fuel']; [lia|].
        exists [y]. split; [now apply (walk_created ir)|].
        intros x Hx. apply list_elem_of_singleton in Hx. subst. now right.
    + exists (concat lss'). split; [|assumption].
      rewrite Hlss'. reflexivity.
  - cbn. rewrite Hnested'. cbn. eexists. split; [reflexivity|].
    intros x. rewrite !elem_of_app. intros [Hx|Hx].
    + destruct (Hin' x Hx); auto.
    + auto.
Qed.

Lemma option_bind_Some_l {A B} (f : A → option B) (a : A) :
  Some a ≫= f = f a.
Proof. reflexivity. Qed.

Lemma evolves_size ir ir' :
  evolves ir ir' →
  size (operations ir) ≤ size (operations ir')
  ∧ (size (operations ir) < size (operations ir') ∨ ∀ x, ¬ created ir ir' x).
Proof.
  intros Hev.
  assert (Hsub : dom (operations ir) ⊆ dom (operations ir')).
  { intros x [o Hx]%elem_of_dom.
    destruct (evolves_old _ _ Hev _ _ Hx) as (o' & Hx' & _).
    apply elem_of_dom. eauto. }
  split; [now apply dom_subseteq_size|].
  destruct (decide (dom (operations ir') ⊆ dom (operations ir))) as [Hback|Hnot].
  - right. intros x [Hnone Hsome]. apply elem_of_dom in Hsome.
    apply Hback in Hsome. apply not_elem_of_dom in Hnone. contradiction.
  - left. rewrite <- !size_dom. apply subset_size. split; assumption.
Qed.

Lemma walkFunction_evolves ir ir' func order :
  evolves ir ir' → walkFunction ir func = Some order →
  ∃ order', walkFunction ir' func = Some order'
            ∧ ∀ x, x ∈ order' → x ∈ order ∨ created ir ir' x.
Proof.
  intros Hev Hwalk. destruct (evolves_size _ _ Hev) as [Hle Hgrow].
  unfold walkFunction in *.
  apply (walk_evolves ir ir' Hev _ _ _ _ Hwalk); [lia|].
  destruct Hgrow; [left; lia|now right].
Qed.

(** The walk reads the operations and the blocks only. *)
Lemma walk_sameCode ir ir' fuel op :
  sameCode ir ir' → walk fuel ir op = walk fuel ir' op.
Proof.
  intros [Hops Hblocks]. revert op. induction fuel as [|fuel IH]; intros op;
    [reflexivity|].
  rewrite !walk_S. unfold regionBlocks, blockOps. rewrite Hops, Hblocks.
  f_equal. apply mapM_ext. intros b. f_equal. now apply mapM_ext.
Qed.

(** ** "Insert AssignOp" *)

Lemma redirected_settled val val' :
  redirected val val' → settled val → settled val'.
Proof.
  intros [->|Hw] Hs; [assumption|].
  unfold settled. destruct val' as [| ? []]; try discriminate; reflexivity.
Qed.

Lemma insertAssignOp_settles returnOp idx ir o :
  operations ir !! returnOp = Some o →
  ∃ o', operations (insertAssignOp returnOp idx ir) !! returnOp = Some o'
        ∧ ∀ v, opOperands o' !! idx = Some v → settled v.
Proof.
  intros Hop.
  destruct (opOperands o !! idx) as [operand|] eqn:Hoperand.
  - destruct (isBlockArgument operand || definedByConstant operand) eqn:Hcond.
    + destruct (insertAssignOp_wraps _ _ _ _ _ Hop Hoperand Hcond) as [Hops _].
      rewrite Hops, decide_True by reflexivity.
      eexists. split; [reflexivity|]. cbn. intros v Hv.
      rewrite list_lookup_insert_eq in Hv by (now apply lookup_lt_Some in Hoperand).
      injection Hv as <-. reflexivity.
    + unfold insertAssignOp. rewrite Hop, Hoperand, Hcond.
      exists o. split; [assumption|]. intros v Hv.
      assert (v = operand) by congruence. now subst.
  - unfold insertAssignOp. rewrite Hop, Hoperand.
    exists o. split; [assumption|]. congruence.
Qed.

Lemma insertAssignOps_settle returnOp ir o (start count : nat) :
  operations ir !! returnOp = Some o →
  (∀ j v, j < start → opOperands o !! j = Some v → settled v) →
  ∃ o', operations (fold_left (fun ir idx => insertAssignOp returnOp idx ir)
                              (seq start count) ir) !! returnOp = Some o'
        ∧ length (opOperands o') = length (opOperands o)
        ∧ ∀ j v, j < start + count → opOperands o' !! j = Some v → settled v.
Proof.
  revert ir o start. induction count as [|count IH]; intros ir o start Hop Hlt.
  - exists o. rewrite Nat.add_0_r. auto.
  - cbn [seq fold_left].
    destruct (insertAssignOp_settles returnOp start ir o Hop)
      as (o1 & Hop1 & Hstart).
    destruct (evolves_lookup _ _ _ _ (evolves_insertAssignOp returnOp start ir) Hop)
      as (o1' & Hop1' & _ & Hlen1 & Hred1 & _).
    assert (o1' = o1) by congruence. subst o1'.
    destruct (IH (insertAssignOp returnOp start ir) o1 (S start) Hop1) as
      (o' & Hop' & Hlen' & Hall).
    + intros j v Hj Hv. destruct (decide (j = start)) as [->|Hne].
      * now apply Hstart.
      * destruct (Hred1 j v Hv) as (v0 & Hv0 & Hred).
        eapply redirected_settled; [exact Hred|]. apply (Hlt j); [lia|assumption].
    + exists o'. split; [assumption|]. split; [congruence|].
      intros j v Hj. apply Hall. lia.
Qed.

(** [ir] with the [dataflow] attribute of [func] set to [false]. *)
Lemma setAttr_operations op name attr ir id :
  operations (setAttr op name attr ir) !! id
  = if decide (id = op) then
      (fun o => {| opKind := opKind o; opLoc := opLoc o;
                   opOperands := opOperands o;
                   opAttrs := <[name := attr]> (opAttrs o);
                   opRegions := opRegions o |}) <$> operations ir !! id
    else operations ir !! id.
Proof.
  cbn. rewrite lookup_alter. destruct (decide (op = id)) as [<-|Hne].
  - now rewrite decide_True by reflexivity.
  - now rewrite decide_False by congruence.
Qed.

(** What [prepareFunction] does, step by step. *)
Lemma prepareFunction_inv func ir ir1 :
  prepareFunction func ir = Some ir1 →
  ∃ o front terminator t ir0,
    operations ir !! func = Some o
    ∧ head (getBlocks o) = Some front
    ∧ operations ir0 = operations (setAttr func "dataflow" (BoolAttr false) ir)
    ∧ blocks ir0 = blocks ir
    ∧ blocks ir0 !! front ≫= last = Some terminator
    ∧ operations ir0 !! terminator = Some t
    ∧ ir1 = (if decide (opKind t = ReturnOp) then
               fold_left (fun ir idx => insertAssignOp terminator idx ir)
                         (seq 0 (length (opOperands t))) ir0
             else emitError func "doesn't have a return as terminator." ir0).
Proof.
  unfold prepareFunction. intros Hrun.
  destruct (operations ir !! func) as [o|] eqn:Hfunc; [|discriminate].
  rewrite option_bind_Some_l in Hrun. cbv zeta in Hrun.
  set (ira := if decide (length (getBlocks o) ≠ 1) then _ else ir) in *.
  set (ir0 := setAttr func "dataflow" (BoolAttr false) ira) in *.
  destruct (head (getBlocks o)) as [front|] eqn:Hfront; [|discriminate].
  rewrite option_bind_Some_l in Hrun.
  destruct (blocks ir0 !! front ≫= last) as [terminator|] eqn:Hterm;
    [|discriminate].
  rewrite option_bind_Some_l in Hrun.
  destruct (operations ir0 !! terminator) as [t|] eqn:Ht; [|discriminate].
  rewrite option_bind_Some_l in Hrun. injection Hrun as <-.
  exists o, front, terminator, t, ir0.
  assert (Hira : operations ira = operations ir ∧ blocks ira = blocks ir)
    by (subst ira; destruct (decide (length (getBlocks o) ≠ 1)); auto).
  destruct Hira as [Hops Hblocks].
  repeat split; auto.
  subst ir0. cbn. now rewrite Hops.
Qed.

Lemma prepareFunction_evolves func ir ir1 :
  prepareFunction func ir = Some ir1 →
  ∃ ir0, operations ir0 = operations (setAttr func "dataflow" (BoolAttr false) ir)
         ∧ blocks ir0 = blocks ir
         ∧ evolves ir0 ir1.
Proof.
  intros Hrun.
  destruct (prepareFunction_inv _ _ _ Hrun)
    as (o & front & terminator & t & ir0 & _ & _ & Hops & Hblocks & _ & _ & ->).
  exists ir0. split; [assumption|]. split; [assumption|].
  destruct (decide (opKind t = ReturnOp)).
  - apply evolves_fold. intros. apply evolves_insertAssignOp.
  - apply evolves_emitError.
Qed.

(** ** Running the callback where there is nothing left to wrap *)

Lemma sameCode_refl ir : sameCode ir ir.
Proof. split; reflexivity. Qed.

Lemma sameCode_trans ir1 ir2 ir3 :
  sameCode ir1 ir2 → sameCode ir2 ir3 → sameCode ir1 ir3.
Proof. intros [? ?] [? ?]. split; congruence. Qed.

Lemma sameCode_emitError op message ir : sameCode (emitError op message ir) ir.
Proof. split; reflexivity. Qed.

Lemma setAttrIfAbsent_present op name attr ir o :
  operations ir !! op = Some o → is_Some (opAttrs o !! name) →
  setAttrIfAbsent op name attr ir = ir.
Proof.
  intros Hop [a Ha]. unfold setAttrIfAbsent. rewrite Hop. now rewrite Ha.
Qed.

Lemma wrapOperand_noop op i ir :
  (∀ o, operations ir !! op = Some o →
        opKind o = ArrayOp ∨ Forall wrappedOperand (opOperands o)) →
  sameCode (wrapOperand op i ir) ir.
Proof.
  intros Hdone. unfold wrapOperand.
  destruct (operations ir !! op) as [o|]; [|apply sameCode_refl].
  destruct (opOperands o !! i) as [operand|] eqn:Hoperand;
    [|apply sameCode_refl].
  destruct (isShaped operand) eqn:Hshaped; [|apply sameCode_refl].
  destruct (Hdone o eq_refl) as [Harray|Hwrapped].
  - destruct operand as [owner index type|owner kind index type].
    + rewrite decide_True by assumption. apply sameCode_refl.
    + destruct (negb (definedByWrapper (OpResult owner kind index type)));
        [|rewrite decide_True by assumption; apply sameCode_refl].
      destruct (negb (hasStaticShape (OpResult owner kind index type)));
        rewrite decide_True by assumption;
        [apply sameCode_emitError|apply sameCode_refl].
  - rewrite Forall_lookup in Hwrapped.
    pose proof (Hwrapped _ _ Hoperand Hshaped) as Hw.
    destruct operand as [owner index type|owner kind index type];
      [discriminate|].
    rewrite Hw. cbn [negb]. destruct (decide (opKind o = ArrayOp));
      apply sameCode_refl.
Qed.

Lemma fold_noop {A} (f : IR → A → IR) (l : list A) ir :
  (∀ cur a, sameCode cur ir → sameCode (f cur a) cur) →
  ∀ cur, sameCode cur ir → sameCode (fold_left f l cur) ir.
Proof.
  intros Hstep. induction l as [|a l IH]; intros cur Hcur; [assumption|].
  cbn [fold_left]. apply IH. eapply sameCode_trans; [now apply Hstep|assumption].
Qed.

Lemma visit_noop op ir :
  (∀ o, operations ir !! op = Some o → opKind o = ArrayOp ∨ annotated o) →
  sameCode (visit op ir) ir.
Proof.
  intros Hdone. unfold visit.
  destruct (operations ir !! op) as [o|] eqn:Hop; [|apply sameCode_refl].
  set (wrapped := fold_left _ _ ir).
  assert (Hwrapped : sameCode wrapped ir).
  { apply fold_noop; [|apply sameCode_refl].
    intros cur i [Hops _]. apply wrapOperand_noop. rewrite Hops, Hop.
    intros o' [= <-]. destruct (Hdone o eq_refl) as [Harray|[Hw _]];
      [now left|].
    destruct (decide (opKind o = ArrayOp)); [now left|right; now apply Hw]. }
  destruct (decide (opKind o = AffineForOp)) as [Hloop|]; [|assumption].
  destruct (Hdone o eq_refl) as [Harray|[_ Hattrs]]; [congruence|].
  destruct (Hattrs Hloop) as (Hp & Hu & Hf).
  set (checked := if decide (length (getBlocks o) ≠ 1) then _ else wrapped).
  assert (Hchecked : sameCode checked ir).
  { subst checked. destruct (decide (length (getBlocks o) ≠ 1)); [|assumption].
    eapply sameCode_trans; [apply sameCode_emitError|assumption]. }
  assert (Hop' : operations checked !! op = Some o)
    by (destruct Hchecked as [-> _]; assumption).
  rewrite (setAttrIfAbsent_present op "pipeline" _ checked o Hop' Hp).
  rewrite (setAttrIfAbsent_present op "unroll" _ checked o Hop' Hu).
  rewrite (setAttrIfAbsent_present op "flatten" _ checked o Hop' Hf).
  assumption.
Qed.

Lemma visitAll_noop order ir cur :
  (∀ x o, x ∈ order → operations ir !! x = Some o →
          opKind o = ArrayOp ∨ annotated o) →
  sameCode cur ir → sameCode (visitAll order cur) ir.
Proof.
  intros Hdone. unfold visitAll. revert cur.
  induction order as [|x order IH]; intros cur Hcur; [assumption|].
  cbn [fold_left]. apply IH.
  - intros y o Hy. apply Hdone. rewrite elem_of_cons; now right.
  - eapply sameCode_trans; [|exact Hcur]. apply visit_noop.
    destruct Hcur as [-> _]. intros o. apply Hdone. rewrite elem_of_cons; now left.
Qed.

Lemma insertAssignOp_noop returnOp idx ir :
  (∀ t, operations ir !! returnOp = Some t → Forall settled (opOperands t)) →
  insertAssignOp returnOp idx ir = ir.
Proof.
  intros Hsettled. unfold insertAssignOp.
  destruct (operations ir !! returnOp) as [t|]; [|reflexivity].
  destruct (opOperands t !! idx) as [operand|] eqn:Hoperand; [|reflexivity].
  pose proof (Hsettled t eq_refl) as Hall. rewrite Forall_lookup in Hall.
  pose proof (Hall _ _ Hoperand) as Hs. unfold settled in Hs. now rewrite Hs.
Qed.

Lemma insertAssignOps_noop returnOp (indices : list nat) ir :
  (∀ t, operations ir !! returnOp = Some t → Forall settled (opOperands t)) →
  fold_left (fun ir idx => insertAssignOp returnOp idx ir) indices ir = ir.
Proof.
  intros Hsettled. induction indices as [|idx indices IH]; [reflexivity|].
  cbn [fold_left]. now rewrite insertAssignOp_noop.
Qed.

(** [prepareFunction] on a function whose [dataflow] is [false] already and
    whose return has nothing left to assign. *)
Lemma prepareFunction_noop func ir f front terminator t :
  operations ir !! func = Some f →
  opAttrs f !! "dataflow" = Some (BoolAttr false) →
  head (getBlocks f) = Some front →
  blocks ir !! front ≫= last = Some terminator →
  operations ir !! terminator = Some t →
  (opKind t = ReturnOp → Forall settled (opOperands t)) →
  ∃ ir1, prepareFunction func ir = Some ir1 ∧ sameCode ir1 ir.
Proof.
  intros Hfunc Hflag Hfront Hterm Ht Hsettled.
  unfold prepareFunction. rewrite Hfunc, option_bind_Some_l. cbv zeta.
  set (ira := if decide (length (getBlocks f) ≠ 1) then _ else ir).
  assert (Hira : sameCode ira ir).
  { subst ira. destruct (decide (length (getBlocks f) ≠ 1));
      [apply sameCode_emitError|apply sameCode_refl]. }
  set (ir0 := setAttr func "dataflow" (BoolAttr false) ira).
  assert (Hir0 : sameCode ir0 ir).
  { destruct Hira as [Hops Hblocks]. split; [|exact Hblocks].
    subst ir0. cbn. rewrite Hops. apply alter_id.
    intros o Ho. assert (o = f) by congruence. subst o.
    rewrite insert_id by assumption. now destruct f. }
  rewrite Hfront, option_bind_Some_l.
  destruct Hir0 as [Hops0 Hblocks0].
  rewrite Hblocks0, Hterm, option_bind_Some_l, Hops0, Ht, option_bind_Some_l.
  eexists. split; [reflexivity|].
  destruct (decide (opKind t = ReturnOp)) as [Hret|].
  - rewrite insertAssignOps_noop; [now split|].
    rewrite Hops0, Ht. intros t' [= <-]. now apply Hsettled.
  - eapply sameCode_trans; [apply sameCode_emitError|now split].
Qed.


(** ** The pass run on its own result *)

Lemma prepareFunction_again func ir ir1 order :
  prepareFunction func ir = Some ir1 →
  ∃ ir2, prepareFunction func (visitAll order ir1) = Some ir2
         ∧ sameCode ir2 (visitAll order ir1).
Proof.
  intros Hprep.
  destruct (prepareFunction_inv _ _ _ Hprep)
    as (o & front & terminator & t & ir0
        & Hfunc & Hfront & Hops0 & Hblocks0 & Hterm & Ht & Hir1).
  assert (Hev1 : evolves ir0 ir1).
  { rewrite Hir1. destruct (decide (opKind t = ReturnOp)).
    - apply evolves_fold. intros. apply evolves_insertAssignOp.
    - apply evolves_emitError. }
  pose proof (evolves_visitAll order ir1) as Hev2.
  pose proof (evolves_trans _ _ _ Hev1 Hev2) as Hev.
  set (ir' := visitAll order ir1) in *.
  assert (∃ f0, operations ir0 !! func = Some f0
                ∧ opAttrs f0 !! "dataflow" = Some (BoolAttr false)
                ∧ opRegions f0 = opRegions o) as (f0 & Hf0 & Hflag0 & Hregions0).
  { rewrite Hops0, setAttr_operations, Hfunc, decide_True by reflexivity.
    eexists. split; [reflexivity|]. split; [apply lookup_insert_eq|reflexivity]. }
  destruct (evolves_old _ _ Hev _ _ Hf0)
    as (f' & Hf' & _ & _ & Hregions & _ & Hattrs).
  assert (Hflag : opAttrs f' !! "dataflow" = Some (BoolAttr false))
    by (destruct (Hattrs "dataflow") as [E|[N _]]; congruence).
  assert (Hfront' : head (getBlocks f') = Some front)
    by (unfold getBlocks in *; congruence).
  apply bind_Some in Hterm as (l & Hl & Hlast).
  pose proof (evolves_blocks _ _ Hev front) as Hblock. rewrite Hl in Hblock.
  destruct (blocks ir' !! front) as [l'|] eqn:Hl'; [|contradiction].
  destruct Hblock as [_ [Hsame|(x & Hx & Hnone & [ox Hox])]].
  - destruct (evolves_old _ _ Hev _ _ Ht) as (t' & Ht' & Hkind & _).
    apply (prepareFunction_noop func ir' f' front terminator t');
      try assumption.
    { rewrite Hl'. cbn. congruence. }
    intros Hret. rewrite Hkind in Hret.
    rewrite decide_True in Hir1 by assumption.
    destruct (insertAssignOps_settle terminator ir0 t 0 (length (opOperands t)) Ht)
      as (t1 & Ht1 & Hlen & Hsettled); [intros; lia|].
    rewrite <- Hir1 in Ht1.
    destruct (evolves_lookup _ _ _ _ Hev2 Ht1) as (t'' & Ht'' & _ & _ & Hred & _).
    assert (t'' = t') by congruence. subst t''.
    apply Forall_lookup. intros j v' Hv'.
    destruct (Hred j v' Hv') as (v & Hv & Hr).
    eapply redirected_settled; [exact Hr|].
    apply (Hsettled j); [|assumption].
    apply lookup_lt_Some in Hv. lia.
  - apply (prepareFunction_noop func ir' f' front x ox); try assumption.
    { rewrite Hl'. cbn. assumption. }
    intros Hret.
    destruct (evolves_new _ _ Hev _ _ Hox Hnone) as [[Hk|Hk] _]; congruence.
Qed.

(** What the walk finds after the pass: operations the callback has run on
    and [ArrayOp]s it has created. *)
Lemma walk_after func ir1 order :
  walkFunction ir1 func = Some order →
  ∃ order', walkFunction (visitAll order ir1) func = Some order'
    ∧ ∀ x o, x ∈ order' → operations (visitAll order ir1) !! x = Some o →
             opKind o = ArrayOp ∨ annotated o.
Proof.
  intros Hwalk.
  destruct (walkFunction_evolves _ _ func order (evolves_visitAll order ir1) Hwalk)
    as (order' & Hwalk' & Hincl).
  exists order'. split; [assumption|]. intros x o Hx Ho.
  destruct (operations ir1 !! x) as [o1|] eqn:Ho1.
  - destruct (Hincl x Hx) as [Hin|[Hnone _]]; [|congruence].
    destruct (visitAll_annotates order ir1 x o1 Hin Ho1) as (o' & Ho' & Hann).
    right. congruence.
  - left. exact (createsArrayOps_visitAll order ir1 x o Ho Ho1).
Qed.

Lemma walkFunction_sameCode ir ir' func :
  sameCode ir ir' → walkFunction ir func = walkFunction ir' func.
Proof.
  intros Hsame. unfold walkFunction. rewrite (walk_sameCode ir ir' _ _ Hsame).
  destruct Hsame as [-> _]. reflexivity.
Qed.

Lemma runOnFunction_inv func ir ir' :
  runOnFunction func ir = Some ir' →
  ∃ ir1 order, prepareFunction func ir = Some ir1
               ∧ walkFunction ir1 func = Some order
               ∧ ir' = visitAll order ir1.
Proof.
  unfold runOnFunction. intros Hrun.
  destruct (prepareFunction func ir) as [ir1|]; [|discriminate].
  rewrite option_bind_Some_l in Hrun.
  destruct (walkFunction ir1 func) as [order|] eqn:Hwalk; [|discriminate].
  rewrite option_bind_Some_l in Hrun. injection Hrun as <-.
  exists ir1, order. auto.
Qed.

(** From the state in which [dataflow] has been set to the end of the pass
    on the function. *)
Lemma runOnFunction_evolves func ir ir1 order :
  prepareFunction func ir = Some ir1 →
  ∃ ir0, operations ir0 = operations (setAttr func "dataflow" (BoolAttr false) ir)
         ∧ blocks ir0 = blocks ir
         ∧ evolves ir0 ir1
         ∧ evolves ir0 (visitAll order ir1).
Proof.
  intros Hprep.
  destruct (prepareFunction_evolves _ _ _ Hprep) as (ir0 & Hops & Hblocks & Hev).
  exists ir0. split; [assumption|]. split; [assumption|].
  split; [assumption|].
  eapply evolves_trans; [exact Hev|apply evolves_visitAll].
Qed.

Lemma runOnFunction_again func ir ir' :
  runOnFunction func ir = Some ir' →
  ∃ ir'', runOnFunction func ir' = Some ir'' ∧ sameCode ir'' ir'.
Proof.
  intros Hrun.
  destruct (runOnFunction_inv _ _ _ Hrun) as (ir1 & order & Hprep & Hwalk & ->).
  destruct (prepareFunction_again func ir ir1 order Hprep) as (ir2 & Hprep2 & Hsame).
  destruct (walk_after func ir1 order Hwalk) as (order' & Hwalk' & Hdone).
  exists (visitAll order' ir2). split.
  - unfold runOnFunction. rewrite Hprep2, option_bind_Some_l.
    rewrite (walkFunction_sameCode _ _ func Hsame), Hwalk'. reflexivity.
  - apply visitAll_noop; assumption.
Qed.

(** C10: the pass sets the [dataflow] attribute of the function to [false]
    whatever it was before.  Every other attribute of an operation that was
    there is left as it is, or was absent and is now [false]: the loops the
    callback runs on end with [pipeline], [unroll] and [flatten] at the value
    they had, [false] when they had none; [setAttrIfAbsent], which the
    callback uses, changes nothing when the attribute is there; and a new
    [ArrayOp], which has no attribute yet, gets [interface], [storage] and
    [partition] at [false]. *)
Theorem dataflow_is_overwritten_others_are_defaulted func ir ir' :
  runOnFunction func ir = Some ir' →
  (∃ f', operations ir' !! func = Some f'
         ∧ opAttrs f' !! "dataflow" = Some (BoolAttr false))
  ∧ (∀ id o name,
       operations ir !! id = Some o → id ≠ func ∨ name ≠ "dataflow" →
       ∃ o', operations ir' !! id = Some o'
             ∧ (opAttrs o' !! name = opAttrs o !! name
                ∨ (opAttrs o !! name = None
                   ∧ opAttrs o' !! name = Some (BoolAttr false))))
  ∧ (∀ ir1 order id o name,
       prepareFunction func ir = Some ir1 →
       walkFunction ir1 func = Some order →
       id ∈ order → operations ir !! id = Some o → opKind o = AffineForOp →
       name ∈ ["pipeline"; "unroll"; "flatten"] →
       ∃ o', operations ir' !! id = Some o'
             ∧ opAttrs o' !! name
               = Some (default (BoolAttr false) (opAttrs o !! name)))
  ∧ (∀ op name attr ir o,
       operations ir !! op = Some o → is_Some (opAttrs o !! name) →
       setAttrIfAbsent op name attr ir = ir)
  ∧ (∀ loc operand ir,
       ∃ w, operations (insertArrayOp loc operand ir) !! freshOp ir = Some w
            ∧ opKind w = ArrayOp
            ∧ ∀ name, name ∈ ["interface"; "storage"; "partition"] →
                      opAttrs w !! name = Some (BoolAttr false)).
Proof.
  intros Hrun.
  destruct (runOnFunction_inv _ _ _ Hrun) as (ir1 & order & Hprep & Hwalk & ->).
  destruct (runOnFunction_evolves func ir ir1 order Hprep)
    as (ir0 & Hops0 & _ & Hev1 & Hev).
  assert (Hothers : ∀ id o name,
    operations ir !! id = Some o → id ≠ func ∨ name ≠ "dataflow" →
    ∃ o', operations (visitAll order ir1) !! id = Some o'
          ∧ opKind o' = opKind o
          ∧ is_Some (operations ir1 !! id)
          ∧ (opAttrs o' !! name = opAttrs o !! name
             ∨ (opAttrs o !! name = None
                ∧ opAttrs o' !! name = Some (BoolAttr false)))).
  { intros id o name Hid Hne.
    assert (∃ o0, operations ir0 !! id = Some o0 ∧ opKind o0 = opKind o
                  ∧ opAttrs o0 !! name = opAttrs o !! name)
      as (o0 & Hid0 & Hkind0 & Hattr0).
    { rewrite Hops0, setAttr_operations, Hid.
      destruct (decide (id = func)) as [->|Hid'].
      - eexists. split; [reflexivity|]. split; [reflexivity|]. cbn.
        destruct Hne as [Hne|Hne]; [contradiction|].
        now rewrite lookup_insert_ne by congruence.
      - eauto. }
    destruct (evolves_old _ _ Hev _ _ Hid0) as (o' & Hid' & Hk & _ & _ & _ & Ha).
    destruct (evolves_old _ _ Hev1 _ _ Hid0) as (o1 & Hid1 & _).
    exists o'. split; [assumption|]. split; [congruence|]. split; [eauto|].
    rewrite <- Hattr0. apply Ha. }
  split; [|split; [|split; [|split]]].
  - destruct (prepareFunction_inv _ _ _ Hprep)
      as (f & _ & _ & _ & _ & Hf & _).
    assert (∃ f0, operations ir0 !! func = Some f0
                  ∧ opAttrs f0 !! "dataflow" = Some (BoolAttr false))
      as (f0 & Hf0 & Hflag).
    { rewrite Hops0, setAttr_operations, Hf, decide_True by reflexivity.
      eexists. split; [reflexivity|]. cbn. apply lookup_insert_eq. }
    destruct (evolves_lookup _ _ _ _ Hev Hf0) as (f' & Hf' & _ & _ & _ & Hkeep).
    exists f'. split; [assumption|]. rewrite Hkeep; [assumption|].
    rewrite Hflag. eauto.
  - intros id o name Hid Hne.
    destruct (Hothers id o name Hid Hne) as (o' & Hid' & _ & _ & Hattr). eauto.
  - intros ir1' order' id o name Hprep' Hwalk' Hin Hid Hloop Hname.
    assert (ir1' = ir1) by congruence. subst ir1'.
    assert (order' = order) by congruence. subst order'.
    assert (Hne : id ≠ func ∨ name ≠ "dataflow").
    { right. intros ->.
      repeat (apply elem_of_cons in Hname as [Hname|Hname]; [discriminate|]).
      now apply elem_of_nil in Hname. }
    destruct (Hothers id o name Hid Hne) as (o' & Hid' & Hk & [o1 Hid1] & Hattr).
    exists o'. split; [assumption|].
    destruct (visitAll_annotates order ir1 id o1 Hin Hid1)
      as (o'' & Hid'' & _ & Hloops).
    assert (o'' = o') by congruence. subst o''.
    assert (Hthere : is_Some (opAttrs o' !! name)).
    { destruct Hloops as (Hp & Hu & Hf); [congruence|].
      repeat (apply elem_of_cons in Hname as [->|Hname]); try assumption.
      now apply elem_of_nil in Hname. }
    destruct Hattr as [Hsame|[Hnone Hfalse]].
    + rewrite Hsame in *. destruct Hthere as [a ->]. reflexivity.
    + rewrite Hnone, Hfalse. reflexivity.
  - intros op name attr ir2 o Hop [a Ha]. unfold setAttrIfAbsent.
    rewrite Hop. cbn. now rewrite Ha.
  - intros loc operand ir2. rewrite insertArrayOp_operations.
    rewrite decide_True by reflexivity. eexists. split; [reflexivity|].
    split; [reflexivity|]. intros name Hname. cbn.
    repeat (apply elem_of_cons in Hname as [->|Hname]); try reflexivity.
    now apply elem_of_nil in Hname.
Qed.

Lemma dataflow_is_overwritten_others_are_defaulted_witness :
  runOnFunction 0 sampleFunction = Some sampleConverted
  ∧ (∃ f, operations sampleFunction !! 0 = Some f
          ∧ opAttrs f !! "dataflow" = Some (BoolAttr true))
  ∧ (∃ f', operations sampleConverted !! 0 = Some f'
           ∧ opAttrs f' !! "dataflow" = Some (BoolAttr false)).
Proof.
  assert (Hrun : runOnFunction 0 sampleFunction = Some sampleConverted)
    by (vm_compute; reflexivity).
  split; [exact Hrun|]. split.
  - exists (sampleOp FuncOp [] {["dataflow" := BoolAttr true]} [[0]]).
    split; vm_compute; reflexivity.
  - exact (proj1 (dataflow_is_overwritten_others_are_defaulted
                    0 sampleFunction sampleConverted Hrun)).
Defined.

(** ** Where a wrapper is put *)

Lemma insertAfter_split anchor new l1 l2 :
  anchor ∉ l1 →
  insertAfter anchor new (l1 ++ anchor :: l2) = (l1 ++ anchor :: new :: l2)%list.
Proof.
  induction l1 as [|x l1 IH]; intros Hnotin; cbn [app insertAfter].
  - now rewrite decide_True by reflexivity.
  - rewrite not_elem_of_cons in Hnotin. destruct Hnotin as [Hne Hnotin].
    rewrite decide_False by congruence. now rewrite IH.
Qed.

Lemma place_after_definition val new blks :
  placedAfterDefinition val new blks
    (place (insertionPointAfterValue val) new blks).
Proof.
  destruct val as [owner index type|owner kind index type];
    cbn [placedAfterDefinition insertionPointAfterValue place].
  - intros l Hl. now rewrite lookup_alter, decide_True, Hl by reflexivity.
  - intros b l1 l2 Hb Hnotin. rewrite lookup_fmap, Hb. cbn.
    now rewrite insertAfter_split.
Qed.

(** When the loop over the operands inserts an [ArrayOp]. *)
Lemma wrapOperand_inserts op i ir o operand :
  operations ir !! op = Some o → opOperands o !! i = Some operand →
  isShaped operand = true → definedByWrapper operand = false →
  opKind o ≠ ArrayOp →
  ∃ ir2, sameCode ir2 ir
         ∧ wrapOperand op i ir = insertArrayOp (opLoc o) operand ir2.
Proof.
  intros Hop Hoperand Hshaped Hraw Hkind. unfold wrapOperand.
  rewrite Hop, Hoperand, Hshaped.
  destruct operand as [owner index type|owner kind index type].
  - rewrite decide_False by assumption. exists ir. split; [apply sameCode_refl|].
    reflexivity.
  - rewrite Hraw. cbn [negb].
    destruct (negb (hasStaticShape (OpResult owner kind index type)));
      rewrite decide_False by assumption; eexists;
      (split; [|reflexivity]);
      [apply sameCode_emitError|apply sameCode_refl].
Qed.

Lemma replaceValue_removes old new val :
  new ≠ old → replaceValue old new val ≠ old.
Proof. unfold replaceValue. case_decide; congruence. Qed.

(** ** The operations nested in a function *)

Lemma mapM_elem_inv {A B} (g : A → option B) (L : list A) rs r :
  mapM g L = Some rs → r ∈ rs → ∃ y, y ∈ L ∧ g y = Some r.
Proof.
  intros Hmap%mapM_Some_1 Hr. induction Hmap as [|z r' L rs Hz _ IH].
  - now apply elem_of_nil in Hr.
  - apply elem_of_cons in Hr as [->|Hr].
    + exists z. split; [left|assumption].
    + destruct (IH Hr) as (y & ? & ?). exists y. split; [now right|assumption].
Qed.

(** A walk ends with the operation it started from. *)
Lemma walk_root fuel ir op l : walk fuel ir op = Some l → op ∈ l.
Proof.
  destruct fuel as [|fuel]; [discriminate|]. rewrite walk_S.
  destruct (mapM _ (regionBlocks ir op)) as [nested|]; [|discriminate].
  cbn. intros [= <-]. apply elem_of_app. right. left.
Qed.

(** The operations of the blocks of an operation are walked with the fuel
    that is left, within the walk of the operation. *)
Lemma walk_child fuel ir op l block x :
  walk (S fuel) ir op = Some l →
  block ∈ regionBlocks ir op → x ∈ blockOps ir block →
  ∃ lx, walk fuel ir x = Some lx ∧ ∀ y, y ∈ lx → y ∈ l.
Proof.
  rewrite walk_S. intros Hwalk Hblock Hx.
  destruct (mapM _ (regionBlocks ir op)) as [nested|] eqn:Hnested;
    [|discriminate].
  cbn in Hwalk. injection Hwalk as <-.
  destruct (mapM_elem _ _ _ _ Hnested Hblock) as (ks & Hks & Hksin).
  destruct (mapM (walk fuel ir) (blockOps ir block)) as [lss|] eqn:Hlss;
    [|discriminate].
  cbn in Hks. injection Hks as <-.
  destruct (mapM_elem _ _ _ _ Hlss Hx) as (lx & Hlx & Hlxin).
  exists lx. split; [assumption|]. intros y Hy.
  apply elem_of_app. left. apply elem_of_concat.
  exists (concat lss). split; [assumption|].
  apply elem_of_concat. eauto.
Qed.

(** Each operation of a walk has a walk of its own within it. *)
Lemma walk_within fuel ir op l x :
  walk fuel ir op = Some l → x ∈ l →
  ∃ fuel' lx, walk (S fuel') ir x = Some lx ∧ ∀ y, y ∈ lx → y ∈ l.
Proof.
  revert op l. induction fuel as [|fuel IH]; intros op l Hwalk Hx;
    [discriminate|].
  pose proof Hwalk as Hwalk0. rewrite walk_S in Hwalk.
  destruct (mapM _ (regionBlocks ir op)) as [nested|] eqn:Hnested;
    [|discriminate].
  cbn in Hwalk. injection Hwalk as <-.
  apply elem_of_app in Hx as [Hx|Hx].
  - apply elem_of_concat in Hx as (ks & Hks & Hx).
    destruct (mapM_elem_inv _ _ _ _ Hnested Hks) as (block & Hblock & Hblockwalk).
    destruct (mapM (walk fuel ir) (blockOps ir block)) as [lss|] eqn:Hlss;
      [|discriminate].
    cbn in Hblockwalk. injection Hblockwalk as <-.
    apply elem_of_concat in Hx as (lc & Hlc & Hx).
    destruct (mapM_elem_inv _ _ _ _ Hlss Hlc) as (child & Hchild & Hchildwalk).
    destruct (IH child lc Hchildwalk Hx) as (fuel' & lx & Hlx & Hincl).
    exists fuel', lx. split; [assumption|]. intros y Hy.
    apply elem_of_app. left. apply elem_of_concat.
    exists (concat lss). split; [assumption|].
    apply elem_of_concat. exists lc. split; [assumption|auto].
  - apply list_elem_of_singleton in Hx. subst x.
    exists fuel. eexists. split; [exact Hwalk0|auto].
Qed.

(** A walk that ends goes through every operation nested in its root. *)
Lemma walk_complete fuel ir root l x :
  walk fuel ir root = Some l → nestedIn ir root x → x ∈ l.
Proof.
  intros Hwalk Hnested.
  induction Hnested as [|parent block x _ IH Hblock Hx].
  - eapply walk_root; eassumption.
  - destruct (walk_within _ _ _ _ _ Hwalk IH) as (fuel' & lp & Hlp & Hincl).
    destruct (walk_child _ _ _ _ _ _ Hlp Hblock Hx) as (lx & Hlx & Hinclx).
    apply Hincl, Hinclx. eapply walk_root; eassumption.
Qed.

Lemma nestedIn_mono ir ir2 root x :
  (∀ op, regionBlocks ir2 op = regionBlocks ir op) →
  (∀ b y, y ∈ blockOps ir b → y ∈ blockOps ir2 b) →
  nestedIn ir root x → nestedIn ir2 root x.
Proof.
  intros Hregions Hblocks Hnested.
  induction Hnested as [|parent block x _ IH Hblock Hx]; [constructor|].
  apply (nested_step ir2 root parent block x); [assumption| |auto].
  now rewrite Hregions.
Qed.

(** ** Blocks keep their operations *)

Lemma insertBefore_keeps anchor new l x :
  x ∈ l → x ∈ insertBefore anchor new l.
Proof.
  induction l as [|y l IH]; cbn [insertBefore]; [auto|].
  case_decide; rewrite !elem_of_cons; intuition.
Qed.

Lemma insertAfter_keeps anchor new l x :
  x ∈ l → x ∈ insertAfter anchor new l.
Proof.
  induction l as [|y l IH]; cbn [insertAfter]; [auto|].
  case_decide; rewrite !elem_of_cons; intuition.
Qed.

Lemma place_keeps point new blks b x :
  x ∈ default [] (blks !! b) → x ∈ default [] (place point new blks !! b).
Proof.
  destruct point as [anchor|anchor|block]; cbn [place].
  - rewrite lookup_fmap. destruct (blks !! b) as [l|]; cbn;
      [apply insertBefore_keeps|auto].
  - rewrite lookup_fmap. destruct (blks !! b) as [l|]; cbn;
      [apply insertAfter_keeps|auto].
  - rewrite lookup_alter. case_decide as Heq; [|auto]. subst.
    destruct (blks !! b) as [l|]; cbn; [|auto]. intros Hx. now right.
Qed.

Lemma blockOps_fold {A} (f : IR → A → IR) (l : list A) ir b x :
  (∀ ir a, x ∈ blockOps ir b → x ∈ blockOps (f ir a) b) →
  x ∈ blockOps ir b → x ∈ blockOps (fold_left f l ir) b.
Proof.
  intros Hstep. revert ir. induction l as [|a l IH]; intros ir Hx; cbn; auto.
Qed.

Lemma blockOps_insertArrayOp loc operand ir b x :
  x ∈ blockOps ir b → x ∈ blockOps (insertArrayOp loc operand ir) b.
Proof.
  unfold blockOps. rewrite insertArrayOp_blocks. apply place_keeps.
Qed.

Lemma blockOps_insertAssignOp returnOp idx ir b x :
  x ∈ blockOps ir b → x ∈ blockOps (insertAssignOp returnOp idx ir) b.
Proof.
  destruct (operations ir !! returnOp) as [o|] eqn:Hop;
    [|unfold insertAssignOp; now rewrite Hop].
  destruct (opOperands o !! idx) as [operand|] eqn:Hoperand;
    [|unfold insertAssignOp; now rewrite Hop, Hoperand].
  destruct (isBlockArgument operand || definedByConstant operand) eqn:Hcond;
    [|unfold insertAssignOp; now rewrite Hop, Hoperand, Hcond].
  destruct (insertAssignOp_wraps _ _ _ _ _ Hop Hoperand Hcond) as [_ Hblocks].
  unfold blockOps. rewrite Hblocks. apply place_keeps.
Qed.

Lemma blockOps_wrapOperand op i ir b x :
  x ∈ blockOps ir b → x ∈ blockOps (wrapOperand op i ir) b.
Proof.
  intros Hx. unfold wrapOperand.
  destruct (operations ir !! op) as [o|]; [|exact Hx].
  destruct (opOperands o !! i) as [operand|]; [|exact Hx].
  destruct (isShaped operand); [|exact Hx].
  destruct operand as [owner index type|owner kind index type].
  - destruct (decide (opKind o = ArrayOp)); [exact Hx|].
    apply blockOps_insertArrayOp; exact Hx.
  - destruct (negb (definedByWrapper (OpResult owner kind index type)));
      [|destruct (decide (opKind o = ArrayOp)); exact Hx].
    destruct (negb (hasStaticShape (OpResult owner kind index type)));
      destruct (decide (opKind o = ArrayOp)); try exact Hx;
      apply blockOps_insertArrayOp; exact Hx.
Qed.

Lemma blockOps_setAttrIfAbsent op name attr ir b x :
  x ∈ blockOps ir b → x ∈ blockOps (setAttrIfAbsent op name attr ir) b.
Proof.
  intros Hx. unfold setAttrIfAbsent.
  destruct (operations ir !! op) as [o|]; [|exact Hx].
  destruct (opAttrs o !! name); exact Hx.
Qed.

Lemma blockOps_visit op ir b x :
  x ∈ blockOps ir b → x ∈ blockOps (visit op ir) b.
Proof.
  intros Hx. unfold visit. destruct (operations ir !! op) as [o|]; [|exact Hx].
  assert (Hfold : x ∈ blockOps (fold_left (fun ir i => wrapOperand op i ir)
                                          (seq 0 (length (opOperands o))) ir) b).
  { apply blockOps_fold; [|exact Hx]. intros. now apply blockOps_wrapOperand. }
  destruct (decide (opKind o = AffineForOp)); [|exact Hfold].
  do 3 apply blockOps_setAttrIfAbsent.
  destruct (decide (length (getBlocks o) ≠ 1)); exact Hfold.
Qed.

Lemma blockOps_visitAll order ir b x :
  x ∈ blockOps ir b → x ∈ blockOps (visitAll order ir) b.
Proof. apply blockOps_fold. intros. now apply blockOps_visit. Qed.

Lemma blockOps_prepareFunction func ir ir1 b x :
  prepareFunction func ir = Some ir1 →
  x ∈ blockOps ir b → x ∈ blockOps ir1 b.
Proof.
  intros Hprep Hx.
  destruct (prepareFunction_inv _ _ _ Hprep)
    as (o & front & terminator & t & ir0 & _ & _ & _ & Hblocks & _ & _ & ->).
  assert (Hx0 : x ∈ blockOps ir0 b)
    by (unfold blockOps in *; now rewrite Hblocks).
  destruct (decide (opKind t = ReturnOp)); [|exact Hx0].
  apply blockOps_fold; [|exact Hx0]. intros. now apply blockOps_insertAssignOp.
Qed.

Lemma regionBlocks_prepareFunction func ir ir1 op :
  prepareFunction func ir = Some ir1 →
  regionBlocks ir1 op = regionBlocks ir op.
Proof.
  intros Hprep.
  destruct (prepareFunction_evolves _ _ _ Hprep) as (ir0 & Hops & _ & Hev).
  rewrite (regionBlocks_evolves _ _ _ Hev). unfold regionBlocks.
  rewrite Hops, setAttr_operations. case_decide; [|reflexivity].
  destruct (operations ir !! op); reflexivity.
Qed.

Lemma absent_before_prepareFunction func ir ir1 x :
  prepareFunction func ir = Some ir1 →
  operations ir1 !! x = None → operations ir !! x = None.
Proof.
  intros Hprep Hnone.
  destruct (prepareFunction_evolves _ _ _ Hprep) as (ir0 & Hops & _ & Hev).
  pose proof (evolves_absent _ _ _ Hev Hnone) as Hnone0.
  rewrite Hops, setAttr_operations in Hnone0.
  destruct (operations ir !! x); [|reflexivity].
  case_decide; discriminate.
Qed.

(** ** "Insert AssignOp", operand by operand *)

Lemma insertAssignOp_assigns ir0 returnOp idx ir id (operands : list Value) :
  evolves ir0 ir →
  (∃ o, operations ir !! id = Some o
        ∧ Forall2 (assigned ir0) operands (opOperands o)) →
  ∃ o', operations (insertAssignOp returnOp idx ir) !! id = Some o'
        ∧ Forall2 (assigned ir0) operands (opOperands o').
Proof.
  intros Hev (o1 & Hid & HF).
  destruct (operations ir !! returnOp) as [o|] eqn:Hop;
    [|unfold insertAssignOp; rewrite Hop; eauto].
  destruct (opOperands o !! idx) as [operand|] eqn:Hoperand;
    [|unfold insertAssignOp; rewrite Hop, Hoperand; eauto].
  destruct (isBlockArgument operand || definedByConstant operand) eqn:Hcond;
    [|unfold insertAssignOp; rewrite Hop, Hoperand, Hcond; eauto].
  destruct (insertAssignOp_wraps _ _ _ _ _ Hop Hoperand Hcond) as [Hops _].
  pose proof (freshOp_absent ir) as Hfresh.
  rewrite Hops. case_decide as Heq.
  - subst id. assert (o1 = o) by congruence. subst o1.
    eexists. split; [reflexivity|]. cbn [opOperands].
    destruct (Forall2_lookup_r _ _ _ _ _ HF Hoperand) as (v0 & Hv0 & Hassigned).
    rewrite <- (list_insert_id operands idx v0 Hv0).
    apply Forall2_insert; [assumption|].
    destruct Hassigned as [->|(a & _ & ->)]; [|discriminate].
    right. exists (freshOp ir). split; [|reflexivity].
    exact (evolves_absent _ _ _ Hev Hfresh).
  - rewrite decide_False by congruence. eauto.
Qed.

Lemma insertAssignOps_assign ir0 returnOp (indices : list nat) ir id
    (operands : list Value) :
  evolves ir0 ir →
  (∃ o, operations ir !! id = Some o
        ∧ Forall2 (assigned ir0) operands (opOperands o)) →
  ∃ o', operations (fold_left (fun ir idx => insertAssignOp returnOp idx ir)
                              indices ir) !! id = Some o'
        ∧ Forall2 (assigned ir0) operands (opOperands o').
Proof.
  revert ir. induction indices as [|idx indices IH]; intros ir Hev Hcur; cbn;
    [exact Hcur|].
  apply IH.
  - eapply evolves_trans; [exact Hev|apply evolves_insertAssignOp].
  - now apply insertAssignOp_assigns.
Qed.

Lemma prepareFunction_assigns func ir ir1 id o :
  prepareFunction func ir = Some ir1 → operations ir !! id = Some o →
  ∃ o1, operations ir1 !! id = Some o1
        ∧ opKind o1 = opKind o
        ∧ Forall2 (assigned ir) (opOperands o) (opOperands o1).
Proof.
  intros Hprep Hid.
  destruct (prepareFunction_evolves _ _ _ Hprep) as (ir0' & Hops' & _ & Hev).
  destruct (prepareFunction_inv _ _ _ Hprep)
    as (f & front & terminator & t & ir0 & _ & _ & Hops & _ & _ & _ & Hir1).
  assert (Hid0 : ∃ o0, operations ir0 !! id = Some o0
                       ∧ opKind o0 = opKind o ∧ opOperands o0 = opOperands o).
  { rewrite Hops, setAttr_operations, Hid.
    destruct (decide (id = func)); eexists; (split; [reflexivity|]);
      split; reflexivity. }
  destruct Hid0 as (o0 & Hid0 & Hkind0 & Hoperands0).
  assert (Hsame : ∀ v v', assigned ir0 v v' → assigned ir v v').
  { intros v v' [->|(a & Ha & ->)]; [now left|]. right. exists a.
    split; [|reflexivity]. rewrite Hops, setAttr_operations in Ha.
    destruct (operations ir !! a); [|reflexivity]. case_decide; discriminate. }
  assert (Hstart : ∃ o1, operations ir0 !! id = Some o1
                         ∧ Forall2 (assigned ir0) (opOperands o) (opOperands o1)).
  { exists o0. split; [assumption|]. rewrite Hoperands0.
    generalize (opOperands o) as l.
    induction l; constructor; [now left|assumption]. }
  assert (Hend : ∃ o1, operations ir1 !! id = Some o1
                       ∧ Forall2 (assigned ir0) (opOperands o) (opOperands o1)).
  { rewrite Hir1. destruct (decide (opKind t = ReturnOp)); [|exact Hstart].
    apply insertAssignOps_assign; [apply evolves_refl|exact Hstart]. }
  destruct Hend as (o1 & Hid1 & HF). exists o1. split; [assumption|]. split.
  - assert (Hev01 : evolves ir0 ir1).
    { rewrite Hir1. destruct (decide (opKind t = ReturnOp)).
      - apply evolves_fold. intros. apply evolves_insertAssignOp.
      - apply evolves_emitError. }
    destruct (evolves_old _ _ Hev01 _ _ Hid0) as (o1' & Hid1' & Hk & _).
    congruence.
  - eapply Forall2_impl; [exact HF|exact Hsame].
Qed.

(** ** What the walk does to the uses of an array *)

Lemma created_evolves ir1 ir ir2 w :
  created ir1 ir w → evolves ir ir2 → created ir1 ir2 w.
Proof.
  intros [Hnone [o Ho]] Hev. split; [assumption|].
  destruct (evolves_old _ _ Hev _ _ Ho) as (o' & Ho' & _). eauto.
Qed.

Lemma wrapperPlaced_impl (P Q : OpId → Prop) blks val w :
  (∀ x, P x → Q x) → wrapperPlaced P blks val w → wrapperPlaced Q blks val w.
Proof.
  intros HPQ. destruct val as [owner index type|owner kind index type];
    cbn [wrapperPlaced].
  - intros Hplaced l Hl. destruct (Hplaced l Hl) as (before & after & -> & HF).
    exists before, after. split; [reflexivity|].
    eapply Forall_impl; eauto.
  - intros Hplaced b l Hl Hin.
    destruct (Hplaced b l Hl Hin) as (l1 & between & l2 & -> & HF).
    exists l1, between, l2. split; [reflexivity|].
    eapply Forall_impl; eauto.
Qed.

Lemma insertAfter_trail (P : OpId → Prop) anchor new w before after :
  P new → Forall P before →
  ∃ before' after',
    insertAfter anchor new (before ++ w :: after)
    = (before' ++ w :: after')%list ∧ Forall P before'.
Proof.
  intros Hnew. induction before as [|y before IH]; intros HF;
    cbn [app insertAfter].
  - exists [], (if decide (w = anchor) then new :: after
                else insertAfter anchor new after).
    split; [|constructor]. cbn. now destruct (decide (w = anchor)).
  - inversion HF as [|? ? Hy HF']; subst.
    destruct (decide (y = anchor)) as [->|Hne].
    + exists (anchor :: new :: before), after. split; [reflexivity|].
      repeat constructor; assumption.
    + destruct (IH HF') as (before' & after' & -> & HF'').
      exists (y :: before'), after'. split; [reflexivity|].
      constructor; assumption.
Qed.

Lemma insertAfter_between (P : OpId → Prop) anchor new owner w l1 between l2 :
  P new → Forall P between →
  ∃ l1' between' l2',
    insertAfter anchor new (l1 ++ owner :: between ++ w :: l2)
    = (l1' ++ owner :: between' ++ w :: l2')%list ∧ Forall P between'.
Proof.
  intros Hnew HF. induction l1 as [|y l1 IH]; cbn [app insertAfter].
  - destruct (decide (owner = anchor)) as [->|Hne].
    + exists [], (new :: between), l2. split; [reflexivity|].
      constructor; assumption.
    + destruct (insertAfter_trail P anchor new w between l2 Hnew HF)
        as (between' & l2' & -> & HF').
      exists [], between', l2'. split; [reflexivity|assumption].
  - destruct (decide (y = anchor)) as [->|Hne].
    + exists (anchor :: new :: l1), between, l2. split; [reflexivity|assumption].
    + destruct IH as (l1' & between' & l2' & -> & HF').
      exists (y :: l1'), between', l2'. split; [reflexivity|assumption].
Qed.

(** A wrapper stays after the definition of what it wraps when another
    operation is placed after the definition of a value. *)
Lemma wrapperPlaced_place (P : OpId → Prop) operand new blks val w :
  P new →
  match val with OpResult owner _ _ _ => owner ≠ new | _ => True end →
  wrapperPlaced P blks val w →
  wrapperPlaced P (place (insertionPointAfterValue operand) new blks) val w.
Proof.
  intros Hnew Hne Hplaced.
  destruct val as [owner index type|owner kind index type];
    cbn [wrapperPlaced] in *.
  - intros l'.
    destruct operand as [block ? ?|anchor ? ? ?];
      cbn [insertionPointAfterValue place].
    + rewrite lookup_alter. case_decide as Heq.
      * subst block. destruct (blks !! owner) as [l|] eqn:Hl; [|discriminate].
        cbn. intros [= <-].
        destruct (Hplaced l eq_refl) as (before & after & -> & HF).
        exists (new :: before), after. split; [reflexivity|]. now constructor.
      * apply Hplaced.
    + rewrite lookup_fmap.
      destruct (blks !! owner) as [l|] eqn:Hl; [|discriminate].
      cbn. intros [= <-].
      destruct (Hplaced l eq_refl) as (before & after & -> & HF).
      apply insertAfter_trail; assumption.
  - intros b l'.
    destruct operand as [block ? ?|anchor ? ? ?];
      cbn [insertionPointAfterValue place].
    + rewrite lookup_alter. case_decide as Heq.
      * subst block. destruct (blks !! b) as [l|] eqn:Hl; [|discriminate].
        cbn. intros [= <-] Hin.
        apply elem_of_cons in Hin as [?|Hin]; [contradiction|].
        destruct (Hplaced b l Hl Hin) as (l1 & between & l2 & -> & HF).
        exists (new :: l1), between, l2. split; [reflexivity|assumption].
      * apply Hplaced.
    + rewrite lookup_fmap. destruct (blks !! b) as [l|] eqn:Hl; [|discriminate].
      cbn. intros [= <-] Hin.
      apply insertAfter_elem in Hin as [Hin|?]; [|contradiction].
      destruct (Hplaced b l Hl Hin) as (l1 & between & l2 & -> & HF).
      apply insertAfter_between; assumption.
Qed.

(** A new wrapper stands immediately after the definition of what it
    wraps. *)
Lemma wrapperPlaced_new (P : OpId → Prop) operand new blks :
  match operand with OpResult owner _ _ _ => owner ≠ new | _ => True end →
  wrapperPlaced P (place (insertionPointAfterValue operand) new blks)
                operand new.
Proof.
  intros Hne. destruct operand as [owner index type|owner kind index type];
    cbn [wrapperPlaced insertionPointAfterValue place].
  - intros l'. rewrite lookup_alter, decide_True by reflexivity.
    destruct (blks !! owner) as [l|]; [|discriminate]. cbn. intros [= <-].
    exists [], l. split; [reflexivity|constructor].
  - intros b l'. rewrite lookup_fmap.
    destruct (blks !! b) as [l|]; [|discriminate]. cbn. intros [= <-] Hin.
    apply insertAfter_elem in Hin as [Hin|?]; [|contradiction].
    destruct (list_elem_of_split_l l owner Hin) as (l1 & l2 & -> & Hnotin).
    rewrite insertAfter_split by assumption.
    exists l1, [], l2. split; [reflexivity|constructor].
Qed.

(** What a wrapper takes is taken by no operation of another kind. *)
Lemma wraps_other ir w val op o :
  wraps ir w val → operations ir !! op = Some o → opKind o ≠ ArrayOp →
  val ∉ opOperands o.
Proof.
  intros ((ow & How & Hk & _) & _ & _ & Huniq) Hop Hkind Hin.
  assert (op = w) by eauto. subst. congruence.
Qed.

Lemma wraps_insertArrayOp loc operand ir w val :
  wraps ir w val → operand ≠ val →
  wraps (insertArrayOp loc operand ir) w val.
Proof.
  intros ((ow & How & Hk & Hops) & Hshaped & Hraw & Huniq) Hne.
  pose proof (freshOp_absent ir) as Hfresh.
  split; [|split; [assumption|split; [assumption|]]].
  - rewrite insertArrayOp_operations, decide_False by congruence.
    rewrite How. cbn. eexists. split; [reflexivity|]. cbn.
    split; [assumption|]. rewrite Hops. cbn. unfold replaceValue.
    now rewrite decide_False by congruence.
  - intros id o. rewrite insertArrayOp_operations. case_decide as Heq.
    + intros [= <-]. cbn. intros Hin%list_elem_of_singleton. congruence.
    + destruct (operations ir !! id) as [o1|] eqn:Ho1; [|discriminate].
      cbn. intros [= <-]. cbn. intros (u & Hu & Hin)%list_elem_of_fmap.
      unfold replaceValue in Hu. case_decide as Hu'.
      * rewrite Hu in Hraw. discriminate.
      * subst u. exact (Huniq id o1 Ho1 Hin).
Qed.

Lemma wraps_new loc operand ir :
  isShaped operand = true → definedByWrapper operand = false →
  wraps (insertArrayOp loc operand ir) (freshOp ir) operand.
Proof.
  intros Hshaped Hraw. split; [|split; [assumption|split; [assumption|]]].
  - rewrite insertArrayOp_operations, decide_True by reflexivity.
    eexists. split; [reflexivity|]. split; reflexivity.
  - intros id o. rewrite insertArrayOp_operations. case_decide as Heq; [auto|].
    destruct (operations ir !! id) as [o1|]; [|discriminate].
    cbn. intros [= <-]. cbn. intros (u & Hu & _)%list_elem_of_fmap.
    exfalso. symmetry in Hu. revert Hu. apply replaceValue_removes.
    intros Heq'. rewrite <- Heq' in Hraw. discriminate.
Qed.

(** [wraps] looks at the kinds and the operands of the operations only. *)
Lemma wraps_sameUses ir ir2 w val :
  (∀ id, (fun o => (opKind o, opOperands o)) <$> operations ir2 !! id
         = (fun o => (opKind o, opOperands o)) <$> operations ir !! id) →
  wraps ir w val → wraps ir2 w val.
Proof.
  intros Hsame ((ow & How & Hk & Hops) & Hshaped & Hraw & Huniq).
  split; [|split; [assumption|split; [assumption|]]].
  - pose proof (Hsame w) as Hw. rewrite How in Hw.
    destruct (operations ir2 !! w) as [o2|]; [|discriminate].
    cbn in Hw. injection Hw as Hk2 Hops2. exists o2.
    split; [reflexivity|]. split; congruence.
  - intros id o2 Ho2 Hin. pose proof (Hsame id) as Hid. rewrite Ho2 in Hid.
    destruct (operations ir !! id) as [o1|] eqn:Ho1; [|discriminate].
    cbn in Hid. injection Hid as Hk1 Hops1.
    apply (Huniq id o1 Ho1). now rewrite <- Hops1.
Qed.

Lemma redirectedTo_step ir1 ir ir2 val val' :
  evolves ir ir2 → (∀ w v, wraps ir w v → wraps ir2 w v) →
  redirectedTo ir1 ir val val' → redirectedTo ir1 ir2 val val'.
Proof.
  intros Hev Hw [->|(w & Hc & -> & Hwr)]; [now left|].
  right. exists w. eauto using created_evolves.
Qed.

Lemma tracks_refl ir : tracks ir ir.
Proof.
  split.
  - apply evolves_refl.
  - intros w [Hnone [o Ho]]. congruence.
  - intros id o Ho. exists o. split; [assumption|].
    generalize (opOperands o) as l.
    induction l; constructor; [now left|assumption].
Qed.

Lemma tracks_sameUses ir1 ir ir2 :
  blocks ir2 = blocks ir →
  (∀ id, (fun o => (opKind o, opOperands o)) <$> operations ir2 !! id
         = (fun o => (opKind o, opOperands o)) <$> operations ir !! id) →
  evolves ir ir2 → tracks ir1 ir → tracks ir1 ir2.
Proof.
  intros Hblocks Hsame Hev [Hev1 Hnew Hold]. split.
  - eapply evolves_trans; eassumption.
  - intros w [Hnone Hsome].
    assert (Hc : created ir1 ir w).
    { split; [assumption|]. pose proof (Hsame w) as Hw.
      destruct Hsome as [o2 Ho2]. rewrite Ho2 in Hw.
      destruct (operations ir !! w); [eauto|discriminate]. }
    destruct (Hnew w Hc) as (val & Hwraps & Hplaced). exists val.
    split; [eapply wraps_sameUses; eassumption|].
    intros Hstored. rewrite Hblocks.
    eapply wrapperPlaced_impl; [|apply Hplaced, Hstored].
    intros x Hx. eapply created_evolves; eassumption.
  - intros id o1 Ho1. destruct (Hold id o1 Ho1) as (o & Ho & HF).
    pose proof (Hsame id) as Hid. rewrite Ho in Hid.
    destruct (operations ir2 !! id) as [o2|]; [|discriminate].
    cbn in Hid. injection Hid as Hk Hops. exists o2. split; [reflexivity|].
    rewrite Hops. eapply Forall2_impl; [exact HF|].
    intros v v'. apply redirectedTo_step; [assumption|].
    intros; eapply wraps_sameUses; eassumption.
Qed.

Lemma tracks_emitError ir1 op message ir :
  tracks ir1 ir → tracks ir1 (emitError op message ir).
Proof.
  apply tracks_sameUses; [reflexivity|reflexivity|apply evolves_emitError].
Qed.

Lemma tracks_setAttrIfAbsent ir1 op name ir :
  tracks ir1 ir → tracks ir1 (setAttrIfAbsent op name (BoolAttr false) ir).
Proof.
  apply tracks_sameUses; [| |apply evolves_setAttrIfAbsent].
  - unfold setAttrIfAbsent. destruct (operations ir !! op) as [o|]; [|reflexivity].
    destruct (opAttrs o !! name); reflexivity.
  - intros id. unfold setAttrIfAbsent.
    destruct (operations ir !! op) as [o|] eqn:Hop; [|reflexivity].
    destruct (opAttrs o !! name); [reflexivity|]. cbn. rewrite lookup_alter.
    case_decide as Heq; [|reflexivity]. subst. rewrite Hop. reflexivity.
Qed.

(** The invariant of the walk is kept when an array that an operation other
    than an [ArrayOp] takes is wrapped. *)
Lemma tracks_insertArrayOp ir1 ir loc operand op o :
  tracks ir1 ir → operations ir !! op = Some o → opKind o ≠ ArrayOp →
  operand ∈ opOperands o →
  isShaped operand = true → definedByWrapper operand = false →
  tracks ir1 (insertArrayOp loc operand ir).
Proof.
  intros [Hev1 Hnew Hold] Hop Hkind Hin Hshaped Hraw.
  pose proof (freshOp_absent ir) as Hfresh.
  pose proof (evolves_insertArrayOp loc operand ir) as Hev2.
  pose proof (evolves_absent _ _ _ Hev1 Hfresh) as Hfresh1.
  assert (Hcreated : created ir1 (insertArrayOp loc operand ir) (freshOp ir)).
  { split; [assumption|].
    rewrite insertArrayOp_operations, decide_True by reflexivity. eauto. }
  assert (Hother : ∀ w val, wraps ir w val → operand ≠ val).
  { intros w val Hwraps ->.
    exact (wraps_other _ _ _ _ _ Hwraps Hop Hkind Hin). }
  assert (Hkept : ∀ w val, wraps ir w val →
                           wraps (insertArrayOp loc operand ir) w val).
  { intros w val Hwraps. apply wraps_insertArrayOp; eauto. }
  split.
  - eapply evolves_trans; eassumption.
  - intros w Hw. destruct (decide (w = freshOp ir)) as [->|Hne].
    + exists operand. split; [now apply wraps_new|].
      intros Hstored. rewrite insertArrayOp_blocks. apply wrapperPlaced_new.
      destruct operand as [|owner kind index type]; [trivial|].
      cbn in Hstored. intros ->. rewrite Hfresh1 in Hstored.
      destruct Hstored as [? [=]].
    + assert (Hc : created ir1 ir w).
      { destruct Hw as [Hnone [o2 Ho2]]. split; [assumption|].
        rewrite insertArrayOp_operations, decide_False in Ho2 by assumption.
        destruct (operations ir !! w); [eauto|discriminate]. }
      destruct (Hnew w Hc) as (val & Hwraps & Hplaced). exists val.
      split; [now apply Hkept|].
      intros Hstored. rewrite insertArrayOp_blocks.
      apply wrapperPlaced_place; [exact Hcreated| |].
      * destruct val as [|owner kind index type]; [trivial|].
        cbn in Hstored. intros ->. rewrite Hfresh1 in Hstored.
        destruct Hstored as [? [=]].
      * eapply wrapperPlaced_impl; [|apply Hplaced, Hstored].
        intros x Hx. eapply created_evolves; eassumption.
  - intros id o1 Ho1. destruct (Hold id o1 Ho1) as (oc & Hoc & HF).
    rewrite insertArrayOp_operations, decide_False by congruence.
    rewrite Hoc. cbn. eexists. split; [reflexivity|]. cbn.
    apply Forall2_fmap_r. eapply Forall2_impl; [exact HF|].
    intros v v' [->|(w & Hw & -> & Hwraps)]; cbn.
    + unfold replaceValue. case_decide as Heq; [|now left]. subst v.
      right. exists (freshOp ir). split; [exact Hcreated|].
      split; [reflexivity|now apply wraps_new].
    + right. exists w. split; [eapply created_evolves; eassumption|].
      split; [|now apply Hkept].
      unfold replaceValue. rewrite decide_False; [reflexivity|].
      intros Heq. rewrite <- Heq in Hraw. discriminate.
Qed.

Lemma tracks_wrapOperand ir1 op i ir :
  tracks ir1 ir → tracks ir1 (wrapOperand op i ir).
Proof.
  intros Htracks. unfold wrapOperand.
  destruct (operations ir !! op) as [o|] eqn:Hop; [|exact Htracks].
  destruct (opOperands o !! i) as [operand|] eqn:Hoperand; [|exact Htracks].
  destruct (isShaped operand) eqn:Hshaped; [|exact Htracks].
  assert (Hin : operand ∈ opOperands o)
    by (eapply list_elem_of_lookup_2; eassumption).
  assert (Hinsert : ∀ ir0, tracks ir1 ir0 → operations ir0 = operations ir →
            definedByWrapper operand = false → opKind o ≠ ArrayOp →
            tracks ir1 (insertArrayOp (opLoc o) operand ir0)).
  { intros ir0 H0 Hops Hraw Hkind.
    apply (tracks_insertArrayOp ir1 ir0 (opLoc o) operand op o); auto.
    now rewrite Hops. }
  destruct operand as [owner index type|owner kind index type].
  - destruct (decide (opKind o = ArrayOp)); [exact Htracks|].
    apply Hinsert; auto.
  - destruct (definedByWrapper (OpResult owner kind index type)) eqn:Hraw;
      cbn [negb].
    + destruct (decide (opKind o = ArrayOp)); exact Htracks.
    + destruct (negb (hasStaticShape (OpResult owner kind index type)));
        destruct (decide (opKind o = ArrayOp)).
      * now apply tracks_emitError.
      * apply Hinsert; auto. now apply tracks_emitError.
      * exact Htracks.
      * apply Hinsert; auto.
Qed.

Lemma tracks_fold {A} ir1 (f : IR → A → IR) (l : list A) ir :
  (∀ ir a, tracks ir1 ir → tracks ir1 (f ir a)) →
  tracks ir1 ir → tracks ir1 (fold_left f l ir).
Proof.
  intros Hstep. revert ir. induction l as [|a l IH]; intros ir Hir; cbn; auto.
Qed.

Lemma tracks_visit ir1 op ir : tracks ir1 ir → tracks ir1 (visit op ir).
Proof.
  intros Htracks. unfold visit.
  destruct (operations ir !! op) as [o|]; [|exact Htracks].
  assert (Hfold : tracks ir1 (fold_left (fun ir i => wrapOperand op i ir)
                                        (seq 0 (length (opOperands o))) ir)).
  { apply tracks_fold; [|exact Htracks]. intros. now apply tracks_wrapOperand. }
  destruct (decide (opKind o = AffineForOp)); [|exact Hfold].
  do 3 apply tracks_setAttrIfAbsent.
  destruct (decide (length (getBlocks o) ≠ 1));
    [now apply tracks_emitError|exact Hfold].
Qed.

Lemma tracks_visitAll ir1 order : tracks ir1 (visitAll order ir1).
Proof.
  apply tracks_fold; [|apply tracks_refl]. intros. now apply tracks_visit.
Qed.

(** C8: after the pass has run on a function, every operation nested in the
    function, other than an [ArrayOp], has each of its array-typed operands
    defined by an [ArrayOp] or an [AssignOp], and every operation that was
    nested in the function still is.  Take an operation that was nested in
    the function and is not an [ArrayOp], and an array-typed operand of it
    that no wrapper yields: after the pass that operand is the result of an
    [ArrayOp] created by the pass, which takes the original value, is the
    only operation left that takes it, and stands after the point where the
    value is defined (from the head of the block for a block argument, from
    the defining operation for a result) with only [ArrayOp]s created by
    the pass in between; or else, where "Insert AssignOp" has redirected
    the operand, it is the result of a new [AssignOp].  At the moment when
    the callback meets such an operand it creates the [ArrayOp], puts it
    immediately after the point where the operand is defined, and redirects
    to its result every use of the operand except the one by the new
    [ArrayOp].  Running the pass again on the result changes neither the
    operations nor the blocks. *)
Theorem array_operands_are_wrapped_once func ir ir' :
  runOnFunction func ir = Some ir' →
  (∀ id o', nestedIn ir' func id → operations ir' !! id = Some o' →
            operandsWrapped o')
  ∧ (∀ id, nestedIn ir func id → nestedIn ir' func id)
  ∧ (∀ id o j v,
       nestedIn ir func id → operations ir !! id = Some o →
       opKind o ≠ ArrayOp → opOperands o !! j = Some v →
       isShaped v = true → definedByWrapper v = false →
       ∃ o' v',
         operations ir' !! id = Some o' ∧ opOperands o' !! j = Some v'
         ∧ ((∃ w, v' = OpResult w ArrayOp 0 (getType v)
                  ∧ operations ir !! w = None
                  ∧ wraps ir' w v
                  ∧ (definitionStored ir v →
                     wrapperPlaced (createdArrayOp ir ir') (blocks ir') v w))
            ∨ (∃ a, v' = OpResult a AssignOp 0 (getType v)
                    ∧ operations ir !! a = None)))
  ∧ (∀ op i ir o operand,
       operations ir !! op = Some o → opOperands o !! i = Some operand →
       isShaped operand = true → definedByWrapper operand = false →
       opKind o ≠ ArrayOp →
       let new := freshOp ir in
       let result := OpResult new ArrayOp 0 (getType operand) in
       let ir2 := wrapOperand op i ir in
       operations ir !! new = None
       ∧ (∃ w, operations ir2 !! new = Some w
               ∧ opKind w = ArrayOp ∧ opOperands w = [operand])
       ∧ placedAfterDefinition operand new (blocks ir) (blocks ir2)
       ∧ (∀ id o1, id ≠ new → operations ir !! id = Some o1 →
            ∃ o2, operations ir2 !! id = Some o2
                  ∧ opOperands o2
                    = map (replaceValue operand result) (opOperands o1)
                  ∧ operand ∉ opOperands o2))
  ∧ (∃ ir'', runOnFunction func ir' = Some ir''
             ∧ operations ir'' = operations ir'
             ∧ blocks ir'' = blocks ir').
Proof.
  intros Hrun.
  destruct (runOnFunction_inv _ _ _ Hrun) as (ir1 & order & Hprep & Hwalk & ->).
  assert (Hnested1 : ∀ id, nestedIn ir func id → nestedIn ir1 func id).
  { intros id. apply nestedIn_mono.
    - intros op. exact (regionBlocks_prepareFunction _ _ _ op Hprep).
    - intros b y. exact (blockOps_prepareFunction _ _ _ b y Hprep). }
  assert (Hnested' : ∀ id, nestedIn ir1 func id →
                           nestedIn (visitAll order ir1) func id).
  { intros id. apply nestedIn_mono.
    - intros op. apply regionBlocks_evolves, evolves_visitAll.
    - intros b y. apply blockOps_visitAll. }
  split; [|split; [|split; [|split]]].
  - destruct (walk_after func ir1 order Hwalk) as (order' & Hwalk' & Hdone).
    intros id o' Hid Ho' Hkind.
    assert (Hin : id ∈ order')
      by (unfold walkFunction in Hwalk'; eapply walk_complete; eassumption).
    destruct (Hdone id o' Hin Ho') as [Harray|[Hwrapped _]]; [congruence|].
    now apply Hwrapped.
  - auto.
  - intros id o j v Hid Ho Hkind Hj Hshaped Hraw.
    destruct (tracks_visitAll ir1 order) as [Hev Hnew Hold].
    assert (Hin : id ∈ order).
    { unfold walkFunction in Hwalk. eapply walk_complete; [exact Hwalk|].
      apply Hnested1, Hid. }
    destruct (prepareFunction_assigns _ _ _ _ _ Hprep Ho)
      as (o1 & Ho1 & Hk1 & HF1).
    destruct (Forall2_lookup_l _ _ _ _ _ HF1 Hj) as (v1 & Hj1 & Hassigned).
    destruct (Hold id o1 Ho1) as (o' & Ho' & HF2).
    destruct (Forall2_lookup_l _ _ _ _ _ HF2 Hj1) as (v' & Hj' & Hred).
    destruct (visitAll_annotates order ir1 id o1 Hin Ho1)
      as (o'' & Ho'' & [Hwrapped _]).
    assert (o'' = o') by congruence. subst o''.
    destruct (evolves_lookup _ _ _ _ Hev Ho1) as (o3 & Ho3 & Hk3 & _).
    assert (o3 = o') by congruence. subst o3.
    assert (Hv' : wrappedOperand v').
    { assert (Hall : Forall wrappedOperand (opOperands o'))
        by (apply Hwrapped; congruence).
      rewrite Forall_lookup in Hall. exact (Hall j v' Hj'). }
    exists o', v'. split; [assumption|]. split; [assumption|].
    destruct Hassigned as [->|(a & Ha & ->)].
    + destruct Hred as [->|(w & Hc & -> & Hwraps)].
      * specialize (Hv' Hshaped). congruence.
      * left. exists w. split; [reflexivity|]. split.
        { eapply absent_before_prepareFunction; [exact Hprep|apply Hc]. }
        split; [assumption|]. intros Hstored.
        destruct (Hnew w Hc) as (val & Hwraps' & Hplaced).
        assert (val = v).
        { destruct Hwraps as ((ow & How & _ & Hops) & _).
          destruct Hwraps' as ((ow' & How' & _ & Hops') & _). congruence. }
        subst val.
        eapply wrapperPlaced_impl; [|apply Hplaced].
        -- intros x Hx. split.
           ++ eapply absent_before_prepareFunction; [exact Hprep|apply Hx].
           ++ destruct (Hnew x Hx) as (vx & ((ox & Hox & Hkx & _) & _) & _).
              eauto.
        -- destruct v as [|owner kind index type]; [exact I|].
           cbn [definitionStored] in *.
           destruct (operations ir1 !! owner) eqn:Howner; [eauto|].
           apply (absent_before_prepareFunction _ _ _ _ Hprep) in Howner.
           destruct Hstored as [? Hs]. congruence.
    + right. exists a. split; [|assumption].
      destruct Hred as [->|(w & _ & _ & (_ & _ & Hraw' & _))]; [reflexivity|].
      discriminate Hraw'.
  - clear. intros op i ir o operand Hop Hoperand Hshaped Hraw Hkind.
    cbv zeta.
    destruct (wrapOperand_inserts op i ir o operand Hop Hoperand Hshaped Hraw Hkind)
      as (ir2 & [Hops Hblocks] & ->).
    assert (Hfresh : freshOp ir2 = freshOp ir) by (unfold freshOp; now rewrite Hops).
    split; [apply freshOp_absent|]. split; [|split].
    + rewrite insertArrayOp_operations, Hfresh, decide_True by reflexivity.
      eexists. split; [reflexivity|]. split; reflexivity.
    + rewrite insertArrayOp_blocks, Hfresh, Hblocks.
      apply place_after_definition.
    + intros id o1 Hne Ho1.
      rewrite insertArrayOp_operations, Hfresh, decide_False by assumption.
      rewrite Hops, Ho1. eexists. split; [reflexivity|]. cbn.
      split; [reflexivity|]. rewrite list_elem_of_fmap.
      intros (v & Hv & _). symmetry in Hv. revert Hv.
      apply replaceValue_removes. intros Heq. rewrite <- Heq in Hraw.
      discriminate.
  - destruct (runOnFunction_again _ _ _ Hrun) as (ir'' & Hagain & Hops & Hblocks).
    eauto.
Qed.

Lemma array_operands_are_wrapped_once_witness :
  runOnFunction 0 sampleFunction = Some sampleConverted
  ∧ nestedIn sampleFunction 0 4
  ∧ operations sampleFunction !! 4
    = Some (sampleOp OtherOp [sampleArray; sampleInduction] ∅ [])
  ∧ opOperands <$> operations sampleConverted !! 4
    = Some [OpResult 9 ArrayOp 0 (ShapedType true); sampleInduction]
  ∧ opOperands <$> operations sampleConverted !! 9 = Some [sampleArray]
  ∧ opOperands <$> operations sampleConverted !! 5
    = Some [OpResult 10 ArrayOp 0 (ShapedType false);
            OpResult 9 ArrayOp 0 (ShapedType true)]
  ∧ opOperands <$> operations sampleConverted !! 10 = Some [sampleBuffer]
  ∧ blocks sampleConverted !! 0 = Some [9; 2; 10; 3; 7; 8; 6]
  ∧ (∃ o' v',
       operations sampleConverted !! 4 = Some o'
       ∧ opOperands o' !! 0 = Some v'
       ∧ ((∃ w, v' = OpResult w ArrayOp 0 (getType sampleArray)
                ∧ operations sampleFunction !! w = None
                ∧ wraps sampleConverted w sampleArray
                ∧ (definitionStored sampleFunction sampleArray →
                   wrapperPlaced (createdArrayOp sampleFunction sampleConverted)
                                 (blocks sampleConverted) sampleArray w))
          ∨ (∃ a, v' = OpResult a AssignOp 0 (getType sampleArray)
                  ∧ operations sampleFunction !! a = None)))
  ∧ (∀ id o', nestedIn sampleConverted 0 id →
              operations sampleConverted !! id = Some o' → operandsWrapped o')
  ∧ ∃ ir'', runOnFunction 0 sampleConverted = Some ir''
            ∧ operations ir'' = operations sampleConverted
            ∧ blocks ir'' = blocks sampleConverted.
Proof.
  assert (Hrun : runOnFunction 0 sampleFunction = Some sampleConverted)
    by (vm_compute; reflexivity).
  assert (Hnested : nestedIn sampleFunction 0 4).
  { apply (nested_step _ _ 3 1 4);
      [apply (nested_step _ _ 0 0 3); [constructor| |]| |].
    - replace (regionBlocks sampleFunction 0) with [0]
        by (vm_compute; reflexivity). left.
    - replace (blockOps sampleFunction 0) with [2; 3; 6]
        by (vm_compute; reflexivity). right. left.
    - replace (regionBlocks sampleFunction 3) with [1]
        by (vm_compute; reflexivity). left.
    - replace (blockOps sampleFunction 1) with [4; 5]
        by (vm_compute; reflexivity). left. }
  assert (Hop :
    operations sampleFunction !! 4
    = Some (sampleOp OtherOp [sampleArray; sampleInduction] ∅ []))
    by (vm_compute; reflexivity).
  destruct (array_operands_are_wrapped_once 0 sampleFunction sampleConverted
              Hrun) as (Hall & _ & Hwrapped & _ & Hagain).
  split; [exact Hrun|]. split; [exact Hnested|]. split; [exact Hop|].
  split; [vm_compute; reflexivity|]. split; [vm_compute; reflexivity|].
  split; [vm_compute; reflexivity|]. split; [vm_compute; reflexivity|].
  split; [vm_compute; reflexivity|].
  split; [|split; [exact Hall|exact Hagain]].
  apply (Hwrapped 4 _ 0 sampleArray Hnested Hop);
    [discriminate|reflexivity|reflexivity|reflexivity].
Defined.

(** ** Diagnostics *)

Lemma setAttrIfAbsent_diagnostics op name attr ir :
  diagnostics (setAttrIfAbsent op name attr ir) = diagnostics ir.
Proof. unfold setAttrIfAbsent. repeat case_match; reflexivity. Qed.

Lemma insertArrayOp_diagnostics loc operand ir :
  diagnostics (insertArrayOp loc operand ir) = diagnostics ir.
Proof.
  unfold insertArrayOp, create. cbv zeta beta iota.
  now rewrite !setAttrIfAbsent_diagnostics.
Qed.

Lemma insertAssignOp_diagnostics returnOp idx ir :
  diagnostics (insertAssignOp returnOp idx ir) = diagnostics ir.
Proof.
  unfold insertAssignOp, create. cbv zeta beta iota.
  repeat case_match; reflexivity.
Qed.

Lemma wrapOperand_diagnostics op i ir :
  ∃ more, diagnostics (wrapOperand op i ir) = (diagnostics ir ++ more)%list
          ∧ ∀ o operand, operations ir !! op = Some o →
                         opOperands o !! i = Some operand →
                         more = dynamicShapeErrors operand.
Proof.
  unfold wrapOperand.
  destruct (operations ir !! op) as [o|] eqn:Hop;
    [|exists []; split; [now rewrite app_nil_r|intros ? ? [=]]].
  destruct (opOperands o !! i) as [operand|] eqn:Hoperand;
    [|exists []; split;
      [now rewrite app_nil_r
      |intros o' operand' [= <-]; rewrite Hoperand; intros [=]]].
  exists (dynamicShapeErrors operand).
  split; [|intros o' operand' [= <-]; rewrite Hoperand; now intros [= <-]].
  unfold dynamicShapeErrors.
  destruct operand as [owner index type|owner kind index type];
    destruct (isShaped _); cbn [andb]; rewrite ?app_nil_r; try reflexivity.
  - destruct (decide (opKind o = ArrayOp));
      rewrite ?insertArrayOp_diagnostics; reflexivity.
  - destruct (definedByWrapper _); cbn [negb andb].
    + destruct (decide (opKind o = ArrayOp)); now rewrite app_nil_r.
    + destruct (hasStaticShape _); cbn [negb];
        destruct (decide (opKind o = ArrayOp));
        rewrite ?insertArrayOp_diagnostics, ?app_nil_r; reflexivity.
Qed.

Lemma fold_diagnostics {A} (f : IR → A → IR) (l : list A) :
  (∀ ir a, ∃ more, diagnostics (f ir a) = (diagnostics ir ++ more)%list) →
  ∀ ir, ∃ more, diagnostics (fold_left f l ir) = (diagnostics ir ++ more)%list.
Proof.
  intros Hstep. induction l as [|a l IH]; intros ir; cbn [fold_left].
  - exists []. now rewrite app_nil_r.
  - destruct (Hstep ir a) as (more1 & H1).
    destruct (IH (f ir a)) as (more2 & H2).
    exists (more1 ++ more2)%list. now rewrite H2, H1, app_assoc.
Qed.

Lemma visit_diagnostics op ir :
  ∃ more, diagnostics (visit op ir) = (diagnostics ir ++ more)%list.
Proof.
  unfold visit.
  destruct (operations ir !! op) as [o|];
    [|exists []; now rewrite app_nil_r].
  destruct (fold_diagnostics (fun ir i => wrapOperand op i ir)
              (seq 0 (length (opOperands o)))
              ltac:(intros cur i;
                    destruct (wrapOperand_diagnostics op i cur) as (m & Hm & _);
                    now exists m) ir) as (more & Hmore).
  destruct (decide (opKind o = AffineForOp)); [|now exists more].
  rewrite !setAttrIfAbsent_diagnostics.
  destruct (decide (length (getBlocks o) ≠ 1)); [|now exists more].
  eexists. cbn [emitError diagnostics]. rewrite Hmore, <- app_assoc.
  reflexivity.
Qed.

Lemma visitAll_diagnostics order ir :
  ∃ more, diagnostics (visitAll order ir) = (diagnostics ir ++ more)%list.
Proof. apply fold_diagnostics. intros. apply visit_diagnostics. Qed.

Lemma prepareFunction_diagnostics func ir ir1 :
  prepareFunction func ir = Some ir1 →
  ∃ f front terminator t,
    operations ir !! func = Some f
    ∧ head (getBlocks f) = Some front
    ∧ blocks ir !! front ≫= last = Some terminator
    ∧ operations ir !! terminator = Some t
    ∧ diagnostics ir1
      = (diagnostics ir
         ++ (if decide (length (getBlocks f) ≠ 1)
             then [(func, "has zero or more than one basic blocks.")]
             else [])
         ++ (if decide (opKind t = ReturnOp) then []
             else [(func, "doesn't have a return as terminator.")]))%list.
Proof.
  unfold prepareFunction. intros Hrun.
  destruct (operations ir !! func) as [f|] eqn:Hfunc; [|discriminate].
  rewrite option_bind_Some_l in Hrun. cbv zeta in Hrun.
  set (ira := if decide (length (getBlocks f) ≠ 1) then _ else ir) in *.
  set (ir0 := setAttr func "dataflow" (BoolAttr false) ira) in *.
  destruct (head (getBlocks f)) as [front|] eqn:Hfront; [|discriminate].
  rewrite option_bind_Some_l in Hrun.
  destruct (blocks ir0 !! front ≫= last) as [terminator|] eqn:Hterm;
    [|discriminate].
  rewrite option_bind_Some_l in Hrun.
  destruct (operations ir0 !! terminator) as [t0|] eqn:Ht; [|discriminate].
  rewrite option_bind_Some_l in Hrun. injection Hrun as <-.
  assert (Hira : operations ira = operations ir ∧ blocks ira = blocks ir
                 ∧ diagnostics ira
                   = (diagnostics ir
                      ++ (if decide (length (getBlocks f) ≠ 1)
                          then [(func,
                                 "has zero or more than one basic blocks.")]
                          else []))%list).
  { subst ira. destruct (decide (length (getBlocks f) ≠ 1));
      cbn; rewrite ?app_nil_r; auto. }
  destruct Hira as (Hops & Hblocks & Hdiag).
  assert (Hsame : ∃ t, operations ir !! terminator = Some t
                       ∧ opKind t = opKind t0).
  { subst ir0. rewrite setAttr_operations, Hops in Ht.
    destruct (decide (terminator = func)) as [->|_].
    - rewrite Hfunc in Ht |- *. injection Ht as <-. eauto.
    - eauto. }
  destruct Hsame as (t & Htir & Hkind).
  exists f, front, terminator, t.
  split; [reflexivity|]. split; [assumption|].
  split; [now rewrite <- Hblocks|]. split; [assumption|].
  rewrite Hkind. destruct (decide (opKind t0 = ReturnOp)).
  - assert (Hexact : ∀ l cur,
              diagnostics (fold_left
                             (fun ir idx => insertAssignOp terminator idx ir)
                             l cur) = diagnostics cur).
    { induction l as [|a l IH]; intros cur; [reflexivity|].
      cbn [fold_left]. now rewrite IH, insertAssignOp_diagnostics. }
    rewrite Hexact. subst ir0. cbn [setAttr updateOperation diagnostics].
    now rewrite Hdiag, app_nil_r.
  - cbn [emitError diagnostics]. subst ir0.
    cbn [setAttr updateOperation diagnostics]. now rewrite Hdiag, app_assoc.
Qed.

(** X21: what the callback reports for one operand does not depend on the
    operation that uses it: an array-typed result without static shape that
    no wrapper defines is reported at the operation defining it, even when
    the user is an [ArrayOp], in which case the operations and the blocks
    stay exactly as they were; a block argument is never reported, whatever
    its shape; nothing else is reported and nothing reported before is
    lost. *)
Theorem dynamic_shape_is_reported_at_definition op i ir o operand :
  operations ir !! op = Some o →
  opOperands o !! i = Some operand →
  diagnostics (wrapOperand op i ir)
  = (diagnostics ir ++ dynamicShapeErrors operand)%list
  ∧ (isBlockArgument operand = true →
     diagnostics (wrapOperand op i ir) = diagnostics ir)
  ∧ (opKind o = ArrayOp → sameCode (wrapOperand op i ir) ir).
Proof.
  intros Hop Hoperand.
  destruct (wrapOperand_diagnostics op i ir) as (more & Hmore & Hwhat).
  rewrite (Hwhat o operand Hop Hoperand) in Hmore.
  split; [exact Hmore|]. split.
  - intros Harg. rewrite Hmore. destruct operand; [|discriminate].
    cbn. now rewrite app_nil_r.
  - intros Hkind. apply wrapOperand_noop. intros o' Ho'.
    rewrite Hop in Ho'. injection Ho' as <-. now left.
Qed.

(** X22: an error of the function does not end the pass, and what was
    reported before stays in place, in order, with the new diagnostics
    after it.  When the pass has run on a function, a function whose number
    of blocks is not one has been reported as such, and so has a function
    whose first block does not end in a return. *)
Theorem function_errors_are_reported func ir ir' :
  runOnFunction func ir = Some ir' →
  (∃ more, diagnostics ir' = (diagnostics ir ++ more)%list)
  ∧ ∃ f front terminator t,
      operations ir !! func = Some f
      ∧ head (getBlocks f) = Some front
      ∧ blocks ir !! front ≫= last = Some terminator
      ∧ operations ir !! terminator = Some t
      ∧ (length (getBlocks f) ≠ 1 →
         (func, "has zero or more than one basic blocks.") ∈ diagnostics ir')
      ∧ (opKind t ≠ ReturnOp →
         (func, "doesn't have a return as terminator.") ∈ diagnostics ir').
Proof.
  intros Hrun.
  destruct (runOnFunction_inv _ _ _ Hrun) as (ir1 & order & Hprep & _ & ->).
  destruct (prepareFunction_diagnostics _ _ _ Hprep)
    as (f & front & terminator & t & Hf & Hfront & Hterm & Ht & Hdiag).
  destruct (visitAll_diagnostics order ir1) as (more & Hmore).
  split.
  - eexists. rewrite Hmore, Hdiag, <- !app_assoc. reflexivity.
  - exists f, front, terminator, t. repeat (split; [assumption|]).
    rewrite Hmore, Hdiag. split.
    + intros Hblocks. rewrite decide_True by assumption.
      rewrite !elem_of_app, elem_of_cons. auto.
    + intros Hkind. rewrite (decide_False (P := opKind t = ReturnOp))
        by assumption.
      rewrite !elem_of_app, elem_of_cons. auto.
Qed.

(** X23: after the pass has run on a function, what the terminator of its
    first block takes is what it took before or the result of a wrapper,
    position by position, and when that terminator is a return none of its
    operands is a block argument or the result of a constant any more. *)
Theorem returned_values_go_through_wrappers func ir ir' f front terminator t :
  runOnFunction func ir = Some ir' →
  operations ir !! func = Some f →
  head (getBlocks f) = Some front →
  blocks ir !! front ≫= last = Some terminator →
  operations ir !! terminator = Some t →
  ∃ t', operations ir' !! terminator = Some t'
        ∧ opKind t' = opKind t
        ∧ Forall2 redirected (opOperands t) (opOperands t')
        ∧ (opKind t = ReturnOp → Forall settled (opOperands t')).
Proof.
  intros Hrun Hf Hfront Hterm Ht.
  destruct (runOnFunction_inv _ _ _ Hrun) as (ir1 & order & Hprep & _ & ->).
  destruct (prepareFunction_inv _ _ _ Hprep)
    as (f1 & front1 & terminator1 & t0 & ir0
        & Hf1 & Hfront1 & Hops0 & Hblocks0 & Hterm1 & Ht0 & Hir1).
  rewrite Hf in Hf1. injection Hf1 as <-.
  rewrite Hfront in Hfront1. injection Hfront1 as <-.
  rewrite Hblocks0, Hterm in Hterm1. injection Hterm1 as <-.
  assert (Hsame : opKind t0 = opKind t ∧ opOperands t0 = opOperands t).
  { rewrite Hops0, setAttr_operations, Ht in Ht0.
    destruct (decide (terminator = func)); injection Ht0 as <-; auto. }
  destruct Hsame as [Hkind0 Hoperands0].
  assert (Hev1 : evolves ir0 ir1).
  { rewrite Hir1. destruct (decide (opKind t0 = ReturnOp)).
    - apply evolves_fold. intros. apply evolves_insertAssignOp.
    - apply evolves_emitError. }
  pose proof (evolves_visitAll order ir1) as Hev2.
  destruct (evolves_old _ _ (evolves_trans _ _ _ Hev1 Hev2) _ _ Ht0)
    as (t' & Ht' & Hkind' & _ & _ & Hred & _).
  exists t'. split; [assumption|]. split; [congruence|].
  split; [now rewrite <- Hoperands0|].
  intros Hreturn. rewrite <- Hkind0 in Hreturn.
  rewrite decide_True in Hir1 by assumption.
  destruct (insertAssignOps_settle terminator ir0 t0 0 (length (opOperands t0))
              Ht0 ltac:(intros; lia)) as (t1 & Ht1 & Hlen1 & Hsettled1).
  rewrite <- Hir1 in Ht1.
  destruct (evolves_lookup _ _ _ _ Hev2 Ht1)
    as (t2 & Ht2 & _ & _ & Hfrom & _).
  rewrite Ht' in Ht2. injection Ht2 as <-.
  apply Forall_lookup. intros j v' Hv'.
  destruct (Hfrom j v' Hv') as (v & Hv & Hredirected).
  apply (redirected_settled v v' Hredirected).
  apply (Hsettled1 j v); [|assumption].
  apply lookup_lt_Some in Hv. lia.
Qed.

(** ** The pass on a module *)

Lemma runOnFunction_keeps func ir ir' id o :
  runOnFunction func ir = Some ir' →
  operations ir !! id = Some o →
  ∃ o', operations ir' !! id = Some o'
        ∧ opKind o' = opKind o
        ∧ (id = func ∨ opAttrs o !! "dataflow" = Some (BoolAttr false) →
           opAttrs o' !! "dataflow" = Some (BoolAttr false)).
Proof.
  intros Hrun Ho.
  destruct (runOnFunction_inv _ _ _ Hrun) as (ir1 & order & Hprep & _ & ->).
  destruct (runOnFunction_evolves func ir ir1 order Hprep)
    as (ir0 & Hops0 & _ & _ & Hev).
  assert (Ho0 : ∃ o0, operations ir0 !! id = Some o0
                      ∧ opKind o0 = opKind o
                      ∧ (id = func
                         ∨ opAttrs o !! "dataflow" = Some (BoolAttr false) →
                         opAttrs o0 !! "dataflow" = Some (BoolAttr false))).
  { rewrite Hops0, setAttr_operations, Ho.
    destruct (decide (id = func)) as [->|Hne].
    - eexists. split; [reflexivity|]. split; [reflexivity|].
      intros _. cbn. apply lookup_insert_eq.
    - exists o. split; [reflexivity|]. split; [reflexivity|].
      intros [?|?]; [contradiction|assumption]. }
  destruct Ho0 as (o0 & Ho0 & Hkind0 & Hflag0).
  destruct (evolves_lookup _ _ _ _ Hev Ho0)
    as (o' & Ho' & Hkind' & _ & _ & Hattrs).
  exists o'. split; [assumption|]. split; [congruence|].
  intros Hcase. specialize (Hflag0 Hcase).
  rewrite Hattrs by (rewrite Hflag0; eauto). exact Hflag0.
Qed.

Lemma foldl_runOnFunction_None funcs :
  foldl (fun acc func => acc ≫= runOnFunction func) None funcs = None.
Proof. induction funcs as [|func funcs IH]; [reflexivity|exact IH]. Qed.

Lemma foldl_runOnFunction_keeps funcs :
  ∀ ir ir' id o,
    foldl (fun acc func => acc ≫= runOnFunction func) (Some ir) funcs
    = Some ir' →
    operations ir !! id = Some o →
    ∃ o', operations ir' !! id = Some o'
          ∧ opKind o' = opKind o
          ∧ (id ∈ funcs ∨ opAttrs o !! "dataflow" = Some (BoolAttr false) →
             opAttrs o' !! "dataflow" = Some (BoolAttr false)).
Proof.
  induction funcs as [|func funcs IH]; intros ir ir' id o Hrun Ho.
  - injection Hrun as <-. exists o. split; [assumption|].
    split; [reflexivity|]. intros [Hin|?]; [|assumption].
    now apply elem_of_nil in Hin.
  - cbn [foldl] in Hrun. rewrite option_bind_Some_l in Hrun.
    destruct (runOnFunction func ir) as [ir1|] eqn:Hfunc;
      [|now rewrite foldl_runOnFunction_None in Hrun].
    destruct (runOnFunction_keeps _ _ _ _ _ Hfunc Ho)
      as (o1 & Ho1 & Hkind1 & Hflag1).
    destruct (IH _ _ _ _ Hrun Ho1) as (o' & Ho' & Hkind' & Hflag').
    exists o'. split; [assumption|]. split; [congruence|].
    intros Hcase. apply Hflag'.
    rewrite elem_of_cons in Hcase.
    destruct Hcase as [[->|Hin]|Hset]; auto.
Qed.

(** X24: when the pass has run on a module, every function found in the
    body of the module is still a function and carries [dataflow = false],
    whatever it carried before and whatever the pass did to the functions
    after it. *)
Theorem every_function_ends_without_dataflow module ir ir' func :
  runOnOperation module ir = Some ir' →
  func ∈ getFuncOps module ir →
  ∃ f', operations ir' !! func = Some f'
        ∧ opKind f' = FuncOp
        ∧ opAttrs f' !! "dataflow" = Some (BoolAttr false).
Proof.
  unfold runOnOperation. intros Hrun Hin.
  assert (Hfunc : ∃ f, operations ir !! func = Some f ∧ opKind f = FuncOp).
  { unfold getFuncOps in Hin. apply list_elem_of_filter in Hin as [Hkind _].
    destruct (operations ir !! func) as [f|]; [|discriminate].
    injection Hkind as Hkind. eauto. }
  destruct Hfunc as (f & Hf & Hkind).
  destruct (foldl_runOnFunction_keeps _ _ _ _ _ Hrun Hf)
    as (f' & Hf' & Hkind' & Hflag).
  exists f'. split; [assumption|]. split; [congruence|]. auto.
Qed.

Lemma dynamic_shape_is_reported_at_definition_witness :
  diagnostics (wrapOperand 5 0 sampleFunction)
  = [(2, "is unranked or has dynamic shape which is illegal.")]
  ∧ diagnostics (wrapOperand 5 1 sampleFunction) = [].
Proof.
  split.
  - exact (proj1 (dynamic_shape_is_reported_at_definition
                    5 0 sampleFunction
                    (sampleOp OtherOp [sampleBuffer; sampleArray] ∅ [])
                    sampleBuffer eq_refl eq_refl)).
  - exact (proj1 (proj2 (dynamic_shape_is_reported_at_definition
                           5 1 sampleFunction
                           (sampleOp OtherOp [sampleBuffer; sampleArray] ∅ [])
                           sampleArray eq_refl eq_refl)) eq_refl).
Defined.

Lemma function_errors_are_reported_witness :
  let ir :=
    {| operations :=
         list_to_map
           [(0, sampleOp FuncOp [] ∅ [[0; 1]]);
            (1, sampleOp OtherOp [] ∅ []);
            (2, sampleOp ReturnOp [] ∅ [])];
       blocks := list_to_map [(0, [1]); (1, [2])];
       diagnostics := [(7, "earlier")] |} in
  ∃ ir' more,
    runOnFunction 0 ir = Some ir'
    ∧ diagnostics ir' = ((7, "earlier") :: more)
    ∧ (0, "has zero or more than one basic blocks.") ∈ diagnostics ir'
    ∧ (0, "doesn't have a return as terminator.") ∈ diagnostics ir'.
Proof.
  intros ir.
  destruct (runOnFunction 0 ir) as [ir'|] eqn:Hrun;
    [|vm_compute in Hrun; discriminate Hrun].
  destruct (function_errors_are_reported 0 ir ir' Hrun)
    as ((more & Hmore) & f & front & terminator & t
        & Hf & Hfront & Hterm & Ht & Hblocks & Hreturn).
  vm_compute in Hf. injection Hf as <-.
  vm_compute in Hfront. injection Hfront as <-.
  vm_compute in Hterm. injection Hterm as <-.
  vm_compute in Ht. injection Ht as <-.
  exists ir', more. split; [reflexivity|]. split; [exact Hmore|].
  split; [apply Hblocks|apply Hreturn]; vm_compute; discriminate.
Defined.

Lemma returned_values_go_through_wrappers_witness :
  ∃ t', operations sampleConverted !! 6 = Some t'
        ∧ opKind t' = ReturnOp
        ∧ Forall settled (opOperands t').
Proof.
  assert (Hrun : runOnFunction 0 sampleFunction = Some sampleConverted)
    by (vm_compute; reflexivity).
  destruct (returned_values_go_through_wrappers
              0 sampleFunction sampleConverted
              (sampleOp FuncOp [] {["dataflow" := BoolAttr true]} [[0]])
              0 6
              (sampleOp ReturnOp [sampleScalar; sampleArray] ∅ [])
              Hrun eq_refl eq_refl eq_refl eq_refl)
    as (t' & Ht' & Hkind & _ & Hsettled).
  exists t'. split; [exact Ht'|]. split; [exact Hkind|].
  exact (Hsettled eq_refl).
Defined.

Lemma every_function_ends_without_dataflow_witness :
  let ir :=
    {| operations := <[10 := sampleOp OtherOp [] ∅ [[5]]]>
                       (operations sampleFunction);
       blocks := <[5 := [0]]> (blocks sampleFunction);
       diagnostics := [] |} in
  ∃ ir' f', runOnOperation 10 ir = Some ir'
            ∧ operations ir' !! 0 = Some f'
            ∧ opAttrs f' !! "dataflow" = Some (BoolAttr false).
Proof.
  intros ir.
  destruct (runOnOperation 10 ir) as [ir'|] eqn:Hrun;
    [|vm_compute in Hrun; discriminate Hrun].
  assert (Hin : 0 ∈ getFuncOps 10 ir)
    by (change (getFuncOps 10 ir) with [0]; rewrite elem_of_cons; now left).
  destruct (every_function_ends_without_dataflow 10 ir ir' 0 Hrun Hin)
    as (f' & Hf' & _ & Hflag).
  exists ir', f'. split; [reflexivity|]. split; assumption.
Defined.

End AnnotatorProofs.
